(** * Haplotype inference core of gap5 (staden): interval index and
      haplotype strings.

    This development embeds [gap5/interval_tree.c] and the clustering code
    of [gap5/find_haplotypes.c] as Rocq functions and proves the properties
    that the design document states about them.

    Conventions.
    - A C [int] (and a [tg_rec]) is a [Z].  The subtractions of the two
      comparators, [interval_cmp] and [ivp_sort], are written with their
      two's complement wrap-around ([int_sub]).  Most theorems about the
      tree assume the coordinates lie in [coord_range], where the
      subtraction of [interval_cmp] is exact; what happens outside is shown
      by example.  The [double] arithmetic of [ivp_sort] is that of the
      binary64 floats.
    - Pointers are addresses ([nat]) handed out by a bump allocator; [malloc]
      never fails, so the [-1] returns for allocation failure do not occur.
    - The intrusive red-black links of [tree.h] (left, right, parent) become
      a functional tree and a path of frames back to the root. *)

From Stdlib Require Import ZArith Lia Ascii Floats FunctionalExtensionality.
From stdpp Require Import base list gmap sorting.

Local Open Scope Z_scope.

(** ** Machine integers *)

Definition INT_MIN : Z := -2147483648.
Definition INT_MAX : Z := 2147483647.

Definition wrap_int (z : Z) : Z := (z + 2147483648) mod 4294967296 - 2147483648.

(** [a - b] on [int]. *)
Definition int_sub (a b : Z) : Z := wrap_int (a - b).

(** Coordinates for which [interval_cmp] cannot overflow. *)
Definition coord_range (x : Z) : Prop := -1073741824 <= x < 1073741824.

(** ** interval_tree.h / interval_tree.c: data *)

(** [struct interval].  [iv_id] is the address of the struct, [iv_data] the
    payload pointer [data.p].  The [next] link is the position in the list
    held by the tree node; [u_next]/[u_prev] are the caller's lists. *)
Record interval := mk_interval {
  iv_id : nat;
  iv_start : Z;
  iv_end : Z;
  iv_data : nat
}.

(** [struct interval_node] without its [RB_ENTRY] link. *)
Record interval_node := mk_node {
  nd_id : nat;
  nd_start : Z;
  nd_end : Z;
  nd_last : Z;
  nd_intervals : list interval
}.

Definition set_last (n : interval_node) (v : Z) : interval_node :=
  mk_node (nd_id n) (nd_start n) (nd_end n) v (nd_intervals n).

Definition set_end (n : interval_node) (v : Z) : interval_node :=
  mk_node (nd_id n) (nd_start n) v (nd_last n) (nd_intervals n).

Definition set_intervals (n : interval_node) (l : list interval) : interval_node :=
  mk_node (nd_id n) (nd_start n) (nd_end n) (nd_last n) l.

(** The tree of [RB_HEAD(interval_t, interval_node)]. *)
Inductive rb_tree :=
| RB_NULL
| RB_NODE (l : rb_tree) (n : interval_node) (r : rb_tree).

(** One step of a parent chain: the node [p] and the subtree on the other
    side of the child we came from. *)
Inductive frame :=
| FrameL (p : interval_node) (r : rb_tree)
| FrameR (l : rb_tree) (p : interval_node).

Definition frame_node (f : frame) : interval_node :=
  match f with FrameL p _ => p | FrameR _ p => p end.

Definition frame_set_last (f : frame) (v : Z) : frame :=
  match f with
  | FrameL p r => FrameL (set_last p v) r
  | FrameR l p => FrameR l (set_last p v)
  end.

Definition fill (f : frame) (t : rb_tree) : rb_tree :=
  match f with
  | FrameL p r => RB_NODE t p r
  | FrameR l p => RB_NODE l p t
  end.

Fixpoint plug (t : rb_tree) (c : list frame) : rb_tree :=
  match c with
  | [] => t
  | f :: c' => plug (fill f t) c'
  end.

(** A node together with its chain of parents. *)
Definition cursor : Type := rb_tree * list frame.

Definition plug_cursor (z : cursor) : rb_tree := plug (fst z) (snd z).

(** Dereferencing a node pointer: the subtree rooted at the node whose
    address is [x], and its parents. *)
Fixpoint locate (x : nat) (t : rb_tree) (c : list frame) : option cursor :=
  match t with
  | RB_NULL => None
  | RB_NODE l n r =>
      if Nat.eqb (nd_id n) x then Some (t, c)
      else match locate x l (FrameL n r :: c) with
           | Some z => Some z
           | None => locate x r (FrameR l n :: c)
           end
  end.

Definition RB_PARENT (z : cursor) : option interval_node :=
  match snd z with
  | [] => None
  | f :: _ => Some (frame_node f)
  end.

(** In-order traversal. *)
Fixpoint nodes (t : rb_tree) : list interval_node :=
  match t with
  | RB_NULL => []
  | RB_NODE l n r => nodes l ++ n :: nodes r
  end.

Definition tree_intervals (t : rb_tree) : list interval :=
  concat (map nd_intervals (nodes t)).

Fixpoint tree_size (t : rb_tree) : nat :=
  match t with
  | RB_NULL => O
  | RB_NODE l _ r => S (tree_size l + tree_size r)
  end.

(** ** interval_augment *)

(** [if ((nc = child) && last < nc->last) last = nc->last]. *)
Definition bump (last : Z) (nc : rb_tree) : Z :=
  match nc with
  | RB_NULL => last
  | RB_NODE _ c _ => if last <? nd_last c then nd_last c else last
  end.

(** The loop [while (n && n->last < last) { n->last = last; n = parent }]
    once it has left the node it started from. *)
Fixpoint raise (last : Z) (c : list frame) : list frame :=
  match c with
  | [] => []
  | f :: c' =>
      if nd_last (frame_node f) <? last
      then frame_set_last f last :: raise last c'
      else c
  end.

Definition interval_augment (z : cursor) : cursor :=
  match z with
  | (RB_NULL, _) => z
  | (RB_NODE l n r, c) =>
      let last := bump (bump (nd_end n) l) r in
      if nd_end n <? last
      then (RB_NODE l (set_last n last) r, raise last c)
      else (RB_NODE l (set_last n (nd_end n)) r, c)
  end.

Definition interval_cmp (n1 n2 : interval_node) : Z :=
  if nd_start n1 =? nd_start n2
  then int_sub (nd_end n1) (nd_end n2)
  else int_sub (nd_start n1) (nd_start n2).

(** ** tree.h *)

(** [tree.h] is not among the sources.  What follows is the BSD red-black
    tree it generates, with [RB_AUGMENT] called where the macros call it.
    The colour of a node only decides which rotations the two fix-up
    routines perform, so colours are left out and the rotation schedule is a
    parameter: every result below holds for all schedules. *)

Inductive rotation :=
| ROTATE_LEFT (elm : nat)
| ROTATE_RIGHT (elm : nat).

(** [if (parent) RB_AUGMENT(parent)] seen from a child. *)
Definition augment_parent (z : cursor) : cursor :=
  match z with
  | (_, []) => z
  | (t, f :: c) => interval_augment (fill f t, c)
  end.

(** [RB_ROTATE_LEFT(head, elm, tmp)]: [RB_AUGMENT(elm)] once [elm] has taken
    over [tmp]'s left subtree, [RB_AUGMENT(tmp)] once [tmp] is above [elm],
    then [RB_AUGMENT] of [tmp]'s parent. *)
Definition RB_ROTATE_LEFT (z : cursor) : cursor :=
  match z with
  | (RB_NODE a elm (RB_NODE b tmp c), up) =>
      let z1 := interval_augment (RB_NODE a elm b, up) in
      let z2 := interval_augment (RB_NODE (fst z1) tmp c, snd z1) in
      augment_parent z2
  | _ => z
  end.

Definition RB_ROTATE_RIGHT (z : cursor) : cursor :=
  match z with
  | (RB_NODE (RB_NODE a tmp b) elm c, up) =>
      let z1 := interval_augment (RB_NODE b elm c, up) in
      let z2 := interval_augment (RB_NODE a tmp (fst z1), snd z1) in
      augment_parent z2
  | _ => z
  end.

Definition at_node (x : nat) (f : cursor -> cursor) (t : rb_tree) : rb_tree :=
  match locate x t [] with
  | Some z => plug_cursor (f z)
  | None => t
  end.

Definition rotate (t : rb_tree) (r : rotation) : rb_tree :=
  match r with
  | ROTATE_LEFT x => at_node x RB_ROTATE_LEFT t
  | ROTATE_RIGHT x => at_node x RB_ROTATE_RIGHT t
  end.

(** The rotations chosen by [RB_INSERT_COLOR(head, elm)] and by
    [RB_REMOVE_COLOR(head, parent, elm)]. *)
Class rb_colour := {
  RB_INSERT_COLOR : rb_tree -> nat -> list rotation;
  RB_REMOVE_COLOR : rb_tree -> option nat -> rb_tree -> list rotation
}.

Definition rebalance (plan : list rotation) (t : rb_tree) : rb_tree :=
  fold_left rotate plan t.

(** [RB_NFIND]: the first node greater than or equal to the key. *)
Fixpoint RB_NFIND_from (tmp : rb_tree) (elm : interval_node)
    (res : option interval_node) : option interval_node :=
  match tmp with
  | RB_NULL => res
  | RB_NODE l n r =>
      let comp := interval_cmp elm n in
      if comp <? 0 then RB_NFIND_from l elm (Some n)
      else if 0 <? comp then RB_NFIND_from r elm res
      else Some n
  end.

Definition RB_NFIND (t : rb_tree) (elm : interval_node) : option interval_node :=
  RB_NFIND_from t elm None.

Fixpoint rightmost (t : rb_tree) : option interval_node :=
  match t with
  | RB_NULL => None
  | RB_NODE _ n RB_NULL => Some n
  | RB_NODE _ _ r => rightmost r
  end.

(** The first ancestor reached from its right subtree. *)
Fixpoint climb_from_left (c : list frame) : option interval_node :=
  match c with
  | [] => None
  | FrameR _ p :: _ => Some p
  | FrameL _ _ :: c' => climb_from_left c'
  end.

Definition RB_PREV (t : rb_tree) (elm : nat) : option interval_node :=
  match locate elm t [] with
  | Some (RB_NODE RB_NULL _ _, c) => climb_from_left c
  | Some (RB_NODE l _ _, _) => rightmost l
  | _ => None
  end.

(** The descent of [RB_INSERT]: the parent chain of the free slot, or the
    node that compares equal. *)
Fixpoint RB_INSERT_slot (tmp : rb_tree) (elm : interval_node) (c : list frame)
    : list frame + interval_node :=
  match tmp with
  | RB_NULL => inl c
  | RB_NODE l n r =>
      let comp := interval_cmp elm n in
      if comp <? 0 then RB_INSERT_slot l elm (FrameL n r :: c)
      else if 0 <? comp then RB_INSERT_slot r elm (FrameR l n :: c)
      else inr n
  end.

Definition RB_INSERT `{!rb_colour} (t : rb_tree) (elm : interval_node)
    : rb_tree * option interval_node :=
  match RB_INSERT_slot t elm [] with
  | inr n => (t, Some n)
  | inl c =>
      let t1 := plug_cursor (augment_parent (RB_NODE RB_NULL elm RB_NULL, c)) in
      (rebalance (RB_INSERT_COLOR t1 (nd_id elm)) t1, None)
  end.

(** The successor used by [RB_REMOVE]: leftmost node below [t], its right
    child and its parent chain. *)
Fixpoint leftmost (t : rb_tree) (c : list frame)
    : option (interval_node * rb_tree * list frame) :=
  match t with
  | RB_NULL => None
  | RB_NODE RB_NULL n r => Some (n, r, c)
  | RB_NODE l n r => leftmost l (FrameL n r :: c)
  end.

(** [do { RB_AUGMENT(left); } while ((left = RB_PARENT(left)) != NULL)]. *)
Fixpoint augment_to_root (fuel : nat) (z : cursor) : cursor :=
  match fuel with
  | O => z
  | S fuel' =>
      match interval_augment z with
      | (t, f :: c) => augment_to_root fuel' (fill f t, c)
      | z' => z'
      end
  end.

Definition augment_walk (z : cursor) : cursor :=
  augment_to_root (S (length (snd z))) z.

Definition replace_node (elm : interval_node) (z : cursor) : cursor :=
  match z with
  | (RB_NODE l _ r, c) => (RB_NODE l elm r, c)
  | _ => z
  end.

(** [RB_REMOVE(head, old)]. *)
Definition RB_REMOVE `{!rb_colour} (t : rb_tree) (old : nat) : rb_tree :=
  match locate old t [] with
  | Some (RB_NODE l o r, c) =>
      match l, r with
      | RB_NODE _ _ _, RB_NODE _ _ _ =>
          match leftmost r (FrameR l o :: c) with
          | Some (elm, child, cs) =>
              let parent := match cs with f :: _ => nd_id (frame_node f) | [] => old end in
              let t1 := plug_cursor (augment_parent (child, cs)) in
              let parent := if Nat.eqb parent old then nd_id elm else parent in
              let t2 := at_node old (fun z => augment_parent (replace_node elm z)) t1 in
              let t3 := at_node parent augment_walk t2 in
              rebalance (RB_REMOVE_COLOR t3 (Some parent) child) t3
          | None => t
          end
      | _, _ =>
          let child := match l with RB_NULL => r | _ => l end in
          let t1 := plug_cursor (augment_parent (child, c)) in
          rebalance (RB_REMOVE_COLOR t1 (option_map nd_id (RB_PARENT (l, c))) child) t1
      end
  | _ => t
  end.

(** ** interval_tree.c: operations *)

(** [struct interval_tree], together with the allocator's next free
    address. *)
Record interval_tree := mk_tree {
  it_root : rb_tree;
  it_brk : nat
}.

Definition interval_tree_create : interval_tree := mk_tree RB_NULL 1%nat.

(** The loop [while (i_node && i_node->last < end)] of [interval_tree_add]. *)
Definition raise_from (last : Z) (z : cursor) : cursor :=
  match z with
  | (RB_NODE l n r, c) =>
      if nd_last n <? last
      then (RB_NODE l (set_last n last) r, raise last c)
      else z
  | _ => z
  end.

(** The second branch of [interval_tree_add]: pack [node] into [i_node]. *)
Definition add_to_node (node : interval) (z : cursor) : cursor :=
  match z with
  | (RB_NODE l n r, c) =>
      let n1 := set_intervals n (node :: nd_intervals n) in
      let n2 := if nd_end n1 <? iv_end node then set_end n1 (iv_end node) else n1 in
      raise_from (iv_end node) (RB_NODE l n2 r, c)
  | _ => z
  end.

Definition interval_tree_add `{!rb_colour} (it : interval_tree)
    (start end_ : Z) (data : nat) : interval_tree * Z :=
  let node := mk_interval (it_brk it) start end_ data in
  let n := mk_node O start end_ end_ [] in
  let i_node := RB_NFIND (it_root it) n in
  let i_node :=
    match i_node with
    | Some m => if start <? nd_start m then RB_PREV (it_root it) (nd_id m) else Some m
    | None => None
    end in
  match i_node with
  | Some m =>
      if nd_start m =? start
      then (mk_tree (at_node (nd_id m) (add_to_node node) (it_root it))
                    (S (it_brk it)), 0)
      else
        let i_node := mk_node (S (it_brk it)) start end_ end_ [node] in
        (mk_tree (fst (RB_INSERT (it_root it) i_node)) (S (S (it_brk it))), 0)
  | None =>
      let i_node := mk_node (S (it_brk it)) start end_ end_ [node] in
      (mk_tree (fst (RB_INSERT (it_root it) i_node)) (S (S (it_brk it))), 0)
  end.

(** The largest [end] of a list of intervals, from [INT_MIN]. *)
Definition max_end (l : list interval) : Z :=
  fold_left (fun last i => if last <? iv_end i then iv_end i else last) l INT_MIN.

(** The upward loop of [interval_recompute_last_del]. *)
Fixpoint recompute_up (t : rb_tree) (c : list frame) : rb_tree :=
  match c with
  | [] => t
  | FrameL p r :: c' =>
      recompute_up (RB_NODE t (set_last p (bump (bump (nd_end p) t) r)) r) c'
  | FrameR l p :: c' =>
      recompute_up (RB_NODE l (set_last p (bump (bump (nd_end p) l) t)) t) c'
  end.

Definition interval_recompute_last_del (t : rb_tree) (n : nat) (end_ : Z) : rb_tree :=
  match locate n t [] with
  | Some (RB_NODE l m r, c) =>
      let m1 := if nd_end m =? end_ then set_end m (max_end (nd_intervals m)) else m in
      let last := bump (bump (nd_end m1) l) r in
      recompute_up (RB_NODE l (set_last m1 last) r) c
  | _ => t
  end.

(** Unlinking [node] from the singly linked list of its tree node; [None]
    when the list does not hold it. *)
Fixpoint unlink_interval (node : nat) (l : list interval) : option (list interval) :=
  match l with
  | [] => None
  | n :: rest =>
      if Nat.eqb (iv_id n) node then Some rest
      else option_map (cons n) (unlink_interval node rest)
  end.

Definition interval_tree_del `{!rb_colour} (it : interval_tree) (node : interval)
    : interval_tree * Z :=
  let in_ := mk_node O (iv_start node) (iv_end node) (iv_end node) [] in
  match RB_NFIND (it_root it) in_ with
  | None => (it, -1)
  | Some i_node =>
      match unlink_interval (iv_id node) (nd_intervals i_node) with
      | None => (it, -1)
      | Some [] =>
          let parent :=
            match locate (nd_id i_node) (it_root it) [] with
            | Some z => RB_PARENT z
            | None => None
            end in
          let t1 := RB_REMOVE (it_root it) (nd_id i_node) in
          let t2 := match parent with
                    | Some p => interval_recompute_last_del t1 (nd_id p) (iv_end node)
                    | None => t1
                    end in
          (mk_tree t2 (it_brk it), 0)
      | Some rest =>
          let t1 := at_node (nd_id i_node)
                      (fun z => match z with
                                | (RB_NODE l m r, c) => (RB_NODE l (set_intervals m rest) r, c)
                                | _ => z
                                end) (it_root it) in
          (mk_tree (interval_recompute_last_del t1 (nd_id i_node) (iv_end node))
                   (it_brk it), 0)
      end
  end.

Definition overlaps (start end_ : Z) (i : interval) : bool :=
  (iv_start i <=? end_) && (start <=? iv_end i).

(** [interval_recurse] with [func == NULL]: the number of overlapping
    intervals ([-1] on an empty tree). *)
Fixpoint interval_recurse (i_node : rb_tree) (start end_ : Z) : Z :=
  match i_node with
  | RB_NULL => -1
  | RB_NODE l n r =>
      let count := 0 in
      let count :=
        match l with
        | RB_NODE _ ln _ =>
            if start <=? nd_last ln then
              let tmp := interval_recurse l start end_ in
              if tmp <? 0 then None else Some (count + tmp)
            else Some count
        | RB_NULL => Some count
        end in
      match count with
      | None => -1
      | Some count =>
          let count :=
            if (nd_start n <=? end_) && (start <=? nd_end n)
            then count + Z.of_nat (length (List.filter (overlaps start end_) (nd_intervals n)))
            else count in
          match r with
          | RB_NODE _ _ _ =>
              if nd_start n <=? end_ then
                let tmp := interval_recurse r start end_ in
                if tmp <? 0 then -1 else count + tmp
              else count
          | RB_NULL => count
          end
      end
  end.

Definition interval_range_query (it : interval_tree) (start end_ : Z) : Z :=
  interval_recurse (it_root it) start end_.

Definition min_start (l : list interval) : Z :=
  fold_left (fun s i => if iv_start i <? s then iv_start i else s) l INT_MAX.

(** [interval_tree_check_]: the error flag and the value stored through
    [end_p]. *)
Fixpoint interval_tree_check_ (n : rb_tree) : Z * Z :=
  match n with
  | RB_NULL => (0, INT_MIN)
  | RB_NODE l m r =>
      let start := min_start (nd_intervals m) in
      let end_ := max_end (nd_intervals m) in
      let err := if negb (start =? nd_start m) || negb (end_ =? nd_end m)
                 then 1 else 0 in
      let '(err, end_l) :=
        match l with
        | RB_NODE _ _ _ => let '(e, v) := interval_tree_check_ l in (Z.lor err e, v)
        | RB_NULL => (err, INT_MIN)
        end in
      let end_ := if end_ <? end_l then end_l else end_ in
      let '(err, end_r) :=
        match r with
        | RB_NODE _ _ _ => let '(e, v) := interval_tree_check_ r in (Z.lor err e, v)
        | RB_NULL => (err, INT_MIN)
        end in
      let end_ := if end_ <? end_r then end_r else end_ in
      let err := if negb (end_ =? nd_last m) then Z.lor err 1 else err in
      (err, end_)
  end.

Definition interval_tree_check (it : interval_tree) : Z :=
  fst (interval_tree_check_ (it_root it)).

(** ** The range iterator *)

(** [struct interval_iter]; [iter_node] with [iter_up] is the node pointer
    ([RB_NULL] for [NULL]), [iter_iv] the rest of the current node's list. *)
Record interval_iter := mk_iter {
  iter_node : rb_tree;
  iter_up : list frame;
  iter_iv : list interval;
  iter_start : Z;
  iter_end : Z;
  iter_done_lr : bool
}.

Definition interval_range_iter (it : interval_tree) (start end_ : Z) : interval_iter :=
  mk_iter (it_root it) []
          (match it_root it with RB_NODE _ n _ => nd_intervals n | RB_NULL => [] end)
          start end_ false.

(** The list an iterator takes up when it moves to node [n]. *)
Definition node_list (start end_ : Z) (n : interval_node) : list interval :=
  if (nd_start n <=? end_) && (start <=? nd_end n) then nd_intervals n else [].

(** The scan of the current list: the first overlapping interval and what
    follows it. *)
Fixpoint scan (start end_ : Z) (iv : list interval) : option (interval * list interval) :=
  match iv with
  | [] => None
  | i :: rest => if overlaps start end_ i then Some (i, rest) else scan start end_ rest
  end.

(** [do { n = node; node = parent } while (node && RB_RIGHT(node) == n)]. *)
Fixpoint ascend (t : rb_tree) (c : list frame) : cursor :=
  match c with
  | [] => (RB_NULL, [])
  | FrameL p r :: c' => (RB_NODE t p r, c')
  | FrameR l p :: c' => ascend (RB_NODE l p t) c'
  end.

(** [interval_iter_next].  [in_loop] is set when control is inside the
    [while (iter->node)] loop; one unit of [fuel] pays for one recursive call
    or one turn of that loop.  [None] means the fuel ran out. *)
Fixpoint iter_run (fuel : nat) (in_loop : bool) (iter : interval_iter)
    : option (option interval * interval_iter) :=
  match fuel with
  | O => None
  | S fuel' =>
      let start := iter_start iter in
      let end_ := iter_end iter in
      match iter_node iter with
      | RB_NULL => Some (None, iter)
      | RB_NODE l n r =>
          if in_loop then
            match scan start end_ (iter_iv iter) with
            | Some (i, rest) =>
                Some (Some i, mk_iter (iter_node iter) (iter_up iter) rest start end_
                                       (iter_done_lr iter))
            | None =>
                match r with
                | RB_NODE _ rn _ =>
                    if nd_start n <=? end_ then
                      iter_run fuel' false
                        (mk_iter r (FrameR l n :: iter_up iter)
                                 (node_list start end_ rn) start end_ false)
                    else
                      let '(t', c') := ascend (iter_node iter) (iter_up iter) in
                      iter_run fuel' true
                        (mk_iter t' c'
                           (match t' with
                            | RB_NODE _ p _ => node_list start end_ p
                            | RB_NULL => iter_iv iter
                            end) start end_ true)
                | RB_NULL =>
                    let '(t', c') := ascend (iter_node iter) (iter_up iter) in
                    iter_run fuel' true
                      (mk_iter t' c'
                         (match t' with
                          | RB_NODE _ p _ => node_list start end_ p
                          | RB_NULL => iter_iv iter
                          end) start end_ true)
                end
            end
          else
            match (if iter_done_lr iter then RB_NULL else l) with
            | RB_NODE _ ln _ =>
                if start <=? nd_last ln then
                  iter_run fuel' false
                    (mk_iter l (FrameL n r :: iter_up iter)
                             (node_list start end_ ln) start end_ false)
                else
                  iter_run fuel' true
                    (mk_iter (iter_node iter) (iter_up iter) (iter_iv iter) start end_ true)
            | RB_NULL =>
                iter_run fuel' true
                  (mk_iter (iter_node iter) (iter_up iter) (iter_iv iter) start end_ true)
            end
      end
  end.

Definition interval_iter_next (fuel : nat) (iter : interval_iter)
    : option (option interval * interval_iter) :=
  iter_run fuel false iter.

(** [for (iv = interval_iter_next(iter); iv; iv = interval_iter_next(iter))]:
    the intervals handed out until the iterator returns [NULL]. *)
Fixpoint iter_drain (fuel : nat) (iter : interval_iter) : option (list interval) :=
  match fuel with
  | O => None
  | S fuel' =>
      match interval_iter_next fuel iter with
      | None => None
      | Some (None, _) => Some []
      | Some (Some i, iter') => option_map (cons i) (iter_drain fuel' iter')
      end
  end.

(** Enough fuel for any walk over [t] (see [iter_drain_fuel]). *)
Definition iter_fuel (t : rb_tree) (n : nat) : nat :=
  (2 * tree_size t + n + 4)%nat.

(** Everything a fresh iterator over [start..end_] hands out. *)
Definition interval_iter_all (it : interval_tree) (start end_ : Z) : list interval :=
  default [] (iter_drain (iter_fuel (it_root it) (length (tree_intervals (it_root it))))
                         (interval_range_iter it start end_)).

(** ** Clients of the tree *)

(** A run of [interval_tree_add] calls, one per [(start, end, data)]. *)
Definition add_seq `{!rb_colour} (it : interval_tree) (l : list (Z * Z * nat))
    : interval_tree :=
  fold_left (fun it '(s, e, d) => fst (interval_tree_add it s e d)) l it.

(** What a caller sees of an interval. *)
Definition iv_fields (i : interval) : Z * Z * nat := (iv_start i, iv_end i, iv_data i).


(** A call of [interval_tree_add] or [interval_tree_del]. *)
Inductive tree_op :=
  | OP_ADD (start end_ : Z) (data : nat)
  | OP_DEL (node : interval).

Definition apply_op `{!rb_colour} (it : interval_tree) (op : tree_op) : interval_tree :=
  match op with
  | OP_ADD s e d => fst (interval_tree_add it s e d)
  | OP_DEL node => fst (interval_tree_del it node)
  end.

Definition run_ops `{!rb_colour} (it : interval_tree) (ops : list tree_op) : interval_tree :=
  fold_left apply_op ops it.





(** What [interval_tree_check_] tests, node by node: [start] and [end] are
    the smallest start and the largest end of the node's intervals, and
    [last] is the largest of [end] and the [last] of the children. *)
Fixpoint consistent (t : rb_tree) : bool :=
  match t with
  | RB_NULL => true
  | RB_NODE l n r =>
      consistent l && consistent r &&
      (min_start (nd_intervals n) =? nd_start n) &&
      (max_end (nd_intervals n) =? nd_end n) &&
      (nd_last n =? bump (bump (nd_end n) l) r)
  end.

(** [interval_tree_destroy] visits every interval of every node in order and
    hands its payload to [free_func]; the order of the visits is all the
    callers below depend on. *)
Definition interval_tree_destroy {H : Type} (it : interval_tree)
    (free_func : nat -> H -> H) (h : H) : H :=
  fold_left (fun h i => free_func (iv_data i) h) (tree_intervals (it_root it)) h.

(** ** find_haplotypes.c: haplotype strings *)

(** [struct haplotype_str].  [hs_snps] is the [snps] buffer ([None] for
    [NULL]), [hs_recs] the handle of the [recs] array. *)
Record haplotype_str := mk_hs {
  hs_snps : option (list ascii);
  hs_count : list Z;
  hs_nseq : Z;
  hs_start : Z;
  hs_end : Z;
  hs_recs : option nat
}.

(** The heap behind the payload pointers: haplotype strings and [Array]
    objects by address.  [hp_fault] is raised by a [free] or [ArrayDestroy]
    of an address that is not allocated, and is never cleared. *)
Record hap_heap := mk_heap {
  hp_str : gmap nat haplotype_str;
  hp_arr : gmap nat (list Z);
  hp_fault : bool
}.

Definition empty_heap : hap_heap := mk_heap ∅ ∅ false.

Definition set_str (h : hap_heap) (p : nat) (s : haplotype_str) : hap_heap :=
  mk_heap (<[p := s]> (hp_str h)) (hp_arr h) (hp_fault h).

Definition ArrayPush (h : hap_heap) (a : option nat) (v : Z) : hap_heap :=
  match a with
  | Some a => mk_heap (hp_str h) (alter (fun l => l ++ [v]) a (hp_arr h)) (hp_fault h)
  | None => h
  end.

Definition array_get (h : hap_heap) (a : option nat) : list Z :=
  match a with
  | Some a => default [] (hp_arr h !! a)
  | None => []
  end.

Definition ArrayConcat (h : hap_heap) (a b : option nat) : hap_heap :=
  match a with
  | Some a' =>
      mk_heap (hp_str h) (alter (fun l => l ++ array_get h b) a' (hp_arr h)) (hp_fault h)
  | None => h
  end.

Definition ArrayDestroy (h : hap_heap) (a : option nat) : hap_heap :=
  match a with
  | Some a' =>
      match hp_arr h !! a' with
      | Some _ => mk_heap (hp_str h) (delete a' (hp_arr h)) (hp_fault h)
      | None => mk_heap (hp_str h) (hp_arr h) true
      end
  | None => mk_heap (hp_str h) (hp_arr h) true
  end.

(** [if (rec) ArrayPush(recs, tg_rec, rec)]. *)
Definition push_rec (h : hap_heap) (a : option nat) (rec : Z) : hap_heap :=
  if rec =? 0 then h else ArrayPush h a rec.

Definition present (rec : Z) : list Z := if rec =? 0 then [] else [rec].

Definition NUL : ascii := "000"%char.
Definition dash : ascii := "-"%char.

(** [s[i]]; a read outside the buffer yields [NUL]. *)
Definition char_at (s : list ascii) (i : Z) : ascii :=
  if i <? 0 then NUL else nth (Z.to_nat i) s NUL.

Definition int_at (s : list Z) (i : Z) : Z :=
  if i <? 0 then 0 else nth (Z.to_nat i) s 0.

(** [s[i] = c]; a write outside the buffer is dropped. *)
Definition store_at {A : Type} (s : list A) (i : Z) (c : A) : list A :=
  if i <? 0 then s else <[Z.to_nat i := c]> s.

Definition buf (s : option (list ascii)) : list ascii := default [] s.

(** The ways in which [find_haplotypes_single] and what it calls stop short:
    an [assert] that fails, or an index outside its array. *)
Inductive fault := assert_failed | out_of_range.

(** [b >= ' ' && b <= '~'] *)
Definition printable (b : ascii) : bool :=
  (32 <=? nat_of_ascii b)%nat && (nat_of_ascii b <=? 126)%nat.

(** The comparison loop of [haplotype_str_add], with its [assert]: [n]
    positions from [i] and [j]; the result is the value of [i] when the loop
    is left. *)
Fixpoint add_scan (n : nat) (snps tsnps : list ascii) (i j : Z) : fault + Z :=
  match n with
  | O => inr i
  | S n' =>
      if negb (printable (char_at snps i)) then inl assert_failed
      else if negb (Ascii.eqb (char_at tsnps j) dash) && negb (Ascii.eqb (char_at snps i) dash)
      then if Ascii.eqb (char_at tsnps j) (char_at snps i)
           then add_scan n' snps tsnps (i + 1) (j + 1)
           else inr i
      else add_scan n' snps tsnps (i + 1) (j + 1)
  end.

(** The body of the candidate loop of [haplotype_str_add] without
    [ALLOW_CONTAINMENTS]: does the loop leave with [best_hs = hs]? *)
Definition add_accepts (h : hap_heap) (snps : list ascii) (start end_ : Z)
    (hs : interval) : fault + bool :=
  match hp_str h !! iv_data hs with
  | None => inr false
  | Some tmp =>
      if negb (start =? hs_start tmp) || negb (end_ =? hs_end tmp) then inr false
      else
        let i := Z.max (hs_start tmp) start in
        let i_end := Z.min (hs_end tmp) end_ in
        let j := Z.max 0 (i - hs_start tmp) in
        let i := Z.max 0 (i - start) in
        let j_end := Z.min (hs_end tmp) i_end - hs_start tmp in
        let i_end := Z.min end_ i_end - start in
        if negb (i_end - i =? j_end - j) then inl assert_failed
        else
          match add_scan (Z.to_nat (i_end - i + 1)) snps (buf (hs_snps tmp)) i j with
          | inl e => inl e
          | inr i' =>
              if negb (i' =? i_end + 1) then inr false
              else inr ((hs_start tmp =? start) && (hs_end tmp =? end_))
          end
  end.

(** [for (hs = interval_iter_next(iter); hs; hs = interval_iter_next(iter))]
    over the intervals that the iterator yields: [best_hs] when the loop is
    left. *)
Fixpoint add_find (h : hap_heap) (snps : list ascii) (start end_ : Z)
    (l : list interval) : fault + option interval :=
  match l with
  | [] => inr None
  | hs :: l' =>
      match add_accepts h snps start end_ hs with
      | inl e => inl e
      | inr true => inr (Some hs)
      | inr false => add_find h snps start end_ l'
      end
  end.

(** [for (i = start; i <= end; i++) if (snps[i-start] != '-') { ... }] of the
    merge branch, over the [n] positions from [i]. *)
Fixpoint add_merge (n : nat) (snps : list ascii) (start : Z) (tmp : haplotype_str)
    (i : Z) : haplotype_str :=
  match n with
  | O => tmp
  | S n' =>
      let tmp' :=
        if negb (Ascii.eqb (char_at snps (i - start)) dash) then
          mk_hs (option_map (fun b => store_at b (i - hs_start tmp) (char_at snps (i - start)))
                            (hs_snps tmp))
                (store_at (hs_count tmp) (i - hs_start tmp)
                          (int_at (hs_count tmp) (i - hs_start tmp) + 1))
                (hs_nseq tmp) (hs_start tmp) (hs_end tmp) (hs_recs tmp)
        else tmp in
      add_merge n' snps start tmp' (i + 1)
  end.

Definition set_nseq (s : haplotype_str) (v : Z) : haplotype_str :=
  mk_hs (hs_snps s) (hs_count s) v (hs_start s) (hs_end s) (hs_recs s).

(** The buffers of a new haplotype string: [snps] copied, [count] zeroed by
    [calloc] and set to one where a base was seen. *)
Definition new_snps (snps : list ascii) (n : nat) : list ascii :=
  map (fun k => char_at snps (Z.of_nat k)) (seq 0 n).

Definition new_count (snps : list ascii) (n : nat) : list Z :=
  map (fun k => if Ascii.eqb (char_at snps (Z.of_nat k)) dash then 0 else 1) (seq 0 n).

Definition haplotype_str_add `{!rb_colour} (it : interval_tree) (h : hap_heap)
    (snps : list ascii) (start end_ : Z) (rec1 rec2 : Z)
    : fault + (interval_tree * hap_heap * Z) :=
  match add_find h snps start end_ (interval_iter_all it start end_) with
  | inl e => inl e
  | inr best_hs =>
      let best_hs :=
        match best_hs with
        | Some hs => if (iv_start hs =? start) && (iv_end hs =? end_) then Some hs else None
        | None => None
        end in
      match best_hs with
      | Some hs =>
          match hp_str h !! iv_data hs with
          | Some tmp =>
              if negb (hs_start tmp <=? start) then inl assert_failed
              else
                let tmp := add_merge (Z.to_nat (end_ - start + 1)) snps start tmp start in
                let tmp := set_nseq tmp (hs_nseq tmp + 1) in
                let h := set_str h (iv_data hs) tmp in
                let h := push_rec h (hs_recs tmp) rec1 in
                let h := push_rec h (hs_recs tmp) rec2 in
                inr (it, h, 0)
          | None => inr (it, h, 0)
          end
      | None =>
          let p := it_brk it in
          let n := Z.to_nat (end_ - start + 1) in
          let it := fst (interval_tree_add (mk_tree (it_root it) (S p)) start end_ p) in
          let a := it_brk it in
          let tmp := mk_hs (Some (new_snps snps n)) (new_count snps n) 1 start end_ (Some a) in
          let h := mk_heap (<[p := tmp]> (hp_str h)) (<[a := []]> (hp_arr h)) (hp_fault h) in
          let h := push_rec h (Some a) rec1 in
          let h := push_rec h (Some a) rec2 in
          inr (mk_tree (it_root it) (S a), h, 0)
      end
  end.

(** [haplotype_str_free].  The [count] buffer is not released by the
    source, and has no address here. *)
Definition haplotype_str_free (p : nat) (h : hap_heap) : hap_heap :=
  match hp_str h !! p with
  | Some hs =>
      let h := match hs_recs hs with
               | Some a => ArrayDestroy h (Some a)
               | None => h
               end in
      mk_heap (delete p (hp_str h)) (hp_arr h) (hp_fault h)
  | None => mk_heap (hp_str h) (hp_arr h) true
  end.

(** The first loop of [haplotype_str_filter]: the [u_next] list of the
    intervals to delete, last found first. *)
Definition filter_stage (h : hap_heap) (min_count : Z) (ivs : list interval)
    : list interval :=
  fold_left (fun iv_list iv =>
               match hp_str h !! iv_data iv with
               | Some hs => if hs_nseq hs <? min_count then iv :: iv_list else iv_list
               | None => iv_list
               end) ivs [].

Definition haplotype_str_filter `{!rb_colour} (it : interval_tree) (h : hap_heap)
    (min_count : Z) : interval_tree * hap_heap :=
  let iv_list := filter_stage h min_count (interval_iter_all it INT_MIN INT_MAX) in
  fold_left (fun '(it, h) iv =>
               (fst (interval_tree_del it iv), haplotype_str_free (iv_data iv) h))
            iv_list (it, h).

(** ** Clustering *)

(** [qsort] with [ivp_sort]: the C library only promises a rearrangement
    ordered by the comparator, and [ivp_sort] goes through [sqrt] on
    doubles.  The order chosen is a parameter; what is used of it is that it
    is a rearrangement of the block. *)
Class block_sort := {
  qsort_ivp : hap_heap -> list interval -> list interval;
  qsort_ivp_perm : ∀ h l, qsort_ivp h l ≡ₚ l
}.

Definition get_str (h : hap_heap) (p : nat) : haplotype_str :=
  default (mk_hs None [] 0 0 0 None) (hp_str h !! p).

(** The mismatch loop of the recruitment: [n] positions from [i]. *)
Fixpoint cluster_mismatch (n : nat) (hs hs2 : haplotype_str) (i : Z) : bool :=
  match n with
  | O => false
  | S n' =>
      let a := char_at (buf (hs_snps hs)) (i - hs_start hs) in
      let b := char_at (buf (hs_snps hs2)) (i - hs_start hs2) in
      if negb (Ascii.eqb a b) && negb (Ascii.eqb a dash) && negb (Ascii.eqb b dash)
      then true
      else cluster_mismatch n' hs hs2 (i + 1)
  end.

(** [realloc(s, n)]: the first [n] bytes, the new ones unspecified (taken
    as [NUL]). *)
Definition realloc (s : list ascii) (n : Z) : list ascii :=
  take (Z.to_nat n) (s ++ replicate (Z.to_nat n) NUL).

(** The copy loop of a merge: [dst] starts at [dstart] and ends at [dend];
    [src] starts at [sstart]; [n] positions from [i]. *)
Fixpoint merge_copy (n : nat) (dst : list ascii) (dstart dend : Z)
    (src : list ascii) (sstart : Z) (i : Z) : list ascii :=
  match n with
  | O => dst
  | S n' =>
      let c := char_at src (i - sstart) in
      let dst' := if negb (Ascii.eqb c dash) || (dend <? i)
                  then store_at dst (i - dstart) c else dst in
      merge_copy n' dst' dstart dend src sstart (i + 1)
  end.

(** The [snps] buffer after "Overlap. Merge hs2 into hs.": the buffer of the
    string that starts first is enlarged and takes the bases of the other. *)
Definition merge_snps (hs hs2 : haplotype_str) : list ascii :=
  let nsnp := Z.max (hs_end hs) (hs_end hs2) - Z.min (hs_start hs) (hs_start hs2) + 1 in
  let from := Z.max (hs_start hs) (hs_start hs2) in
  if hs_start hs2 <=? hs_start hs then
    let b := realloc (buf (hs_snps hs2)) (nsnp + 1) in
    let b := merge_copy (Z.to_nat (hs_end hs - from + 1)) b (hs_start hs2) (hs_end hs2)
                        (buf (hs_snps hs)) (hs_start hs) from in
    store_at b nsnp NUL
  else
    let b := realloc (buf (hs_snps hs)) (nsnp + 1) in
    let b := merge_copy (Z.to_nat (hs_end hs2 - from + 1)) b (hs_start hs) (hs_end hs)
                        (buf (hs_snps hs2)) (hs_start hs2) from in
    store_at b nsnp NUL.

(** "Overlap. Merge hs2 into hs." for the payloads at [p] and [p2]. *)
Definition cluster_merge (h : hap_heap) (p p2 : nat) : hap_heap :=
  let hs := get_str h p in
  let hs2 := get_str h p2 in
  let hs' := mk_hs (Some (merge_snps hs hs2)) (hs_count hs) (hs_nseq hs + hs_nseq hs2)
                   (Z.min (hs_start hs) (hs_start hs2)) (Z.max (hs_end hs) (hs_end hs2))
                   (hs_recs hs) in
  let h := set_str h p hs' in
  let hs2 := get_str h p2 in
  let hs2' := mk_hs None (hs_count hs2) 0 (hs_start hs2) (hs_start hs2 - 1) (hs_recs hs2) in
  let h := set_str h p2 hs2' in
  let h := ArrayConcat h (hs_recs hs') (hs_recs hs2') in
  let h := ArrayDestroy h (hs_recs hs2') in
  let hs2 := get_str h p2 in
  set_str h p2 (mk_hs (hs_snps hs2) (hs_count hs2) (hs_nseq hs2) (hs_start hs2)
                      (hs_end hs2) None).

(** One pass of [for (iv2 = iv->u_next; iv2; iv2 = next)] for the anchor
    with payload [p]: the heap, the nodes left in the list after the anchor
    and the [recruited] flag. *)
Fixpoint cluster_sweep (h : hap_heap) (p : nat) (ivstart ivend : Z)
    (rest : list interval) : hap_heap * list interval * bool :=
  match rest with
  | [] => (h, [], false)
  | iv2 :: next =>
      let hs := get_str h p in
      let hs2 := get_str h (iv_data iv2) in
      if (ivend <? iv_start iv2) || (iv_end iv2 <? ivstart) then
        let '(h', l, rc) := cluster_sweep h p ivstart ivend next in (h', iv2 :: l, rc)
      else
        let from := Z.max (hs_start hs) (hs_start hs2) in
        let upto := Z.min (hs_end hs) (hs_end hs2) in
        if cluster_mismatch (Z.to_nat (upto - from + 1)) hs hs2 from then
          let '(h', l, rc) := cluster_sweep h p ivstart ivend next in (h', iv2 :: l, rc)
        else
          let '(h', l, _) := cluster_sweep (cluster_merge h p (iv_data iv2)) p
                                           ivstart ivend next in
          (h', l, true)
  end.

(** The [again:] loop of one anchor.  Each repetition follows a pass that
    unlinked a node, so [length rest] repetitions and one more are all that
    can happen; [fuel] counts them.  The flag tells whether the loop was
    left by its own test ([recruited] false after a pass) or cut short by
    [fuel]. *)
Fixpoint cluster_recruit (fuel : nat) (h : hap_heap) (p : nat) (ivstart ivend : Z)
    (rest : list interval) : hap_heap * list interval * bool :=
  match fuel with
  | O => (h, rest, false)
  | S fuel' =>
      let '(h', rest', recruited) := cluster_sweep h p ivstart ivend rest in
      let hs := get_str h' p in
      if recruited then cluster_recruit fuel' h' p (hs_start hs) (hs_end hs) rest'
      else (h', rest', true)
  end.

(** [for (iv = iv_head; iv; iv = iv->u_next)] over the sorted block; the
    list returned is the block from [iv_head] to [iv_tail] afterwards. *)
Fixpoint cluster_anchors (fuel : nat) (h : hap_heap) (l : list interval)
    : hap_heap * list interval :=
  match fuel, l with
  | S fuel', iv :: rest =>
      let '(h', rest', _) :=
        cluster_recruit (S (length rest)) h (iv_data iv) (iv_start iv) (iv_end iv) rest in
      let '(h'', l') := cluster_anchors fuel' h' rest' in
      (h'', iv :: l')
  | _, _ => (h, l)
  end.

Definition haplotype_str_cluster_subregion `{!block_sort} (h : hap_heap)
    (block : list interval) : hap_heap * list interval :=
  match block with
  | [] => (h, [])
  | _ =>
      let ivp := qsort_ivp h block in
      cluster_anchors (length ivp) h ivp
  end.

(** The list building loop of [haplotype_str_cluster].  [done] is the list
    from [iv_head] up to the current block, [block] the nodes from
    [iv_sub_head] to [iv_tail]. *)
Fixpoint cluster_blocks `{!block_sort} (h : hap_heap) (longest_haplo : Z)
    (done block : list interval) (ivs : list interval) : hap_heap * list interval :=
  match ivs with
  | [] =>
      match block with
      | [] => (h, done)
      | _ => let '(h', b) := haplotype_str_cluster_subregion h block in (h', done ++ b)
      end
  | iv :: ivs' =>
      if longest_haplo =? INT_MIN then
        cluster_blocks h (iv_end iv) done (block ++ [iv]) ivs'
      else if longest_haplo <? iv_start iv then
        let '(h', b) := haplotype_str_cluster_subregion h block in
        cluster_blocks h' (iv_end iv) (done ++ b) [iv] ivs'
      else
        cluster_blocks h (Z.max longest_haplo (iv_end iv)) done (block ++ [iv]) ivs'
  end.

Definition haplotype_str_cluster `{!block_sort} (it : interval_tree) (h : hap_heap)
    : hap_heap :=
  fst (cluster_blocks h INT_MIN [] [] (interval_iter_all it INT_MIN INT_MAX)).

(** [haplotype_str_reclist]: the handles pushed onto [rec_list]. *)
Definition haplotype_str_reclist (it : interval_tree) (h : hap_heap)
    (rec_list : list (option nat)) : hap_heap * list (option nat) :=
  fold_left (fun '(h, out) iv =>
               match hp_str h !! iv_data iv with
               | Some hs =>
                   if hs_nseq hs =? 0 then (h, out)
                   else (set_str h (iv_data iv)
                           (mk_hs (hs_snps hs) (hs_count hs) (hs_nseq hs) (hs_start hs)
                                  (hs_end hs) None),
                         out ++ [hs_recs hs])
               | None => (h, out)
               end)
            (interval_iter_all it INT_MIN INT_MAX) (h, rec_list).

(** ** Pairing of reads in [find_haplotypes_single] *)

(** The fields of [rangec_t] that the pairing reads or writes. *)
Record rangec := mk_range {
  r_rec : Z;
  r_pair_rec : Z
}.

Definition set_pair_rec (v : Z) (r : rangec) : rangec := mk_range (r_rec r) v.

(** The hash pass: [i] is the loop index, [h] the table from record number
    to array index, [todo] the reads from index [i] on.  [HashTableAdd]
    leaves an existing key alone. *)
Fixpoint pair_pass (i : nat) (h : gmap Z nat) (rng : list rangec) (todo : list rangec)
    : list rangec :=
  match todo with
  | [] => rng
  | _ :: todo' =>
      match rng !! i with
      | None => rng
      | Some r =>
          match h !! r_pair_rec r with
          | Some hi =>
              pair_pass (S i) (delete (r_pair_rec r) h)
                        (alter (set_pair_rec (- Z.of_nat i)) hi rng) todo'
          | None =>
              pair_pass (S i)
                        (match h !! r_rec r with
                         | Some _ => h
                         | None => <[r_rec r := i]> h
                         end) rng todo'
          end
      end
  end.

Definition pair_up (rng : list rangec) : list rangec := pair_pass 0 ∅ rng rng.

(** [if (r->pair_rec >= 0 || !pairs)] the read is single ended; otherwise
    its mate is [rng[-r->pair_rec]]. *)
Definition mate_index (pairs : bool) (r : rangec) : option nat :=
  if (0 <=? r_pair_rec r) || negb pairs then None
  else Some (Z.to_nat (- r_pair_rec r)).

(** ** Concrete parameters, used to run the code on examples *)

(** No rebalancing at all: the tree degenerates into a plain search tree. *)
Definition rb_no_rotation : rb_colour :=
  {| RB_INSERT_COLOR := fun _ _ => []; RB_REMOVE_COLOR := fun _ _ _ => [] |}.

(** A schedule that does rotate: the parent of an inserted node is rotated
    so that the new node moves up one level, and after a removal the parent
    of the removed position is rotated towards the side that lost a node. *)
Definition rb_rotate_up : rb_colour :=
  {| RB_INSERT_COLOR := fun t elm =>
       match locate elm t [] with
       | Some (_, FrameL p _ :: _) => [ROTATE_RIGHT (nd_id p)]
       | Some (_, FrameR _ p :: _) => [ROTATE_LEFT (nd_id p)]
       | _ => []
       end;
     RB_REMOVE_COLOR := fun t parent child =>
       match parent with
       | Some p => [ROTATE_LEFT p; ROTATE_RIGHT p]
       | None => []
       end |}.

(** The first rotation of the red-black insertion, where the new node and
    its parent hang on the same side of a grandparent with no other child
    (the parent is then red and there is no uncle): the grandparent is
    rotated the other way; where they hang on different sides, the parent is
    rotated first.  After a removal nothing is rotated. *)
Definition rb_insert_fix : rb_colour :=
  {| RB_INSERT_COLOR := fun t elm =>
       match locate elm t [] with
       | Some (_, FrameL _ _ :: FrameL g RB_NULL :: _) => [ROTATE_RIGHT (nd_id g)]
       | Some (_, FrameR _ _ :: FrameR RB_NULL g :: _) => [ROTATE_LEFT (nd_id g)]
       | Some (_, FrameR _ p :: FrameL g RB_NULL :: _) =>
           [ROTATE_LEFT (nd_id p); ROTATE_RIGHT (nd_id g)]
       | Some (_, FrameL p _ :: FrameR RB_NULL g :: _) =>
           [ROTATE_RIGHT (nd_id p); ROTATE_LEFT (nd_id g)]
       | _ => []
       end;
     RB_REMOVE_COLOR := fun _ _ _ => [] |}.

(** ** [ivp_sort] *)

(** [(double)z] for an [int]: every [int] is a [double]. *)
Definition double_of_int (z : Z) : float :=
  if z <? 0 then PrimFloat.opp (PrimFloat.of_uint63 (Uint63.of_Z (- z)))
  else PrimFloat.of_uint63 (Uint63.of_Z z).

(** [(int)d]: the fraction is dropped.  For a NaN, an infinity or a value
    outside [int] the C standard promises nothing; the x86 conversion gives
    [INT_MIN], which is what is taken here. *)
Definition int_of_double (d : float) : Z :=
  match Prim2SF d with
  | S754_zero _ => 0
  | S754_finite s m e =>
      let v := if 0 <=? e then Z.pos m * 2 ^ e else Z.pos m / 2 ^ (- e) in
      let z := if s then - v else v in
      if (INT_MIN <=? z) && (z <=? INT_MAX) then z else INT_MIN
  | _ => INT_MIN
  end.

(** [int nl = sqrt(hs->end - hs->start + 1) * hs->nseq] *)
Definition ivp_priority (hs : haplotype_str) : Z :=
  int_of_double
    (PrimFloat.mul (PrimFloat.sqrt (double_of_int (wrap_int (hs_end hs - hs_start hs + 1))))
                   (double_of_int (hs_nseq hs))).

Definition ivp_sort (h : hap_heap) (iv1 iv2 : interval) : Z :=
  let hs1 := get_str h (iv_data iv1) in
  let hs2 := get_str h (iv_data iv2) in
  let nl1 := ivp_priority hs1 in
  let nl2 := ivp_priority hs2 in
  if negb (int_sub nl2 nl1 =? 0) then int_sub nl2 nl1
  else if negb (int_sub (hs_start hs1) (hs_start hs2) =? 0)
       then int_sub (hs_start hs1) (hs_start hs2)
       else int_sub (hs_end hs1) (hs_end hs2).

(** A stable sort by [ivp_sort]. *)
Definition ivp_le (h : hap_heap) (iv1 iv2 : interval) : Prop := ivp_sort h iv1 iv2 <= 0.

#[global] Instance ivp_le_dec h iv1 iv2 : Decision (ivp_le h iv1 iv2) :=
  Z_le_dec (ivp_sort h iv1 iv2) 0.

Definition qsort_stable : block_sort :=
  {| qsort_ivp := fun h l => merge_sort (ivp_le h) l;
     qsort_ivp_perm := fun h l => merge_sort_Permutation (ivp_le h) l |}.

(** * Preconditions of the interface *)


(** A call that the interface allows: an add within the range, a delete of
    an interval that the tree holds, or of one whose address is not that of
    any interval in the tree (the call then fails with [-1]). *)
Definition op_ok (it : interval_tree) (op : tree_op) : Prop :=
  match op with
  | OP_ADD s e _ => coord_range s ∧ coord_range e
  | OP_DEL node =>
      node ∈ tree_intervals (it_root it) ∨
      iv_id node ∉ map iv_id (tree_intervals (it_root it))
  end.

Fixpoint ops_ok `{!rb_colour} (it : interval_tree) (ops : list tree_op) : Prop :=
  match ops with
  | [] => True
  | op :: rest => op_ok it op ∧ ops_ok (apply_op it op) rest
  end.

(** * The pairing pass *)

(** The state of the hash pass before read [i] is looked at, for the mates
    at [ia] and [ja] with the record numbers [a] and [b]. *)
Definition pair_inv (rng0 : list rangec) (ia ja : nat) (a b : Z)
    (i : nat) (h : gmap Z nat) (rng : list rangec) : Prop :=
  (∀ k, (i <= k)%nat → rng !! k = rng0 !! k) ∧
  (∀ key idx, h !! key = Some idx →
     (idx < i)%nat ∧ r_rec <$> rng0 !! idx = Some key ∧ idx ≠ ja) ∧
  ((ia < i <= ja)%nat → h !! a = Some ia ∧ rng !! ia = Some (mk_range a b)) ∧
  ((ja < i)%nat → h !! a = None ∧ rng !! ia = Some (mk_range a (- Z.of_nat ja)) ∧
                  rng !! ja = Some (mk_range b a)).

(** Intervals are compared field by field. *)
#[global] Instance interval_eq_dec : EqDecision interval.
Proof. solve_decision. Defined.

(** * The range iterator: what a state has left to do *)

Section iterator_defs.
Variables lo hi : Z.

(** What the iterator visits: the subtrees it does not prune, in order. *)
Fixpoint walk (t : rb_tree) : list interval :=
  match t with
  | RB_NULL => []
  | RB_NODE l n r =>
      match l with
      | RB_NODE _ ln _ => if lo <=? nd_last ln then walk l else []
      | RB_NULL => []
      end ++
      List.filter (overlaps lo hi) (node_list lo hi n) ++
      match r with
      | RB_NODE _ _ _ => if nd_start n <=? hi then walk r else []
      | RB_NULL => []
      end
  end.

Definition left_part (l : rb_tree) : list interval :=
  match l with
  | RB_NODE _ ln _ => if lo <=? nd_last ln then walk l else []
  | RB_NULL => []
  end.

Definition right_part (n : interval_node) (r : rb_tree) : list interval :=
  match r with
  | RB_NODE _ _ _ => if nd_start n <=? hi then walk r else []
  | RB_NULL => []
  end.

(** What is left to visit above a node: the parents that were entered from
    their left subtree, and their right subtrees. *)
Fixpoint rest_path (c : list frame) : list interval :=
  match c with
  | [] => []
  | FrameL p r :: c' =>
      List.filter (overlaps lo hi) (node_list lo hi p) ++ right_part p r ++ rest_path c'
  | FrameR _ _ :: c' => rest_path c'
  end.

Fixpoint todo (c : list frame) : nat :=
  match c with
  | [] => O
  | FrameL _ r :: c' => (2 * tree_size r + 1 + todo c')%nat
  | FrameR _ _ :: c' => todo c'
  end.

(** The intervals an iterator state still has to hand out. *)
Definition iter_rem (in_loop : bool) (iter : interval_iter) : list interval :=
  match iter_node iter with
  | RB_NULL => []
  | RB_NODE l n r =>
      let here := List.filter (overlaps lo hi) (iter_iv iter) ++ right_part n r ++
                  rest_path (iter_up iter) in
      if in_loop || iter_done_lr iter then here
      else match l with
           | RB_NODE _ ln _ =>
               if lo <=? nd_last ln
               then walk l ++ List.filter (overlaps lo hi) (node_list lo hi n) ++
                    right_part n r ++ rest_path (iter_up iter)
               else here
           | RB_NULL => here
           end
  end.

(** A bound on the calls and loop turns an iterator state can still cause. *)
Definition iter_mu (in_loop : bool) (iter : interval_iter) : nat :=
  match iter_node iter with
  | RB_NULL => O
  | RB_NODE l n r =>
      ((if in_loop then 0 else if iter_done_lr iter then 1 else 1 + 2 * tree_size l)
       + 2 * tree_size r + 1 + todo (iter_up iter))%nat
  end.

Definition iter_bounds (iter : interval_iter) : Prop :=
  iter_start iter = lo ∧ iter_end iter = hi.

(** The outcome of a call or loop turn, given what is left to hand out. *)
Definition iter_outcome (bound : nat) (R : list interval)
    (res : option (option interval * interval_iter)) : Prop :=
  match R with
  | [] => ∃ iter', res = Some (None, iter')
  | i :: R' =>
      ∃ iter', res = Some (Some i, iter') ∧ iter_rem false iter' = R' ∧
               iter_bounds iter' ∧ (iter_mu false iter' <= bound)%nat
  end.

End iterator_defs.

(** The order of the tree: [start] first, then [end]. *)
Definition key_lt (n m : interval_node) : Prop :=
  nd_start n < nd_start m ∨ (nd_start n = nd_start m ∧ nd_end n < nd_end m).

Definition node_coords (n : interval_node) : Prop :=
  coord_range (nd_start n) ∧ coord_range (nd_end n).

Definition ids (t : rb_tree) : list nat := map nd_id (nodes t).

(** The nodes that come before and after the hole of a path, in order. *)
Fixpoint path_before (c : list frame) : list interval_node :=
  match c with
  | [] => []
  | FrameL _ _ :: c' => path_before c'
  | FrameR l p :: c' => path_before c' ++ nodes l ++ [p]
  end.

Fixpoint path_after (c : list frame) : list interval_node :=
  match c with
  | [] => []
  | FrameL p r :: c' => p :: nodes r ++ path_after c'
  | FrameR _ _ :: c' => path_after c'
  end.

Definition erase (n : interval_node) : interval_node := set_last n 0.

Definition contents (t : rb_tree) : list interval_node := map erase (nodes t).

(** Two paths that differ in the [last] fields only. *)
Fixpoint path_eqv (c c' : list frame) : Prop :=
  match c, c' with
  | [], [] => True
  | FrameL p r :: c1, FrameL p' r' :: c1' => erase p = erase p' ∧ r = r' ∧ path_eqv c1 c1'
  | FrameR l p :: c1, FrameR l' p' :: c1' => erase p = erase p' ∧ l = l' ∧ path_eqv c1 c1'
  | _, _ => False
  end.

(** An operation on a cursor that changes [last] fields only. *)
Definition keeps (f : cursor → cursor) : Prop :=
  ∀ t c, contents (fst (f (t, c))) = contents t ∧ path_eqv c (snd (f (t, c))).

Definition interval_ok (n : interval_node) (i : interval) : Prop :=
  iv_start i = nd_start n ∧ iv_end i <= nd_end n ∧
  coord_range (iv_start i) ∧ coord_range (iv_end i).

(** A node holds at least one interval, all of them start where the node
    starts, and its [end] is the largest of theirs. *)
Definition node_ok (n : interval_node) : Prop :=
  Forall (interval_ok n) (nd_intervals n) ∧
  ∃ i, i ∈ nd_intervals n ∧ iv_end i = nd_end n.

(** Two nodes in tree order: nodes that share a [start] split the intervals
    by [end]. *)
Definition node_lt (n m : interval_node) : Prop :=
  nd_start n < nd_start m ∨
  (nd_start n = nd_start m ∧ Forall (λ i, nd_end n < iv_end i) (nd_intervals m)).

Definition all_intervals (ns : list interval_node) : list interval :=
  concat (map nd_intervals ns).

Record wf_nodes (brk : nat) (ns : list interval_node) : Prop := {
  wf_sorted : StronglySorted node_lt ns;
  wf_ok : Forall node_ok ns;
  wf_ids : NoDup (map nd_id ns);
  wf_iids : NoDup (map iv_id (all_intervals ns));
  wf_brk : Forall (λ n, (nd_id n < brk)%nat) ns;
  wf_ibrk : Forall (λ i, (iv_id i < brk)%nat) (all_intervals ns)
}.

(** The key order that the searches of [tree.h] rely on. *)
Definition key_sorted (ns : list interval_node) : Prop :=
  StronglySorted key_lt ns ∧ Forall node_coords ns.

Definition key_le_dec (elm n : interval_node) : bool := bool_decide (¬ key_lt n elm).

Definition olast (t : rb_tree) : option Z :=
  match t with RB_NULL => None | RB_NODE _ n _ => Some (nd_last n) end.

Definition obump (v : Z) (o : option Z) : Z :=
  match o with None => v | Some w => Z.max v w end.

Definition ojoin (a b : option Z) : option Z :=
  match a with None => b | Some v => Some (obump v b) end.

(** The largest element of a list, if it has one. *)
Fixpoint omax (l : list Z) : option Z :=
  match l with [] => None | x :: l' => Some (obump x (omax l')) end.

Definition ends (t : rb_tree) : list Z := map nd_end (nodes t).

Definition onp (q : option nat) (js : list nat) : Prop :=
  match q with Some x => x ∈ js | None => False end.

(** [tree_inv q t]: no node stores less in [last] than its [end] and the
    [last] of its children, and every node stores the largest [end] of its
    subtree, except perhaps the nodes from [q] up to the root. *)
Fixpoint tree_inv (q : option nat) (t : rb_tree) : Prop :=
  match t with
  | RB_NULL => True
  | RB_NODE l n r =>
      tree_inv q l ∧ tree_inv q r ∧
      obump (obump (nd_end n) (olast l)) (olast r) <= nd_last n ∧
      (onp q (ids t) ∨ Some (nd_last n) = omax (ends t))
  end.

(** The same for the nodes of a path, seen from a subtree with the
    addresses [js], root value [w] and ends [es]. *)
Fixpoint path_inv (q : option nat) (c : list frame) (js : list nat)
    (w : option Z) (es : list Z) : Prop :=
  match c with
  | [] => True
  | FrameL p r :: c' =>
      tree_inv q r ∧
      obump (obump (nd_end p) w) (olast r) <= nd_last p ∧
      (onp q (js ++ nd_id p :: ids r) ∨ Some (nd_last p) = omax (es ++ nd_end p :: ends r)) ∧
      path_inv q c' (js ++ nd_id p :: ids r) (Some (nd_last p)) (es ++ nd_end p :: ends r)
  | FrameR l p :: c' =>
      tree_inv q l ∧
      obump (obump (nd_end p) (olast l)) w <= nd_last p ∧
      (onp q (ids l ++ nd_id p :: js) ∨ Some (nd_last p) = omax (ends l ++ nd_end p :: es)) ∧
      path_inv q c' (ids l ++ nd_id p :: js) (Some (nd_last p)) (ends l ++ nd_end p :: es)
  end.

(** The augmentation is exact everywhere. *)
Definition exact (t : rb_tree) : Prop := tree_inv None t.

Definition ole (w' w : option Z) : Prop :=
  match w', w with
  | Some a, Some b => a <= b
  | None, _ => True
  | Some _, None => False
  end.

Definition sibling (f : frame) : rb_tree :=
  match f with FrameL _ r => r | FrameR l _ => l end.

Definition siblings_exact (c : list frame) : Prop := Forall (λ f, exact (sibling f)) c.

Definition packed (node : interval) (m : interval_node) : interval_node :=
  mk_node (nd_id m) (nd_start m) (Z.max (nd_end m) (iv_end node)) 0
          (node :: nd_intervals m).

Definition wf_tree (it : interval_tree) : Prop :=
  wf_nodes (it_brk it) (nodes (it_root it)) ∧ exact (it_root it).

(** The fragment [snps] and the buffer [tsnps] agree on their first [n]
    characters: where both have a base, it is the same base. *)
Definition agrees (snps tsnps : list ascii) (n : Z) : Prop :=
  ∀ k, 0 <= k < n →
    char_at tsnps k = dash ∨ char_at snps k = dash ∨ char_at tsnps k = char_at snps k.

(** They disagree at the index [k]. *)
Definition clash_at (snps tsnps : list ascii) (k : Z) : Prop :=
  char_at tsnps k ≠ dash ∧ char_at snps k ≠ dash ∧ char_at tsnps k ≠ char_at snps k.

(** The fragment written over a buffer, and the depths that go with it. *)
Definition overlay (snps tsnps : list ascii) : list ascii :=
  zip_with (λ c t, if Ascii.eqb c dash then t else c) snps tsnps.

Definition count_up (snps : list ascii) (count : list Z) : list Z :=
  zip_with (λ c v, if Ascii.eqb c dash then v else v + 1) snps count.

Definition fresh_count (snps : list ascii) : list Z :=
  map (λ c, if Ascii.eqb c dash then 0 else 1) snps.

(** The string that takes the fragment [snps]. *)
Definition merged (snps : list ascii) (hs : haplotype_str) : haplotype_str :=
  mk_hs (Some (overlay snps (buf (hs_snps hs)))) (count_up snps (hs_count hs))
        (hs_nseq hs + 1) (hs_start hs) (hs_end hs) (hs_recs hs).

(** A fragment can go into the string [hs]: the same range, and no base
    against another. *)
Definition takes (snps : list ascii) (start end_ : Z) (hs : haplotype_str) : Prop :=
  hs_start hs = start ∧ hs_end hs = end_ ∧ agrees snps (buf (hs_snps hs)) (end_ - start + 1).

(** The string behind an interval, as [haplotype_str_add] leaves it. *)
Definition str_ok (h : hap_heap) (iv : interval) : Prop :=
  ∃ hs b a, hp_str h !! iv_data iv = Some hs ∧
    hs_start hs = iv_start iv ∧ hs_end hs = iv_end iv ∧ iv_start iv <= iv_end iv ∧
    hs_snps hs = Some b ∧ Z.of_nat (length b) = iv_end iv - iv_start iv + 1 ∧
    Z.of_nat (length (hs_count hs)) = iv_end iv - iv_start iv + 1 ∧
    0 < hs_nseq hs ∧
    hs_recs hs = Some a ∧ is_Some (hp_arr h !! a).

Definition recs_of (h : hap_heap) (iv : interval) : option nat :=
  hs_recs (get_str h (iv_data iv)).

(** The strings of a list of intervals: each in order, no payload and no
    record array shared, nothing freed twice so far. *)
Definition index_fresh (ivs : list interval) (h : hap_heap) : Prop :=
  Forall (str_ok h) ivs ∧ NoDup (map iv_data ivs) ∧ NoDup (map (recs_of h) ivs) ∧
  hp_fault h = false.

(** Two strings over the same range with a base against another. *)
Definition conflict (hs1 hs2 : haplotype_str) : Prop :=
  ∃ k, 0 <= k < hs_end hs1 - hs_start hs1 + 1 ∧
       clash_at (buf (hs_snps hs1)) (buf (hs_snps hs2)) k.

(** The index that [haplotype_str_add] builds. *)
Definition index_ok (it : interval_tree) (h : hap_heap) : Prop :=
  wf_tree it ∧ index_fresh (tree_intervals (it_root it)) h ∧
  (∀ p, is_Some (hp_str h !! p) → (p < it_brk it)%nat) ∧
  (∀ a, is_Some (hp_arr h !! a) → (a < it_brk it)%nat) ∧
  (∀ iv1 iv2, iv1 ∈ tree_intervals (it_root it) → iv2 ∈ tree_intervals (it_root it) →
     iv1 ≠ iv2 → iv_start iv1 = iv_start iv2 → iv_end iv1 = iv_end iv2 →
     conflict (get_str h (iv_data iv1)) (get_str h (iv_data iv2))).

(** The character of a string at the position [i] of the consensus. *)
Definition snp_at (hs : haplotype_str) (i : Z) : ascii :=
  char_at (buf (hs_snps hs)) (i - hs_start hs).

(** [g] spans [s] and has every base of [s]. *)
Definition covers (g s : haplotype_str) : Prop :=
  hs_start g <= hs_start s ∧ hs_end s <= hs_end g ∧
  ∀ i, hs_start s <= i <= hs_end s → snp_at s i ≠ dash → snp_at g i = snp_at s i.

(** The record [rec] came with the string of [iv], and with no other. *)
Definition owns (h0 : hap_heap) (L : list interval) (iv : interval) (rec : Z) : Prop :=
  iv ∈ L ∧ rec ∈ array_get h0 (recs_of h0 iv) ∧
  ∀ iv', iv' ∈ L → rec ∈ array_get h0 (recs_of h0 iv') → iv' = iv.

(** The string and the record array of [iv] are the same in [h] and [h']. *)
Definition same_at (h0 h h' : hap_heap) (iv : interval) : Prop :=
  hp_str h' !! iv_data iv = hp_str h !! iv_data iv ∧
  ∀ a, recs_of h0 iv = Some a → hp_arr h' !! a = hp_arr h !! a.

(** Not looked at yet. *)
Definition pristine (h0 h : hap_heap) (iv : interval) : Prop := same_at h0 h0 h iv.

(** Merged away. *)
Definition tomb (h0 h : hap_heap) (iv : interval) : Prop :=
  (∃ hs, hp_str h !! iv_data iv = Some hs ∧ hs_snps hs = None ∧ hs_nseq hs = 0 ∧
         hs_start hs = iv_start iv ∧ hs_end hs = hs_start hs - 1 ∧ hs_recs hs = None) ∧
  ∀ a, recs_of h0 iv = Some a → hp_arr h !! a = None.

(** A group: a string that spans its interval, with its own record array,
    and that has every base of every string whose records it holds. *)
Definition live (h0 : hap_heap) (L : list interval) (h : hap_heap) (iv : interval) : Prop :=
  ∃ hs b a r, hp_str h !! iv_data iv = Some hs ∧ hs_snps hs = Some b ∧
    hs_start hs <= iv_start iv ∧ iv_end iv <= hs_end hs ∧
    hs_end hs - hs_start hs + 1 <= Z.of_nat (length b) ∧ 0 < hs_nseq hs ∧
    recs_of h0 iv = Some a ∧ hs_recs hs = Some a ∧ hp_arr h !! a = Some r ∧
    ∀ iv' rec, rec ∈ r → owns h0 L iv' rec → covers hs (get_str h0 (iv_data iv')).

Definition cl_inv (h0 : hap_heap) (L : list interval) (h : hap_heap) : Prop :=
  hp_fault h = hp_fault h0 ∧ ∀ iv, iv ∈ L → tomb h0 h iv ∨ live h0 L h iv.

(** A fragment as the read loop of [find_haplotypes_single] hands it to
    [haplotype_str_add]: [snps], [start], [end], [rec1] and [rec2]. *)
Definition fragment : Type := list ascii * Z * Z * Z * Z.

(** One call of [haplotype_str_add] from the read loop, which does not look
    at what the call returns. *)
Definition add_fragment `{!rb_colour} (st : interval_tree * hap_heap) (x : fragment)
    : fault + interval_tree * hap_heap :=
  let '(snps, start, end_, rec1, rec2) := x in
  match haplotype_str_add st.1 st.2 snps start end_ rec1 rec2 with
  | inl e => inl e
  | inr r => inr r.1
  end.

(** A run of calls, up to the first that does not return. *)
Fixpoint add_strs `{!rb_colour} (st : interval_tree * hap_heap) (l : list fragment)
    : fault + interval_tree * hap_heap :=
  match l with
  | [] => inr st
  | x :: l' =>
      match add_fragment st x with
      | inl e => inl e
      | inr st' => add_strs st' l'
      end
  end.

(** The fragment has one character for each SNP from [start] to [end]. *)
Definition frag_ok (x : fragment) : Prop :=
  let '(snps, start, end_, _, _) := x in
  coord_range start ∧ coord_range end_ ∧ start <= end_ ∧
  Z.of_nat (length snps) = end_ - start + 1.

(** Every character of the fragment passes the [assert] of the comparison
    loop. *)
Definition frag_printable (x : fragment) : Prop :=
  let '(snps, _, _, _, _) := x in Forall (λ c, printable c = true) snps.

Definition frag_recs (x : fragment) : list Z :=
  let '(_, _, _, rec1, rec2) := x in present rec1 ++ present rec2.

Definition total (l : list Z) : Z := foldr Z.add 0 l.

(** The reads counted by the strings of the intervals [L], and the record
    numbers that these strings hold. *)
Definition nseq_sum (L : list interval) (h : hap_heap) : Z :=
  total (map (λ iv, hs_nseq (get_str h (iv_data iv))) L).

Definition recs_all (L : list interval) (h : hap_heap) : list Z :=
  concat (map (λ iv, array_get h (hs_recs (get_str h (iv_data iv)))) L).

(** From [h] to [h'] the strings of [L] outside [S] are left alone, every
    string of [L] is a group or merged away, reads and records are moved
    but neither lost nor made, and nothing is allocated. *)
Definition evolves (h0 : hap_heap) (L S : list interval) (h h' : hap_heap) : Prop :=
  cl_inv h0 L h' ∧
  (∀ iv, iv ∈ L → iv ∉ S → same_at h0 h h' iv) ∧
  nseq_sum L h' = nseq_sum L h ∧ recs_all L h' ≡ₚ recs_all L h ∧
  (∀ p, is_Some (hp_str h' !! p) ↔ is_Some (hp_str h !! p)) ∧
  (∀ a, is_Some (hp_arr h' !! a) → is_Some (hp_arr h !! a)).

(** Nothing on the heap but the strings of the intervals [L] and their
    record arrays. *)
Definition index_tight (L : list interval) (h : hap_heap) : Prop :=
  (∀ p, is_Some (hp_str h !! p) → ∃ iv, iv ∈ L ∧ iv_data iv = p) ∧
  (∀ a, is_Some (hp_arr h !! a) →
     ∃ iv, iv ∈ L ∧ hs_recs (get_str h (iv_data iv)) = Some a).

(** The index once it is clustered: a string has a record array exactly
    when it counts reads, and no two strings share one. *)
Definition index_done (it : interval_tree) (h : hap_heap) : Prop :=
  wf_tree it ∧ NoDup (map iv_data (tree_intervals (it_root it))) ∧ hp_fault h = false ∧
  index_tight (tree_intervals (it_root it)) h ∧
  (∀ iv, iv ∈ tree_intervals (it_root it) →
     ∃ hs, hp_str h !! iv_data iv = Some hs ∧
       match hs_recs hs with
       | Some a => 0 < hs_nseq hs ∧ is_Some (hp_arr h !! a)
       | None => hs_nseq hs = 0
       end) ∧
  (∀ iv1 iv2 a, iv1 ∈ tree_intervals (it_root it) → iv2 ∈ tree_intervals (it_root it) →
     hs_recs (get_str h (iv_data iv1)) = Some a →
     hs_recs (get_str h (iv_data iv2)) = Some a → iv1 = iv2).

(** [hs->nseq < min_count] in [haplotype_str_filter]. *)
Definition drops (h : hap_heap) (min_count : Z) (iv : interval) : bool :=
  match hp_str h !! iv_data iv with
  | Some hs => hs_nseq hs <? min_count
  | None => false
  end.

(** [!hs->nseq] in [haplotype_str_reclist]. *)
Definition emits (h : hap_heap) (iv : interval) : bool :=
  match hp_str h !! iv_data iv with
  | Some hs => negb (hs_nseq hs =? 0)
  | None => false
  end.

(** Three reads for the examples: AC and TC over the SNPs 0 and 1, which
    have a base against another, and CG over the SNPs 1 and 2, which goes with
    either. *)
Definition three_fragments : list fragment :=
  [(["A"; "C"]%char, 0, 1, 7, 0); (["C"; "G"]%char, 1, 2, 8, 0);
   (["T"; "C"]%char, 0, 1, 9, 3)].

Definition three_st : interval_tree * hap_heap :=
  match @add_strs rb_rotate_up (interval_tree_create, empty_heap) three_fragments with
  | inr st => st
  | inl _ => (interval_tree_create, empty_heap)
  end.

Definition three_clustered : hap_heap :=
  @haplotype_str_cluster qsort_stable three_st.1 three_st.2.

Definition three_filtered (min_count : Z) : interval_tree * hap_heap :=
  @haplotype_str_filter rb_rotate_up three_st.1 three_clustered min_count.

(** The reads AC--- and TC--- over the SNPs 0 to 4, which have a base
    against another, and two reads that have bases where these have none. *)
Definition five_fragments : list fragment :=
  [(["A"; "C"; "-"; "-"; "-"]%char, 0, 4, 7, 0);
   (["T"; "C"; "-"; "-"; "-"]%char, 0, 4, 9, 0);
   (["G"]%char, 2, 2, 8, 0);
   (["C"; "G"; "T"]%char, 1, 3, 5, 0)].

Definition five_st : interval_tree * hap_heap :=
  match @add_strs rb_insert_fix (interval_tree_create, empty_heap) five_fragments with
  | inr st => st
  | inl _ => (interval_tree_create, empty_heap)
  end.

(** [seq_t], the fields that the read loop looks at. *)
Record seq_t := mk_seq {
  s_len : Z;
  s_left : Z;
  s_right : Z;
  s_seq : list ascii
}.

(** [rangec_t] with the fields of the read loop beside those of the pairing
    pass.  [rg_isseq] is [(flags & GRANGE_FLAG_ISMASK) == GRANGE_FLAG_ISSEQ];
    the loop only ever writes [GRANGE_FLAG_ISCONS] to [flags], which clears
    it. *)
Record range_t := mk_read {
  rg_ids : rangec;
  rg_start : Z;
  rg_end : Z;
  rg_comp : Z;
  rg_isseq : bool
}.

(** What [find_haplotypes_single] gets from the rest of gap5:
    [cache_search(io, GT_Seq, rec)], [complement_base], the test
    [scores[6] >= het_score || discrep >= discrep_score] on the consensus of
    a position, and the reads of [contig_seqs_in_range].  Positions in the
    contig are far from [INT_MAX]; sums of them are not wrapped. *)
Record gap_input := mk_input {
  cache_search_seq : Z → seq_t;
  complement_base : ascii → ascii;
  het_site : Z → bool;
  contig_seqs_in_range : list range_t
}.

Definition set_iscons (r : range_t) : range_t :=
  mk_read (rg_ids r) (rg_start r) (rg_end r) (rg_comp r) false.

(** [(s->len < 0) ^ r->comp] *)
Definition flipped (s : seq_t) (r : range_t) : bool :=
  negb (Z.lxor (if s_len s <? 0 then 1 else 0) (rg_comp r) =? 0).

(** The clipped extent of the read in the contig. *)
Definition clip (s : seq_t) (r : range_t) : Z * Z :=
  if flipped s r
  then (rg_start r + Z.abs (s_len s) - (s_right s - 1) - 1,
        rg_start r + Z.abs (s_len s) - (s_left s - 1) - 1)
  else (rg_start r + s_left s - 1, rg_start r + s_right s - 1).

Definition seq_at (s : seq_t) (i : Z) : fault + ascii :=
  if (0 <=? i) && (i <? Z.of_nat (length (s_seq s)))
  then inr (nth (Z.to_nat i) (s_seq s) NUL)
  else inl out_of_range.

(** The base of the read at the contig position [pos]. *)
Definition base_at (io : gap_input) (s : seq_t) (r : range_t) (pos : Z) : fault + ascii :=
  if flipped s r then
    match seq_at s (Z.abs (s_len s) - 1 - (pos - rg_start r)) with
    | inr b => inr (complement_base io b)
    | inl e => inl e
    end
  else seq_at s (pos - rg_start r).

(** [while (p1 && p1->pos < left) { p1 = p1->next; snp_no++; }] *)
Fixpoint skip_before (left : Z) (p1 : list Z) (snp_no : Z) : list Z * Z :=
  match p1 with
  | pos :: next => if pos <? left then skip_before left next (snp_no + 1) else (p1, snp_no)
  | [] => ([], snp_no)
  end.

(** The loops that copy the bases at the sites up to [right] into [hstr];
    the one for the read itself has the [assert], the one for its mate has
    not.  [hstr] is the buffer up to the index [snp_no2 - snp_no]. *)
Fixpoint copy_bases (io : gap_input) (checked : bool) (s : seq_t) (r : range_t) (right : Z)
    (p2 : list Z) (hstr : list ascii) : fault + (list Z * list ascii) :=
  match p2 with
  | pos :: next =>
      if pos <=? right then
        match base_at io s r pos with
        | inr b =>
            if checked && negb (printable b) then inl assert_failed
            else copy_bases io checked s r right next (hstr ++ [b])
        | inl e => inl e
        end
      else inr (p2, hstr)
  | [] => inr ([], hstr)
  end.

(** [while (p2 && p2->pos < left) { hstr[snp_no2++-snp_no] = '-'; ... }] *)
Fixpoint pad (left : Z) (p2 : list Z) (hstr : list ascii) : list Z * list ascii :=
  match p2 with
  | pos :: next => if pos <? left then pad left next (hstr ++ [dash]) else (p2, hstr)
  | [] => ([], hstr)
  end.

(** "Accumulate haplotypes": the loop over the reads, [n] reads from the
    index [i] on.  [add] is [haplotype_str_add] on the index [st]; the loop
    never looks into the index, so it is written over any [add].  The loop
    stops where [add] does, or at the [assert] of its own, or at an index
    outside [s->seq] or [rng]. *)
Fixpoint read_loop {St : Type} (add : St → fragment → fault + St) (io : gap_input)
    (pairs : bool)
    (n i : nat) (rng : list range_t) (p1 : list Z) (snp_no : Z) (st : St)
    : fault + St :=
  match n with
  | O => inr st
  | S n' =>
      match rng !! i with
      | None => inr st
      | Some r =>
          if negb (rg_isseq r) then read_loop add io pairs n' (S i) rng p1 snp_no st else
          let s := cache_search_seq io (r_rec (rg_ids r)) in
          if s_right s <? s_left s then read_loop add io pairs n' (S i) rng p1 snp_no st else
          let left := Z.max (clip s r).1 (rg_start r) in
          let right := Z.min (clip s r).2 (rg_end r) in
          let '(p1, snp_no) := skip_before left p1 snp_no in
          match p1 with
          | [] => inr st
          | pos :: _ =>
              if right <? pos then read_loop add io pairs n' (S i) rng p1 snp_no st else
              match copy_bases io true s r right p1 [] with
              | inl e => inl e
              | inr (p2, hstr) =>
                  match mate_index pairs (rg_ids r) with
                  | None =>
                      match add st (hstr, snp_no, snp_no + Z.of_nat (length hstr) - 1,
                                    r_rec (rg_ids r), 0) with
                      | inl e => inl e
                      | inr st => read_loop add io pairs n' (S i) rng p1 snp_no st
                      end
                  | Some j =>
                      match rng !! j with
                      | None => inl out_of_range
                      | Some rp =>
                          if negb (rg_isseq rp)
                          then read_loop add io pairs n' (S i) rng p1 snp_no st else
                          let s := cache_search_seq io (r_rec (rg_ids rp)) in
                          if s_right s <? s_left s
                          then read_loop add io pairs n' (S i) rng p1 snp_no st else
                          let '(p2, hstr) := pad (clip s rp).1 p2 hstr in
                          match copy_bases io false s rp (clip s rp).2 p2 hstr with
                          | inl e => inl e
                          | inr (_, hstr) =>
                              match add st (hstr, snp_no,
                                            snp_no + Z.of_nat (length hstr) - 1,
                                            r_rec (rg_ids r), r_rec (rg_ids rp)) with
                              | inl e => inl e
                              | inr st =>
                                  read_loop add io pairs n' (S i)
                                    (<[j := set_iscons rp]> rng) p1 snp_no st
                              end
                          end
                      end
                  end
              end
          end
      end
  end.

(** The sites from [start] to [end], in the order of [add_haplotype_pos]. *)
Definition haplotype_sites (io : gap_input) (start end_ : Z) : list Z :=
  List.filter (het_site io) (map (λ k, start + Z.of_nat k) (seq 0 (Z.to_nat (end_ - start + 1)))).

(** The pairing pass on the reads. *)
Definition pair_reads (rng : list range_t) : list range_t :=
  zip_with (λ r ids, mk_read ids (rg_start r) (rg_end r) (rg_comp r) (rg_isseq r))
           rng (pair_up (map rg_ids rng)).

(** [find_haplotypes_single] from [interval_tree_create] on: the record
    list and the heap it leaves. *)
Definition find_haplotypes_single `{!rb_colour} `{!block_sort} (io : gap_input)
    (start end_ min_count : Z) (pairs : bool) (rec_list : list (option nat))
    : fault + (hap_heap * list (option nat)) :=
  let sites := haplotype_sites io start end_ in
  let rng := pair_reads (contig_seqs_in_range io) in
  match read_loop add_fragment io pairs (length rng) 0 rng sites 0
                  (interval_tree_create, empty_heap) with
  | inl e => inl e
  | inr st =>
      let h := haplotype_str_cluster st.1 st.2 in
      let f := haplotype_str_filter st.1 h min_count in
      let r := haplotype_str_reclist f.1 f.2 rec_list in
      inr (interval_tree_destroy f.1 haplotype_str_free r.1, r.2)
  end.

(** The calls of a run of the loop, in order. *)
Definition trace (calls : list fragment) (x : fragment) : fault + list fragment :=
  inr (calls ++ [x]).

(** The fragment lies in the numbering [0 .. nsnps - 1] of the sites and has
    a character for each site of its range. *)
Definition in_sites (nsnps : Z) (x : fragment) : Prop :=
  let '(snps, start, end_, _, _) := x in
  0 <= start ∧ start <= end_ ∧ end_ < nsnps ∧ Z.of_nat (length snps) = end_ - start + 1.

(** The clip points of a sequence lie in it, and [len] is its length up to
    the sign. *)
Definition seq_ok (s : seq_t) : Prop :=
  1 <= s_left s ∧ s_right s <= Z.abs (s_len s) ∧
  Z.abs (s_len s) = Z.of_nat (length (s_seq s)).

(** A read as [contig_seqs_in_range] gives it: it does not span more of the
    contig than its sequence is long, and its bases and their complements
    are printable. *)
Definition read_ok (io : gap_input) (r : range_t) : Prop :=
  let s := cache_search_seq io (r_rec (rg_ids r)) in
  seq_ok s ∧ rg_end r - rg_start r < Z.abs (s_len s) ∧
  Forall (λ b, printable b = true ∧ printable (complement_base io b) = true) (s_seq s).

(** The mate that a read names is a read. *)
Definition mate_ok (n : nat) (r : range_t) : Prop :=
  r_pair_rec (rg_ids r) < 0 → (Z.to_nat (- r_pair_rec (rg_ids r)) < n)%nat.

(** The reads before the pairing pass: no [pair_rec] is negative. *)
Definition input_ok (io : gap_input) : Prop :=
  Forall (λ r, read_ok io r ∧ 0 <= r_pair_rec (rg_ids r)) (contig_seqs_in_range io).

Definition bases_ok (io : gap_input) (r : range_t) : Prop :=
  Forall (λ b, printable b = true ∧ printable (complement_base io b) = true)
         (s_seq (cache_search_seq io (r_rec (rg_ids r)))).

(** Two reads of four bases over the sites 2 and 5 of a contig; the second
    names the first as its mate. *)
Definition example_io : gap_input :=
  mk_input (λ rec, if rec =? 10 then mk_seq 4 1 4 ["A"; "C"; "G"; "T"]%char
                   else mk_seq (-4) 1 4 ["C"; "T"; "A"; "A"]%char)
           (λ b, if Ascii.eqb b "A" then "T" else if Ascii.eqb b "T" then "A"
                 else if Ascii.eqb b "C" then "G" else if Ascii.eqb b "G" then "C"
                 else b)%char
           (λ pos, (pos =? 2) || (pos =? 5))
           [mk_read (mk_range 10 0) 1 4 0 true; mk_read (mk_range 11 10) 3 6 0 true].

(** [struct haplotype_pos]; [prev] and [next] are addresses, [None] for
    [NULL]. *)
Record haplotype_pos := mk_pos {
  p_pos : Z;
  p_score : Z;
  p_prev : option nat;
  p_next : option nat
}.

(** The nodes by address, with [*phead] and [*ptail].  [pl_brk] is the next
    address that [calloc] hands out; [pl_fault] is raised by the use of a
    pointer that is [NULL] or not allocated. *)
Record pos_list := mk_pl {
  pl_heap : gmap nat haplotype_pos;
  pl_head : option nat;
  pl_tail : option nat;
  pl_brk : nat;
  pl_fault : bool
}.

Definition pos_list_empty : pos_list := mk_pl ∅ None None 1 false.

Definition set_next (v : option nat) (n : haplotype_pos) : haplotype_pos :=
  mk_pos (p_pos n) (p_score n) (p_prev n) v.

Definition set_prev (v : option nat) (n : haplotype_pos) : haplotype_pos :=
  mk_pos (p_pos n) (p_score n) v (p_next n).

(** A store through a pointer. *)
Definition poke (f : haplotype_pos → haplotype_pos) (a : option nat)
    (hf : gmap nat haplotype_pos * bool) : gmap nat haplotype_pos * bool :=
  match a with
  | Some a' =>
      match hf.1 !! a' with
      | Some _ => (alter f a' hf.1, hf.2)
      | None => (hf.1, true)
      end
  | None => (hf.1, true)
  end.

Definition add_haplotype_pos (l : pos_list) (pos : Z) : pos_list * Z :=
  let p := pl_brk l in
  let h := <[p := mk_pos pos 0 None None]> (pl_heap l) in
  match pl_tail l with
  | Some t =>
      let hf := poke (set_next (Some p)) (Some t) (h, pl_fault l) in
      let hf := poke (set_prev (Some t)) (Some p) hf in
      (mk_pl hf.1 (pl_head l) (Some p) (S p) hf.2, 0)
  | None => (mk_pl h (Some p) (Some p) (S p) (pl_fault l), 0)
  end.

Definition del_haplotype_pos (l : pos_list) (p : nat) : pos_list :=
  match pl_heap l !! p with
  | None => mk_pl (pl_heap l) (pl_head l) (pl_tail l) (pl_brk l) true
  | Some n =>
      let '(head, hf) :=
        if decide (Some p = pl_head l) then (p_next n, (pl_heap l, pl_fault l))
        else (pl_head l, poke (set_next (p_next n)) (p_prev n) (pl_heap l, pl_fault l)) in
      let '(tail, hf) :=
        if decide (Some p = pl_tail l) then (p_prev n, hf)
        else (pl_tail l, poke (set_prev (p_prev n)) (p_next n) hf) in
      mk_pl (delete p hf.1) head tail (pl_brk l) hf.2
  end.

(** [for (p = cur; p; p = p->next)] and [for (p = cur; p; p = p->prev)]:
    the nodes met before the pointer is NULL.  There is no result when a
    pointer that is not NULL leads to no node, or when more than [fuel]
    nodes are met. *)
Fixpoint follow_next (fuel : nat) (h : gmap nat haplotype_pos) (cur : option nat)
    : option (list (nat * Z)) :=
  match cur, fuel with
  | None, _ => Some []
  | Some a, S fuel' =>
      match h !! a with
      | Some n => cons (a, p_pos n) <$> follow_next fuel' h (p_next n)
      | None => None
      end
  | Some _, O => None
  end.

Fixpoint follow_prev (fuel : nat) (h : gmap nat haplotype_pos) (cur : option nat)
    : option (list (nat * Z)) :=
  match cur, fuel with
  | None, _ => Some []
  | Some a, S fuel' =>
      match h !! a with
      | Some n => cons (a, p_pos n) <$> follow_prev fuel' h (p_prev n)
      | None => None
      end
  | Some _, O => None
  end.

(** The nodes [l], linked in this order from [cur] on, after the node
    [prev] and up to the node [last]. *)
Fixpoint dseg (h : gmap nat haplotype_pos) (prev : option nat) (l : list (nat * Z))
    (cur last : option nat) : Prop :=
  match l with
  | [] => cur = None ∧ last = prev
  | (a, pos) :: l' =>
      cur = Some a ∧
      ∃ n, h !! a = Some n ∧ p_pos n = pos ∧ p_prev n = prev ∧
           dseg h (Some a) l' (p_next n) last
  end.

(** The list holds the nodes [l], and nothing else is allocated. *)
Definition dll (st : pos_list) (l : list (nat * Z)) : Prop :=
  dseg (pl_heap st) None l (pl_head st) (pl_tail st) ∧ NoDup (map fst l) ∧
  (∀ a, is_Some (pl_heap st !! a) ↔ a ∈ map fst l) ∧
  (∀ a, a ∈ map fst l → (a < pl_brk st)%nat) ∧ pl_fault st = false.

(** The calls on the list: [add_haplotype_pos] with a position and
    [del_haplotype_pos] with a node. *)
Inductive pos_op := POS_ADD (pos : Z) | POS_DEL (p : nat).

Definition pos_apply (st : pos_list) (op : pos_op) : pos_list :=
  match op with
  | POS_ADD pos => (add_haplotype_pos st pos).1
  | POS_DEL p => del_haplotype_pos st p
  end.

(** What the calls do to the sequence of nodes, [brk] being the next
    address. *)
Definition seq_apply (s : list (nat * Z) * nat) (op : pos_op) : list (nat * Z) * nat :=
  match op with
  | POS_ADD pos => (s.1 ++ [(s.2, pos)], S s.2)
  | POS_DEL p => (List.filter (λ x, negb (Nat.eqb x.1 p)) s.1, s.2)
  end.

(** A node that is deleted is in the list. *)
Fixpoint pos_ops_ok (s : list (nat * Z) * nat) (ops : list pos_op) : Prop :=
  match ops with
  | [] => True
  | op :: rest =>
      match op with
      | POS_ADD _ => True
      | POS_DEL p => p ∈ map fst s.1
      end ∧ pos_ops_ok (seq_apply s op) rest
  end.

(** The heap once [p], with the fields [n], is unlinked and freed. *)
Definition unlink (h : gmap nat haplotype_pos) (p : nat) (n : haplotype_pos)
    : gmap nat haplotype_pos :=
  delete p
    (match p_next n with
     | Some b => alter (set_prev (p_prev n)) b
     | None => id
     end (match p_prev n with
          | Some a => alter (set_next (p_next n)) a
          | None => id
          end h)).

(** The record numbers of the reads are different and none is 0, and a
    read that names a mate by its index names a later read. *)
Definition ids_ok (ids : list rangec) : Prop :=
  NoDup (map r_rec ids) ∧ Forall (λ r, r_rec r ≠ 0) ids ∧
  ∀ k r, ids !! k = Some r → r_pair_rec r < 0 →
    (k < Z.to_nat (- r_pair_rec r))%nat.

(** The reads before the pairing pass have different record numbers, and
    none is 0. *)
Definition recs_distinct (io : gap_input) : Prop :=
  NoDup (map (λ r, r_rec (rg_ids r)) (contig_seqs_in_range io)) ∧
  Forall (λ r, r_rec (rg_ids r) ≠ 0) (contig_seqs_in_range io).

(** [for (i = start; i <= end; i++) if (...) { add_haplotype_pos(&phead,
    &ptail, i); nsnps++; }], [n] positions from [i] on; the state is the
    list and [nsnps]. *)
Fixpoint site_loop (io : gap_input) (n : nat) (i : Z) (st : pos_list * Z) : pos_list * Z :=
  match n with
  | O => st
  | S n' =>
      site_loop io n' (i + 1)
        (if het_site io i then ((add_haplotype_pos st.1 i).1, st.2 + 1) else st)
  end.

Definition site_list (io : gap_input) (start end_ : Z) : pos_list * Z :=
  site_loop io (Z.to_nat (end_ - start + 1)) start (pos_list_empty, 0).

(** A string that [ivp_sort] can compare without overflow: its
    [sqrt(length) * nseq] has not come out negative, and its range is one
    of the tree. *)
Definition ivp_plain (hs : haplotype_str) : Prop :=
  0 <= ivp_priority hs ∧ coord_range (hs_start hs) ∧ coord_range (hs_end hs).

(** A string, and a heap, with the [count] arrays taken away. *)
Definition drop_count (hs : haplotype_str) : haplotype_str :=
  mk_hs (hs_snps hs) [] (hs_nseq hs) (hs_start hs) (hs_end hs) (hs_recs hs).

Definition drop_counts (h : hap_heap) : hap_heap :=
  mk_heap (drop_count <$> hp_str h) (hp_arr h) (hp_fault h).

(** * Proofs *)

(** ** Lists *)

Lemma elem_of_map {A B} (f : A → B) (l : list A) y :
  y ∈ map f l ↔ ∃ x, y = f x ∧ x ∈ l.
Proof. apply (list_elem_of_fmap f). Qed.

Lemma elem_of_map_2 {A B} (f : A → B) (l : list A) x : x ∈ l → f x ∈ map f l.
Proof. apply (list_elem_of_fmap_2 f). Qed.

Lemma elem_of_concat {A} (ls : list (list A)) x :
  x ∈ concat ls ↔ ∃ l, l ∈ ls ∧ x ∈ l.
Proof.
  rewrite list_elem_of_In, in_concat. setoid_rewrite list_elem_of_In. naive_solver.
Qed.

Lemma find_app {A} (p : A → bool) (l1 l2 : list A) :
  List.find p (l1 ++ l2) =
  match List.find p l1 with Some x => Some x | None => List.find p l2 end.
Proof. induction l1 as [|a l1 IH]; simpl; [done|]. by destruct (p a). Qed.

Lemma find_none_intro {A} (p : A → bool) (l : list A) :
  (∀ x, x ∈ l → p x = false) → List.find p l = None.
Proof.
  induction l as [|a l IH]; intros H; simpl; [done|].
  rewrite H by left. apply IH. intros x Hx. apply H. by right.
Qed.

Lemma last_cons_Some {A} (x : A) (l : list A) : ∃ y, last (x :: l) = Some y.
Proof.
  revert x. induction l as [|a l IH]; intros x; [by exists x|].
  destruct (IH a) as [y Hy]. exists y. by rewrite last_cons, Hy.
Qed.

(** ** Machine integers and the comparator *)

Lemma wrap_int_small z : INT_MIN <= z <= INT_MAX → wrap_int z = z.
Proof.
  unfold wrap_int, INT_MIN, INT_MAX. intros H.
  rewrite Z.mod_small by lia. lia.
Qed.

Lemma int_sub_exact a b : coord_range a → coord_range b → int_sub a b = a - b.
Proof.
  unfold int_sub, coord_range. intros Ha Hb. apply wrap_int_small.
  unfold INT_MIN, INT_MAX. lia.
Qed.

Lemma coord_range_int x : coord_range x → INT_MIN <= x <= INT_MAX.
Proof. unfold coord_range, INT_MIN, INT_MAX. lia. Qed.

Lemma interval_cmp_neg n m :
  node_coords n → node_coords m → (interval_cmp n m < 0 ↔ key_lt n m).
Proof.
  intros [? ?] [? ?]. unfold interval_cmp, key_lt.
  destruct (Z.eqb_spec (nd_start n) (nd_start m)); rewrite int_sub_exact by done; lia.
Qed.

Lemma interval_cmp_pos n m :
  node_coords n → node_coords m → (0 < interval_cmp n m ↔ key_lt m n).
Proof.
  intros [? ?] [? ?]. unfold interval_cmp, key_lt.
  destruct (Z.eqb_spec (nd_start n) (nd_start m)); rewrite int_sub_exact by done; lia.
Qed.

Lemma interval_cmp_zero n m :
  node_coords n → node_coords m →
  ¬ interval_cmp n m < 0 → ¬ 0 < interval_cmp n m →
  nd_start n = nd_start m ∧ nd_end n = nd_end m.
Proof.
  intros [? ?] [? ?]. unfold interval_cmp.
  destruct (Z.eqb_spec (nd_start n) (nd_start m)); rewrite int_sub_exact by done; lia.
Qed.

Lemma key_lt_trans n m k : key_lt n m → key_lt m k → key_lt n k.
Proof. unfold key_lt. lia. Qed.

Lemma key_lt_irrefl n : ¬ key_lt n n.
Proof. unfold key_lt. lia. Qed.

(** ** Trees, paths and node pointers *)

Lemma nodes_plug t c :
  nodes (plug t c) = path_before c ++ nodes t ++ path_after c.
Proof.
  revert t. induction c as [|[p r|l p] c IH]; intros t; simpl.
  - by rewrite app_nil_r.
  - rewrite IH. simpl. by rewrite <- !app_assoc.
  - rewrite IH. simpl. by rewrite <- !app_assoc.
Qed.

Lemma locate_Some x t c z :
  locate x t c = Some z →
  plug_cursor z = plug t c ∧ ∃ l n r, fst z = RB_NODE l n r ∧ nd_id n = x.
Proof.
  revert c. induction t as [|l IHl n r IHr]; intros c; simpl; [done|].
  destruct (Nat.eqb_spec (nd_id n) x) as [Heq|Hne].
  - intros [= <-]. split; [done|]. by exists l, n, r.
  - destruct (locate x l (FrameL n r :: c)) as [z'|] eqn:El.
    + intros [= <-]. destruct (IHl _ El) as [H1 H2]. by split.
    + intros Er. destruct (IHr _ Er) as [H1 H2]. by split.
Qed.

Lemma locate_None x t c : x ∉ ids t → locate x t c = None.
Proof.
  revert c. unfold ids. induction t as [|l IHl n r IHr]; intros c Hx; simpl; [done|].
  simpl in Hx. rewrite map_app in Hx. simpl in Hx.
  rewrite elem_of_app, elem_of_cons in Hx.
  destruct (Nat.eqb_spec (nd_id n) x) as [Heq|Hne]; [naive_solver|].
  rewrite IHl by tauto. apply IHr. tauto.
Qed.

Lemma locate_is_Some x t c : x ∈ ids t → is_Some (locate x t c).
Proof.
  revert c. unfold ids. induction t as [|l IHl n r IHr]; intros c Hx; simpl.
  - by apply elem_of_nil in Hx.
  - simpl in Hx. rewrite map_app in Hx. simpl in Hx.
    rewrite elem_of_app, elem_of_cons in Hx.
    destruct (Nat.eqb_spec (nd_id n) x) as [Heq|Hne]; [by eexists|].
    destruct Hx as [Hx|[Hx|Hx]]; [|congruence|].
    + destruct (IHl (FrameL n r :: c) Hx) as [z ->]. by eexists.
    + destruct (locate x l (FrameL n r :: c)); [by eexists|]. by apply IHr.
Qed.

Lemma ids_plug t c :
  ids (plug t c) = map nd_id (path_before c) ++ ids t ++ map nd_id (path_after c).
Proof. unfold ids. by rewrite nodes_plug, !map_app. Qed.

Lemma locate_plug_gen x t c c0 :
  NoDup (ids (plug t c)) → x ∈ ids t →
  locate x (plug t c) c0 = locate x t (c ++ c0).
Proof.
  revert t. induction c as [|f c IH]; intros t Hnd Hx; [done|].
  simpl in *. rewrite IH; [|done|].
  2:{ destruct f; unfold ids in *; simpl; rewrite map_app; simpl; set_solver. }
  rewrite ids_plug in Hnd. apply NoDup_app in Hnd as (_ & _ & Hnd).
  apply NoDup_app in Hnd as (Hnd & _ & _).
  destruct f as [p r|l p]; unfold ids in Hnd, Hx; simpl in *;
    rewrite map_app in Hnd; simpl in Hnd.
  - apply NoDup_app in Hnd as (_ & Hd & _).
    specialize (Hd _ Hx).
    destruct (Nat.eqb_spec (nd_id p) x); [set_solver|].
    by destruct (locate_is_Some x t (FrameL p r :: c ++ c0) Hx) as [z ->].
  - apply NoDup_app in Hnd as (_ & Hd & Hnd').
    apply NoDup_cons in Hnd' as [Hp _].
    destruct (Nat.eqb_spec (nd_id p) x) as [Heq|]; [by subst x|].
    rewrite locate_None; [done|].
    intros Hl. specialize (Hd _ Hl). set_solver.
Qed.

Lemma locate_plug l n r c :
  NoDup (ids (plug (RB_NODE l n r) c)) →
  locate (nd_id n) (plug (RB_NODE l n r) c) [] = Some (RB_NODE l n r, c).
Proof.
  intros Hnd. rewrite locate_plug_gen; [|done|].
  - simpl. by rewrite Nat.eqb_refl, app_nil_r.
  - unfold ids. simpl. rewrite map_app. simpl. set_solver.
Qed.

(** A located node determines the tree around it. *)
Lemma locate_inv x t z :
  locate x t [] = Some z →
  ∃ l n r c, z = (RB_NODE l n r, c) ∧ nd_id n = x ∧ t = plug (RB_NODE l n r) c.
Proof.
  intros H. destruct (locate_Some _ _ _ _ H) as [Hp (l & n & r & Hz & Hn)].
  destruct z as [t' c]. simpl in *. subst. by exists l, n, r, c.
Qed.

(** ** What an operation leaves of the nodes: everything but [last] *)

Lemma erase_set_last n v : erase (set_last n v) = erase n.
Proof. by destruct n. Qed.

Lemma erase_id n : nd_id (erase n) = nd_id n.
Proof. by destruct n. Qed.

Lemma path_eqv_refl c : path_eqv c c.
Proof. induction c as [|[]]; simpl; auto. Qed.

Lemma path_eqv_trans c1 c2 c3 : path_eqv c1 c2 → path_eqv c2 c3 → path_eqv c1 c3.
Proof.
  revert c2 c3. induction c1 as [|[] c1 IH]; intros [|[] c2] [|[] c3]; simpl;
    try tauto; intros (? & ? & ?) (? & ? & ?); repeat split; try congruence; eauto.
Qed.

Lemma path_eqv_raise v c : path_eqv c (raise v c).
Proof.
  induction c as [|f c IH]; [done|].
  cbn [raise]. destruct (nd_last (frame_node f) <? v).
  - destruct f; simpl; rewrite erase_set_last; auto.
  - apply path_eqv_refl.
Qed.

Lemma path_eqv_length c c' : path_eqv c c' → length c = length c'.
Proof.
  revert c'. induction c as [|[] c IH]; intros [|[] c']; simpl; try tauto;
    intros (? & ? & ?); f_equal; auto.
Qed.

Lemma path_eqv_before c c' :
  path_eqv c c' → map erase (path_before c) = map erase (path_before c').
Proof.
  revert c'. induction c as [|[] c IH]; intros [|[] c']; simpl; try tauto;
    intros (? & ? & ?); subst; rewrite ?map_app; simpl; erewrite ?IH by done; congruence.
Qed.

Lemma path_eqv_after c c' :
  path_eqv c c' → map erase (path_after c) = map erase (path_after c').
Proof.
  revert c'. induction c as [|[] c IH]; intros [|[] c']; simpl; try tauto;
    intros (? & ? & ?); subst; rewrite ?map_app; simpl; erewrite ?IH by done; congruence.
Qed.

Lemma map_id_erase l : map nd_id (map erase l) = map nd_id l.
Proof. rewrite map_map. apply map_ext. intros; apply erase_id. Qed.

Lemma path_eqv_ids c c' :
  path_eqv c c' →
  map nd_id (path_before c) = map nd_id (path_before c') ∧
  map nd_id (path_after c) = map nd_id (path_after c').
Proof.
  intros H. split.
  - rewrite <- (map_id_erase (path_before c)), (path_eqv_before _ _ H).
    apply map_id_erase.
  - rewrite <- (map_id_erase (path_after c)), (path_eqv_after _ _ H).
    apply map_id_erase.
Qed.

Lemma contents_plug t c :
  contents (plug t c) =
  map erase (path_before c) ++ contents t ++ map erase (path_after c).
Proof. unfold contents. by rewrite nodes_plug, !map_app. Qed.

Lemma contents_plug_eqv t t' c c' :
  contents t = contents t' → path_eqv c c' →
  contents (plug t c) = contents (plug t' c').
Proof.
  intros Ht Hc. rewrite !contents_plug, Ht.
  by rewrite (path_eqv_before _ _ Hc), (path_eqv_after _ _ Hc).
Qed.

Lemma contents_ids t : map nd_id (contents t) = ids t.
Proof. apply map_id_erase. Qed.

Lemma keeps_contents f z : keeps f → contents (plug_cursor (f z)) = contents (plug_cursor z).
Proof.
  intros Hf. destruct z as [t c]. destruct (Hf t c) as [H1 H2].
  unfold plug_cursor. simpl. symmetry. by apply contents_plug_eqv.
Qed.

Lemma interval_augment_spec l n r c :
  ∃ v c', interval_augment (RB_NODE l n r, c) = (RB_NODE l (set_last n v) r, c')
          ∧ path_eqv c c'.
Proof.
  simpl. destruct (nd_end n <? _).
  - eexists _, _. split; [done|]. apply path_eqv_raise.
  - eexists _, _. split; [done|]. apply path_eqv_refl.
Qed.

Lemma keeps_augment : keeps interval_augment.
Proof.
  intros [|l n r] c; [by split; [|apply path_eqv_refl]|].
  destruct (interval_augment_spec l n r c) as (v & c' & -> & Hc). split; [|done].
  unfold contents. simpl. by rewrite !map_app.
Qed.

Lemma contents_fill f f' t t' :
  contents t = contents t' → path_eqv [f] [f'] → contents (fill f t) = contents (fill f' t').
Proof.
  unfold contents. destruct f, f'; simpl; try tauto; intros Ht (? & ? & _); subst;
    rewrite !map_app; simpl; congruence.
Qed.

Lemma keeps_augment_parent_gen t c :
  contents (plug_cursor (augment_parent (t, c))) = contents (plug t c).
Proof.
  destruct c as [|f c]; [done|]. unfold augment_parent.
  by rewrite (keeps_contents interval_augment _ keeps_augment).
Qed.

Lemma rotate_left_contents z :
  contents (plug_cursor (RB_ROTATE_LEFT z)) = contents (plug_cursor z).
Proof.
  destruct z as [[|a elm [|b tmp c]] up]; try done.
  unfold RB_ROTATE_LEFT.
  destruct (interval_augment_spec a elm b up) as (v1 & up1 & -> & H1). simpl fst; simpl snd.
  destruct (interval_augment_spec (RB_NODE a (set_last elm v1) b) tmp c up1)
    as (v2 & up2 & -> & H2).
  rewrite keeps_augment_parent_gen. unfold plug_cursor. simpl.
  apply contents_plug_eqv.
  - unfold contents. simpl. rewrite !map_app. simpl. rewrite !map_app. simpl.
    rewrite !erase_set_last. by rewrite <- !app_assoc.
  - clear -H1 H2. revert H1 H2. generalize up up1 up2. clear.
    induction up as [|[] up IH]; intros [|[] up1] [|[] up2]; simpl; try tauto;
      intros (? & ? & ?) (? & ? & ?); repeat split; try congruence; eauto.
Qed.

Lemma rotate_right_contents z :
  contents (plug_cursor (RB_ROTATE_RIGHT z)) = contents (plug_cursor z).
Proof.
  destruct z as [[|[|a tmp b] elm c] up]; try done.
  unfold RB_ROTATE_RIGHT.
  destruct (interval_augment_spec b elm c up) as (v1 & up1 & -> & H1). simpl fst; simpl snd.
  destruct (interval_augment_spec a tmp (RB_NODE b (set_last elm v1) c) up1)
    as (v2 & up2 & -> & H2).
  rewrite keeps_augment_parent_gen. unfold plug_cursor. simpl.
  apply contents_plug_eqv.
  - unfold contents. simpl. rewrite !map_app. simpl. rewrite !map_app. simpl.
    rewrite !erase_set_last. by rewrite <- !app_assoc.
  - clear -H1 H2. revert H1 H2. generalize up up1 up2. clear.
    induction up as [|[] up IH]; intros [|[] up1] [|[] up2]; simpl; try tauto;
      intros (? & ? & ?) (? & ? & ?); repeat split; try congruence; eauto.
Qed.

Lemma at_node_contents x f t :
  (∀ z, contents (plug_cursor (f z)) = contents (plug_cursor z)) →
  contents (at_node x f t) = contents t.
Proof.
  intros Hf. unfold at_node. destruct (locate x t []) as [z|] eqn:E; [|done].
  rewrite Hf. by destruct (locate_Some _ _ _ _ E) as [-> _].
Qed.

Lemma rotate_contents t r : contents (rotate t r) = contents t.
Proof.
  destruct r; simpl; apply at_node_contents; intros z;
    [apply rotate_left_contents|apply rotate_right_contents].
Qed.

Lemma rebalance_contents plan t : contents (rebalance plan t) = contents t.
Proof.
  revert t. unfold rebalance. induction plan as [|r plan IH]; intros t; simpl; [done|].
  by rewrite IH, rotate_contents.
Qed.

(** ** The invariant of the node list *)

Lemma node_ok_coords n : node_ok n → node_coords n.
Proof.
  intros [Hall (i & Hi & He)]. rewrite Forall_forall in Hall.
  destruct (Hall i Hi) as (Hs & _ & ? & ?). unfold node_coords. by rewrite <- Hs, <- He.
Qed.

Lemma node_lt_key n m : node_ok m → node_lt n m → key_lt n m.
Proof.
  intros [_ (i & Hi & He)] [H|[H1 H2]]; [by left|right]. split; [done|].
  rewrite Forall_forall in H2. rewrite <- He. by apply H2.
Qed.

Lemma erase_fields n :
  nd_id (erase n) = nd_id n ∧ nd_start (erase n) = nd_start n ∧
  nd_end (erase n) = nd_end n ∧ nd_intervals (erase n) = nd_intervals n.
Proof. by destruct n. Qed.

Lemma node_ok_erase n : node_ok (erase n) ↔ node_ok n.
Proof. by destruct n. Qed.

Lemma node_lt_erase n m : node_lt (erase n) (erase m) ↔ node_lt n m.
Proof. by destruct n, m. Qed.

Lemma key_lt_erase_l n m : key_lt (erase n) m ↔ key_lt n m.
Proof. by destruct n. Qed.

Lemma all_intervals_erase ns : all_intervals (map erase ns) = all_intervals ns.
Proof.
  unfold all_intervals. rewrite map_map. done.
Qed.

Lemma StronglySorted_map_erase ns :
  StronglySorted node_lt (map erase ns) ↔ StronglySorted node_lt ns.
Proof.
  induction ns as [|n ns IH]; simpl.
  - split; constructor.
  - rewrite !StronglySorted_cons, IH, Forall_map.
    apply and_iff_compat_r, Forall_proper; [|done]. intros m. apply node_lt_erase.
Qed.

(** The invariant does not look at [last]. *)
Lemma wf_nodes_erase brk ns : wf_nodes brk (map erase ns) ↔ wf_nodes brk ns.
Proof.
  split; intros [H1 H2 H3 H4 H5 H6]; split.
  - by apply StronglySorted_map_erase.
  - rewrite Forall_forall in *. intros n Hn. apply (proj1 (node_ok_erase n)), H2.
    by apply elem_of_map_2.
  - by rewrite map_id_erase in H3.
  - by rewrite all_intervals_erase in H4.
  - rewrite Forall_forall in *. intros n Hn.
    rewrite <- erase_id. apply H5. by apply elem_of_map_2.
  - by rewrite all_intervals_erase in H6.
  - by apply StronglySorted_map_erase.
  - rewrite Forall_forall in *. intros n' Hn.
    apply elem_of_map in Hn as (n & -> & Hn). by apply (proj2 (node_ok_erase n)), H2.
  - by rewrite map_id_erase.
  - by rewrite all_intervals_erase.
  - rewrite Forall_forall in *. intros n' Hn.
    apply elem_of_map in Hn as (n & -> & Hn). rewrite erase_id. by apply H5.
  - by rewrite all_intervals_erase.
Qed.

Lemma wf_key_sorted brk ns : wf_nodes brk ns → key_sorted ns.
Proof.
  intros [H1 H2 _ _ _ _]. split.
  - clear -H1 H2. induction H1 as [|n ns Hs IH Hn]; [constructor|].
    apply Forall_cons in H2 as [_ H2]. constructor; [by apply IH|].
    rewrite Forall_forall in *. intros m Hm. apply node_lt_key; auto.
  - eapply Forall_impl; [done|]. intros; by apply node_ok_coords.
Qed.

Lemma key_sorted_app ns1 ns2 :
  key_sorted (ns1 ++ ns2) →
  key_sorted ns1 ∧ key_sorted ns2 ∧ ∀ n m, n ∈ ns1 → m ∈ ns2 → key_lt n m.
Proof.
  intros [H1 H2]. apply Forall_app in H2 as [? ?].
  apply StronglySorted_app in H1 as (? & ? & ?).
  repeat split; auto.
Qed.

(** ** [RB_NFIND] *)

Lemma key_lt_dec_inst n m : Decision (key_lt n m).
Proof. unfold key_lt. apply _. Qed.
#[local] Existing Instance key_lt_dec_inst.

Lemma RB_NFIND_from_spec t elm res :
  key_sorted (nodes t) → node_coords elm →
  RB_NFIND_from t elm res =
  match List.find (λ n, bool_decide (¬ key_lt n elm)) (nodes t) with
  | Some n => Some n
  | None => res
  end.
Proof.
  revert res. induction t as [|l IHl n r IHr]; intros res Hs He; [done|].
  simpl in Hs. apply key_sorted_app in Hs as (Hl & Hnr & Hlr).
  pose proof Hnr as [Hnr1 Hnr2]. apply Forall_cons in Hnr2 as [Hn Hr2].
  apply StronglySorted_inv in Hnr1 as [Hr1 Hnr1].
  assert (key_sorted (nodes r)) as Hr by done.
  simpl. rewrite find_app. simpl.
  destruct (Z.ltb_spec (interval_cmp elm n) 0) as [Hc|Hc].
  - apply interval_cmp_neg in Hc; [|done..].
    rewrite IHl by done. rewrite bool_decide_true; [by destruct (List.find _ _)|].
    intros Hc'. by eapply key_lt_irrefl, key_lt_trans.
  - destruct (Z.ltb_spec 0 (interval_cmp elm n)) as [Hc2|Hc2].
    + apply interval_cmp_pos in Hc2; [|done..].
      rewrite bool_decide_false by tauto.
      rewrite IHr by done.
      assert (List.find (λ n, bool_decide (¬ key_lt n elm)) (nodes l) = None) as ->.
      { apply find_none_intro. intros m Hm. apply bool_decide_eq_false. intros Hf.
        apply Hf. eapply key_lt_trans; [|done]. apply Hlr; [done|left]. }
      done.
    + destruct (interval_cmp_zero elm n He Hn) as [E1 E2]; [lia..|].
      assert (List.find (λ n, bool_decide (¬ key_lt n elm)) (nodes l) = None) as ->.
      { apply find_none_intro. intros m Hm. apply bool_decide_eq_false. intros Hf.
        apply Hf. assert (key_lt m n) as Hmn by (apply Hlr; [done|left]).
        unfold key_lt in *. lia. }
      rewrite bool_decide_true; [done|]. unfold key_lt. lia.
Qed.

Lemma RB_NFIND_spec t elm :
  key_sorted (nodes t) → node_coords elm →
  RB_NFIND t elm = List.find (λ n, bool_decide (¬ key_lt n elm)) (nodes t).
Proof.
  intros. unfold RB_NFIND. rewrite RB_NFIND_from_spec by done. by destruct (List.find _ _).
Qed.

(** ** [RB_PREV] *)

Lemma rightmost_last t : rightmost t = last (nodes t).
Proof.
  induction t as [|l IHl n r IHr]; [done|]. simpl.
  destruct r as [|rl rn rr]; [simpl; by rewrite last_snoc|].
  rewrite IHr. simpl. rewrite !last_app_cons.
  change (n :: nodes rl ++ rn :: nodes rr) with ((n :: nodes rl) ++ rn :: nodes rr).
  by rewrite last_app_cons.
Qed.

Lemma climb_from_left_last c : climb_from_left c = last (path_before c).
Proof.
  induction c as [|[p r|l p] c IH]; simpl; [done|done|].
  by rewrite app_assoc, last_snoc.
Qed.

Lemma NoDup_ids_split (ns : list interval_node) pre m post pre' m' post' :
  NoDup (map nd_id ns) →
  ns = pre ++ m :: post → ns = pre' ++ m' :: post' → nd_id m = nd_id m' →
  pre = pre' ∧ m = m' ∧ post = post'.
Proof.
  intros Hnd E1 E2 Hid. subst ns. revert pre' E2 Hnd.
  induction pre as [|a pre IH]; intros [|a' pre'] E Hnd; simpl in *.
  - by simplify_eq.
  - simplify_eq. exfalso. apply NoDup_cons in Hnd as [Hn _]. apply Hn.
    rewrite Hid, map_app. simpl. set_solver.
  - simplify_eq. exfalso. apply NoDup_cons in Hnd as [Hn _]. apply Hn.
    rewrite <- Hid, map_app. simpl. set_solver.
  - simplify_eq. apply NoDup_cons in Hnd as [_ Hnd].
    destruct (IH _ H0 Hnd) as (-> & -> & ->). done.
Qed.

(** Dereferencing the address of a node of the tree. *)
Lemma locate_member t pre m post :
  NoDup (ids t) → nodes t = pre ++ m :: post →
  ∃ l r c, locate (nd_id m) t [] = Some (RB_NODE l m r, c) ∧
           t = plug (RB_NODE l m r) c ∧
           pre = path_before c ++ nodes l ∧ post = nodes r ++ path_after c.
Proof.
  intros Hnd E.
  destruct (locate_is_Some (nd_id m) t []) as [z Hz].
  { unfold ids. rewrite E, map_app. simpl. set_solver. }
  destruct (locate_inv _ _ _ Hz) as (l & n & r & c & -> & Hid & Ht).
  assert (nodes t = (path_before c ++ nodes l) ++ n :: nodes r ++ path_after c) as E'.
  { rewrite Ht at 1. rewrite nodes_plug. simpl. by rewrite <- !app_assoc. }
  destruct (NoDup_ids_split _ _ _ _ _ _ _ Hnd E E' (eq_sym Hid)) as (-> & -> & ->).
  by exists l, r, c.
Qed.

Lemma RB_PREV_spec t pre m post :
  NoDup (ids t) → nodes t = pre ++ m :: post → RB_PREV t (nd_id m) = last pre.
Proof.
  intros Hnd E. destruct (locate_member _ _ _ _ Hnd E) as (l & r & c & Hz & _ & -> & _).
  unfold RB_PREV. rewrite Hz. destruct l as [|ll ln lr].
  - simpl. rewrite app_nil_r. apply climb_from_left_last.
  - rewrite rightmost_last. rewrite last_app.
    assert (∃ x, last (nodes (RB_NODE ll ln lr)) = Some x) as [x ->]; [|done].
    simpl. rewrite last_app_cons. apply last_cons_Some.
Qed.

(** ** The descent of [RB_INSERT] *)

Lemma RB_INSERT_slot_spec t elm c0 pre post :
  key_sorted (nodes t) → node_coords elm →
  nodes t = pre ++ post →
  Forall (λ n, key_lt n elm) pre → Forall (λ n, key_lt elm n) post →
  ∃ c, RB_INSERT_slot t elm c0 = inl c ∧ plug RB_NULL c = plug t c0 ∧
       path_before c = path_before c0 ++ pre ∧
       path_after c = post ++ path_after c0.
Proof.
  revert c0 pre post. induction t as [|l IHl n r IHr]; intros c0 pre post Hs He E Hpre Hpost.
  - simpl in E. symmetry in E. apply app_eq_nil in E as [-> ->].
    exists c0. by rewrite app_nil_r.
  - simpl in Hs. apply key_sorted_app in Hs as (Hl & Hnr & Hlr).
    pose proof Hnr as [Hnr1 Hnr2]. apply Forall_cons in Hnr2 as [Hn Hr2].
    apply StronglySorted_inv in Hnr1 as [Hr1 Hnr1].
    assert (key_sorted (nodes r)) as Hr by done.
    simpl in E. simpl.
    apply app_eq_app in E as [k [[E1 E2]|[E1 E2]]].
    + (* pre ends inside [nodes l]: the key is below [n] *)
      assert (key_lt elm n) as Hn'.
      { rewrite Forall_forall in Hpost. apply Hpost. rewrite E2. set_solver. }
      apply interval_cmp_neg in Hn' as Hc; [|done..].
      destruct (Z.ltb_spec (interval_cmp elm n) 0); [|lia].
      destruct (IHl (FrameL n r :: c0) pre k Hl He) as (c & H1 & H2 & H3 & H4);
        [done|done| |].
      { rewrite E2 in Hpost. by apply Forall_app in Hpost as [? _]. }
      exists c. repeat split; [done..|].
      rewrite H4, E2. simpl. by rewrite <- !app_assoc.
    + destruct k as [|k0 k].
      * rewrite app_nil_r in E1. simpl in E2. subst pre post.
        apply Forall_cons in Hpost as [Hn' Hpost].
        apply interval_cmp_neg in Hn' as Hc; [|done..].
        destruct (Z.ltb_spec (interval_cmp elm n) 0); [|lia].
        destruct (IHl (FrameL n r :: c0) (nodes l) [] Hl He) as (c & H1 & H2 & H3 & H4);
          [by rewrite app_nil_r|done|constructor|].
        exists c. by repeat split.
      * simpl in E2. injection E2 as <- E2.
        assert (key_lt n elm) as Hn'.
        { rewrite Forall_forall in Hpre. apply Hpre. rewrite E1. set_solver. }
        apply interval_cmp_pos in Hn' as Hc; [|done..].
        destruct (Z.ltb_spec (interval_cmp elm n) 0) as [Hc'|_].
        { apply interval_cmp_neg in Hc'; [|done..].
          exfalso. by eapply key_lt_irrefl, key_lt_trans. }
        destruct (Z.ltb_spec 0 (interval_cmp elm n)); [|lia].
        destruct (IHr (FrameR l n :: c0) k post Hr He) as (c & H1 & H2 & H3 & H4);
          [done| |done|].
        { rewrite E1 in Hpre. apply Forall_app in Hpre as [_ Hpre].
          by apply Forall_cons in Hpre as [_ ?]. }
        exists c. repeat split; [done..| |done].
        rewrite H3, E1. simpl. by rewrite <- !app_assoc.
Qed.

(** ** The [last] augmentation *)

Lemma onp_dec q js : Decision (onp q js).
Proof. destruct q; simpl; apply _. Qed.
#[local] Existing Instance onp_dec.

Ltac zmax :=
  unfold obump, ojoin in *; repeat case_match; simplify_eq; try lia.

Lemma bump_obump v t : bump v t = obump v (olast t).
Proof. destruct t as [|l n r]; simpl; [done|]. destruct (Z.ltb_spec v (nd_last n)); lia. Qed.

Lemma omax_app l1 l2 : omax (l1 ++ l2) = ojoin (omax l1) (omax l2).
Proof.
  induction l1 as [|x l1 IH]; simpl; [done|]. rewrite IH.
  destruct (omax l1), (omax l2); simpl; f_equal; lia.
Qed.

Lemma ids_node l n r : ids (RB_NODE l n r) = ids l ++ nd_id n :: ids r.
Proof. unfold ids. simpl. by rewrite map_app. Qed.

Lemma ends_node l n r : ends (RB_NODE l n r) = ends l ++ nd_end n :: ends r.
Proof. unfold ends. simpl. by rewrite map_app. Qed.

Lemma ids_fill f t :
  ids (fill f t) = match f with
                   | FrameL p r => ids t ++ nd_id p :: ids r
                   | FrameR l p => ids l ++ nd_id p :: ids t
                   end.
Proof. destruct f; apply ids_node. Qed.

Lemma tree_inv_plug q t c :
  tree_inv q (plug t c) ↔ tree_inv q t ∧ path_inv q c (ids t) (olast t) (ends t).
Proof.
  revert t. induction c as [|[p r|l p] c IH]; intros t; simpl; [tauto|..];
    rewrite IH; simpl; rewrite ids_node, ends_node; tauto.
Qed.

(** A subtree that does not hold [q] is exact. *)
Lemma tree_inv_off q t : tree_inv q t → ¬ onp q (ids t) → exact t.
Proof.
  unfold exact. induction t as [|l IHl n r IHr]; simpl; [done|].
  rewrite ids_node. intros (Hl & Hr & Hb & He) Hq.
  split_and!; [apply IHl|apply IHr|done|right]; try done.
  - destruct q; simpl in *; set_solver.
  - destruct q; simpl in *; set_solver.
  - by destruct He.
Qed.

Lemma exact_tree_inv q t : exact t → tree_inv q t.
Proof.
  unfold exact. induction t as [|l IHl n r IHr]; simpl; [done|].
  intros (Hl & Hr & Hb & [[]|He]). split_and!; auto.
Qed.

Lemma tree_inv_top q t : tree_inv q t → ¬ onp q (ids t) → olast t = omax (ends t).
Proof.
  destruct t as [|l n r]; [done|]. simpl. intros (_ & _ & _ & [?|?]); tauto.
Qed.

(** Recomputing a node from its children, as [interval_augment] and
    [interval_recompute_last_del] do, restores it. *)
Lemma tree_inv_recompute q l n r :
  tree_inv q l → tree_inv q r →
  tree_inv q (RB_NODE l (set_last n (obump (obump (nd_end n) (olast l)) (olast r))) r).
Proof.
  intros Hl Hr. simpl. split_and!; [done..|].
  destruct (decide (onp q (ids (RB_NODE l (set_last n
      (obump (obump (nd_end n) (olast l)) (olast r))) r)))) as [|Hq]; [by left|right].
  rewrite ids_node in Hq. simpl in Hq.
  assert (¬ onp q (ids l) ∧ ¬ onp q (ids r)) as [Hql Hqr].
  { destruct q; simpl in *; set_solver. }
  rewrite ends_node, omax_app. simpl.
  rewrite <- (tree_inv_top q l), <- (tree_inv_top q r) by done.
  destruct (olast l), (olast r); simpl; f_equal; lia.
Qed.

Lemma raise_none v c :
  match c with [] => True | f :: _ => v <= nd_last (frame_node f) end → raise v c = c.
Proof.
  destruct c as [|f c]; [done|]. simpl. intros H.
  destruct (Z.ltb_spec (nd_last (frame_node f)) v); [lia|done].
Qed.

(** When the parent already stores at least the value computed for a node,
    [interval_augment] is a plain recomputation. *)
Lemma interval_augment_quiet l n r c :
  match c with
  | [] => True
  | f :: _ => obump (obump (nd_end n) (olast l)) (olast r) <= nd_last (frame_node f)
  end →
  interval_augment (RB_NODE l n r, c) =
  (RB_NODE l (set_last n (obump (obump (nd_end n) (olast l)) (olast r))) r, c).
Proof.
  intros Hc. unfold interval_augment. rewrite !bump_obump.
  set (v := obump (obump (nd_end n) (olast l)) (olast r)) in *.
  destruct (Z.ltb_spec (nd_end n) v).
  - by rewrite raise_none.
  - assert (v = nd_end n) as -> by (unfold v in *; zmax). done.
Qed.

Lemma path_inv_head q c js w es :
  path_inv q c js (Some w) es →
  match c with [] => True | f :: _ => w <= nd_last (frame_node f) end.
Proof. destruct c as [|[p r|l p] c]; simpl; [done|..]; intros (_ & H & _); zmax. Qed.

(** A subtree may be replaced by one with the same addresses and ends whose
    root stores no more. *)
Lemma path_inv_lower q c js w w' es :
  path_inv q c js w es → ole w' w → path_inv q c js w' es.
Proof.
  destruct c as [|[p r|l p] c]; simpl; [done|..];
    intros (H1 & H2 & H3 & H4) Hle; split_and!; try done;
    destruct w, w'; simpl in Hle; try done; zmax.
Qed.

#[local] Arguments interval_augment : simpl never.
#[local] Arguments augment_parent : simpl never.

Lemma rotate_left_inv q z :
  tree_inv q (plug_cursor z) → tree_inv q (plug_cursor (RB_ROTATE_LEFT z)).
Proof.
  destruct z as [[|a x [|b y c]] up]; try done.
  unfold plug_cursor at 1. cbn [fst snd]. rewrite tree_inv_plug.
  intros [HT Hup]. pose proof HT as (Ha & (Hb & Hc & Hyb & Hye) & Hxb & Hxe).
  simpl in Hyb, Hxb.
  pose proof (path_inv_head _ _ _ _ _ Hup) as Hhd. simpl in Hhd.
  unfold RB_ROTATE_LEFT.
  rewrite (interval_augment_quiet a x b up).
  2:{ destruct up; simpl in *; [done|]. zmax. }
  cbn [fst snd].
  rewrite interval_augment_quiet.
  2:{ destruct up; simpl in *; [done|]. zmax. }
  set (x' := set_last x _). set (y' := set_last y _).
  assert (tree_inv q (RB_NODE (RB_NODE a x' b) y' c)) as HT'.
  { apply (tree_inv_recompute q (RB_NODE a x' b) y c); [|done].
    by apply tree_inv_recompute. }
  assert (nd_last y' <= nd_last x) as Hle by (simpl; zmax).
  assert (ids (RB_NODE (RB_NODE a x' b) y' c) = ids (RB_NODE a x (RB_NODE b y c))) as Hids.
  { rewrite !ids_node. simpl. by rewrite <- app_assoc. }
  assert (ends (RB_NODE (RB_NODE a x' b) y' c) = ends (RB_NODE a x (RB_NODE b y c))) as Hends.
  { rewrite !ends_node. simpl. by rewrite <- app_assoc. }
  destruct up as [|f rest].
  - done.
  - unfold augment_parent, plug_cursor.
    assert (path_inv q (f :: rest) (ids (RB_NODE (RB_NODE a x' b) y' c)) (Some (nd_last y'))
              (ends (RB_NODE (RB_NODE a x' b) y' c))) as Hup'.
    { rewrite Hids, Hends. eapply path_inv_lower; [done|simpl; zmax]. }
    destruct f as [p r|l p]; simpl in Hup'; destruct Hup' as (Hs & Hpb & Hpe & Hrest).
    + cbn [fill]. pose proof (path_inv_head _ _ _ _ _ Hrest) as Hhd'.
      rewrite interval_augment_quiet.
      2:{ destruct rest; simpl in *; [done|]. zmax. }
      cbn [fst snd]. apply tree_inv_plug. split.
      * by apply (tree_inv_recompute q (RB_NODE (RB_NODE a x' b) y' c) p r).
      * rewrite ids_node, ends_node. simpl.
        eapply path_inv_lower; [done|simpl; zmax].
    + cbn [fill]. pose proof (path_inv_head _ _ _ _ _ Hrest) as Hhd'.
      rewrite interval_augment_quiet.
      2:{ destruct rest; simpl in *; [done|]. zmax. }
      cbn [fst snd]. apply tree_inv_plug. split.
      * by apply (tree_inv_recompute q l p (RB_NODE (RB_NODE a x' b) y' c)).
      * rewrite ids_node, ends_node. simpl.
        eapply path_inv_lower; [done|simpl; zmax].
Qed.

Lemma rotate_right_inv q z :
  tree_inv q (plug_cursor z) → tree_inv q (plug_cursor (RB_ROTATE_RIGHT z)).
Proof.
  destruct z as [[|[|a y b] x c] up]; try done.
  unfold plug_cursor at 1. cbn [fst snd]. rewrite tree_inv_plug.
  intros [HT Hup]. pose proof HT as ((Ha & Hb & Hyb & Hye) & Hc & Hxb & Hxe).
  simpl in Hyb, Hxb.
  pose proof (path_inv_head _ _ _ _ _ Hup) as Hhd. simpl in Hhd.
  unfold RB_ROTATE_RIGHT.
  rewrite (interval_augment_quiet b x c up).
  2:{ destruct up; simpl in *; [done|]. zmax. }
  cbn [fst snd].
  rewrite interval_augment_quiet.
  2:{ destruct up; simpl in *; [done|]. zmax. }
  set (x' := set_last x _). set (y' := set_last y _).
  assert (tree_inv q (RB_NODE a y' (RB_NODE b x' c))) as HT'.
  { apply (tree_inv_recompute q a y (RB_NODE b x' c)); [done|].
    by apply tree_inv_recompute. }
  assert (nd_last y' <= nd_last x) as Hle by (simpl; zmax).
  assert (ids (RB_NODE a y' (RB_NODE b x' c)) = ids (RB_NODE (RB_NODE a y b) x c)) as Hids.
  { rewrite !ids_node. simpl. by rewrite <- app_assoc. }
  assert (ends (RB_NODE a y' (RB_NODE b x' c)) = ends (RB_NODE (RB_NODE a y b) x c)) as Hends.
  { rewrite !ends_node. simpl. by rewrite <- app_assoc. }
  destruct up as [|f rest].
  - done.
  - unfold augment_parent, plug_cursor.
    assert (path_inv q (f :: rest) (ids (RB_NODE a y' (RB_NODE b x' c))) (Some (nd_last y'))
              (ends (RB_NODE a y' (RB_NODE b x' c)))) as Hup'.
    { rewrite Hids, Hends. eapply path_inv_lower; [done|simpl; zmax]. }
    destruct f as [p r|l p]; simpl in Hup'; destruct Hup' as (Hs & Hpb & Hpe & Hrest).
    + cbn [fill]. pose proof (path_inv_head _ _ _ _ _ Hrest) as Hhd'.
      rewrite interval_augment_quiet.
      2:{ destruct rest; simpl in *; [done|]. zmax. }
      cbn [fst snd]. apply tree_inv_plug. split.
      * by apply (tree_inv_recompute q (RB_NODE a y' (RB_NODE b x' c)) p r).
      * rewrite ids_node, ends_node. simpl.
        eapply path_inv_lower; [done|simpl; zmax].
    + cbn [fill]. pose proof (path_inv_head _ _ _ _ _ Hrest) as Hhd'.
      rewrite interval_augment_quiet.
      2:{ destruct rest; simpl in *; [done|]. zmax. }
      cbn [fst snd]. apply tree_inv_plug. split.
      * by apply (tree_inv_recompute q l p (RB_NODE a y' (RB_NODE b x' c))).
      * rewrite ids_node, ends_node. simpl.
        eapply path_inv_lower; [done|simpl; zmax].
Qed.

Lemma at_node_inv (P : rb_tree → Prop) x f t :
  (∀ z, P (plug_cursor z) → P (plug_cursor (f z))) → P t → P (at_node x f t).
Proof.
  intros Hf Ht. unfold at_node. destruct (locate x t []) as [z|] eqn:E; [|done].
  apply Hf. by destruct (locate_Some _ _ _ _ E) as [-> _].
Qed.

Lemma rotate_inv q t r : tree_inv q t → tree_inv q (rotate t r).
Proof.
  destruct r; simpl; apply at_node_inv; intros z;
    [apply rotate_left_inv|apply rotate_right_inv].
Qed.

(** Whatever the fix-up routines rotate, the augmentation survives. *)
Lemma rebalance_inv q plan t : tree_inv q t → tree_inv q (rebalance plan t).
Proof.
  revert t. unfold rebalance. induction plan as [|r plan IH]; intros t Ht; simpl; [done|].
  by apply IH, rotate_inv.
Qed.

(** *** Recomputing a path *)

Lemma path_eqv_siblings c c' : path_eqv c c' → siblings_exact c → siblings_exact c'.
Proof.
  unfold siblings_exact. revert c'.
  induction c as [|[] c IH]; intros [|[] c']; simpl; try tauto;
    intros (? & ? & ?) [? ?]%Forall_cons; subst; constructor; auto.
Qed.

Lemma path_inv_siblings q c js w es :
  path_inv q c js w es → ¬ onp q (map nd_id (path_before c ++ path_after c)) →
  siblings_exact c.
Proof.
  unfold siblings_exact. revert js w es.
  induction c as [|[p r|l p] c IH]; intros js w es; simpl; [constructor|..];
    intros (Hs & _ & _ & Hc) Hq; constructor.
  - apply (tree_inv_off q); [done|]. simpl. intros Hq'. apply Hq.
    destruct q; simpl in *; [|done]. unfold ids in Hq'. rewrite !map_app. simpl.
    rewrite map_app. set_solver.
  - eapply IH; [done|]. intros Hq'. apply Hq.
    destruct q; simpl in *; [|done]. rewrite !map_app in *. simpl.
    rewrite map_app. set_solver.
  - apply (tree_inv_off q); [done|]. simpl. intros Hq'. apply Hq.
    destruct q; simpl in *; [|done]. unfold ids in Hq'. rewrite !map_app. simpl.
    set_solver.
  - eapply IH; [done|]. intros Hq'. apply Hq.
    destruct q; simpl in *; [|done]. rewrite !map_app in *. simpl. set_solver.
Qed.

Lemma recompute_up_exact t c :
  exact t → siblings_exact c → exact (recompute_up t c).
Proof.
  unfold siblings_exact. revert t.
  induction c as [|[p r|l p] c IH]; intros t Ht Hc; simpl; [done|..];
    apply Forall_cons in Hc as [Hs Hc]; apply IH; try done;
    rewrite !bump_obump; by apply tree_inv_recompute.
Qed.

Lemma interval_augment_value l n r c :
  ∃ c', interval_augment (RB_NODE l n r, c) =
        (RB_NODE l (set_last n (obump (obump (nd_end n) (olast l)) (olast r))) r, c')
        ∧ path_eqv c c'.
Proof.
  unfold interval_augment. rewrite !bump_obump.
  set (v := obump (obump (nd_end n) (olast l)) (olast r)).
  destruct (Z.ltb_spec (nd_end n) v).
  - eexists. split; [done|]. apply path_eqv_raise.
  - assert (v = nd_end n) as -> by (unfold v in *; zmax).
    eexists. split; [done|]. apply path_eqv_refl.
Qed.

Lemma augment_to_root_exact fuel l n r c :
  (length c < fuel)%nat → exact l → exact r → siblings_exact c →
  exact (plug_cursor (augment_to_root fuel (RB_NODE l n r, c))).
Proof.
  revert l n r c. induction fuel as [|fuel IH]; intros l n r c Hf Hl Hr Hc; [lia|].
  cbn [augment_to_root].
  destruct (interval_augment_value l n r c) as (c' & -> & Hcc').
  pose proof (path_eqv_siblings _ _ Hcc' Hc) as Hc'.
  pose proof (path_eqv_length _ _ Hcc') as Hlen.
  pose proof (tree_inv_recompute None l n r Hl Hr) as Hn.
  destruct c' as [|f c'].
  - done.
  - apply Forall_cons in Hc' as [Hs Hc']. simpl in Hlen.
    destruct f as [p r'|l' p]; cbn [fill]; apply IH; try done; simpl in *; lia.
Qed.

Lemma augment_walk_exact l n r c :
  exact l → exact r → siblings_exact c →
  exact (plug_cursor (augment_walk (RB_NODE l n r, c))).
Proof. intros. apply augment_to_root_exact; simpl; auto with lia. Qed.

(** *** Raising a path after a new [end] has appeared below it *)

Lemma path_inv_None_js c js js' w es :
  path_inv None c js w es → path_inv None c js' w es.
Proof.
  revert js js' w es. induction c as [|[p r|l p] c IH]; intros js js' w es; simpl; [done|..];
    intros (? & ? & [[]|?] & ?); split_and!; eauto.
Qed.

Lemma path_inv_settled c js w e es es' :
  path_inv None c js (Some w) es → e <= w →
  omax es' = Some (obump e (omax es)) →
  path_inv None c js (Some w) es'.
Proof.
  revert js w es es'. induction c as [|[p r|l p] c IH]; intros js w es es'; simpl; [done|..];
    intros (Hs & Hb & [[]|He] & Hc) Hew Hes; split_and!; try done.
  - right. rewrite omax_app in *. rewrite Hes. simpl in *.
    destruct (omax es); simpl in *; simplify_eq; f_equal; zmax.
  - eapply IH; [done|zmax|].
    rewrite !omax_app, Hes. simpl. destruct (omax es); simpl; f_equal; zmax.
  - right. rewrite omax_app in *. simpl in *. rewrite Hes.
    destruct (omax (ends l)), (omax es); simpl in *; simplify_eq; f_equal; zmax.
  - eapply IH; [done|zmax|].
    rewrite !omax_app. simpl. rewrite Hes.
    destruct (omax (ends l)), (omax es); simpl; f_equal; zmax.
Qed.

Lemma raise_exact c js w e es es' :
  path_inv None c js w es →
  omax es' = Some (obump e (omax es)) →
  path_inv None (raise (obump e w) c) js (Some (obump e w)) es'.
Proof.
  revert js w es es'. induction c as [|f c IH]; intros js w es es' Hc Hes; [done|].
  cbn [raise]. destruct (Z.ltb_spec (nd_last (frame_node f)) (obump e w)) as [Hlt|Hge].
  - destruct f as [p r|l p]; simpl in *; destruct Hc as (Hs & Hb & [[]|He] & Hc).
    + assert (obump e w = obump e (Some (nd_last p))) as Hv by zmax.
      split_and!; [done|zmax| |].
      * right. rewrite omax_app in *. simpl in *. rewrite Hes.
        destruct (omax es); simpl in *; simplify_eq; f_equal; zmax.
      * rewrite Hv. eapply path_inv_None_js, IH; [done|].
        rewrite !omax_app, Hes. simpl. destruct (omax es); simpl; f_equal; zmax.
    + assert (obump e w = obump e (Some (nd_last p))) as Hv by zmax.
      split_and!; [done|zmax| |].
      * right. rewrite omax_app in *. simpl in *. rewrite Hes.
        destruct (omax (ends l)), (omax es); simpl in *; simplify_eq; f_equal; zmax.
      * rewrite Hv. eapply path_inv_None_js, IH; [done|].
        rewrite !omax_app. simpl. rewrite Hes.
        destruct (omax (ends l)), (omax es); simpl; f_equal; zmax.
  - assert (e <= obump e w) as Hew by zmax.
    destruct f as [p r|l p]; simpl in *; destruct Hc as (Hs & Hb & [[]|He] & Hc).
    + split_and!; [done|zmax| |].
      * right. rewrite omax_app in *. simpl in *. rewrite Hes.
        destruct (omax es); simpl in *; simplify_eq; f_equal; zmax.
      * eapply (path_inv_settled _ _ _ e); [done|lia|].
        rewrite !omax_app, Hes. simpl. destruct (omax es); simpl; f_equal; zmax.
    + split_and!; [done|zmax| |].
      * right. rewrite omax_app in *. simpl in *. rewrite Hes.
        destruct (omax (ends l)), (omax es); simpl in *; simplify_eq; f_equal; zmax.
      * eapply (path_inv_settled _ _ _ e); [done|lia|].
        rewrite !omax_app. simpl. rewrite Hes.
        destruct (omax (ends l)), (omax es); simpl; f_equal; zmax.
Qed.

(** Once [q] lies below a path, the path only has to bound its subtrees. *)
Lemma path_inv_onto x c js js' w w' es es' :
  path_inv None c js w es → x ∈ js' → ole w' w →
  path_inv (Some x) c js' w' es'.
Proof.
  revert js js' w w' es es'.
  induction c as [|[p r|l p] c IH]; intros js js' w w' es es'; simpl; [done|..];
    intros (Hs & Hb & _ & Hc) Hx Hle; split_and!.
  - by apply exact_tree_inv.
  - destruct w, w'; simpl in Hle; try done; zmax.
  - left. set_solver.
  - eapply IH; [done|set_solver|simpl; lia].
  - by apply exact_tree_inv.
  - destruct w, w'; simpl in Hle; try done; zmax.
  - left. set_solver.
  - eapply IH; [done|set_solver|simpl; lia].
Qed.

#[local] Arguments interval_augment : simpl never.
#[local] Arguments augment_parent : simpl never.

(** ** Insertion *)

Lemma interval_augment_raise l n r c :
  match c with [] => True | f :: _ => nd_end n <= nd_last (frame_node f) end →
  interval_augment (RB_NODE l n r, c) =
  (RB_NODE l (set_last n (obump (obump (nd_end n) (olast l)) (olast r))) r,
   raise (obump (obump (nd_end n) (olast l)) (olast r)) c).
Proof.
  intros Hc. unfold interval_augment. rewrite !bump_obump.
  set (v := obump (obump (nd_end n) (olast l)) (olast r)) in *.
  destruct (Z.ltb_spec (nd_end n) v); [done|].
  assert (v = nd_end n) as -> by (unfold v in *; zmax).
  by rewrite raise_none.
Qed.

Lemma exact_leaf elm : nd_last elm = nd_end elm → exact (RB_NODE RB_NULL elm RB_NULL).
Proof. intros H. unfold exact. simpl. rewrite H. split_and!; auto with lia. Qed.

Lemma exact_plug_inv t c :
  exact (plug t c) → exact t ∧ path_inv None c (ids t) (olast t) (ends t).
Proof. apply tree_inv_plug. Qed.

(** Hanging a leaf into an exact tree and augmenting its parent. *)
Lemma insert_leaf_exact elm c :
  nd_last elm = nd_end elm → exact (plug RB_NULL c) →
  exact (plug_cursor (augment_parent (RB_NODE RB_NULL elm RB_NULL, c))).
Proof.
  intros Hl Ht. destruct c as [|f rest]; [by apply exact_leaf|].
  unfold augment_parent. simpl in Ht. apply exact_plug_inv in Ht as [Hf Hrest].
  pose proof (exact_leaf elm Hl) as Hleaf.
  destruct f as [p r|l p]; cbn [fill] in *.
  - destruct Hf as (_ & Hr & Hb & [[]|He]). simpl in Hb.
    rewrite interval_augment_raise.
    2:{ pose proof (path_inv_head _ _ _ _ _ Hrest). destruct rest; simpl in *; [done|]. zmax. }
    unfold plug_cursor. cbn [fst snd]. apply tree_inv_plug. split.
    + by apply (tree_inv_recompute None (RB_NODE RB_NULL elm RB_NULL) p r).
    + cbn [olast nd_last set_last nd_end]. rewrite ends_node in *. rewrite ends_node.
      pose proof (tree_inv_top None r Hr (λ x, x)) as Hrl.
      assert (obump (obump (nd_end p) (Some (nd_last elm))) (olast r)
              = obump (nd_end elm) (Some (nd_last p))) as ->.
      { simpl in *. rewrite Hrl. destruct (omax (ends r)); simpl in *; simplify_eq; zmax. }
      eapply path_inv_None_js, raise_exact; [done|].
      simpl; f_equal; destruct (omax (ends r)); simpl; zmax.
  - destruct Hf as (Hr & _ & Hb & [[]|He]). simpl in Hb.
    rewrite interval_augment_raise.
    2:{ pose proof (path_inv_head _ _ _ _ _ Hrest). destruct rest; simpl in *; [done|]. zmax. }
    unfold plug_cursor. cbn [fst snd]. apply tree_inv_plug. split.
    + by apply (tree_inv_recompute None l p (RB_NODE RB_NULL elm RB_NULL)).
    + cbn [olast nd_last set_last nd_end]. rewrite ends_node in *. rewrite ends_node.
      pose proof (tree_inv_top None l Hr (λ x, x)) as Hrl.
      assert (obump (obump (nd_end p) (olast l)) (Some (nd_last elm))
              = obump (nd_end elm) (Some (nd_last p))) as ->.
      { simpl in *. rewrite omax_app in He. simpl in He. rewrite Hrl.
        destruct (omax (ends l)); simpl in *; simplify_eq; zmax. }
      eapply path_inv_None_js, raise_exact; [done|].
      rewrite !omax_app; simpl; destruct (omax (ends l)); simpl; f_equal; zmax.
Qed.

Section with_colour.
Context `{!rb_colour}.

Lemma RB_INSERT_spec t elm pre post :
  exact t → key_sorted (nodes t) → node_coords elm → nd_last elm = nd_end elm →
  nodes t = pre ++ post →
  Forall (λ n, key_lt n elm) pre → Forall (λ n, key_lt elm n) post →
  contents (fst (RB_INSERT t elm)) = map erase pre ++ erase elm :: map erase post ∧
  exact (fst (RB_INSERT t elm)).
Proof.
  intros Ht Hs He Hl E Hpre Hpost.
  destruct (RB_INSERT_slot_spec t elm [] pre post Hs He E Hpre Hpost)
    as (c & Hc & Hp & Hb & Ha).
  unfold RB_INSERT. rewrite Hc. cbn [fst]. simpl in Hp, Hb. rewrite app_nil_r in Ha.
  split.
  - rewrite rebalance_contents, keeps_augment_parent_gen, contents_plug, Hb, Ha. done.
  - apply rebalance_inv, insert_leaf_exact; [done|]. by rewrite Hp.
Qed.

End with_colour.

(** ** Packing an interval into a node *)

Lemma add_to_node_spec node l m r c :
  exact (plug (RB_NODE l m r) c) →
  contents (plug_cursor (add_to_node node (RB_NODE l m r, c))) =
    map erase (path_before c ++ nodes l) ++ packed node m ::
    map erase (nodes r ++ path_after c) ∧
  exact (plug_cursor (add_to_node node (RB_NODE l m r, c))).
Proof.
  intros Ht. apply exact_plug_inv in Ht as [Hm Hc].
  pose proof Hm as (Hl & Hr & Hb & [[]|He]). simpl in Hb.
  set (e := iv_end node).
  unfold add_to_node. fold e.
  set (n1 := set_intervals m (node :: nd_intervals m)).
  set (n2 := if nd_end n1 <? e then set_end n1 e else n1).
  assert (erase n2 = packed node m ∧ nd_end n2 = Z.max (nd_end m) e ∧ nd_last n2 = nd_last m)
    as (Hn2 & Hn2e & Hn2l).
  { unfold n2, n1, packed. fold e. simpl. destruct (Z.ltb_spec (nd_end m) e).
    - rewrite Z.max_r by lia. done.
    - rewrite Z.max_l by lia. done. }
  pose proof (tree_inv_top None l Hl (λ x, x)) as Hll.
  pose proof (tree_inv_top None r Hr (λ x, x)) as Hrl.
  rewrite ends_node, omax_app in He. simpl in He. rewrite <- Hll, <- Hrl in He.
  assert (omax (ends (RB_NODE l (set_last n2 (Z.max (nd_last m) e)) r)) =
          Some (obump e (omax (ends (RB_NODE l m r))))) as Hes.
  { rewrite !ends_node, !omax_app. simpl. rewrite Hn2e, <- Hll, <- Hrl.
    destruct (olast l), (olast r); simpl; f_equal; zmax. }
  assert (exact (RB_NODE l (set_last n2 (Z.max (nd_last m) e)) r)) as Hnew.
  { unfold exact. simpl. split_and!; [done..| |right].
    - rewrite Hn2e. zmax.
    - rewrite Hes, ends_node, omax_app. simpl. rewrite <- Hll, <- Hrl.
      destruct (olast l), (olast r); simpl in *; simplify_eq; f_equal; zmax. }
  unfold raise_from. rewrite Hn2l.
  destruct (Z.ltb_spec (nd_last m) e) as [Hlt|Hge].
  - unfold plug_cursor. cbn [fst snd]. split.
    + rewrite contents_plug. erewrite <- path_eqv_before, <- path_eqv_after
        by apply path_eqv_raise.
      unfold contents. simpl. rewrite !map_app. simpl. rewrite erase_set_last, Hn2.
      by rewrite <- !app_assoc.
    + apply tree_inv_plug. rewrite Z.max_r in Hnew, Hes by lia. split; [done|].
      cbn [olast nd_last set_last].
      pose proof (raise_exact c _ _ e _ _ Hc Hes) as Hr'. cbn [olast] in Hr'.
      replace (obump e (Some (nd_last m))) with e in Hr' by zmax.
      by eapply path_inv_None_js.
  - unfold plug_cursor. cbn [fst snd]. split.
    + rewrite contents_plug. unfold contents. simpl. rewrite !map_app. simpl.
      rewrite Hn2. by rewrite <- !app_assoc.
    + rewrite Z.max_l in Hnew, Hes by lia.
      assert (set_last n2 (nd_last m) = n2) as Hsame.
      { rewrite <- Hn2l. by destruct n2. }
      rewrite Hsame in Hnew, Hes.
      apply tree_inv_plug. split; [done|].
      cbn [olast]. rewrite Hn2l.
      eapply path_inv_None_js, (path_inv_settled _ _ _ e); [done|lia|done].
Qed.

(** ** Editing the node list *)

Lemma find_split {A} (p : A → bool) (l : list A) m :
  List.find p l = Some m →
  ∃ pre post, l = pre ++ m :: post ∧ p m = true ∧ Forall (λ x, p x = false) pre.
Proof.
  induction l as [|a l IH]; simpl; [done|]. destruct (p a) eqn:E.
  - intros [= ->]. by exists [], l.
  - intros H. destruct (IH H) as (pre & post & -> & Hm & Hpre).
    exists (a :: pre), post. split_and!; [done..|]. by constructor.
Qed.

Lemma find_none_all {A} (p : A → bool) (l : list A) :
  List.find p l = None → Forall (λ x, p x = false) l.
Proof.
  induction l as [|a l IH]; simpl; [constructor|]. destruct (p a) eqn:E; [done|].
  intros H. constructor; auto.
Qed.

Lemma all_intervals_app ns1 ns2 :
  all_intervals (ns1 ++ ns2) = all_intervals ns1 ++ all_intervals ns2.
Proof. unfold all_intervals. by rewrite map_app, concat_app. Qed.

Lemma all_intervals_cons n ns :
  all_intervals (n :: ns) = nd_intervals n ++ all_intervals ns.
Proof. done. Qed.

(** Replacing, inserting and removing a node of a well-formed list. *)
Lemma wf_nodes_replace brk brk' pre m post m' :
  wf_nodes brk (pre ++ m :: post) →
  nd_id m' = nd_id m → node_ok m' →
  (∀ x, x ∈ pre → node_lt x m') → (∀ x, x ∈ post → node_lt m' x) →
  NoDup (map iv_id (all_intervals (pre ++ m' :: post))) →
  Forall (λ i, (iv_id i < brk')%nat) (nd_intervals m') → (brk <= brk')%nat →
  wf_nodes brk' (pre ++ m' :: post).
Proof.
  intros [H1 H2 H3 H4 H5 H6] Hid Hok Hpre Hpost Hnd Hb Hbrk.
  apply StronglySorted_app in H1 as (H1a & H1b & H1c).
  apply StronglySorted_cons in H1c as [H1c H1d].
  apply Forall_app in H2 as [H2a H2b]. apply Forall_cons in H2b as [_ H2b].
  split.
  - apply StronglySorted_app. split_and!; [|done|].
    + intros x1 x2 Hx1 [->|Hx2]%elem_of_cons; [by apply Hpre|].
      by apply H1a; [|right].
    + apply StronglySorted_cons. split; [|done]. rewrite Forall_forall. auto.
  - apply Forall_app. split; [done|]. by constructor.
  - rewrite map_app in *. simpl in *. by rewrite Hid.
  - done.
  - rewrite Forall_app, Forall_cons in *. destruct H5 as (? & ? & ?).
    split_and!; [|lia|]; (eapply Forall_impl; [done|]); simpl; lia.
  - rewrite !all_intervals_app, !all_intervals_cons, !Forall_app in *.
    destruct H6 as (? & ? & ?).
    split_and!; [|done|]; (eapply Forall_impl; [done|]); simpl; lia.
Qed.

Lemma wf_nodes_insert brk brk' pre post n :
  wf_nodes brk (pre ++ post) →
  (brk <= nd_id n < brk')%nat → node_ok n →
  (∀ x, x ∈ pre → node_lt x n) → (∀ x, x ∈ post → node_lt n x) →
  NoDup (map iv_id (all_intervals (pre ++ n :: post))) →
  Forall (λ i, (iv_id i < brk')%nat) (nd_intervals n) →
  wf_nodes brk' (pre ++ n :: post).
Proof.
  intros [H1 H2 H3 H4 H5 H6] Hid Hok Hpre Hpost Hnd Hb.
  apply StronglySorted_app in H1 as (H1a & H1b & H1c).
  apply Forall_app in H2 as [H2a H2b].
  split.
  - apply StronglySorted_app. split_and!; [|done|].
    + intros x1 x2 Hx1 [->|Hx2]%elem_of_cons; [by apply Hpre|]. by apply H1a.
    + apply StronglySorted_cons. split; [|done]. rewrite Forall_forall. auto.
  - apply Forall_app. split; [done|]. by constructor.
  - rewrite map_app in *. simpl. apply NoDup_app in H3 as (Ha & Hab & Hb').
    rewrite Forall_app in H5. destruct H5 as [H5a H5b].
    apply NoDup_app. split_and!; [done| |].
    + intros x Hx [->|Hx']%elem_of_cons; [|by eapply Hab].
      apply elem_of_map in Hx as (y & Hy & Hy'). rewrite Forall_forall in H5a.
      specialize (H5a _ Hy'). simpl in H5a. lia.
    + apply NoDup_cons. split; [|done]. intros Hx.
      apply elem_of_map in Hx as (y & Hy & Hy'). rewrite Forall_forall in H5b.
      specialize (H5b _ Hy'). simpl in H5b. lia.
  - done.
  - rewrite Forall_app, Forall_cons in *. destruct H5 as (? & ?).
    split_and!; [|lia|]; (eapply Forall_impl; [done|]); simpl; lia.
  - rewrite !all_intervals_app, !all_intervals_cons, !Forall_app in *.
    destruct H6 as (? & ?).
    split_and!; [|done|]; (eapply Forall_impl; [done|]); simpl; lia.
Qed.

Lemma wf_nodes_delete brk pre m post :
  wf_nodes brk (pre ++ m :: post) → wf_nodes brk (pre ++ post).
Proof.
  intros [H1 H2 H3 H4 H5 H6].
  apply StronglySorted_app in H1 as (H1a & H1b & H1c).
  apply StronglySorted_cons in H1c as [H1c H1d].
  apply Forall_app in H2 as [H2a H2b]. apply Forall_cons in H2b as [_ H2b].
  split.
  - apply StronglySorted_app. split_and!; [|done..].
    intros x1 x2 Hx1 Hx2. by apply H1a; [|right].
  - by apply Forall_app.
  - rewrite map_app in *. simpl in *. apply NoDup_app in H3 as (Ha & Hab & Hb).
    apply NoDup_cons in Hb as [_ Hb]. apply NoDup_app. split_and!; [done| |done].
    intros x Hx Hx'. eapply Hab; [done|]. by right.
  - rewrite !all_intervals_app, all_intervals_cons, !map_app in *.
    apply NoDup_app in H4 as (Ha & Hab & Hb).
    apply NoDup_app in Hb as (_ & _ & Hb). apply NoDup_app. split_and!; [done| |done].
    intros x Hx Hx'. eapply Hab; [done|]. set_solver.
  - rewrite Forall_app, Forall_cons in *. tauto.
  - rewrite !all_intervals_app, !all_intervals_cons, !Forall_app in *. tauto.
Qed.

Lemma wf_nodes_mono brk brk' ns : wf_nodes brk ns → (brk <= brk')%nat → wf_nodes brk' ns.
Proof.
  intros [H1 H2 H3 H4 H5 H6] Hb. split; try done;
    (eapply Forall_impl; [done|]); simpl; lia.
Qed.

(** ** interval_tree_add *)

Lemma wf_tree_contents brk t' ns :
  contents t' = map erase ns → wf_nodes brk ns → wf_nodes brk (nodes t').
Proof.
  intros E H. apply wf_nodes_erase. fold (contents t'). rewrite E. by apply wf_nodes_erase.
Qed.

Lemma tree_intervals_contents t : tree_intervals t = all_intervals (contents t).
Proof. unfold tree_intervals, contents. by rewrite all_intervals_erase. Qed.

Lemma wf_create : wf_tree interval_tree_create.
Proof.
  split; [|done]. simpl. split; simpl; try constructor.
Qed.

Lemma key_elm_lt x s e :
  key_lt x (mk_node 0 s e e []) ↔ nd_start x < s ∨ (nd_start x = s ∧ nd_end x < e).
Proof. done. Qed.

Section add.
Context `{!rb_colour}.

Lemma interval_tree_add_spec it s e d :
  wf_tree it → coord_range s → coord_range e →
  let it' := fst (interval_tree_add it s e d) in
  wf_tree it' ∧ snd (interval_tree_add it s e d) = 0 ∧
  tree_intervals (it_root it') ≡ₚ mk_interval (it_brk it) s e d :: tree_intervals (it_root it) ∧
  (it_brk it < it_brk it')%nat.
Proof.
  intros [Hwf Hex] Hs He. destruct it as [t brk]. cbn [it_root it_brk] in *.
  set (node := mk_interval brk s e d).
  set (elm := mk_node 0 s e e []).
  assert (node_coords elm) as Helm by done.
  pose proof (wf_key_sorted _ _ Hwf) as Hks.
  assert (NoDup (ids t)) as Hnd by apply Hwf.
  assert (∀ pre post, nodes t = pre ++ post →
            (∀ x, x ∈ pre → key_lt x elm) → (∀ x, x ∈ post → nd_start elm < nd_start x) →
            let it' := mk_tree (fst (RB_INSERT t (mk_node (S brk) s e e [node]))) (S (S brk)) in
            wf_tree it' ∧
            tree_intervals (it_root it') ≡ₚ node :: tree_intervals t) as Hins.
  { intros pre post E Hpre Hpost it'.
    destruct (RB_INSERT_spec t (mk_node (S brk) s e e [node]) pre post) as [Hc Hexn];
      [done..| | |].
    { rewrite Forall_forall. intros x Hx. by apply Hpre. }
    { rewrite Forall_forall. intros x Hx. left. by apply Hpost. }
    subst it'. cbn [it_root it_brk]. split; [split; [|done]|].
    - eapply (wf_tree_contents _ _ (pre ++ mk_node (S brk) s e e [node] :: post)).
      { rewrite map_app. exact Hc. }
      rewrite E in Hwf. apply (wf_nodes_insert brk); [done|simpl; lia| | | | |].
      + split; simpl; [|by exists node; split; [left|]].
        constructor; [|constructor]. unfold interval_ok. simpl. split_and!; [done|lia|done..].
      + intros x Hx. destruct (Hpre x Hx) as [?|[? ?]]; [by left|right].
        split; [done|]. simpl. by repeat constructor.
      + intros x Hx. left. by apply Hpost.
      + rewrite all_intervals_app, all_intervals_cons. simpl.
        rewrite map_app. simpl. apply NoDup_app.
        pose proof (wf_iids _ _ Hwf) as Hi. pose proof (wf_ibrk _ _ Hwf) as Hb.
        rewrite all_intervals_app, map_app in Hi. apply NoDup_app in Hi as (Ha & Hab & Hb').
        rewrite all_intervals_app, Forall_app in Hb. destruct Hb as [Hb1 Hb2].
        split_and!; [done| |].
        * intros x Hx [->|Hx']%elem_of_cons; [|by eapply Hab].
          apply elem_of_map in Hx as (y & Hy & Hy'). rewrite Forall_forall in Hb1.
          specialize (Hb1 _ Hy'). simpl in Hb1. lia.
        * apply NoDup_cons. split; [|done]. intros Hx.
          apply elem_of_map in Hx as (y & Hy & Hy'). rewrite Forall_forall in Hb2.
          specialize (Hb2 _ Hy'). simpl in Hb2. lia.
      + repeat constructor; simpl; lia.
    - rewrite !tree_intervals_contents, Hc. unfold contents. rewrite E.
      change (map erase pre ++ erase (mk_node (S brk) s e e [node]) :: map erase post)
        with (map erase pre ++ map erase (mk_node (S brk) s e e [node] :: post)).
      rewrite <- !map_app.
      rewrite !all_intervals_erase, !all_intervals_app, all_intervals_cons. simpl.
      by rewrite Permutation_middle. }
  assert (∀ pre m post, nodes t = pre ++ m :: post → nd_start m = s →
            (∀ x, x ∈ pre → key_lt x elm) →
            (∀ x, x ∈ post → s < nd_start x ∨ e <= nd_end m) →
            let it' := mk_tree (at_node (nd_id m) (add_to_node node) t) (S brk) in
            wf_tree it' ∧
            tree_intervals (it_root it') ≡ₚ node :: tree_intervals t) as Hpack.
  { intros pre m post E Hms Hpre Hpost it'.
    destruct (locate_member _ _ _ _ Hnd E) as (l & r & c & Hloc & Ht & Hpre' & Hpost').
    subst it'. unfold at_node. rewrite Hloc. cbn [it_root it_brk].
    rewrite Ht in Hex. destruct (add_to_node_spec node l m r c Hex) as [Hc Hexn].
    rewrite <- Hpre', <- Hpost' in Hc.
    assert (m ∈ nodes t) as Hm by (rewrite E; set_solver).
    assert (node_ok m) as Hmok.
    { pose proof (wf_ok _ _ Hwf) as Hok. rewrite Forall_forall in Hok. by apply Hok. }
    split; [split; [|done]|].
    - eapply (wf_tree_contents _ _ (pre ++ packed node m :: post)).
      { rewrite map_app. exact Hc. }
      rewrite E in Hwf. apply (wf_nodes_replace brk _ _ m); [done|done| | | | | |simpl; lia].
      + destruct Hmok as [Hall (i & Hi & Hie)]. split.
        * constructor.
          { unfold interval_ok. simpl. split_and!; [done|lia|done..]. }
          eapply Forall_impl; [done|]. intros j (? & ? & ? & ?).
          unfold interval_ok. simpl. split_and!; [done|lia|done..].
        * simpl. destruct (Z.max_spec (nd_end m) e) as [[? ->]|[? ->]].
          -- exists node. split; [left|done].
          -- exists i. split; [by right|done].
      + intros x Hx. pose proof (wf_sorted _ _ Hwf) as Hso.
        apply StronglySorted_app in Hso as (Hso & _ & _).
        specialize (Hso x m Hx ltac:(left)).
        destruct Hso as [?|[? Hf]]; [left; simpl; lia|right]. split; [done|].
        simpl. constructor; [|done]. simpl.
        destruct (Hpre x Hx) as [?|[? ?]]; simpl in *; lia.
      + intros x Hx. pose proof (wf_sorted _ _ Hwf) as Hso.
        apply StronglySorted_app in Hso as (_ & _ & Hso).
        apply StronglySorted_cons in Hso as [Hso _]. rewrite Forall_forall in Hso.
        destruct (Hso x Hx) as [?|[? Hf]]; [by left|].
        destruct (Hpost x Hx) as [?|?]; [left; simpl; lia|]. right. split; [done|].
        simpl. by rewrite Z.max_l by lia.
      + rewrite all_intervals_app, all_intervals_cons. simpl.
        pose proof (wf_iids _ _ Hwf) as Hi. pose proof (wf_ibrk _ _ Hwf) as Hb.
        rewrite all_intervals_app, all_intervals_cons in Hi, Hb.
        rewrite !map_app in *. simpl.
        apply NoDup_app in Hi as (Ha & Hab & Hb').
        rewrite !Forall_app in Hb. destruct Hb as (Hb1 & Hb2 & Hb3).
        apply NoDup_app. split_and!; [done| |].
        * intros x Hx [->|Hx']%elem_of_cons.
          2:{ rewrite map_app in Hx'. by eapply Hab. }
          apply elem_of_map in Hx as (y & Hy & Hy'). rewrite Forall_forall in Hb1.
          specialize (Hb1 _ Hy'). simpl in Hb1. lia.
        * rewrite map_app. apply NoDup_cons. split; [|done]. intros Hx.
          apply elem_of_app in Hx as [Hx|Hx];
            apply elem_of_map in Hx as (y & Hy & Hy').
          -- rewrite Forall_forall in Hb2. specialize (Hb2 _ Hy'). simpl in Hb2. lia.
          -- rewrite Forall_forall in Hb3. specialize (Hb3 _ Hy'). simpl in Hb3. lia.
      + simpl. constructor; [simpl; lia|].
        pose proof (wf_ibrk _ _ Hwf) as Hb.
        rewrite all_intervals_app, all_intervals_cons, !Forall_app in Hb.
        destruct Hb as (_ & Hb & _). eapply Forall_impl; [done|]. simpl. lia.
    - rewrite !tree_intervals_contents, Hc. unfold contents. rewrite E.
      change (map erase pre ++ packed node m :: map erase post)
        with (map erase pre ++ map erase (packed node m :: post)).
      rewrite <- !map_app.
      rewrite !all_intervals_erase, !all_intervals_app, !all_intervals_cons. simpl.
      symmetry. apply Permutation_middle. }
  unfold interval_tree_add. cbn [it_root it_brk]. fold node. fold elm.
  rewrite (RB_NFIND_spec t elm Hks Helm).
  destruct (List.find _ (nodes t)) as [m|] eqn:Hfind.
  - apply find_split in Hfind as (pre & post & E & Hm & Hpre).
    apply bool_decide_eq_true in Hm.
    assert (∀ x, x ∈ pre → key_lt x elm) as Hpre'.
    { intros x Hx. rewrite Forall_forall in Hpre. specialize (Hpre x Hx).
      apply bool_decide_eq_false in Hpre. by apply dec_stable. }
    assert (∀ x, x ∈ post → key_lt m x) as Hpost.
    { destruct Hks as [Hks _]. rewrite E in Hks.
      apply StronglySorted_app in Hks as (_ & _ & Hks).
      apply StronglySorted_cons in Hks as [Hks _]. by rewrite Forall_forall in Hks. }
    destruct (Z.ltb_spec s (nd_start m)) as [Hlt|Hge].
    + rewrite (RB_PREV_spec t pre m post Hnd E).
      assert (∀ x, x ∈ m :: post → nd_start elm < nd_start x) as Hpost'.
      { intros x [->|Hx]%elem_of_cons; [done|].
        specialize (Hpost x Hx). unfold key_lt in Hpost. simpl. lia. }
      destruct (last pre) as [p|] eqn:Hlast.
      * apply last_Some in Hlast as [pre' ->].
        destruct (Z.eqb_spec (nd_start p) s) as [Hps|Hps].
        -- cbn [fst snd it_brk]. rewrite <- app_assoc in E. simpl in E.
           destruct (Hpack pre' p (m :: post) E Hps) as [H1 H2].
           { intros x Hx. apply Hpre'. set_solver. }
           { intros x Hx. left. apply Hpost' in Hx. simpl in Hx. lia. }
           split_and!; [done..|lia].
        -- cbn [fst snd it_brk].
           destruct (Hins (pre' ++ [p]) (m :: post) E Hpre' Hpost') as [H1 H2].
           split_and!; [done..|lia].
      * apply last_None in Hlast. subst pre. cbn [fst snd it_brk].
        destruct (Hins [] (m :: post) E Hpre' Hpost') as [H1 H2].
        split_and!; [done..|lia].
    + assert (nd_start m = s ∧ e <= nd_end m) as [Hms Hme].
      { unfold key_lt in Hm. simpl in Hm. lia. }
      destruct (Z.eqb_spec (nd_start m) s) as [_|]; [|done].
      cbn [fst snd it_brk].
      destruct (Hpack pre m post E Hms Hpre') as [H1 H2]; [by right|].
      split_and!; [done..|lia].
  - apply find_none_all in Hfind. cbn [fst snd it_brk].
    destruct (Hins (nodes t) []) as [H1 H2].
    + by rewrite app_nil_r.
    + intros x Hx. rewrite Forall_forall in Hfind. specialize (Hfind x Hx).
      apply bool_decide_eq_false in Hfind. by apply dec_stable.
    + intros x Hx. by apply elem_of_nil in Hx.
    + split_and!; [done..|lia].
Qed.

End add.

(** ** The range iterator *)

Section iterator.
Variables lo hi : Z.
Local Abbreviation walk := (walk lo hi).
Local Abbreviation left_part := (left_part lo hi).
Local Abbreviation right_part := (right_part lo hi).
Local Abbreviation rest_path := (rest_path lo hi).
Local Abbreviation iter_rem := (iter_rem lo hi).
Local Abbreviation iter_bounds := (iter_bounds lo hi).
Local Abbreviation iter_outcome := (iter_outcome lo hi).

Lemma walk_node l n r :
  walk (RB_NODE l n r) =
  left_part l ++ List.filter (overlaps lo hi) (node_list lo hi n) ++ right_part n r.
Proof. done. Qed.

Lemma scan_Some iv i rest :
  scan lo hi iv = Some (i, rest) →
  List.filter (overlaps lo hi) iv = i :: List.filter (overlaps lo hi) rest.
Proof.
  induction iv as [|a iv IH]; simpl; [done|].
  destruct (overlaps lo hi a); [by intros [= -> ->]|]. apply IH.
Qed.

Lemma scan_None iv : scan lo hi iv = None → List.filter (overlaps lo hi) iv = [].
Proof.
  induction iv as [|a iv IH]; simpl; [done|].
  destruct (overlaps lo hi a); [done|]. apply IH.
Qed.

Lemma ascend_spec t c :
  match ascend t c with
  | (RB_NODE _ p r', c') =>
      rest_path c = List.filter (overlaps lo hi) (node_list lo hi p) ++ right_part p r' ++
                    rest_path c'
      ∧ todo c = (2 * tree_size r' + 1 + todo c')%nat
  | (RB_NULL, _) => rest_path c = []
  end.
Proof.
  revert t. induction c as [|[p r|l p] c IH]; intros t; simpl; [done|done|]. apply IH.
Qed.

Lemma iter_rem_loop l n r up iv d :
  iter_rem true (mk_iter (RB_NODE l n r) up iv lo hi d) =
  List.filter (overlaps lo hi) iv ++ right_part n r ++ rest_path up.
Proof. done. Qed.

Lemma iter_rem_done l n r up iv :
  iter_rem false (mk_iter (RB_NODE l n r) up iv lo hi true) =
  List.filter (overlaps lo hi) iv ++ right_part n r ++ rest_path up.
Proof. done. Qed.

Lemma iter_rem_enter l n r up :
  iter_rem false (mk_iter (RB_NODE l n r) up (node_list lo hi n) lo hi false) =
  walk (RB_NODE l n r) ++ rest_path up.
Proof.
  unfold iter_rem. cbn [iter_node iter_up iter_iv iter_done_lr orb].
  rewrite walk_node. unfold left_part. rewrite <- !app_assoc.
  destruct l as [|? ln ?]; [done|]. by destruct (lo <=? nd_last ln).
Qed.

Lemma iter_mu_loop l n r up iv d :
  iter_mu true (mk_iter (RB_NODE l n r) up iv lo hi d) =
  (2 * tree_size r + 1 + todo up)%nat.
Proof. done. Qed.

Lemma iter_mu_done l n r up iv :
  iter_mu false (mk_iter (RB_NODE l n r) up iv lo hi true) =
  (2 * tree_size r + 2 + todo up)%nat.
Proof. unfold iter_mu. simpl. lia. Qed.

Lemma iter_mu_enter l n r up iv :
  iter_mu false (mk_iter (RB_NODE l n r) up iv lo hi false) =
  (2 * tree_size (RB_NODE l n r) + todo up)%nat.
Proof. unfold iter_mu. simpl. lia. Qed.

Lemma iter_outcome_mono b b' R res :
  iter_outcome b R res → (b <= b')%nat → iter_outcome b' R res.
Proof.
  destruct R as [|i R]; simpl; [done|]. intros (iter' & ? & ? & ? & ?) Hb.
  exists iter'. split_and!; [done..|lia].
Qed.

Lemma iter_run_spec fuel in_loop iter :
  (iter_mu in_loop iter < fuel)%nat → iter_bounds iter →
  (in_loop = true → iter_done_lr iter = true) →
  iter_outcome (iter_mu in_loop iter + (if in_loop then 1 else 0))
               (iter_rem in_loop iter) (iter_run fuel in_loop iter).
Proof.
  revert in_loop iter. induction fuel as [|fuel IH]; intros in_loop iter Hmu [Hlo Hhi] Hdone;
    [lia|].
  destruct iter as [node up iv st en done_lr]. simpl in Hlo, Hhi. subst st en.
  destruct node as [|l n r]; [by eexists|].
  cbn [iter_run iter_node iter_up iter_iv iter_done_lr iter_start iter_end].
  destruct in_loop.
  - (* inside the while loop *)
    specialize (Hdone eq_refl). simpl in Hdone. subst done_lr.
    rewrite iter_rem_loop, iter_mu_loop in *.
    destruct (scan lo hi iv) as [[i rest]|] eqn:Hscan.
    + rewrite (scan_Some _ _ _ Hscan). simpl.
      eexists. split; [done|]. rewrite iter_rem_done, iter_mu_done.
      split_and!; [done|done|lia].
    + rewrite (scan_None _ Hscan). simpl app.
      assert (right_part n r = [] →
              iter_outcome (2 * tree_size r + 1 + todo up + 1) (rest_path up)
                (let '(t', c') := ascend (RB_NODE l n r) up in
                 iter_run fuel true
                   (mk_iter t' c' (match t' with
                                   | RB_NODE _ p _ => node_list lo hi p
                                   | RB_NULL => iv end) lo hi true))) as Hasc.
      { intros Hr. pose proof (ascend_spec (RB_NODE l n r) up) as Hs.
        destruct (ascend (RB_NODE l n r) up) as [t' c'].
        destruct t' as [|l' p r'].
        - rewrite Hs. destruct fuel; [lia|]. by eexists.
        - destruct Hs as [Hs1 Hs2]. rewrite Hs1.
          pose proof (IH true (mk_iter (RB_NODE l' p r') c' (node_list lo hi p) lo hi true))
            as IH'.
          rewrite iter_rem_loop, iter_mu_loop in IH'.
          eapply iter_outcome_mono; [apply IH'; [lia|done|done]|lia]. }
      destruct r as [|rl rn rr]; [by apply Hasc|].
      unfold right_part at 1. unfold right_part at 1 in Hasc.
      destruct (Z.leb_spec (nd_start n) hi); [|by apply Hasc].
      pose proof (IH false (mk_iter (RB_NODE rl rn rr) (FrameR l n :: up)
                              (node_list lo hi rn) lo hi false)) as IH'.
      rewrite iter_rem_enter, iter_mu_enter in IH'. cbn [rest_path todo] in IH'.
      eapply iter_outcome_mono; [apply IH'; [simpl in *; lia|done|done]|simpl; lia].
  - (* at the head of the function *)
    assert (iter_outcome (iter_mu false (mk_iter (RB_NODE l n r) up iv lo hi done_lr))
              (List.filter (overlaps lo hi) iv ++ right_part n r ++ rest_path up)
              (iter_run fuel true (mk_iter (RB_NODE l n r) up iv lo hi true))) as Hstay.
    { pose proof (IH true (mk_iter (RB_NODE l n r) up iv lo hi true)) as IH'.
      rewrite iter_rem_loop, iter_mu_loop in IH'.
      eapply iter_outcome_mono; [apply IH'; [|done|done]|].
      - destruct done_lr; [rewrite iter_mu_done in Hmu|rewrite iter_mu_enter in Hmu];
          simpl in *; lia.
      - destruct done_lr; [rewrite iter_mu_done|rewrite iter_mu_enter]; simpl; lia. }
    rewrite Nat.add_0_r.
    destruct done_lr; [by rewrite iter_rem_done|].
    unfold iter_rem at 1. cbn [iter_node iter_up iter_iv iter_done_lr orb].
    destruct l as [|ll ln lr]; [done|].
    destruct (Z.leb_spec lo (nd_last ln)); [|done].
    pose proof (IH false (mk_iter (RB_NODE ll ln lr) (FrameL n r :: up)
                            (node_list lo hi ln) lo hi false)) as IH'.
    rewrite iter_rem_enter, iter_mu_enter in IH'. cbn [rest_path todo] in IH'.
    rewrite iter_mu_enter in *.
    eapply iter_outcome_mono; [apply IH'; [simpl in *; lia|done|done]|simpl; lia].
Qed.

Lemma iter_drain_spec fuel iter :
  (iter_mu false iter + length (iter_rem false iter) < fuel)%nat → iter_bounds iter →
  iter_drain fuel iter = Some (iter_rem false iter).
Proof.
  revert iter. induction fuel as [|fuel IH]; intros iter Hmu Hb; [lia|].
  cbn [iter_drain]. unfold interval_iter_next.
  pose proof (iter_run_spec (S fuel) false iter ltac:(lia) Hb ltac:(done)) as Hrun.
  unfold iter_outcome in Hrun.
  destruct (iter_rem false iter) as [|i R].
  - destruct Hrun as (iter' & ->). done.
  - destruct Hrun as (iter' & -> & HR & Hb' & Hmu').
    rewrite IH; [by rewrite HR| |done]. rewrite HR. simpl in Hmu. lia.
Qed.

End iterator.

(** ** The iterator on a well-formed tree *)

Lemma omax_ub l v : omax l = Some v → Forall (λ x, x <= v) l.
Proof.
  revert v. induction l as [|x l IH]; intros v; simpl; [constructor|].
  intros [= <-]. constructor; [zmax|].
  destruct (omax l) as [w|] eqn:E; simpl.
  - eapply Forall_impl; [by apply IH|]. simpl. lia.
  - destruct l; [constructor|done].
Qed.

Lemma exact_last_ub l n r m :
  exact (RB_NODE l n r) → m ∈ nodes (RB_NODE l n r) → nd_end m <= nd_last n.
Proof.
  intros (_ & _ & _ & [[]|He]) Hm. symmetry in He. apply omax_ub in He.
  rewrite Forall_forall in He. apply He. unfold ends. by apply elem_of_map_2.
Qed.

Lemma tree_intervals_node l n r :
  tree_intervals (RB_NODE l n r) = tree_intervals l ++ nd_intervals n ++ tree_intervals r.
Proof. unfold tree_intervals. simpl. by rewrite map_app, concat_app. Qed.

Lemma filter_nil_intro {A} (p : A → bool) (l : list A) :
  (∀ x, x ∈ l → p x = false) → List.filter p l = [].
Proof.
  induction l as [|a l IH]; intros H; simpl; [done|].
  rewrite H by left. apply IH. intros x Hx. apply H. by right.
Qed.

Lemma elem_of_tree_intervals t i :
  i ∈ tree_intervals t ↔ ∃ m, m ∈ nodes t ∧ i ∈ nd_intervals m.
Proof.
  unfold tree_intervals. rewrite elem_of_concat. split.
  - intros (l & Hl & Hi). apply elem_of_map in Hl as (m & -> & Hm). eauto.
  - intros (m & Hm & Hi). exists (nd_intervals m). split; [|done]. by apply elem_of_map_2.
Qed.

Section iterator_wf.
Variables lo hi : Z.

Lemma node_list_filter n :
  node_ok n →
  List.filter (overlaps lo hi) (node_list lo hi n) =
  List.filter (overlaps lo hi) (nd_intervals n).
Proof.
  intros [Hall _]. unfold node_list.
  destruct (Z.leb_spec (nd_start n) hi); destruct (Z.leb_spec lo (nd_end n)); simpl; try done;
    symmetry; apply filter_nil_intro; intros i Hi; rewrite Forall_forall in Hall;
    destruct (Hall i Hi) as (? & ? & _); unfold overlaps;
    apply andb_false_iff; rewrite !Z.leb_gt; lia.
Qed.

Lemma walk_wf t :
  key_sorted (nodes t) → Forall node_ok (nodes t) → exact t →
  walk lo hi t = List.filter (overlaps lo hi) (tree_intervals t).
Proof.
  induction t as [|l IHl n r IHr]; intros Hs Hok Hex; [done|].
  simpl in Hs, Hok. apply key_sorted_app in Hs as (Hsl & Hsr & Hlr).
  destruct Hsr as [Hsr1 Hsr2]. apply StronglySorted_cons in Hsr1 as [Hnr Hsr1].
  apply Forall_cons in Hsr2 as [_ Hsr2].
  apply Forall_app in Hok as [Hokl Hokr]. apply Forall_cons in Hokr as [Hokn Hokr].
  pose proof Hex as (Hexl & Hexr & _).
  rewrite walk_node, tree_intervals_node, !List.filter_app.
  rewrite node_list_filter by done. f_equal; [|f_equal].
  - unfold left_part. destruct l as [|ll ln lr]; [done|].
    destruct (Z.leb_spec lo (nd_last ln)); [by apply IHl|].
    symmetry. apply filter_nil_intro. intros i Hi.
    apply elem_of_tree_intervals in Hi as (m & Hm & Hi).
    pose proof (exact_last_ub _ _ _ _ Hexl Hm).
    rewrite Forall_forall in Hokl. destruct (Hokl m Hm) as [Hall _].
    rewrite Forall_forall in Hall. destruct (Hall i Hi) as (? & ? & _).
    unfold overlaps. apply andb_false_iff. rewrite !Z.leb_gt. lia.
  - unfold right_part. destruct r as [|rl rn rr]; [done|].
    destruct (Z.leb_spec (nd_start n) hi); [by apply IHr|].
    symmetry. apply filter_nil_intro. intros i Hi.
    apply elem_of_tree_intervals in Hi as (m & Hm & Hi).
    rewrite Forall_forall in Hnr. pose proof (Hnr m Hm) as Hk.
    rewrite Forall_forall in Hokr. destruct (Hokr m Hm) as [Hall _].
    rewrite Forall_forall in Hall. destruct (Hall i Hi) as (? & ? & _).
    unfold overlaps, key_lt in *. apply andb_false_iff. rewrite !Z.leb_gt. lia.
Qed.

Lemma filter_length_le {A} (p : A → bool) (l : list A) :
  (length (List.filter p l) <= length l)%nat.
Proof. induction l as [|a l IH]; simpl; [done|]. destruct (p a); simpl; lia. Qed.

(** The iterator hands out exactly the stored intervals that overlap the
    range, in tree order, and its fuel suffices. *)
Lemma interval_iter_all_spec it :
  wf_tree it →
  iter_drain (iter_fuel (it_root it) (length (tree_intervals (it_root it))))
             (interval_range_iter it lo hi)
  = Some (List.filter (overlaps lo hi) (tree_intervals (it_root it))) ∧
  interval_iter_all it lo hi = List.filter (overlaps lo hi) (tree_intervals (it_root it)).
Proof.
  intros [Hwf Hex]. destruct it as [t brk]. cbn [it_root it_brk] in *.
  pose proof (wf_key_sorted _ _ Hwf) as Hs. pose proof (wf_ok _ _ Hwf) as Hok.
  assert (iter_rem lo hi false (interval_range_iter (mk_tree t brk) lo hi) =
          List.filter (overlaps lo hi) (tree_intervals t)) as Hrem.
  { unfold interval_range_iter. cbn [it_root]. destruct t as [|l n r]; [done|].
    unfold iter_rem. cbn [iter_node iter_up iter_iv iter_done_lr orb rest_path].
    rewrite !app_nil_r.
    simpl in Hs, Hok. pose proof Hs as Hs'. pose proof Hok as Hok'.
    apply Forall_app in Hok' as [_ [Hn _]%Forall_cons].
    assert (walk lo hi (RB_NODE l n r) =
            List.filter (overlaps lo hi) (tree_intervals (RB_NODE l n r))) as Hw
      by (by apply walk_wf).
    rewrite walk_node, node_list_filter in Hw by done.
    destruct l as [|ll ln lr]; [done|].
    unfold left_part in Hw. destruct (lo <=? nd_last ln); [|done].
    by rewrite node_list_filter. }
  assert (iter_drain (iter_fuel t (length (tree_intervals t)))
            (interval_range_iter (mk_tree t brk) lo hi)
          = Some (List.filter (overlaps lo hi) (tree_intervals t))) as Hd.
  { rewrite <- Hrem. apply iter_drain_spec; [|done].
    rewrite Hrem. pose proof (filter_length_le (overlaps lo hi) (tree_intervals t)).
    unfold iter_fuel, interval_range_iter. cbn [it_root].
    destruct t as [|l n r]; [simpl; lia|]. rewrite iter_mu_enter. simpl in *. lia. }
  split; [done|]. unfold interval_iter_all. cbn [it_root]. by rewrite Hd.
Qed.

End iterator_wf.

#[local] Arguments interval_augment : simpl never.
#[local] Arguments augment_parent : simpl never.

(** ** Removal *)

Lemma plug_app t k c : plug t (k ++ c) = plug (plug t k) c.
Proof. revert t. induction k as [|f k IH]; intros t; simpl; [done|]. apply IH. Qed.

Lemma path_after_app k c : path_after (k ++ c) = path_after k ++ path_after c.
Proof.
  induction k as [|[p r|l p] k IH]; simpl; [done|..]; rewrite IH; by rewrite <- ?app_assoc.
Qed.

Lemma path_before_app k c : path_before (k ++ c) = path_before c ++ path_before k.
Proof.
  induction k as [|[p r|l p] k IH]; simpl; [by rewrite app_nil_r|done|].
  rewrite IH. by rewrite <- !app_assoc.
Qed.

Lemma leftmost_spec r c0 s sr cs :
  leftmost r c0 = Some (s, sr, cs) →
  ∃ k, cs = k ++ c0 ∧ r = plug (RB_NODE RB_NULL s sr) k ∧ path_before k = [].
Proof.
  revert c0. induction r as [|l IHl n r' _]; intros c0; [done|]. simpl.
  destruct l as [|ll ln lr].
  - intros [= -> -> ->]. by exists [].
  - intros H. destruct (IHl _ H) as (k & -> & Hl & Hk).
    exists (k ++ [FrameL n r']). split_and!.
    + by rewrite <- app_assoc.
    + rewrite plug_app, <- Hl. done.
    + rewrite path_before_app. simpl. done.
Qed.

Lemma leftmost_is_Some l n r c0 : is_Some (leftmost (RB_NODE l n r) c0).
Proof.
  revert n r c0. induction l as [|ll IH ln lr _]; intros n r c0; simpl; [by eexists|].
  apply IH.
Qed.

Lemma path_eqv_app_inv k f c cs :
  path_eqv (k ++ f :: c) cs →
  ∃ k1 f1 c1, cs = k1 ++ f1 :: c1 ∧ path_eqv k k1 ∧ path_eqv [f] [f1] ∧ path_eqv c c1.
Proof.
  revert cs. induction k as [|g k IH]; intros cs H.
  - destruct cs as [|f1 c1]; [by destruct f|]. exists [], f1, c1.
    split_and!; [done|done| |]; destruct f, f1; simpl in *; tauto.
  - destruct cs as [|g1 cs]; [by destruct g|].
    assert (path_eqv [g] [g1] ∧ path_eqv (k ++ f :: c) cs) as [Hg Hr].
    { destruct g, g1; simpl in *; tauto. }
    destruct (IH _ Hr) as (k1 & f1 & c1 & -> & ? & ? & ?).
    exists (g1 :: k1), f1, c1. split_and!; try done.
    destruct g, g1; simpl in *; tauto.
Qed.

Lemma path_eqv_app k k1 c c1 : path_eqv k k1 → path_eqv c c1 → path_eqv (k ++ c) (k1 ++ c1).
Proof.
  revert k1. induction k as [|[] k IH]; intros [|[] k1]; simpl; try tauto;
    intros (? & ? & ?) ?; auto.
Qed.

Lemma augment_parent_shape t c :
  ∃ c', plug_cursor (augment_parent (t, c)) = plug t c' ∧ path_eqv c c'.
Proof.
  destruct c as [|f c]; [by exists []|]. unfold augment_parent.
  destruct f as [p r|l p]; cbn [fill].
  - destruct (interval_augment_value t p r c) as (c' & -> & Hc).
    exists (FrameL (set_last p (obump (obump (nd_end p) (olast t)) (olast r))) r :: c').
    split; [done|]. simpl. by rewrite erase_set_last.
  - destruct (interval_augment_value l p t c) as (c' & -> & Hc).
    exists (FrameR l (set_last p (obump (obump (nd_end p) (olast l)) (olast t))) :: c').
    split; [done|]. simpl. by rewrite erase_set_last.
Qed.

Lemma augment_to_root_contents fuel z :
  contents (plug_cursor (augment_to_root fuel z)) = contents (plug_cursor z).
Proof.
  revert z. induction fuel as [|fuel IH]; intros z; [done|]. cbn [augment_to_root].
  pose proof (keeps_contents interval_augment z keeps_augment) as Hk.
  destruct (interval_augment z) as [t [|f c]]; [done|].
  rewrite IH. done.
Qed.

Lemma augment_walk_contents z :
  contents (plug_cursor (augment_walk z)) = contents (plug_cursor z).
Proof. apply augment_to_root_contents. Qed.

Lemma siblings_exact_app k c : siblings_exact (k ++ c) ↔ siblings_exact k ∧ siblings_exact c.
Proof. apply Forall_app. Qed.

Lemma exact_siblings t c : exact (plug t c) → siblings_exact c.
Proof.
  intros [_ H]%exact_plug_inv. eapply path_inv_siblings; [done|]. by intros [].
Qed.

Lemma NoDup_ids_contents t ns : contents t = map erase ns → ids t = map nd_id ns.
Proof. intros H. by rewrite <- contents_ids, H, map_id_erase. Qed.

(** A node of a tree whose invariant exempts the path above [x]. *)
Lemma tree_inv_located x l n r c :
  NoDup (ids (plug (RB_NODE l n r) c)) → nd_id n = x →
  tree_inv (Some x) (plug (RB_NODE l n r) c) →
  exact l ∧ exact r ∧ siblings_exact c.
Proof.
  intros Hnd Hx [Hn Hc]%tree_inv_plug. rewrite ids_plug, ids_node in Hnd.
  apply NoDup_app in Hnd as (_ & Hbf & Hnd). apply NoDup_app in Hnd as (Hnd & Haf & _).
  apply NoDup_app in Hnd as (_ & Hl & Hnd). apply NoDup_cons in Hnd as [Hr _].
  destruct Hn as (Hl' & Hr' & _). split_and!.
  - apply (tree_inv_off (Some x)); [done|]. simpl. intros H. apply (Hl _ H). subst x. left.
  - apply (tree_inv_off (Some x)); [done|]. simpl. by subst x.
  - eapply path_inv_siblings; [done|]. simpl. rewrite map_app. intros [H|H]%elem_of_app.
    + apply (Hbf _ H). subst x. set_solver.
    + eapply Haf; [|done]. subst x. set_solver.
Qed.

Section remove.
Context `{!rb_colour}.

(** The node [o] with at most one child is replaced by that child. *)
Lemma RB_REMOVE_splice l o r c :
  (l = RB_NULL ∨ r = RB_NULL) → exact (plug (RB_NODE l o r) c) →
  let child := match l with RB_NULL => r | _ => l end in
  let t1 := plug_cursor (augment_parent (child, c)) in
  contents t1 = map erase (path_before c ++ nodes l) ++ map erase (nodes r ++ path_after c) ∧
  tree_inv (option_map nd_id (RB_PARENT (l, c))) t1.
Proof.
  intros Hlr Hex child t1. subst t1. split.
  - rewrite keeps_augment_parent_gen, contents_plug. unfold contents, child.
    rewrite !map_app. destruct Hlr as [-> | ->]; simpl.
    + by rewrite app_nil_r.
    + destruct l; simpl; rewrite ?app_nil_r, <- ?app_assoc; done.
  - assert (exact child) as Hch.
    { apply exact_plug_inv in Hex as [(? & ? & _) _]. unfold child. by destruct l. }
    assert (ole (olast child) (olast (RB_NODE l o r))) as Hle.
    { apply exact_plug_inv in Hex as [(_ & _ & Hb & _) _]. unfold child.
      destruct Hlr as [-> | ->]; simpl in *.
      - destruct r; simpl in *; [done|]. zmax.
      - destruct l; simpl in *; [done|]. zmax. }
    destruct c as [|f rest]; [by apply exact_tree_inv|].
    unfold RB_PARENT. cbn [snd option_map]. unfold augment_parent.
    simpl in Hex. apply exact_plug_inv in Hex as [Hf Hrest].
    destruct f as [p s|s p]; cbn [fill frame_node olast] in *;
      pose proof (path_inv_head _ _ _ _ _ Hrest) as Hhd.
    + destruct Hf as (_ & Hs & Hb & _). simpl in Hb.
      rewrite interval_augment_quiet.
      2:{ destruct rest; simpl in *; [done|].
          destruct (olast child), (olast s); simpl in *; zmax. }
      unfold plug_cursor. cbn [fst snd]. apply tree_inv_plug. split.
      * apply tree_inv_recompute; by apply exact_tree_inv.
      * eapply path_inv_onto; [done| |].
        -- rewrite ids_node. simpl. set_solver.
        -- simpl. destruct (olast child), (olast s); simpl in *; zmax.
    + destruct Hf as (Hs & _ & Hb & _). simpl in Hb.
      rewrite interval_augment_quiet.
      2:{ destruct rest; simpl in *; [done|].
          destruct (olast child), (olast s); simpl in *; zmax. }
      unfold plug_cursor. cbn [fst snd]. apply tree_inv_plug. split.
      * apply tree_inv_recompute; by apply exact_tree_inv.
      * eapply path_inv_onto; [done| |].
        -- rewrite ids_node. simpl. set_solver.
        -- simpl. destruct (olast child), (olast s); simpl in *; zmax.
Qed.

Lemma at_node_plug f l n r c :
  NoDup (ids (plug (RB_NODE l n r) c)) →
  at_node (nd_id n) f (plug (RB_NODE l n r) c) = plug_cursor (f (RB_NODE l n r, c)).
Proof. intros Hnd. unfold at_node. by rewrite locate_plug. Qed.

Lemma ids_plug_eqv t t' c c' :
  ids t = ids t' → path_eqv c c' → ids (plug t c) = ids (plug t' c').
Proof.
  intros Ht Hc. rewrite !ids_plug, Ht. by destruct (path_eqv_ids _ _ Hc) as [-> ->].
Qed.

Lemma NoDup_sub {A} (l k : list A) : NoDup k → l ⊆+ k → NoDup l.
Proof.
  intros Hk [k' Hp]%submseteq_Permutation. rewrite Hp in Hk.
  by apply NoDup_app in Hk as [? _].
Qed.

Lemma NoDup_sub_ne {A} (a b : A) (k : list A) : NoDup k → [a; b] ⊆+ k → a ≠ b.
Proof.
  intros Hk Hs. pose proof (NoDup_sub _ _ Hk Hs) as Hn.
  apply NoDup_cons in Hn as [Hn _]. set_solver.
Qed.

Ltac nodup_solve H :=
  clear -H; rewrite ?map_app in H; rewrite ?map_app; simpl in H; simpl;
  first [apply (NoDup_sub _ _ H) | apply (NoDup_sub_ne _ _ _ H)]; solve_submseteq.

(** The node [o] with two children: its successor [s] takes its place. *)
Lemma RB_REMOVE_swap l o r c s sr cs :
  l ≠ RB_NULL →
  NoDup (ids (plug (RB_NODE l o r) c)) → exact (plug (RB_NODE l o r) c) →
  leftmost r (FrameR l o :: c) = Some (s, sr, cs) →
  let parent := match cs with f :: _ => nd_id (frame_node f) | [] => nd_id o end in
  let t1 := plug_cursor (augment_parent (sr, cs)) in
  let parent' := if Nat.eqb parent (nd_id o) then nd_id s else parent in
  let t2 := at_node (nd_id o) (λ z, augment_parent (replace_node s z)) t1 in
  let t3 := at_node parent' augment_walk t2 in
  contents t3 = map erase (path_before c ++ nodes l) ++ map erase (nodes r ++ path_after c) ∧
  exact t3.
Proof.
  intros Hl Hnd Hex Hlm parent t1 parent' t2 t3.
  destruct (leftmost_spec _ _ _ _ _ Hlm) as (k & -> & Hr & Hk).
  pose proof Hex as [Hfoc Hpath]%exact_plug_inv.
  pose proof Hfoc as (Hexl & Hexr & _).
  pose proof (exact_siblings _ _ Hex) as Hsibc.
  rewrite Hr in Hexr. pose proof (exact_siblings _ _ Hexr) as Hsibk.
  apply exact_plug_inv in Hexr as [(_ & Hexsr & _) _].
  rewrite ids_plug, ids_node in Hnd.
  assert (ids r = nd_id s :: ids sr ++ map nd_id (path_after k)) as Hidr.
  { rewrite Hr, ids_plug, Hk, ids_node. done. }
  assert (nodes r = s :: nodes sr ++ path_after k) as Hnr.
  { rewrite Hr, nodes_plug, Hk. done. }
  rewrite Hidr in Hnd.
  destruct k as [|f k'].
  - (* the successor is the right child of [o] *)
    cbn [app frame_node] in *.
    assert (parent' = nd_id s) as Hp' by (subst parent' parent; by rewrite Nat.eqb_refl).
    destruct (interval_augment_value l o sr c) as (c1 & Ha1 & Hc1).
    set (o1 := set_last o _) in Ha1.
    assert (t1 = plug (RB_NODE l o1 sr) c1) as Ht1.
    { subst t1. unfold augment_parent. cbn [fill]. by rewrite Ha1. }
    assert (nd_id o1 = nd_id o) as Ho1 by done.
    destruct (augment_parent_shape (RB_NODE l s sr) c1) as (c2 & Ha2 & Hc2).
    assert (t2 = plug (RB_NODE l s sr) c2) as Ht2.
    { subst t2. rewrite Ht1, <- Ho1, at_node_plug; [by cbn [replace_node]|].
      rewrite ids_plug, ids_node. destruct (path_eqv_ids _ _ Hc1) as [<- <-].
      rewrite Ho1. simpl in Hnd. rewrite app_nil_r in Hnd.
      nodup_solve Hnd. }
    assert (t3 = plug_cursor (augment_walk (RB_NODE l s sr, c2))) as Ht3.
    { subst t3. rewrite Hp', Ht2, at_node_plug; [done|].
      rewrite ids_plug, ids_node.
      destruct (path_eqv_ids _ _ Hc1) as [Hb1 Hf1].
      destruct (path_eqv_ids _ _ Hc2) as [Hb2 Hf2].
      rewrite <- Hb2, <- Hf2, <- Hb1, <- Hf1.
      simpl in Hnd. rewrite app_nil_r in Hnd.
      nodup_solve Hnd. }
    rewrite Ht3. split.
    + rewrite augment_walk_contents. unfold plug_cursor. cbn [fst snd].
      rewrite contents_plug.
      rewrite <- (path_eqv_before c1 c2), <- (path_eqv_after c1 c2) by done.
      rewrite <- (path_eqv_before c c1), <- (path_eqv_after c c1) by done.
      unfold contents. rewrite Hnr. simpl. rewrite ?map_app. simpl.
      rewrite ?map_app, ?app_nil_r. by rewrite <- ?app_assoc.
    + apply augment_walk_exact; [done..|].
      eapply path_eqv_siblings; [done|]. by eapply path_eqv_siblings.
  - (* the successor lies deeper: its parent is [p] *)
    destruct f as [p rp|fl fp].
    2:{ simpl in Hk. apply app_eq_nil in Hk as [_ Hk]. apply app_eq_nil in Hk as [_ Hk].
        done. }
    simpl in Hk.
    apply Forall_cons in Hsibk as [Hexrp Hsibk]. simpl in Hexrp.
    cbn [app frame_node] in *.
    simpl in Hnd.
    assert (nd_id p ≠ nd_id o) as Hpo.
    { nodup_solve Hnd. }
    assert (parent' = nd_id p) as Hp'.
    { subst parent' parent. apply Nat.eqb_neq in Hpo. by rewrite Hpo. }
    destruct (interval_augment_value sr p rp (k' ++ FrameR l o :: c)) as (cs1 & Ha1 & Hcs1).
    set (p1 := set_last p _) in Ha1.
    destruct (path_eqv_app_inv _ _ _ _ Hcs1) as (k1 & f1 & c1 & -> & Hk1 & Hf1 & Hc1).
    destruct f1 as [|l1 o1]; [done|]. simpl in Hf1. destruct Hf1 as (Ho1 & <- & _).
    assert (t1 = plug (RB_NODE l o1 (plug (RB_NODE sr p1 rp) k1)) c1) as Ht1.
    { subst t1. unfold augment_parent. cbn [fill]. rewrite Ha1.
      unfold plug_cursor. cbn [fst snd]. by rewrite plug_app. }
    assert (nd_id o1 = nd_id o) as Hido1.
    { rewrite <- (erase_id o1), <- Ho1. apply erase_id. }
    assert (ids (plug (RB_NODE sr p1 rp) k1) =
            ids sr ++ nd_id p :: ids rp ++ map nd_id (path_after k')) as Hidr1.
    { rewrite ids_plug. destruct (path_eqv_ids _ _ Hk1) as [<- <-].
      rewrite Hk, ids_node. simpl. by rewrite <- app_assoc. }
    destruct (augment_parent_shape (RB_NODE l s (plug (RB_NODE sr p1 rp) k1)) c1)
      as (c2 & Ha2 & Hc2).
    assert (t2 = plug (RB_NODE sr p1 rp) (k1 ++ FrameR l s :: c2)) as Ht2.
    { subst t2. rewrite Ht1, <- Hido1, at_node_plug.
      - cbn [replace_node]. rewrite Ha2. by rewrite plug_app.
      - rewrite ids_plug, ids_node, Hidr1. destruct (path_eqv_ids _ _ Hc1) as [<- <-].
        rewrite Hido1. clear -Hnd. rewrite !map_app in Hnd. simpl in Hnd.
        nodup_solve Hnd. }
    assert (t3 = plug_cursor (augment_walk (RB_NODE sr p1 rp, k1 ++ FrameR l s :: c2)))
      as Ht3.
    { subst t3. rewrite Hp', Ht2. change (nd_id p) with (nd_id p1). rewrite at_node_plug; [done|].
      rewrite plug_app. cbn [plug fill]. rewrite ids_plug, ids_node, Hidr1.
      destruct (path_eqv_ids _ _ Hc1) as [Hb1 Hf1].
      destruct (path_eqv_ids _ _ Hc2) as [Hb2 Hf2].
      rewrite <- Hb2, <- Hf2, <- Hb1, <- Hf1.
      nodup_solve Hnd. }
    rewrite Ht3. split.
    + rewrite augment_walk_contents. unfold plug_cursor. cbn [fst snd].
      rewrite plug_app. cbn [plug fill]. rewrite contents_plug.
      rewrite <- (path_eqv_before c1 c2), <- (path_eqv_after c1 c2) by done.
      rewrite <- (path_eqv_before c c1), <- (path_eqv_after c c1) by done.
      unfold contents at 1. cbn [nodes]. rewrite nodes_plug.
      assert (map erase (path_before k1) = [] ∧
              map erase (path_after k1) = map erase (path_after k')) as [Hbk Hak].
      { rewrite <- (path_eqv_before k' k1), <- (path_eqv_after k' k1) by done.
        destruct (path_before k'); [done|]. by destruct (nodes rp). }
      rewrite Hnr. simpl. rewrite ?map_app. simpl. rewrite ?map_app. simpl.
      rewrite ?Hbk, ?Hak. unfold p1. rewrite ?erase_set_last.
      rewrite ?map_app. simpl.
      repeat first [rewrite <- app_assoc | rewrite <- app_comm_cons]. done.
    + apply augment_walk_exact; [done..|].
      apply siblings_exact_app. split.
      * eapply path_eqv_siblings; [done|]. done.
      * constructor; [done|]. eapply path_eqv_siblings; [done|].
        by eapply path_eqv_siblings.
Qed.

(** [RB_REMOVE] takes the node [o] out of the in-order list, and leaves a
    tree whose [last] fields are exact except possibly on the path that
    leads to the former parent of [o]. *)
Lemma RB_REMOVE_spec l o r c :
  NoDup (ids (plug (RB_NODE l o r) c)) → exact (plug (RB_NODE l o r) c) →
  let t' := RB_REMOVE (plug (RB_NODE l o r) c) (nd_id o) in
  contents t' = map erase (path_before c ++ nodes l) ++ map erase (nodes r ++ path_after c) ∧
  tree_inv (option_map nd_id (RB_PARENT (l, c))) t'.
Proof.
  intros Hnd Hex t'. subst t'. unfold RB_REMOVE. rewrite locate_plug by done.
  destruct l as [|ll ln lr].
  { destruct (RB_REMOVE_splice RB_NULL o r c) as [Hc Hi]; [by left|done|].
    rewrite rebalance_contents. split; [done|]. by apply rebalance_inv. }
  destruct r as [|rl rn rr].
  { destruct (RB_REMOVE_splice (RB_NODE ll ln lr) o RB_NULL c) as [Hc Hi]; [by right|done|].
    rewrite rebalance_contents. split; [done|]. by apply rebalance_inv. }
  destruct (leftmost_is_Some rl rn rr (FrameR (RB_NODE ll ln lr) o :: c)) as [[[s sr] cs] Hlm].
  rewrite Hlm.
  destruct (RB_REMOVE_swap (RB_NODE ll ln lr) o (RB_NODE rl rn rr) c s sr cs) as [Hc Hi];
    [done..|].
  rewrite rebalance_contents. split; [done|]. by apply rebalance_inv, exact_tree_inv.
Qed.

End remove.

(** ** Deleting an interval *)

Lemma max_end_from a l :
  let v := fold_left (λ last i, if last <? iv_end i then iv_end i else last) l a in
  a <= v ∧ Forall (λ i, iv_end i <= v) l ∧ (v = a ∨ ∃ i, i ∈ l ∧ iv_end i = v).
Proof.
  revert a. induction l as [|i l IH]; intros a; simpl.
  - split_and!; [lia|constructor|by left].
  - destruct (IH (if a <? iv_end i then iv_end i else a)) as (H1 & H2 & H3).
    destruct (Z.ltb_spec a (iv_end i)).
    + split_and!; [lia| |].
      * constructor; [lia|done].
      * right. destruct H3 as [->|(j & Hj & Hv)]; [exists i|exists j]; split; try done;
          [left|by right].
    + split_and!; [lia| |].
      * constructor; [lia|done].
      * destruct H3 as [->|(j & Hj & Hv)]; [by left|]. right. exists j. split; [by right|done].
Qed.

Lemma max_end_spec l :
  l ≠ [] → Forall (λ i, coord_range (iv_end i)) l →
  Forall (λ i, iv_end i <= max_end l) l ∧ ∃ i, i ∈ l ∧ iv_end i = max_end l.
Proof.
  intros Hne Hc. destruct (max_end_from INT_MIN l) as (H1 & H2 & H3). fold (max_end l) in *.
  split; [done|]. destruct H3 as [H3|H3]; [|done].
  destruct l as [|i l]; [done|]. apply Forall_cons in H2 as [H2 _].
  apply Forall_cons in Hc as [Hc _]. apply coord_range_int in Hc.
  exists i. split; [left|]. lia.
Qed.

Lemma max_end_node m : node_ok m → max_end (nd_intervals m) = nd_end m.
Proof.
  intros [Hall (i & Hi & He)].
  destruct (max_end_spec (nd_intervals m)) as [H1 (j & Hj & Hje)].
  - intros E. rewrite E in Hi. by apply elem_of_nil in Hi.
  - eapply Forall_impl; [done|]. by intros x (_ & _ & _ & ?).
  - rewrite Forall_forall in H1, Hall. specialize (H1 i Hi).
    destruct (Hall j Hj) as (_ & ? & _). lia.
Qed.

Lemma unlink_interval_spec node l :
  NoDup (map iv_id l) → node ∈ l →
  ∃ pre post, l = pre ++ node :: post ∧ unlink_interval (iv_id node) l = Some (pre ++ post).
Proof.
  induction l as [|a l IH]; intros Hnd Hin; [by apply elem_of_nil in Hin|].
  simpl in Hnd. apply NoDup_cons in Hnd as [Ha Hnd]. simpl.
  destruct (Nat.eqb_spec (iv_id a) (iv_id node)) as [E|E].
  - apply elem_of_cons in Hin as [->|Hin]; [by exists [], l|].
    exfalso. apply Ha. rewrite E. by apply elem_of_map_2.
  - apply elem_of_cons in Hin as [->|Hin]; [done|].
    destruct (IH Hnd Hin) as (pre & post & -> & ->). by exists (a :: pre), post.
Qed.

Lemma NoDup_map_inj {A B} (f : A → B) (l : list A) x y :
  NoDup (map f l) → x ∈ l → y ∈ l → f x = f y → x = y.
Proof.
  induction l as [|a l IH]; intros Hnd Hx Hy E; [by apply elem_of_nil in Hx|].
  simpl in Hnd. apply NoDup_cons in Hnd as [Ha Hnd].
  apply elem_of_cons in Hx as [->|Hx]; apply elem_of_cons in Hy as [->|Hy]; auto.
  - exfalso. apply Ha. rewrite E. by apply elem_of_map_2.
  - exfalso. apply Ha. rewrite <- E. by apply elem_of_map_2.
Qed.

(** [RB_NFIND] with the key of an interval finds the node that holds it. *)
Lemma RB_NFIND_member brk t pre m post node :
  wf_nodes brk (nodes t) → nodes t = pre ++ m :: post → node ∈ nd_intervals m →
  RB_NFIND t (mk_node O (iv_start node) (iv_end node) (iv_end node) []) = Some m.
Proof.
  intros Hwf Hn Hin. pose proof (wf_key_sorted _ _ Hwf) as Hks.
  destruct Hwf as [Hs Hok _ _ _ _]. rewrite Hn in Hs, Hok.
  apply Forall_app in Hok as [_ Hok]. apply Forall_cons in Hok as [[Hall _] _].
  rewrite Forall_forall in Hall. destruct (Hall _ Hin) as (Hst & Hen & Hcs & Hce).
  rewrite RB_NFIND_spec; [|done|by split].
  rewrite Hn, find_app, find_none_intro.
  - simpl. rewrite bool_decide_eq_true_2; [done|]. rewrite key_elm_lt. lia.
  - intros x Hx. apply bool_decide_eq_false_2. intros Hk. apply Hk. apply key_elm_lt.
    apply StronglySorted_app in Hs as (Hs & _ & _).
    specialize (Hs x m Hx (list_elem_of_here _ _)). destruct Hs as [Hs|[Hs1 Hs2]]; [left; lia|].
    rewrite Forall_forall in Hs2. specialize (Hs2 _ Hin). right. lia.
Qed.

Lemma recompute_up_contents t c : contents (recompute_up t c) = contents (plug t c).
Proof.
  revert t. induction c as [|[p r|l p] c IH]; intros t; simpl; [done|..];
    rewrite IH, !contents_plug; f_equal; f_equal; unfold contents; simpl;
    rewrite !map_app; simpl; by rewrite erase_set_last.
Qed.

Lemma recompute_node_exact l m r c :
  exact l → exact r → siblings_exact c →
  exact (recompute_up (RB_NODE l (set_last m (bump (bump (nd_end m) l) r)) r) c).
Proof.
  intros Hl Hr Hc. apply recompute_up_exact; [|done].
  rewrite !bump_obump. by apply tree_inv_recompute.
Qed.

(** After a removal: recomputing from the former parent [q] of the removed
    node settles the tree. *)
Lemma interval_recompute_last_del_parent t q e :
  NoDup (ids t) → tree_inv (Some q) t → q ∈ ids t → Forall node_ok (nodes t) →
  contents (interval_recompute_last_del t q e) = contents t ∧
  exact (interval_recompute_last_del t q e).
Proof.
  intros Hnd Hinv Hq Hok. unfold interval_recompute_last_del.
  destruct (locate_is_Some q t [] Hq) as [z Hz]. rewrite Hz.
  destruct (locate_inv _ _ _ Hz) as (l & n & r & c & -> & Hn & ->).
  destruct (tree_inv_located _ _ _ _ _ Hnd Hn Hinv) as (Hl & Hr & Hc).
  assert (node_ok n) as Hokn.
  { rewrite Forall_forall in Hok. apply Hok. rewrite nodes_plug. simpl. set_solver. }
  assert ((if nd_end n =? e then set_end n (max_end (nd_intervals n)) else n) = n) as ->.
  { destruct (nd_end n =? e); [|done]. rewrite max_end_node by done. by destruct n. }
  split.
  - rewrite recompute_up_contents, !contents_plug. unfold contents. simpl.
    rewrite !map_app. simpl. by rewrite erase_set_last.
  - by apply recompute_node_exact.
Qed.

Lemma frame_node_in_path f c :
  frame_node f ∈ path_before (f :: c) ++ path_after (f :: c).
Proof. destruct f; simpl; set_solver. Qed.

Section del.
Context `{!rb_colour}.

Lemma interval_tree_del_spec it node :
  wf_tree it → node ∈ tree_intervals (it_root it) →
  wf_tree (fst (interval_tree_del it node)) ∧ snd (interval_tree_del it node) = 0 ∧
  tree_intervals (it_root it) ≡ₚ node :: tree_intervals (it_root (fst (interval_tree_del it node))) ∧
  it_brk (fst (interval_tree_del it node)) = it_brk it.
Proof.
  intros [Hwf Hex] Hin. destruct it as [t brk]. simpl in *.
  unfold tree_intervals in Hin. apply elem_of_concat in Hin as (li & Hli & Hin).
  apply elem_of_map in Hli as (m & -> & Hm).
  assert (nd_id m ∈ ids t) as Hid by (by apply elem_of_map_2).
  destruct (locate_is_Some _ _ [] Hid) as [z Hz].
  destruct (locate_inv _ _ _ Hz) as (l & n & r & c & -> & Hn & Ht).
  assert (n = m) as ->.
  { apply (NoDup_map_inj nd_id (nodes t)); [apply Hwf| |done..].
    rewrite Ht, nodes_plug. simpl. set_solver. }
  clear Hn Hm Hid.
  set (pre := path_before c ++ nodes l). set (post := nodes r ++ path_after c).
  assert (nodes t = pre ++ m :: post) as Hnodes.
  { rewrite Ht, nodes_plug. simpl. unfold pre, post. by rewrite <- !app_assoc. }
  pose proof Hwf as Hwf'. rewrite Hnodes in Hwf'.
  assert (NoDup (map iv_id (nd_intervals m))) as Hndm.
  { destruct Hwf' as [_ _ _ Hii _ _]. rewrite all_intervals_app, all_intervals_cons in Hii.
    rewrite !map_app in Hii. apply NoDup_app in Hii as (_ & _ & Hii).
    by apply NoDup_app in Hii as (Hii & _ & _). }
  destruct (unlink_interval_spec node _ Hndm Hin) as (ipre & ipost & Hm & Hun).
  assert (NoDup (ids t)) as Hndt by apply Hwf.
  pose proof Hex as Hsib. rewrite Ht in Hsib. apply exact_siblings in Hsib.
  pose proof Hex as Hlr. rewrite Ht in Hlr. apply exact_plug_inv in Hlr as [(Hl & Hr & _) _].
  unfold interval_tree_del. cbn [it_root it_brk].
  rewrite (RB_NFIND_member brk t pre m post node) by done.
  rewrite Hun. remember (ipre ++ ipost) as rest eqn:Erest.
  destruct rest as [|i0 rest0].
  - (* the tree node becomes empty and is removed *)
    symmetry in Erest. apply app_eq_nil in Erest as [-> ->]. simpl in Hm.
    rewrite Hz. cbn [fst snd it_root it_brk].
    rewrite Ht in Hndt, Hex. rewrite Ht.
    destruct (RB_REMOVE_spec l m r c Hndt Hex) as [Hc Hi]. fold pre post in Hc.
    rewrite <- map_app in Hc.
    pose proof (wf_nodes_delete _ _ _ _ Hwf') as Hwfd.
    pose proof (wf_tree_contents _ _ _ Hc Hwfd) as Hwf1.
    set (t1 := RB_REMOVE (plug (RB_NODE l m r) c) (nd_id m)) in *.
    assert (tree_intervals t ≡ₚ node :: all_intervals (pre ++ post)) as Hperm.
    { unfold tree_intervals. fold (all_intervals (nodes t)).
      rewrite Hnodes, !all_intervals_app, all_intervals_cons, Hm. simpl.
      by rewrite Permutation_middle. }
    unfold RB_PARENT in *. cbn [snd] in *. destruct c as [|f c'].
    + simpl in Hi. split_and!; [split; [done|apply Hi]|done| |done].
      cbn [it_root fst]. rewrite (tree_intervals_contents t1), Hc, all_intervals_erase.
      by rewrite <- Ht.
    + cbn [option_map] in Hi.
      destruct (interval_recompute_last_del_parent t1 (nd_id (frame_node f)) (iv_end node))
        as [Hc2 Hex2]; [apply Hwf1|done| |apply Hwf1|].
      { rewrite (NoDup_ids_contents _ _ Hc). apply elem_of_map_2.
        pose proof (frame_node_in_path f c'). unfold pre, post. set_solver. }
      split_and!; [split; [|done]|done| |done]; cbn [it_root it_brk fst].
      * rewrite <- Hc2 in Hc. by apply (wf_tree_contents _ _ _ Hc).
      * rewrite (tree_intervals_contents (interval_recompute_last_del _ _ _)).
        rewrite Hc2, Hc, all_intervals_erase. by rewrite <- Ht.
  - (* the tree node keeps other intervals *)
    set (rest := i0 :: rest0) in *.
    cbn [fst snd it_root it_brk].
    set (m' := set_intervals m rest).
    assert (at_node (nd_id m) (λ z, match z with
              | (RB_NODE l0 m0 r0, c0) => (RB_NODE l0 (set_intervals m0 rest) r0, c0)
              | _ => z end) t = plug (RB_NODE l m' r) c) as ->.
    { unfold at_node. by rewrite Hz. }
    unfold interval_recompute_last_del.
    change (nd_id m) with (nd_id m').
    rewrite locate_plug.
    2:{ rewrite ids_plug, ids_node. change (nd_id m') with (nd_id m).
        by rewrite <- ids_node, <- ids_plug, <- Ht. }
    set (m1 := if nd_end m' =? iv_end node then set_end m' (max_end (nd_intervals m')) else m').
    assert (nd_id m1 = nd_id m ∧ nd_start m1 = nd_start m ∧ nd_intervals m1 = rest ∧
            nd_end m1 <= nd_end m ∧ node_ok m1) as (Hid1 & Hst1 & Hiv1 & Hle1 & Hok1).
    { pose proof Hwf' as [_ Hok _ _ _ _]. apply Forall_app in Hok as [_ Hok].
      apply Forall_cons in Hok as [[Hall (j & Hj & Hje)] _].
      rewrite Hm in Hall, Hj.
      assert (Forall (interval_ok m) rest) as Hallr.
      { rewrite Erest. apply Forall_app in Hall as [? Hall].
        apply Forall_cons in Hall as [_ ?]. by apply Forall_app. }
      assert (rest ≠ []) as Hne by done.
      destruct (max_end_spec rest Hne) as [Hmax (k & Hk & Hke)].
      { eapply Forall_impl; [done|]. by intros x (_ & _ & _ & ?). }
      unfold m1. destruct (Z.eqb_spec (nd_end m') (iv_end node)) as [E|E].
      - cbn [nd_intervals m' set_intervals]. destruct m as [mi ms me ml mints].
        simpl in *. split_and!; try done.
        + rewrite Forall_forall in Hallr. destruct (Hallr k Hk) as (_ & ? & _). simpl in *. lia.
        + split; simpl; [|by exists k].
          rewrite Forall_forall in Hallr, Hmax |- *. intros x Hx.
          destruct (Hallr x Hx) as (? & ? & ? & ?). specialize (Hmax x Hx).
          split_and!; simpl in *; done.
      - destruct m as [mi ms me ml mints]. simpl in *. split_and!; try done.
        split; [exact Hallr|]. exists j. split; [|done]. simpl.
        rewrite Erest. rewrite !elem_of_app, elem_of_cons in *.
        destruct Hj as [?|[->|?]]; [by left| |by right]. done. }
    assert (wf_nodes brk (pre ++ m1 :: post)) as Hwf1.
    { apply (wf_nodes_replace brk brk pre m post m1); try done.
      - destruct Hwf' as [Hs _ _ _ _ _]. apply StronglySorted_app in Hs as (Hs & _ & _).
        intros x Hx. specialize (Hs x m Hx (list_elem_of_here _ _)).
        destruct Hs as [Hs|[Hs1 Hs2]]; [left; lia|right]. split; [lia|].
        rewrite Hiv1. rewrite Hm in Hs2. rewrite Erest.
        apply Forall_app in Hs2 as [? Hs2]. apply Forall_cons in Hs2 as [_ ?].
        by apply Forall_app.
      - destruct Hwf' as [Hs _ _ _ _ _]. apply StronglySorted_app in Hs as (_ & _ & Hs).
        apply StronglySorted_cons in Hs as [Hs _]. rewrite Forall_forall in Hs.
        intros x Hx. destruct (Hs x Hx) as [Hs0|[Hs1 Hs2]]; [left; lia|right].
        split; [lia|]. eapply Forall_impl; [done|]. simpl. intros; lia.
      - destruct Hwf' as [_ _ _ Hii _ _].
        rewrite all_intervals_app, all_intervals_cons, Hm, !map_app in Hii.
        rewrite all_intervals_app, all_intervals_cons, Hiv1, Erest.
        rewrite !map_app. simpl in Hii. apply (NoDup_sub _ _ Hii). solve_submseteq.
      - destruct Hwf' as [_ _ _ _ _ Hib].
        rewrite all_intervals_app, all_intervals_cons, Hm in Hib. rewrite Hiv1, Erest.
        apply Forall_app in Hib as [_ Hib]. apply Forall_app in Hib as [Hib _].
        apply Forall_app in Hib as [? Hib]. apply Forall_cons in Hib as [_ ?].
        by apply Forall_app. }
    set (t2 := recompute_up _ c).
    assert (contents t2 = map erase (pre ++ m1 :: post)) as Hc2.
    { unfold t2. rewrite recompute_up_contents, contents_plug. unfold contents. simpl.
      unfold pre, post. rewrite !map_app. simpl. rewrite !map_app, erase_set_last.
      by rewrite <- !app_assoc. }
    split_and!; [split|done| |done]; cbn [it_root it_brk fst].
    + by apply (wf_tree_contents _ _ _ Hc2).
    + by apply recompute_node_exact.
    + rewrite (tree_intervals_contents t2), Hc2, all_intervals_erase.
      unfold tree_intervals. fold (all_intervals (nodes t)).
      rewrite Hnodes, !all_intervals_app, !all_intervals_cons, Hm, Hiv1, Erest.
      rewrite <- !app_assoc. simpl. solve_Permutation.
Qed.

End del.

(** ** Clients of the tree *)



Lemma filter_sublist {A} (p : A → bool) (l : list A) : List.filter p l `sublist_of` l.
Proof.
  induction l as [|a l IH]; simpl; [done|]. destruct (p a); by constructor.
Qed.

Lemma filter_all {A} (p : A → bool) (l : list A) :
  Forall (λ x, p x = true) l → List.filter p l = l.
Proof. induction 1 as [|a l Ha _ IH]; simpl; [done|]. by rewrite Ha, IH. Qed.


Lemma exact_node l n r :
  exact (RB_NODE l n r) →
  exact l ∧ exact r ∧ nd_last n = bump (bump (nd_end n) l) r.
Proof.
  intros (Hl & Hr & Hb & [[]|He]). split_and!; [done..|].
  rewrite !bump_obump. rewrite ends_node, omax_app in He. simpl in He.
  rewrite (tree_inv_top None l), (tree_inv_top None r) by (done || by intros []).
  destruct (omax (ends l)), (omax (ends r)); simpl in *; simplify_eq; lia.
Qed.


Lemma min_start_from a l :
  let v := fold_left (λ s i, if iv_start i <? s then iv_start i else s) l a in
  v <= a ∧ Forall (λ i, v <= iv_start i) l ∧ (v = a ∨ ∃ i, i ∈ l ∧ iv_start i = v).
Proof.
  revert a. induction l as [|i l IH]; intros a; simpl.
  - split_and!; [lia|constructor|by left].
  - destruct (IH (if iv_start i <? a then iv_start i else a)) as (H1 & H2 & H3).
    destruct (Z.ltb_spec (iv_start i) a).
    + split_and!; [lia| |].
      * constructor; [lia|done].
      * right. destruct H3 as [->|(j & Hj & Hv)]; [exists i|exists j]; split; try done;
          [left|by right].
    + split_and!; [lia| |].
      * constructor; [lia|done].
      * destruct H3 as [->|(j & Hj & Hv)]; [by left|]. right. exists j. split; [by right|done].
Qed.

Lemma min_start_node m : node_ok m → min_start (nd_intervals m) = nd_start m.
Proof.
  intros [Hall (i & Hi & He)].
  destruct (min_start_from INT_MAX (nd_intervals m)) as (H1 & H2 & H3).
  fold (min_start (nd_intervals m)) in *. rewrite Forall_forall in Hall, H2.
  destruct H3 as [H3|(j & Hj & Hjs)].
  - specialize (H2 i Hi). destruct (Hall i Hi) as (? & _ & Hc%coord_range_int & _). lia.
  - destruct (Hall j Hj) as (? & _). lia.
Qed.

Lemma interval_tree_check_spec t :
  Forall node_ok (nodes t) → exact t →
  interval_tree_check_ t =
  (0, match t with RB_NODE _ n _ => nd_last n | RB_NULL => INT_MIN end).
Proof.
  induction t as [|l IHl n r IHr]; [done|]. intros Hok (Hl & Hr & E)%exact_node.
  simpl in Hok. apply Forall_app in Hok as [Hokl Hok]. apply Forall_cons in Hok as [Hn Hokr].
  cbn [interval_tree_check_]. rewrite min_start_node, max_end_node, !Z.eqb_refl by done.
  cbn [negb orb]. pose proof (node_ok_coords _ Hn) as [_ Hce%coord_range_int].
  specialize (IHl Hokl Hl). specialize (IHr Hokr Hr).
  destruct l as [|ll ln lr], r as [|rl rn rr]; rewrite ?IHl, ?IHr; cbn [bump] in E;
    change (Z.lor 0 0) with 0; cbv beta iota zeta;
    repeat match goal with
           | H : context [?a <? ?b] |- _ => destruct (Z.ltb_spec a b)
           | |- context [?a <? ?b] => destruct (Z.ltb_spec a b)
           end;
    try lia; rewrite <- E, Z.eqb_refl; reflexivity.
Qed.

Lemma interval_tree_check_ok it : wf_tree it → interval_tree_check it = 0.
Proof.
  intros [Hwf Hex]. unfold interval_tree_check.
  rewrite interval_tree_check_spec; [done|apply Hwf|done].
Qed.

Lemma wf_tree_empty it : wf_tree it → tree_intervals (it_root it) = [] → it_root it = RB_NULL.
Proof.
  intros [Hwf _] Hnil. destruct (it_root it) as [|l n r]; [done|]. exfalso.
  destruct Hwf as [_ Hok _ _ _ _]. simpl in Hok.
  apply Forall_app in Hok as [_ Hok]. apply Forall_cons in Hok as [[_ (i & Hi & _)] _].
  assert (i ∈ tree_intervals (RB_NODE l n r)) as Hin.
  { unfold tree_intervals. apply elem_of_concat. exists (nd_intervals n). split; [|done].
    apply elem_of_map_2. simpl. set_solver. }
  rewrite Hnil in Hin. by apply elem_of_nil in Hin.
Qed.

Lemma wf_tree_full_range it :
  wf_tree it → interval_iter_all it INT_MIN INT_MAX = tree_intervals (it_root it).
Proof.
  intros Hwf. destruct (interval_iter_all_spec INT_MIN INT_MAX it Hwf) as [_ ->].
  apply filter_all. destruct Hwf as [[_ Hok _ _ _ _] _].
  apply Forall_forall. intros i Hi. unfold tree_intervals in Hi.
  apply elem_of_concat in Hi as (li & Hli & Hi). apply elem_of_map in Hli as (m & -> & Hm).
  rewrite Forall_forall in Hok. destruct (Hok m Hm) as [Hall _].
  rewrite Forall_forall in Hall.
  destruct (Hall i Hi) as (_ & _ & Hs%coord_range_int & He%coord_range_int).
  unfold overlaps. apply andb_true_iff. split; apply Z.leb_le; lia.
Qed.

Lemma unlink_interval_None x l : x ∉ map iv_id l → unlink_interval x l = None.
Proof.
  induction l as [|a l IH]; simpl; [done|]. intros Hx.
  apply not_elem_of_cons in Hx as [Hne Hx].
  destruct (Nat.eqb_spec (iv_id a) x); [done|]. by rewrite IH.
Qed.

Section tree_clients.
Context `{!rb_colour}.


(** A failing [interval_tree_del] leaves the tree alone. *)
Lemma interval_tree_del_absent it node :
  iv_id node ∉ map iv_id (tree_intervals (it_root it)) →
  interval_tree_del it node = (it, -1).
Proof.
  intros Hid. unfold interval_tree_del.
  destruct (RB_NFIND _ _) as [m|] eqn:E; [|done].
  rewrite unlink_interval_None; [done|]. intros Hin. apply Hid.
  apply elem_of_map in Hin as (i & -> & Hi). apply elem_of_map_2.
  unfold tree_intervals. apply elem_of_concat. exists (nd_intervals m). split; [|done].
  apply elem_of_map_2. unfold RB_NFIND in E.
  assert (∀ t res, RB_NFIND_from t (mk_node 0 (iv_start node) (iv_end node) (iv_end node) [])
            res = Some m → res = Some m ∨ m ∈ nodes t) as Hfrom.
  { clear. induction t as [|l IHl n r IHr]; intros res; simpl; [by left|].
    repeat case_match; intros Hr.
    - destruct (IHl _ Hr) as [[= ->]|?]; set_solver.
    - destruct (IHr _ Hr); set_solver.
    - simplify_eq. set_solver. }
  destruct (Hfrom _ _ E); [done|done].
Qed.

Lemma apply_op_wf it op : wf_tree it → op_ok it op → wf_tree (apply_op it op).
Proof.
  intros Hwf Hop. destruct op as [s e d|node]; simpl in *.
  - destruct Hop. by apply interval_tree_add_spec.
  - destruct Hop as [Hin|Hout].
    + by apply interval_tree_del_spec.
    + by rewrite interval_tree_del_absent.
Qed.

Lemma run_ops_wf ops it : wf_tree it → ops_ok it ops → wf_tree (run_ops it ops).
Proof.
  revert it. induction ops as [|op ops IH]; intros it Hwf Hok; [done|].
  destruct Hok as [Hop Hok]. simpl. apply IH; [by apply apply_op_wf|done].
Qed.


End tree_clients.

(** ** The pairing of reads *)

Lemma NoDup_map_lookup {A B} (f : A → B) (l : list A) i j x y :
  NoDup (map f l) → l !! i = Some x → l !! j = Some y → f x = f y → i = j.
Proof.
  intros Hnd Hi Hj E. apply (NoDup_lookup (f <$> l) i j (f x)); [exact Hnd|..].
  - by rewrite list_lookup_fmap, Hi.
  - by rewrite list_lookup_fmap, Hj, E.
Qed.

Section pairing.
Variable rng0 : list rangec.
Variables ia ja : nat.
Variables a b : Z.
Hypothesis Hrecs : NoDup (map r_rec rng0).
Hypothesis Hlt : (ia < ja)%nat.
Hypothesis Hia : rng0 !! ia = Some (mk_range a b).
Hypothesis Hja : rng0 !! ja = Some (mk_range b a).
Hypothesis Honly : ∀ k r, rng0 !! k = Some r → r_pair_rec r = a → k = ja.

Lemma pair_pass_spec todo i h rng :
  todo = drop i rng0 → pair_inv rng0 ia ja a b i h rng →
  pair_pass i h rng todo !! ia = Some (mk_range a (- Z.of_nat ja)) ∧
  pair_pass i h rng todo !! ja = Some (mk_range b a).
Proof.
  revert i h rng. induction todo as [|x todo IH]; intros i h rng Hdrop (Hun & Hh & Hmid & Hend).
  - simpl. assert (length rng0 <= i)%nat as Hlen.
    { destruct (decide (i < length rng0)%nat) as [Hi|]; [|lia].
      apply (f_equal length) in Hdrop. rewrite length_drop in Hdrop. simpl in Hdrop. lia. }
    apply lookup_lt_Some in Hja. destruct Hend as (_ & ? & ?); [lia|done].
  - assert (rng0 !! i = Some x) as Hi.
    { rewrite <- (Nat.add_0_r i), <- lookup_drop, <- Hdrop. done. }
    assert (todo = drop (S i) rng0) as Hdrop'.
    { replace (S i) with (i + 1)%nat by lia. rewrite <- drop_drop, <- Hdrop. done. }
    cbn [pair_pass]. rewrite (Hun i) by lia. rewrite Hi.
    destruct (h !! r_pair_rec x) as [hi|] eqn:Ekey.
    + destruct (Hh _ _ Ekey) as (Hhi & Hrec & Hnja).
      destruct (rng0 !! hi) as [y|] eqn:Ehi; [|done]. simpl in Hrec. injection Hrec as Hrec.
      apply IH; [done|]. split_and!.
      * intros k Hk. rewrite list_lookup_alter_ne by lia. apply Hun. lia.
      * intros key idx [Hne Hk]%lookup_delete_Some. destruct (Hh _ _ Hk) as (? & ? & ?).
        split_and!; [lia|done..].
      * intros Hr. destruct (decide (i = ia)) as [->|Hne].
        { exfalso. rewrite Hia in Hi. injection Hi as <-. simpl in *.
          apply Hnja. eapply (NoDup_map_lookup r_rec rng0); [done..|]. done. }
        destruct Hmid as [Ha Hra]; [lia|].
        assert (r_pair_rec x ≠ a) as Hka.
        { intros E. pose proof (Honly _ _ Hi E). lia. }
        split.
        -- by rewrite lookup_delete_ne.
        -- rewrite list_lookup_alter_ne; [done|]. intros ->. apply Hka.
           rewrite Hia in Ehi. injection Ehi as <-. by simpl in Hrec.
      * intros Hr. destruct (decide (i = ja)) as [->|Hne].
        { rewrite Hja in Hi. injection Hi as <-. simpl in *.
          destruct Hmid as [Ha Hra]; [lia|]. rewrite Ha in Ekey. injection Ekey as <-.
          split_and!.
          - apply lookup_delete_eq.
          - rewrite list_lookup_alter, Hra. by rewrite decide_True.
          - rewrite list_lookup_alter_ne by lia. rewrite Hun by lia. done. }
        destruct Hend as (Ha & Hra & Hrj); [lia|]. split_and!.
        -- apply lookup_delete_None. by right.
        -- rewrite list_lookup_alter_ne; [done|]. intros ->.
           rewrite Hia in Ehi. injection Ehi as <-. simpl in Hrec. congruence.
        -- by rewrite list_lookup_alter_ne.
    + assert (i ≠ ja) as Hnja.
      { intros ->. rewrite Hja in Hi. injection Hi as <-. simpl in *.
        destruct Hmid as [Ha _]; [lia|]. congruence. }
      assert (i ≠ ia → r_rec x ≠ a) as Hxa.
      { intros Hne E. apply Hne. eapply (NoDup_map_lookup r_rec rng0); [done..|]. done. }
      apply IH; [done|]. split_and!.
      * intros k Hk. apply Hun. lia.
      * intros key idx Hk. destruct (h !! r_rec x) as [j|] eqn:Erec.
        -- destruct (Hh _ _ Hk) as (? & ? & ?). split_and!; [lia|done..].
        -- apply lookup_insert_Some in Hk as [[<- <-]|[_ Hk]].
           ++ split_and!; [lia| |done]. by rewrite Hi.
           ++ destruct (Hh _ _ Hk) as (? & ? & ?). split_and!; [lia|done..].
      * intros Hr. destruct (decide (i = ia)) as [->|Hne].
        { rewrite Hia in Hi. injection Hi as <-. simpl in *. split; [|by rewrite Hun].
          destruct (h !! a) as [j|] eqn:Erec; [|by rewrite lookup_insert_eq].
          exfalso. destruct (Hh _ _ Erec) as (Hj & Hrj & _).
          destruct (rng0 !! j) as [y|] eqn:Ej; [|done]. simpl in Hrj. injection Hrj as Hrj.
          assert (j = ia); [|lia].
          eapply (NoDup_map_lookup r_rec rng0); [done..|]. done. }
        destruct Hmid as [Ha Hra]; [lia|]. split; [|done].
        destruct (h !! r_rec x); [done|]. rewrite lookup_insert_ne; [done|]. by apply Hxa.
      * intros Hr. destruct Hend as (Ha & Hra & Hrj); [lia|]. split_and!; [|done..].
        destruct (h !! r_rec x); [done|]. rewrite lookup_insert_ne; [done|]. apply Hxa. lia.
Qed.

Lemma pair_up_spec :
  pair_up rng0 !! ia = Some (mk_range a (- Z.of_nat ja)) ∧
  pair_up rng0 !! ja = Some (mk_range b a).
Proof.
  apply pair_pass_spec; [done|]. split_and!; try done; try lia.
Qed.

End pairing.

(** * Haplotype strings *)

(** ** Buffers *)

Lemma char_at_app_r (s1 s2 : list ascii) c k :
  k = Z.of_nat (length s1) → char_at (s1 ++ c :: s2) k = c.
Proof.
  intros ->. unfold char_at. destruct (Z.ltb_spec (Z.of_nat (length s1)) 0); [lia|].
  rewrite Nat2Z.id. rewrite app_nth2 by lia. by rewrite Nat.sub_diag.
Qed.

Lemma int_at_app_r (s1 s2 : list Z) c k :
  k = Z.of_nat (length s1) → int_at (s1 ++ c :: s2) k = c.
Proof.
  intros ->. unfold int_at. destruct (Z.ltb_spec (Z.of_nat (length s1)) 0); [lia|].
  rewrite Nat2Z.id. rewrite app_nth2 by lia. by rewrite Nat.sub_diag.
Qed.

Lemma store_at_app_r {A} (s1 s2 : list A) c d k :
  k = Z.of_nat (length s1) → store_at (s1 ++ c :: s2) k d = s1 ++ d :: s2.
Proof.
  intros ->. unfold store_at. destruct (Z.ltb_spec (Z.of_nat (length s1)) 0); [lia|].
  rewrite Nat2Z.id. rewrite insert_app_r_alt by lia. by rewrite Nat.sub_diag.
Qed.

Lemma char_at_nth s k : 0 <= k → char_at s k = nth (Z.to_nat k) s NUL.
Proof. unfold char_at. by destruct (Z.ltb_spec k 0); [lia|]. Qed.

Lemma new_snps_id snps : new_snps snps (length snps) = snps.
Proof.
  unfold new_snps. apply nth_ext with (d := NUL) (d' := NUL).
  - by rewrite length_map, length_seq.
  - rewrite length_map, length_seq. intros k Hk.
    rewrite (nth_indep _ NUL (char_at snps (Z.of_nat 0))) by (by rewrite length_map, length_seq).
    rewrite (map_nth (λ k, char_at snps (Z.of_nat k))), seq_nth by done. simpl.
    rewrite char_at_nth by lia. by rewrite Nat2Z.id.
Qed.

Lemma new_count_fresh snps : new_count snps (length snps) = fresh_count snps.
Proof.
  unfold new_count, fresh_count.
  transitivity (map (λ c, if Ascii.eqb c dash then 0 else 1) (new_snps snps (length snps))).
  - unfold new_snps. by rewrite map_map.
  - by rewrite new_snps_id.
Qed.

(** ** The comparison loop *)

Lemma add_scan_spec n snps tsnps i :
  0 <= i →
  (add_scan n snps tsnps i i = inr (i + Z.of_nat n) ∧
   ∀ k, i <= k < i + Z.of_nat n →
     char_at tsnps k = dash ∨ char_at snps k = dash ∨ char_at tsnps k = char_at snps k) ∨
  (∃ i', add_scan n snps tsnps i i = inr i' ∧ i <= i' < i + Z.of_nat n ∧
         clash_at snps tsnps i') ∨
  (add_scan n snps tsnps i i = inl assert_failed ∧
   ∃ k, i <= k < i + Z.of_nat n ∧ printable (char_at snps k) = false).
Proof.
  revert i. induction n as [|n IH]; intros i Hi.
  - left. simpl. split; [f_equal; lia|]. intros; lia.
  - cbn [add_scan]. destruct (printable (char_at snps i)) eqn:Hp; cbn [negb].
    2:{ right; right. split; [done|]. exists i. split; [lia|done]. }
    assert (char_at tsnps i = dash ∨ char_at snps i = dash ∨
            char_at tsnps i = char_at snps i →
            (add_scan n snps tsnps (i + 1) (i + 1) = inr (i + Z.of_nat (S n)) ∧
             ∀ k, i <= k < i + Z.of_nat (S n) →
               char_at tsnps k = dash ∨ char_at snps k = dash ∨
               char_at tsnps k = char_at snps k) ∨
            (∃ i', add_scan n snps tsnps (i + 1) (i + 1) = inr i' ∧
                   i <= i' < i + Z.of_nat (S n) ∧ clash_at snps tsnps i') ∨
            (add_scan n snps tsnps (i + 1) (i + 1) = inl assert_failed ∧
             ∃ k, i <= k < i + Z.of_nat (S n) ∧ printable (char_at snps k) = false))
      as Hgo.
    { intros Hag. destruct (IH (i + 1)) as [[E Hall]|[(i' & E & Hb & Hc)|(E & k & Hk & Hn)]];
        [lia|left|right; left|right; right].
      - split; [rewrite E; f_equal; lia|]. intros k Hk.
        destruct (decide (k = i)) as [->|]; [done|]. apply Hall. lia.
      - exists i'. split_and!; [done|lia|lia|done].
      - split; [done|]. exists k. split; [lia|done]. }
    destruct (Ascii.eqb_spec (char_at tsnps i) dash) as [Et|Et]; cbn [negb andb].
    { apply Hgo. by left. }
    destruct (Ascii.eqb_spec (char_at snps i) dash) as [Es|Es]; cbn [negb andb].
    { apply Hgo. by right; left. }
    destruct (Ascii.eqb_spec (char_at tsnps i) (char_at snps i)) as [E|E].
    { apply Hgo. by right; right. }
    right; left. exists i. split_and!; [done|lia|lia|done].
Qed.

Lemma add_scan_returns n snps tsnps : ∀ i j,
  (∀ k, i <= k < i + Z.of_nat n → printable (char_at snps k) = true) →
  ∃ i', add_scan n snps tsnps i j = inr i'.
Proof.
  induction n as [|n IH]; intros i j Hp; [by eexists|].
  cbn [add_scan]. rewrite Hp by lia. cbn [negb].
  assert (∃ i', add_scan n snps tsnps (i + 1) (j + 1) = inr i') as Hgo.
  { apply IH. intros k Hk. apply Hp. lia. }
  destruct (negb _ && negb _); [|done]. destruct (Ascii.eqb _ _); [done|by eexists].
Qed.

Lemma clash_not_agrees snps tsnps n k :
  0 <= k < n → clash_at snps tsnps k → ¬ agrees snps tsnps n.
Proof. intros Hk (H1 & H2 & H3) Ha. destruct (Ha k Hk) as [?|[?|?]]; done. Qed.

(** ** The merge loop *)

Lemma add_merge_spec s2 : ∀ s1 b1 b2 c1 c2 nseq start end_ recs,
  length b1 = length s1 → length c1 = length s1 →
  length b2 = length s2 → length c2 = length s2 →
  add_merge (length s2) (s1 ++ s2) start
            (mk_hs (Some (b1 ++ b2)) (c1 ++ c2) nseq start end_ recs)
            (start + Z.of_nat (length s1)) =
  mk_hs (Some (b1 ++ overlay s2 b2)) (c1 ++ count_up s2 c2) nseq start end_ recs.
Proof.
  induction s2 as [|c s2 IH]; intros s1 b1 b2 c1 c2 nseq start end_ recs Hb1 Hc1 Hb2 Hc2.
  - destruct b2, c2; try done.
  - destruct b2 as [|t b2], c2 as [|v c2]; try done. simpl in Hb2, Hc2.
    cbn [length add_merge hs_snps hs_count hs_start hs_nseq hs_end hs_recs option_map].
    rewrite char_at_app_r, (store_at_app_r b1), (int_at_app_r c1), (store_at_app_r c1) by lia.
    replace (start + Z.of_nat (length s1) + 1) with (start + Z.of_nat (length (s1 ++ [c])))
      by (rewrite length_app; simpl; lia).
    replace (s1 ++ c :: s2) with ((s1 ++ [c]) ++ s2) by (by rewrite <- app_assoc).
    destruct (Ascii.eqb_spec c dash) as [E|E]; cbn [negb].
    + replace (b1 ++ t :: b2) with ((b1 ++ [t]) ++ b2) by (by rewrite <- app_assoc).
      replace (c1 ++ v :: c2) with ((c1 ++ [v]) ++ c2) by (by rewrite <- app_assoc).
      rewrite IH by (rewrite ?length_app; simpl; lia).
      unfold overlay, count_up. simpl. destruct (Ascii.eqb_spec c dash); [|done].
      by rewrite <- !app_assoc.
    + replace (b1 ++ c :: b2) with ((b1 ++ [c]) ++ b2) by (by rewrite <- app_assoc).
      replace (c1 ++ v + 1 :: c2) with ((c1 ++ [v + 1]) ++ c2) by (by rewrite <- app_assoc).
      rewrite IH by (rewrite ?length_app; simpl; lia).
      unfold overlay, count_up. simpl. destruct (Ascii.eqb_spec c dash); [done|].
      by rewrite <- !app_assoc.
Qed.

Lemma add_merge_merged snps hs b start end_ :
  hs_snps hs = Some b → hs_start hs = start → hs_end hs = end_ → start <= end_ →
  Z.of_nat (length snps) = end_ - start + 1 →
  Z.of_nat (length b) = end_ - start + 1 →
  Z.of_nat (length (hs_count hs)) = end_ - start + 1 →
  set_nseq (add_merge (Z.to_nat (end_ - start + 1)) snps start hs start)
           (hs_nseq (add_merge (Z.to_nat (end_ - start + 1)) snps start hs start) + 1) =
  merged snps hs.
Proof.
  intros Hb Hs He Hle Hls Hlb Hlc. destruct hs as [sn cnt nseq st en recs]. simpl in *. subst.
  replace (Z.to_nat (end_ - start + 1)) with (length snps) by lia.
  pose proof (add_merge_spec snps [] [] b [] cnt nseq start end_ recs) as H.
  simpl in H. rewrite Z.add_0_r in H. rewrite H by lia. done.
Qed.

(** ** [haplotype_str_add] *)

Lemma alter_as_insert {A} (f : A → A) (m : gmap nat A) a x :
  m !! a = Some x → alter f a m = <[a := f x]> m.
Proof.
  intros Hx. apply map_eq. intros k. destruct (decide (k = a)) as [->|Hne].
  - by rewrite lookup_alter_eq, lookup_insert_eq, Hx.
  - by rewrite lookup_alter_ne, lookup_insert_ne.
Qed.

Lemma push_rec_spec h a recs rec :
  hp_arr h !! a = Some recs →
  push_rec h (Some a) rec =
  mk_heap (hp_str h) (<[a := recs ++ present rec]> (hp_arr h)) (hp_fault h).
Proof.
  intros Ha. unfold push_rec, present. destruct (rec =? 0).
  - rewrite app_nil_r, insert_id by done. by destruct h.
  - simpl. by rewrite (alter_as_insert _ _ _ recs).
Qed.

Lemma overlay_length snps b : length b = length snps → length (overlay snps b) = length snps.
Proof. intros H. unfold overlay. rewrite length_zip_with. lia. Qed.

Lemma count_up_length snps c : length c = length snps → length (count_up snps c) = length snps.
Proof. intros H. unfold count_up. rewrite length_zip_with. lia. Qed.

Lemma fresh_count_length snps : length (fresh_count snps) = length snps.
Proof. unfold fresh_count. by rewrite length_map. Qed.

Lemma overlay_char snps b k :
  length b = length snps → 0 <= k < Z.of_nat (length snps) →
  char_at (overlay snps b) k =
  if Ascii.eqb (char_at snps k) dash then char_at b k else char_at snps k.
Proof.
  intros Hl Hk. rewrite !char_at_nth by lia. unfold overlay.
  revert b Hl k Hk. induction snps as [|c s IH]; intros [|t b] Hl k Hk; simpl in *; try lia.
  destruct (Z.to_nat k) as [|j] eqn:Ej; [done|].
  specialize (IH b ltac:(lia) (Z.of_nat j) ltac:(lia)). by rewrite Nat2Z.id in IH.
Qed.

Lemma add_accepts_spec h snps start end_ iv hs b :
  hp_str h !! iv_data iv = Some hs → hs_snps hs = Some b → start <= end_ →
  (add_accepts h snps start end_ iv = inr true ∧ takes snps start end_ hs) ∨
  (add_accepts h snps start end_ iv = inr false ∧
   (hs_start hs = start → hs_end hs = end_ →
    ∃ k, 0 <= k < end_ - start + 1 ∧ clash_at snps b k)) ∨
  (add_accepts h snps start end_ iv = inl assert_failed ∧
   hs_start hs = start ∧ hs_end hs = end_ ∧
   ∃ k, 0 <= k < end_ - start + 1 ∧ printable (char_at snps k) = false).
Proof.
  intros Hhs Hb Hle. unfold add_accepts, takes. rewrite Hhs, Hb. change (buf (Some b)) with b.
  destruct (Z.eqb_spec start (hs_start hs)) as [Es|Es]; cbn [negb orb];
    [|right; left; split; [done|lia]].
  destruct (Z.eqb_spec end_ (hs_end hs)) as [Ee|Ee]; cbn [negb];
    [|right; left; split; [done|lia]].
  rewrite <- Es, <- Ee, !Z.max_id, !Z.min_id, Z.sub_diag, Z.max_id, !Z.eqb_refl.
  cbn [negb andb].
  replace (Z.to_nat (end_ - start - 0 + 1)) with (Z.to_nat (end_ - start + 1)) by lia.
  destruct (add_scan_spec (Z.to_nat (end_ - start + 1)) snps b 0)
    as [[E Hall]|[(i' & E & Hb' & Hc)|(E & k & Hk & Hn)]]; [lia|..].
  - left. rewrite E. rewrite Z2Nat.id by lia. rewrite Z.add_0_l, Z.eqb_refl. cbn [negb].
    split_and!; try done. intros k Hk. apply Hall. lia.
  - right; left. rewrite E. rewrite Z2Nat.id in Hb' by lia.
    destruct (Z.eqb_spec i' (end_ - start + 1)); [lia|]. cbn [negb].
    split; [done|]. intros _ _. exists i'. split; [lia|done].
  - right; right. rewrite E. split_and!; try done. exists k. split; [lia|done].
Qed.

Lemma add_accepts_returns h snps start end_ iv :
  Z.of_nat (length snps) = end_ - start + 1 →
  Forall (λ c, printable c = true) snps →
  ∃ b, add_accepts h snps start end_ iv = inr b.
Proof.
  intros Hlen Hp. unfold add_accepts. destruct (hp_str h !! iv_data iv) as [hs|]; [|by eexists].
  destruct (Z.eqb_spec start (hs_start hs)) as [Es|Es]; cbn [negb orb]; [|by eexists].
  destruct (Z.eqb_spec end_ (hs_end hs)) as [Ee|Ee]; cbn [negb]; [|by eexists].
  rewrite <- Es, <- Ee, !Z.max_id, !Z.min_id, Z.sub_diag, Z.max_id, !Z.eqb_refl.
  cbn [negb andb].
  destruct (add_scan_returns (Z.to_nat (end_ - start - 0 + 1)) snps (buf (hs_snps hs)) 0 0)
    as [i' ->].
  - intros k Hk. rewrite char_at_nth by lia. rewrite Forall_forall in Hp.
    apply Hp, list_elem_of_In, nth_In. lia.
  - destruct (negb _); by eexists.
Qed.

(** ** The loop over the candidates *)

Lemma add_find_Some h snps start end_ l x :
  add_find h snps start end_ l = inr (Some x) →
  x ∈ l ∧ add_accepts h snps start end_ x = inr true.
Proof.
  induction l as [|y l IH]; simpl; [done|].
  destruct (add_accepts h snps start end_ y) as [e|[|]] eqn:E; [done| |].
  - intros [= <-]. split; [by left|done].
  - intros [Hin Hx]%IH. split; [by right|done].
Qed.

Lemma add_find_None h snps start end_ l x :
  add_find h snps start end_ l = inr None → x ∈ l →
  add_accepts h snps start end_ x = inr false.
Proof.
  induction l as [|y l IH]; simpl; [by intros _ ?%elem_of_nil|].
  destruct (add_accepts h snps start end_ y) as [e|[|]] eqn:E; [done|done|].
  intros Hf [->|Hin]%elem_of_cons; [done|by apply IH].
Qed.

Lemma add_find_returns h snps start end_ l :
  (∀ x, x ∈ l → ∃ b, add_accepts h snps start end_ x = inr b) →
  ∃ r, add_find h snps start end_ l = inr r.
Proof.
  induction l as [|y l IH]; intros Hl; simpl; [by eexists|].
  destruct (Hl y ltac:(by left)) as [[|] ->]; [by eexists|].
  apply IH. intros x Hx. apply Hl. by right.
Qed.

(** The loop stops at an [assert]: a candidate over the range of the
    fragment met a character of the fragment that is not printable. *)
Lemma add_find_fails h snps start end_ l e :
  add_find h snps start end_ l = inl e →
  ∃ x, x ∈ l ∧ add_accepts h snps start end_ x = inl e.
Proof.
  induction l as [|y l IH]; simpl; [done|].
  destruct (add_accepts h snps start end_ y) as [e'|[|]] eqn:E; [| done |].
  - intros [= <-]. exists y. split; [by left|done].
  - intros (x & Hin & Hx)%IH. exists x. split; [by right|done].
Qed.

Lemma find_filter {A} (p q : A → bool) (l : list A) :
  List.find p (List.filter q l) = List.find (λ x, q x && p x) l.
Proof.
  induction l as [|a l IH]; simpl; [done|]. destruct (q a); simpl; [|done].
  by destruct (p a).
Qed.

Lemma find_Some_elem {A} (p : A → bool) (l : list A) x :
  List.find p l = Some x → x ∈ l ∧ p x = true.
Proof. intros [H1 H2]%find_some. split; [by apply list_elem_of_In|done]. Qed.

Lemma find_None_elem {A} (p : A → bool) (l : list A) x :
  List.find p l = None → x ∈ l → p x = false.
Proof. intros H Hx. apply (find_none _ _ H). by apply list_elem_of_In. Qed.

Lemma index_ok_empty : index_ok interval_tree_create empty_heap.
Proof.
  split_and!; try done.
  - apply wf_create.
  - split_and!; try done; simpl; constructor.
  - intros p [? H]. simpl in H. by rewrite lookup_empty in H.
  - intros p [? H]. simpl in H. by rewrite lookup_empty in H.
  - intros iv1 iv2 H. by apply elem_of_nil in H.
Qed.

Lemma str_ok_get h iv :
  str_ok h iv →
  ∃ hs b a, hp_str h !! iv_data iv = Some hs ∧ get_str h (iv_data iv) = hs ∧
    hs_start hs = iv_start iv ∧ hs_end hs = iv_end iv ∧ iv_start iv <= iv_end iv ∧
    hs_snps hs = Some b ∧ Z.of_nat (length b) = iv_end iv - iv_start iv + 1 ∧
    Z.of_nat (length (hs_count hs)) = iv_end iv - iv_start iv + 1 ∧
    0 < hs_nseq hs ∧ hs_recs hs = Some a ∧ is_Some (hp_arr h !! a).
Proof.
  intros (hs & b & a & H & ?). exists hs, b, a. unfold get_str. rewrite H. tauto.
Qed.

Section add.
Context `{!rb_colour}.

(** The fragment goes into the first string that the scan accepts. *)
Lemma haplotype_str_add_into it h snps start end_ rec1 rec2 iv :
  index_ok it h → start <= end_ → Z.of_nat (length snps) = end_ - start + 1 →
  add_find h snps start end_ (interval_iter_all it start end_) = inr (Some iv) →
  ∃ hs a recs,
    iv ∈ tree_intervals (it_root it) ∧ hp_str h !! iv_data iv = Some hs ∧
    takes snps start end_ hs ∧ hs_recs hs = Some a ∧ hp_arr h !! a = Some recs ∧
    haplotype_str_add it h snps start end_ rec1 rec2 =
    inr (it, mk_heap (<[iv_data iv := merged snps hs]> (hp_str h))
                     (<[a := recs ++ present rec1 ++ present rec2]> (hp_arr h))
                     (hp_fault h), 0).
Proof.
  intros (Hwf & (Hstr & _) & _) Hle Hlen Hfind.
  unfold haplotype_str_add. rewrite Hfind.
  destruct (interval_iter_all_spec start end_ it Hwf) as [_ Hall]. rewrite Hall in Hfind.
  apply add_find_Some in Hfind as [Hin Hacc].
  apply list_elem_of_In, filter_In in Hin as [Hin _]. apply list_elem_of_In in Hin.
  rewrite Forall_forall in Hstr.
  destruct (str_ok_get _ _ (Hstr iv Hin))
    as (hs & b & a & Hhs & _ & Hs & He & _ & Hb & Hlb & Hlc & _ & Hrecs & [recs Harr]).
  destruct (add_accepts_spec h snps start end_ iv hs b Hhs Hb Hle)
    as [[_ Ht]|[[Hf _]|[Hf _]]]; [|congruence..].
  destruct Ht as (Hs' & He' & Hag).
  exists hs, a, recs. split_and!; try done.
  rewrite <- Hs, <- He, Hs', He', !Z.eqb_refl. cbn [andb]. rewrite Hhs.
  rewrite Hs', Z.leb_refl. cbn [negb]. f_equal.
  rewrite (add_merge_merged snps hs b start end_) by (done || lia).
  cbn [merged hs_recs]. rewrite Hrecs.
  rewrite (push_rec_spec (set_str h (iv_data iv) (merged snps hs)) a recs rec1) by (simpl; done).
  cbn [set_str hp_str hp_arr hp_fault].
  rewrite (push_rec_spec _ a (recs ++ present rec1)) by (simpl; apply lookup_insert_eq).
  cbn [hp_str hp_arr hp_fault]. by rewrite insert_insert_eq, <- app_assoc.
Qed.

(** No string accepts the fragment: a new one is made. *)
Lemma haplotype_str_add_new it h snps start end_ rec1 rec2 :
  index_ok it h → coord_range start → coord_range end_ → start <= end_ →
  Z.of_nat (length snps) = end_ - start + 1 →
  add_find h snps start end_ (interval_iter_all it start end_) = inr None →
  ∃ it' a,
    (∀ iv hs, iv ∈ tree_intervals (it_root it) → hp_str h !! iv_data iv = Some hs →
       hs_start hs = start → hs_end hs = end_ →
       ∃ k, 0 <= k < end_ - start + 1 ∧ clash_at snps (buf (hs_snps hs)) k) ∧
    wf_tree it' ∧ (S (it_brk it) < a)%nat ∧ (a < it_brk it')%nat ∧
    tree_intervals (it_root it') ≡ₚ
      mk_interval (S (it_brk it)) start end_ (it_brk it) :: tree_intervals (it_root it) ∧
    haplotype_str_add it h snps start end_ rec1 rec2 =
    inr (it', mk_heap (<[it_brk it := mk_hs (Some snps) (fresh_count snps) 1 start end_
                                            (Some a)]> (hp_str h))
                      (<[a := present rec1 ++ present rec2]> (hp_arr h))
                      (hp_fault h), 0).
Proof.
  intros (Hwf & (Hstr & _) & _ & Hfa & _) Hcs Hce Hle Hlen Hfind.
  unfold haplotype_str_add. rewrite Hfind.
  destruct (interval_iter_all_spec start end_ it Hwf) as [_ Hall]. rewrite Hall in Hfind.
  set (p := it_brk it).
  assert (wf_tree (mk_tree (it_root it) (S p))) as Hwf0.
  { destruct Hwf as [Hn He]. split; [|done]. simpl. eapply wf_nodes_mono; [done|]. unfold p. lia. }
  destruct (interval_tree_add_spec (mk_tree (it_root it) (S p)) start end_ p Hwf0 Hcs Hce)
    as (Hwf1 & _ & Hp & Hbrk).
  set (it1 := (interval_tree_add (mk_tree (it_root it) (S p)) start end_ p).1) in *.
  simpl in Hp, Hbrk.
  exists (mk_tree (it_root it1) (S (it_brk it1))), (it_brk it1). split_and!.
  - intros iv hs Hin Hhs Hs He. rewrite Forall_forall in Hstr.
    destruct (str_ok_get _ _ (Hstr iv Hin))
      as (hs' & b & a & Hhs' & _ & Hs' & He' & _ & Hb & _).
    rewrite Hhs in Hhs'. injection Hhs' as <-. rewrite Hb.
    assert (add_accepts h snps start end_ iv = inr false) as Hacc.
    { apply (add_find_None _ _ _ _ _ iv Hfind).
      apply list_elem_of_In, filter_In. split; [by apply list_elem_of_In|].
      unfold overlaps. apply andb_true_iff. split; apply Z.leb_le; lia. }
    destruct (add_accepts_spec h snps start end_ iv hs b Hhs Hb Hle)
      as [[Ht _]|[[_ Hc]|[Ht _]]]; [congruence|by apply Hc|congruence].
  - destruct Hwf1 as [Hn He]. split; [|done]. simpl. eapply wf_nodes_mono; [done|]. lia.
  - lia.
  - simpl. lia.
  - done.
  - f_equal. replace (Z.to_nat (end_ - start + 1)) with (length snps) by lia.
    rewrite new_snps_id, new_count_fresh.
    assert (hp_arr h !! it_brk it1 = None) as Hfresh.
    { destruct (hp_arr h !! it_brk it1) eqn:E; [|done].
      specialize (Hfa (it_brk it1) ltac:(by eexists)). unfold p in *. lia. }
    match goal with |- context [push_rec (push_rec ?h0 _ _) _ _] =>
      rewrite (push_rec_spec h0 (it_brk it1) [] rec1) by (simpl; apply lookup_insert_eq) end.
    cbn [hp_str hp_arr hp_fault].
    rewrite (push_rec_spec _ (it_brk it1) ([] ++ present rec1)) by (simpl; apply lookup_insert_eq).
    cbn [hp_str hp_arr hp_fault]. by rewrite !insert_insert_eq.
Qed.

End add.

(** ** The index is kept in order *)

Lemma clash_at_sym s t k : clash_at s t k → clash_at t s k.
Proof. intros (? & ? & ?). split_and!; congruence. Qed.

Lemma get_str_insert_gen h p hs arr f p' :
  get_str (mk_heap (<[p := hs]> (hp_str h)) arr f) p' =
  if decide (p' = p) then hs else get_str h p'.
Proof.
  unfold get_str. simpl. destruct (decide (p' = p)) as [->|Hne].
  - by rewrite lookup_insert_eq.
  - by rewrite lookup_insert_ne.
Qed.

Lemma index_ok_into it h snps start end_ iv hs a recs recs' :
  index_ok it h → Z.of_nat (length snps) = end_ - start + 1 →
  iv ∈ tree_intervals (it_root it) → hp_str h !! iv_data iv = Some hs →
  takes snps start end_ hs → hs_recs hs = Some a → hp_arr h !! a = Some recs →
  index_ok it (mk_heap (<[iv_data iv := merged snps hs]> (hp_str h))
                       (<[a := recs']> (hp_arr h)) (hp_fault h)).
Proof.
  intros (Hwf & (Hstr & Hnd & Hndr & Hfault) & Hfp & Hfa & Hconf) Hlen Hin Hhs
    (Hs & He & Hag) Hrecs Harr.
  rewrite Forall_forall in Hstr.
  destruct (str_ok_get _ _ (Hstr iv Hin))
    as (hs' & b & a' & Hhs' & Hget & Hs' & He' & Hle & Hb & Hlb & Hlc & Hn & Hrecs' & _).
  rewrite Hhs in Hhs'. injection Hhs' as <-.
  rewrite Hb in Hag. change (buf (Some b)) with b in Hag.
  assert (∀ iv', iv' ∈ tree_intervals (it_root it) → iv_data iv' = iv_data iv → iv' = iv)
    as Hinj.
  { intros iv' Hin' E. by apply (NoDup_map_inj iv_data (tree_intervals (it_root it))). }
  split_and!; [done|split_and!|..].
  - apply Forall_forall. intros iv' Hin'. unfold str_ok. cbn [hp_str hp_arr].
    destruct (decide (iv_data iv' = iv_data iv)) as [E|E].
    + rewrite (Hinj _ Hin' E), lookup_insert_eq.
      exists (merged snps hs), (overlay snps b), a. cbn [merged hs_start hs_end hs_snps
        hs_count hs_nseq hs_recs]. rewrite Hb. change (buf (Some b)) with b.
      split_and!; try done; try lia.
      * rewrite overlay_length; lia.
      * rewrite count_up_length; lia.
      * rewrite lookup_insert_eq. by eexists.
    + rewrite lookup_insert_ne by done.
      destruct (Hstr iv' Hin') as (hs' & b' & a'' & ? & ? & ? & ? & ? & ? & ? & ? & ? & Ha).
      exists hs', b', a''. split_and!; try done.
      apply lookup_insert_is_Some'. by right.
  - done.
  - erewrite map_ext_in; [exact Hndr|]. intros iv' Hin'%list_elem_of_In.
    unfold recs_of, get_str. cbn [hp_str].
    destruct (decide (iv_data iv' = iv_data iv)) as [E|E].
    + rewrite E, lookup_insert_eq, Hhs. done.
    + by rewrite lookup_insert_ne.
  - done.
  - cbn [hp_str]. intros p [Hp|Hp]%lookup_insert_is_Some'; [|by apply Hfp].
    subst p. apply Hfp. by eexists.
  - cbn [hp_arr]. intros p [Hp|Hp]%lookup_insert_is_Some'; [|by apply Hfa].
    subst p. apply Hfa. by eexists.
  - intros iv1 iv2 Hin1 Hin2 Hne Hs12 He12.
    pose proof (Hconf iv1 iv2 Hin1 Hin2 Hne Hs12 He12) as (k & Hk & Hc).
    unfold conflict, get_str in *. cbn [hp_str].
    assert (∀ t, clash_at b t k → 0 <= k < end_ - start + 1 →
              clash_at (overlay snps b) t k) as Hkeep.
    { intros t (H1 & H2 & H3) Hk'. unfold clash_at.
      rewrite overlay_char by lia.
      destruct (Hag k Hk') as [Hd|[Hd|Hd]].
      - done.
      - rewrite Hd. by rewrite Ascii.eqb_refl.
      - rewrite <- Hd. by destruct (Ascii.eqb (char_at b k) dash). }
    destruct (decide (iv_data iv1 = iv_data iv)) as [E1|E1];
      destruct (decide (iv_data iv2 = iv_data iv)) as [E2|E2].
    + exfalso. apply Hne. by rewrite (Hinj _ Hin1 E1), (Hinj _ Hin2 E2).
    + rewrite E1, lookup_insert_eq, lookup_insert_ne by done. rewrite E1, Hhs in Hk, Hc.
      change (default _ (Some ?x)) with x in *.
      cbn [merged hs_start hs_end hs_snps] in *. rewrite Hb in Hc |- *.
      change (buf (Some ?x)) with x in *.
      exists k. split; [done|]. apply Hkeep; [done|lia].
    + rewrite E2, lookup_insert_eq, lookup_insert_ne by done. rewrite E2, Hhs in Hc.
      change (default _ (Some ?x)) with x in *.
      cbn [merged hs_start hs_end hs_snps] in *. rewrite Hb in Hc |- *.
      change (buf (Some ?x)) with x in *.
      exists k. split; [done|].
      apply clash_at_sym, Hkeep; [by apply clash_at_sym|].
      rewrite (Hinj _ Hin2 E2) in Hs12, He12.
      destruct (str_ok_get _ _ (Hstr iv1 Hin1)) as (hs1 & ? & ? & Hh1 & _ & Hs1 & He1 & _).
      rewrite Hh1 in Hk. change (default _ (Some ?x)) with x in *. lia.
    + rewrite !lookup_insert_ne by done. by exists k.
Qed.

Lemma index_ok_new it h snps start end_ it' a recs' :
  index_ok it h → start <= end_ → Z.of_nat (length snps) = end_ - start + 1 →
  (∀ iv hs, iv ∈ tree_intervals (it_root it) → hp_str h !! iv_data iv = Some hs →
     hs_start hs = start → hs_end hs = end_ →
     ∃ k, 0 <= k < end_ - start + 1 ∧ clash_at snps (buf (hs_snps hs)) k) →
  wf_tree it' → (S (it_brk it) < a)%nat → (a < it_brk it')%nat →
  tree_intervals (it_root it') ≡ₚ
    mk_interval (S (it_brk it)) start end_ (it_brk it) :: tree_intervals (it_root it) →
  index_ok it' (mk_heap (<[it_brk it := mk_hs (Some snps) (fresh_count snps) 1 start end_
                                          (Some a)]> (hp_str h))
                        (<[a := recs']> (hp_arr h)) (hp_fault h)).
Proof.
  intros (Hwf & (Hstr & Hnd & Hndr & Hfault) & Hfp & Hfa & Hconf) Hle Hlen Hclash Hwf'
    Ha Ha' Hperm.
  set (p := it_brk it) in *.
  set (new := mk_hs (Some snps) (fresh_count snps) 1 start end_ (Some a)).
  rewrite Forall_forall in Hstr.
  assert (∀ iv, iv ∈ tree_intervals (it_root it) → iv_data iv ≠ p) as Hold.
  { intros iv Hin E. destruct (Hstr iv Hin) as (hs & ? & ? & Hhs & _).
    specialize (Hfp (iv_data iv) ltac:(by eexists)). unfold p in *. lia. }
  assert (∀ iv, iv ∈ tree_intervals (it_root it) →
            recs_of (mk_heap (<[p := new]> (hp_str h)) (<[a := recs']> (hp_arr h))
                             (hp_fault h)) iv = recs_of h iv ∧
            ∃ a', recs_of h iv = Some a' ∧ (a' < p)%nat) as Hrecs.
  { intros iv Hin. unfold recs_of, get_str. cbn [hp_str].
    rewrite lookup_insert_ne by (by intros E; apply (Hold iv Hin)). split; [done|].
    destruct (Hstr iv Hin) as (hs & ? & a' & Hhs & _ & _ & _ & _ & _ & _ & _ & Hr & Harr).
    rewrite Hhs. exists a'. split; [done|]. by apply Hfa. }
  split_and!; [done|split_and!|..].
  - rewrite Hperm. constructor.
    + exists new, snps, a. cbn [iv_data iv_start iv_end hp_str hp_arr].
      rewrite !lookup_insert_eq. unfold new. cbn [hs_start hs_end hs_snps hs_count hs_nseq
        hs_recs]. rewrite fresh_count_length. split_and!; try done; try lia.
    + apply Forall_forall. intros iv Hin.
      destruct (Hstr iv Hin) as (hs & b & a' & ? & ? & ? & ? & ? & ? & ? & ? & ? & Harr).
      exists hs, b, a'. cbn [hp_str hp_arr].
      rewrite lookup_insert_ne by (by intros E; apply (Hold iv Hin)).
      split_and!; try done. apply lookup_insert_is_Some'. by right.
  - rewrite Hperm. simpl. constructor; [|done].
    intros (iv & E & Hin)%elem_of_map. by apply (Hold iv Hin).
  - rewrite Hperm. cbn [map]. constructor.
    + intros (iv & E & Hin)%elem_of_map. destruct (Hrecs iv Hin) as [E' (a' & Ea & Hlt)].
      rewrite E', Ea in E. unfold recs_of, get_str in E. cbn [hp_str iv_data] in E.
      rewrite lookup_insert_eq in E. cbn in E. injection E as ->. lia.
    + erewrite map_ext_in; [exact Hndr|]. intros iv Hin%list_elem_of_In.
      by apply Hrecs.
  - done.
  - cbn [hp_str]. intros q [Hq|Hq]%lookup_insert_is_Some'; [lia|].
    specialize (Hfp q Hq). unfold p in *. lia.
  - cbn [hp_arr]. intros q [Hq|Hq]%lookup_insert_is_Some'; [lia|].
    specialize (Hfa q Hq). unfold p in *. lia.
  - intros iv1 iv2 Hin1 Hin2 Hne Hs12 He12. rewrite Hperm in Hin1, Hin2.
    unfold conflict. rewrite !get_str_insert_gen.
    apply elem_of_cons in Hin1 as [->|Hin1]; apply elem_of_cons in Hin2 as [->|Hin2].
    + done.
    + cbn [iv_data iv_start iv_end] in *. rewrite decide_True by done.
      rewrite decide_False by (by intros E; apply (Hold iv2 Hin2)).
      destruct (str_ok_get _ _ (Hstr iv2 Hin2)) as (hs2 & ? & ? & Hh2 & Hg2 & Hs2 & He2 & _).
      rewrite Hg2. destruct (Hclash iv2 hs2 Hin2 Hh2) as (k & Hk & Hc); [lia..|].
      exists k. unfold new. cbn [hs_start hs_end hs_snps]. split; [lia|exact Hc].
    + cbn [iv_data iv_start iv_end] in *.
      rewrite decide_False by (by intros E; apply (Hold iv1 Hin1)).
      rewrite decide_True by done.
      destruct (str_ok_get _ _ (Hstr iv1 Hin1)) as (hs1 & ? & ? & Hh1 & Hg1 & Hs1 & He1 & _).
      rewrite Hg1. destruct (Hclash iv1 hs1 Hin1 Hh1) as (k & Hk & Hc); [lia..|].
      exists k. unfold new. cbn [hs_start hs_end hs_snps]. split; [lia|].
      apply clash_at_sym. exact Hc.
    + rewrite !decide_False
        by (intros E; first [by apply (Hold iv1 Hin1)|by apply (Hold iv2 Hin2)]).
      by apply Hconf.
Qed.

Lemma overlay_self b : overlay b b = b.
Proof.
  unfold overlay. induction b as [|c b IH]; simpl; [done|]. rewrite IH.
  by destruct (Ascii.eqb c dash).
Qed.

Lemma agrees_self b n : agrees b b n.
Proof. intros k _. by right; right. Qed.

Section add_ok.
Context `{!rb_colour}.

Lemma haplotype_str_add_ok it h snps start end_ rec1 rec2 r :
  index_ok it h → coord_range start → coord_range end_ → start <= end_ →
  Z.of_nat (length snps) = end_ - start + 1 →
  haplotype_str_add it h snps start end_ rec1 rec2 = inr r →
  index_ok r.1.1 r.1.2.
Proof.
  intros Hok Hcs Hce Hle Hlen Hr.
  destruct (add_find h snps start end_ (interval_iter_all it start end_))
    as [e|[iv|]] eqn:Hfind.
  - unfold haplotype_str_add in Hr. by rewrite Hfind in Hr.
  - destruct (haplotype_str_add_into it h snps start end_ rec1 rec2 iv Hok Hle Hlen Hfind)
      as (hs & a & recs & Hin & Hhs & Ht & Hr' & Harr & E).
    rewrite E in Hr. injection Hr as <-. by eapply index_ok_into.
  - destruct (haplotype_str_add_new it h snps start end_ rec1 rec2 Hok Hcs Hce Hle Hlen Hfind)
      as (it' & a & Hclash & Hwf' & Ha & Ha' & Hperm & E).
    rewrite E in Hr. injection Hr as <-. by eapply index_ok_new.
Qed.

(** With printable characters only, no [assert] of the call fails. *)
Lemma haplotype_str_add_returns it h snps start end_ rec1 rec2 :
  Z.of_nat (length snps) = end_ - start + 1 →
  Forall (λ c, printable c = true) snps →
  ∃ r, haplotype_str_add it h snps start end_ rec1 rec2 = inr r.
Proof.
  intros Hlen Hp. unfold haplotype_str_add.
  destruct (add_find_returns h snps start end_ (interval_iter_all it start end_))
    as [best Hfind].
  { intros x _. by apply add_accepts_returns. }
  rewrite Hfind. destruct best as [iv|]; [|by eexists].
  apply add_find_Some in Hfind as [_ Hacc].
  destruct ((iv_start iv =? start) && (iv_end iv =? end_)); [|by eexists].
  destruct (hp_str h !! iv_data iv) as [hs|] eqn:Hhs; [|by eexists].
  unfold add_accepts in Hacc. rewrite Hhs in Hacc.
  destruct (Z.eqb_spec start (hs_start hs)) as [Es|Es]; cbn [negb orb] in Hacc; [|done].
  rewrite <- Es, Z.leb_refl. by eexists.
Qed.

End add_ok.

(** * Clustering *)

(** ** Buffers *)

Lemma char_at_store_at s j c k :
  0 <= j < Z.of_nat (length s) → 0 <= k →
  char_at (store_at s j c) k = if decide (k = j) then c else char_at s k.
Proof.
  intros Hj Hk. unfold store_at. destruct (Z.ltb_spec j 0); [lia|].
  rewrite !char_at_nth by lia. destruct (decide (k = j)) as [->|Hne].
  - rewrite nth_lookup. rewrite list_lookup_insert_eq by lia. done.
  - rewrite !nth_lookup. rewrite list_lookup_insert_ne by lia. done.
Qed.

Lemma store_at_length {A} (s : list A) j c : length (store_at s j c) = length s.
Proof. unfold store_at. destruct (j <? 0); [done|]. apply length_insert. Qed.

Lemma realloc_length s n : 0 <= n → Z.of_nat (length (realloc s n)) = n.
Proof.
  intros Hn. unfold realloc. rewrite length_take, length_app, length_replicate. lia.
Qed.

Lemma realloc_char s n k :
  0 <= k < n → k < Z.of_nat (length s) → char_at (realloc s n) k = char_at s k.
Proof.
  intros Hk Hl. rewrite !char_at_nth by lia. unfold realloc.
  rewrite !nth_lookup, lookup_take_lt by lia. by rewrite lookup_app_l by lia.
Qed.

(** ** The copy loop *)

Lemma merge_copy_length n dst dstart dend src sstart i :
  length (merge_copy n dst dstart dend src sstart i) = length dst.
Proof.
  revert dst i. induction n as [|n IH]; intros dst i; simpl; [done|].
  rewrite IH. destruct (_ || _); [apply store_at_length|done].
Qed.

Lemma merge_copy_char n : ∀ dst dstart dend src sstart i k,
  0 <= i - dstart → i - dstart + Z.of_nat n <= Z.of_nat (length dst) → 0 <= k →
  char_at (merge_copy n dst dstart dend src sstart i) k =
  if decide (i - dstart <= k < i - dstart + Z.of_nat n ∧
             (char_at src (k + dstart - sstart) ≠ dash ∨ dend < k + dstart))
  then char_at src (k + dstart - sstart) else char_at dst k.
Proof.
  induction n as [|n IH]; intros dst dstart dend src sstart i k Hi Hn Hk.
  - simpl. rewrite decide_False; [done|lia].
  - cbn [merge_copy]. rewrite IH; [|lia|rewrite ?Nat2Z.inj_succ in *|done].
    2:{ destruct (_ || _); rewrite ?store_at_length; lia. }
    set (c := char_at src (i - sstart)).
    destruct (decide (k = i - dstart)) as [->|Hne].
    + replace (i - dstart + dstart - sstart) with (i - sstart) by lia. fold c.
      rewrite decide_False by lia.
      replace (i - dstart + dstart) with i by lia.
      destruct (Ascii.eqb_spec c dash) as [E|E]; cbn [negb orb].
      * destruct (Z.ltb_spec dend i).
        -- rewrite char_at_store_at by lia. rewrite decide_True by done.
           rewrite decide_True; [done|]. split; [lia|]. by right.
        -- rewrite decide_False; [done|]. intros [_ [?|?]]; [done|lia].
      * rewrite char_at_store_at by lia. rewrite decide_True by done.
        rewrite decide_True; [done|]. split; [lia|]. by left.
    + assert (char_at (if negb (Ascii.eqb c dash) || (dend <? i)
                       then store_at dst (i - dstart) c else dst) k = char_at dst k) as ->.
      { destruct (_ || _); [|done]. rewrite char_at_store_at by lia.
        by rewrite decide_False. }
      destruct (decide (i + 1 - dstart <= k < i + 1 - dstart + Z.of_nat n ∧ _)) as [[H1 H2]|H].
      * rewrite decide_True; [done|]. split; [lia|done].
      * rewrite decide_False; [done|]. intros [H1 H2]. apply H. split; [lia|done].
Qed.

(** ** The mismatch loop *)

Lemma cluster_mismatch_spec n : ∀ hs hs2 from,
  cluster_mismatch n hs hs2 from = false →
  ∀ i, from <= i < from + Z.of_nat n →
    snp_at hs i = snp_at hs2 i ∨ snp_at hs i = dash ∨ snp_at hs2 i = dash.
Proof.
  induction n as [|n IH]; intros hs hs2 from H i Hi; [lia|].
  cbn [cluster_mismatch] in H. fold (snp_at hs from) (snp_at hs2 from) in H.
  destruct (decide (i = from)) as [->|Hne].
  - destruct (Ascii.eqb_spec (snp_at hs from) (snp_at hs2 from)); [by left|].
    destruct (Ascii.eqb_spec (snp_at hs from) dash); [by right; left|].
    destruct (Ascii.eqb_spec (snp_at hs2 from) dash); [by right; right|]. done.
  - destruct (negb _ && negb _ && negb _); [done|]. apply (IH _ _ _ H). lia.
Qed.

(** ** The merged buffer *)

Lemma covers_refl s : covers s s.
Proof. split_and!; [lia..|done]. Qed.

Lemma covers_trans g1 g2 s : covers g1 g2 → covers g2 s → covers g1 s.
Proof.
  intros (H1 & H2 & H3) (H4 & H5 & H6). split_and!; [lia..|].
  intros i Hi Hd. rewrite <- (H6 i Hi Hd). apply H3; [lia|]. by rewrite (H6 i Hi Hd).
Qed.

Lemma merge_snps_spec hs hs2 b b2 :
  hs_snps hs = Some b → hs_snps hs2 = Some b2 →
  hs_end hs - hs_start hs + 1 <= Z.of_nat (length b) →
  hs_end hs2 - hs_start hs2 + 1 <= Z.of_nat (length b2) →
  Z.max (hs_start hs) (hs_start hs2) <= Z.min (hs_end hs) (hs_end hs2) →
  (∀ i, Z.max (hs_start hs) (hs_start hs2) <= i <= Z.min (hs_end hs) (hs_end hs2) →
     snp_at hs i = snp_at hs2 i ∨ snp_at hs i = dash ∨ snp_at hs2 i = dash) →
  ∀ cnt nseq recs,
  let hs' := mk_hs (Some (merge_snps hs hs2)) cnt nseq
                   (Z.min (hs_start hs) (hs_start hs2)) (Z.max (hs_end hs) (hs_end hs2))
                   recs in
  hs_end hs' - hs_start hs' + 1 <= Z.of_nat (length (merge_snps hs hs2)) ∧
  covers hs' hs ∧ covers hs' hs2.
Proof.
  intros Hb Hb2 Hlb Hlb2 Hov Hmis cnt nseq recs hs'.
  set (s := hs_start hs) in *. set (e := hs_end hs) in *.
  set (s2 := hs_start hs2) in *. set (e2 := hs_end hs2) in *.
  assert (∀ i, snp_at hs i = char_at b (i - s)) as Hat.
  { intros i. unfold snp_at. by rewrite Hb. }
  assert (∀ i, snp_at hs2 i = char_at b2 (i - s2)) as Hat2.
  { intros i. unfold snp_at. by rewrite Hb2. }
  set (nsnp := Z.max e e2 - Z.min s s2 + 1).
  assert (∀ i, snp_at hs' i = char_at (merge_snps hs hs2) (i - Z.min s s2)) as Hat'.
  { intros i. done. }
  unfold merge_snps in *. fold s e s2 e2 nsnp in Hat' |- *. rewrite Hb, Hb2 in Hat' |- *.
  change (buf (Some ?x)) with x in *.
  destruct (Z.leb_spec s2 s) as [Hle|Hlt].
  - (* the buffer of [hs2] is kept *)
    replace (Z.min s s2) with s2 in * by lia. replace (Z.max s s2) with s in * by lia.
    assert (∀ k, 0 <= k < nsnp →
      char_at (store_at (merge_copy (Z.to_nat (e - s + 1)) (realloc b2 (nsnp + 1)) s2 e2 b s s)
                        nsnp NUL) k =
      if decide (s - s2 <= k < e - s2 + 1 ∧ (char_at b (k + s2 - s) ≠ dash ∨ e2 < k + s2))
      then char_at b (k + s2 - s) else char_at (realloc b2 (nsnp + 1)) k) as Hch.
    { intros k Hk. rewrite char_at_store_at; [|rewrite merge_copy_length|lia].
      2:{ pose proof (realloc_length b2 (nsnp + 1)). lia. }
      rewrite decide_False by lia. rewrite merge_copy_char; [|lia| |lia].
      2:{ pose proof (realloc_length b2 (nsnp + 1)). unfold nsnp in *. lia. }
      rewrite Z2Nat.id by lia.
      destruct (decide (s - s2 <= k < s - s2 + (e - s + 1) ∧ _)) as [[H1 H2]|H].
      - rewrite decide_True; [done|]. split; [lia|done].
      - rewrite decide_False; [done|]. intros [H1 H2]. apply H. split; [lia|done]. }
    split_and!.
    + rewrite store_at_length, merge_copy_length.
      pose proof (realloc_length b2 (nsnp + 1)). unfold hs'. simpl. unfold nsnp in *. lia.
    + unfold hs'. split_and!; cbn [hs_start hs_end]; [lia..|].
      fold s e. intros i Hi Hd. rewrite Hat', Hat in *. rewrite Hch by (unfold nsnp; lia).
      replace (i - s2 + s2 - s) with (i - s) by lia.
      rewrite decide_True; [done|]. split; [lia|]. by left.
    + unfold hs'. split_and!; cbn [hs_start hs_end]; [lia..|].
      fold s2 e2. intros i Hi Hd. rewrite Hat', Hat2 in *. rewrite Hch by (unfold nsnp; lia).
      replace (i - s2 + s2 - s) with (i - s) by lia. replace (i - s2 + s2) with i by lia.
      destruct (decide (s - s2 <= i - s2 < e - s2 + 1 ∧ _)) as [[H1 [H2|H2]]|H].
      * destruct (Hmis i) as [E|[E|E]]; [lia|..]; rewrite ?Hat, ?Hat2 in E; congruence.
      * lia.
      * apply realloc_char; unfold nsnp; lia.
  - (* the buffer of [hs] is kept *)
    replace (Z.min s s2) with s in * by lia. replace (Z.max s s2) with s2 in * by lia.
    assert (∀ k, 0 <= k < nsnp →
      char_at (store_at (merge_copy (Z.to_nat (e2 - s2 + 1)) (realloc b (nsnp + 1)) s e b2 s2 s2)
                        nsnp NUL) k =
      if decide (s2 - s <= k < e2 - s + 1 ∧ (char_at b2 (k + s - s2) ≠ dash ∨ e < k + s))
      then char_at b2 (k + s - s2) else char_at (realloc b (nsnp + 1)) k) as Hch.
    { intros k Hk. rewrite char_at_store_at; [|rewrite merge_copy_length|lia].
      2:{ pose proof (realloc_length b (nsnp + 1)). lia. }
      rewrite decide_False by lia. rewrite merge_copy_char; [|lia| |lia].
      2:{ pose proof (realloc_length b (nsnp + 1)). unfold nsnp in *. lia. }
      rewrite Z2Nat.id by lia.
      destruct (decide (s2 - s <= k < s2 - s + (e2 - s2 + 1) ∧ _)) as [[H1 H2]|H].
      - rewrite decide_True; [done|]. split; [lia|done].
      - rewrite decide_False; [done|]. intros [H1 H2]. apply H. split; [lia|done]. }
    split_and!.
    + rewrite store_at_length, merge_copy_length.
      pose proof (realloc_length b (nsnp + 1)). unfold hs'. simpl. unfold nsnp in *. lia.
    + unfold hs'. split_and!; cbn [hs_start hs_end]; [lia..|].
      fold s e. intros i Hi Hd. rewrite Hat', Hat in *. rewrite Hch by (unfold nsnp; lia).
      replace (i - s + s - s2) with (i - s2) by lia. replace (i - s + s) with i by lia.
      destruct (decide (s2 - s <= i - s < e2 - s + 1 ∧ _)) as [[H1 [H2|H2]]|H].
      * destruct (Hmis i) as [E|[E|E]]; [lia|..]; rewrite ?Hat, ?Hat2 in E; congruence.
      * lia.
      * apply realloc_char; unfold nsnp; lia.
    + unfold hs'. split_and!; cbn [hs_start hs_end]; [lia..|].
      fold s2 e2. intros i Hi Hd. rewrite Hat', Hat2 in *. rewrite Hch by (unfold nsnp; lia).
      replace (i - s + s - s2) with (i - s2) by lia.
      rewrite decide_True; [done|]. split; [lia|]. by left.
Qed.

(** ** The merge on the heap *)

Lemma cluster_merge_heap h p p2 hs hs2 a a2 r r2 :
  p ≠ p2 → a ≠ a2 →
  hp_str h !! p = Some hs → hp_str h !! p2 = Some hs2 →
  hs_recs hs = Some a → hs_recs hs2 = Some a2 →
  hp_arr h !! a = Some r → hp_arr h !! a2 = Some r2 →
  cluster_merge h p p2 =
  mk_heap (<[p2 := mk_hs None (hs_count hs2) 0 (hs_start hs2) (hs_start hs2 - 1) None]>
             (<[p := mk_hs (Some (merge_snps hs hs2)) (hs_count hs)
                           (hs_nseq hs + hs_nseq hs2)
                           (Z.min (hs_start hs) (hs_start hs2))
                           (Z.max (hs_end hs) (hs_end hs2)) (Some a)]> (hp_str h)))
          (delete a2 (<[a := r ++ r2]> (hp_arr h)))
          (hp_fault h).
Proof.
  intros Hp Ha Hhs Hhs2 Hr Hr2 Harr Harr2. unfold cluster_merge.
  assert (get_str h p = hs) as -> by (unfold get_str; by rewrite Hhs).
  assert (get_str h p2 = hs2) as -> by (unfold get_str; by rewrite Hhs2).
  rewrite Hr. set (hs' := mk_hs (Some (merge_snps hs hs2)) _ _ _ _ _).
  assert (get_str (set_str h p hs') p2 = hs2) as ->.
  { unfold get_str, set_str. cbn [hp_str]. by rewrite lookup_insert_ne, Hhs2. }
  rewrite Hr2. subst hs'. cbn [hs_recs]. unfold ArrayConcat, ArrayDestroy, set_str, array_get.
  cbn [hp_str hp_arr hp_fault]. rewrite Harr2. change (default [] (Some r2)) with r2.
  rewrite (alter_as_insert _ _ _ r) by done.
  rewrite lookup_insert_ne, Harr2 by done.
  unfold get_str. cbn [hp_str hp_arr hp_fault]. rewrite lookup_insert_eq.
  cbn [default hs_snps hs_count hs_nseq hs_start hs_end]. by rewrite insert_insert_eq.
Qed.

(** The depths are not touched, whatever the heap holds. *)
Lemma cluster_merge_count h p p2 q :
  hs_count (get_str (cluster_merge h p p2) q) = hs_count (get_str h q).
Proof.
  unfold cluster_merge.
  set (hs' := mk_hs (Some (merge_snps _ _)) _ _ _ _ _).
  set (h1 := set_str h p hs').
  assert (∀ q, hs_count (get_str h1 q) = hs_count (get_str h q)) as H1.
  { intros q'. unfold h1, get_str, set_str. cbn [hp_str].
    destruct (decide (q' = p)) as [->|Hne].
    - by rewrite lookup_insert_eq.
    - by rewrite lookup_insert_ne. }
  set (hs2' := mk_hs None _ 0 _ _ _). set (h2 := set_str h1 p2 hs2').
  assert (∀ q, hs_count (get_str h2 q) = hs_count (get_str h q)) as H2.
  { intros q'. rewrite <- H1. unfold h2, get_str, set_str. cbn [hp_str].
    destruct (decide (q' = p2)) as [->|Hne].
    - by rewrite lookup_insert_eq.
    - by rewrite lookup_insert_ne. }
  set (h4 := ArrayDestroy _ _).
  assert (hp_str h4 = hp_str h2) as H4.
  { unfold h4, ArrayDestroy, ArrayConcat. repeat case_match; done. }
  assert (∀ q, get_str h4 q = get_str h2 q) as H4'.
  { intros q'. unfold get_str. by rewrite H4. }
  rewrite <- H2, <- H4'. unfold get_str at 1, set_str. cbn [hp_str].
  destruct (decide (q = p2)) as [->|Hne].
  - by rewrite lookup_insert_eq.
  - by rewrite lookup_insert_ne.
Qed.

(** ** The strings while a block is clustered *)

Lemma same_at_refl h0 h iv : same_at h0 h h iv.
Proof. by split. Qed.

Lemma same_at_trans h0 h1 h2 h3 iv :
  same_at h0 h1 h2 iv → same_at h0 h2 h3 iv → same_at h0 h1 h3 iv.
Proof.
  intros [H1 H2] [H3 H4]. split; [congruence|]. intros a Ha.
  rewrite (H4 a Ha). by apply H2.
Qed.

Lemma tomb_same h0 h h' iv : same_at h0 h h' iv → tomb h0 h iv → tomb h0 h' iv.
Proof.
  intros [H1 H2] [(hs & Hhs & ?) Harr]. split.
  - exists hs. by rewrite H1.
  - intros a Ha. rewrite (H2 a Ha). by apply Harr.
Qed.

Lemma live_same h0 L h h' iv : same_at h0 h h' iv → live h0 L h iv → live h0 L h' iv.
Proof.
  intros [H1 H2] (hs & b & a & r & Hhs & ? & ? & ? & ? & ? & Ha & ? & Harr & ?).
  exists hs, b, a, r. rewrite H1, (H2 a Ha). by split_and!.
Qed.

Lemma index_fresh_data_inj L h0 iv iv' :
  index_fresh L h0 → iv ∈ L → iv' ∈ L → iv_data iv = iv_data iv' → iv = iv'.
Proof. intros (_ & Hnd & _). by apply (NoDup_map_inj iv_data L). Qed.

Lemma index_fresh_recs_inj L h0 iv iv' :
  index_fresh L h0 → iv ∈ L → iv' ∈ L → recs_of h0 iv = recs_of h0 iv' → iv = iv'.
Proof. intros (_ & _ & Hnd & _). by apply (NoDup_map_inj (recs_of h0) L). Qed.

Lemma pristine_str L h0 h iv :
  index_fresh L h0 → iv ∈ L → pristine h0 h iv →
  ∃ hs b a r, hp_str h !! iv_data iv = Some hs ∧ get_str h (iv_data iv) = hs ∧
    get_str h0 (iv_data iv) = hs ∧
    hs_start hs = iv_start iv ∧ hs_end hs = iv_end iv ∧ iv_start iv <= iv_end iv ∧
    hs_snps hs = Some b ∧ Z.of_nat (length b) = iv_end iv - iv_start iv + 1 ∧
    0 < hs_nseq hs ∧ recs_of h0 iv = Some a ∧ hs_recs hs = Some a ∧
    hp_arr h !! a = Some r ∧ array_get h0 (recs_of h0 iv) = r.
Proof.
  intros (Hstr & _) Hin [H1 H2]. rewrite Forall_forall in Hstr.
  destruct (str_ok_get _ _ (Hstr iv Hin))
    as (hs & b & a & Hhs & Hget & Hs & He & Hle & Hb & Hlb & _ & Hn & Hr & [r Harr]).
  assert (recs_of h0 iv = Some a) as Hra by (unfold recs_of; by rewrite Hget).
  exists hs, b, a, r. rewrite H1, (H2 a Hra). unfold get_str. rewrite H1, Hhs.
  split_and!; try done. rewrite Hra. simpl. by rewrite Harr.
Qed.

Lemma pristine_live L h0 h iv :
  index_fresh L h0 → iv ∈ L → pristine h0 h iv → live h0 L h iv.
Proof.
  intros Hf Hin Hp.
  destruct (pristine_str L h0 h iv Hf Hin Hp)
    as (hs & b & a & r & Hhs & _ & Hg0 & Hs & He & Hle & Hb & Hlb & Hn & Hra & Hr & Harr & Hr0).
  exists hs, b, a, r. split_and!; try done; try lia.
  intros iv' rec Hrec (Hin' & _ & Huniq).
  rewrite <- (Huniq iv Hin), Hg0; [apply covers_refl|]. by rewrite Hr0.
Qed.

(** One merge: the anchor [iv] takes in [iv2]. *)
Lemma cluster_merge_step L h0 h iv iv2 :
  index_fresh L h0 → iv ∈ L → iv2 ∈ L → iv_data iv ≠ iv_data iv2 →
  live h0 L h iv → pristine h0 h iv2 →
  Z.max (hs_start (get_str h (iv_data iv))) (hs_start (get_str h (iv_data iv2)))
    <= Z.min (hs_end (get_str h (iv_data iv))) (hs_end (get_str h (iv_data iv2))) →
  cluster_mismatch
    (Z.to_nat (Z.min (hs_end (get_str h (iv_data iv))) (hs_end (get_str h (iv_data iv2)))
               - Z.max (hs_start (get_str h (iv_data iv)))
                       (hs_start (get_str h (iv_data iv2))) + 1))
    (get_str h (iv_data iv)) (get_str h (iv_data iv2))
    (Z.max (hs_start (get_str h (iv_data iv))) (hs_start (get_str h (iv_data iv2))))
    = false →
  live h0 L (cluster_merge h (iv_data iv) (iv_data iv2)) iv ∧
  tomb h0 (cluster_merge h (iv_data iv) (iv_data iv2)) iv2 ∧
  hp_fault (cluster_merge h (iv_data iv) (iv_data iv2)) = hp_fault h ∧
  (∀ iv3, iv3 ∈ L → iv_data iv3 ≠ iv_data iv → iv_data iv3 ≠ iv_data iv2 →
     same_at h0 h (cluster_merge h (iv_data iv) (iv_data iv2)) iv3) ∧
  hs_start (get_str (cluster_merge h (iv_data iv) (iv_data iv2)) (iv_data iv))
    <= hs_start (get_str h (iv_data iv)) ∧
  hs_end (get_str h (iv_data iv))
    <= hs_end (get_str (cluster_merge h (iv_data iv) (iv_data iv2)) (iv_data iv)).
Proof.
  intros Hf Hin Hin2 Hne
    (hs & b & a & r & Hhs & Hb & Hs & He & Hlb & Hn & Hra & Hr & Harr & Hcov) Hp2.
  destruct (pristine_str L h0 h iv2 Hf Hin2 Hp2)
    as (hs2 & b2 & a2 & r2 & Hhs2 & Hg2 & Hg02 & Hs2 & He2 & Hle2 & Hb2 & Hlb2 & Hn2 & Hra2
        & Hr2 & Harr2 & Hr02).
  assert (get_str h (iv_data iv) = hs) as Hg by (unfold get_str; by rewrite Hhs).
  rewrite Hg, Hg2. intros Hov Hmis.
  assert (a ≠ a2) as Ha.
  { intros ->. apply Hne. f_equal. apply (index_fresh_recs_inj L h0); [done..|congruence]. }
  rewrite (cluster_merge_heap h _ _ hs hs2 a a2 r r2) by done.
  set (hs' := mk_hs (Some (merge_snps hs hs2)) _ _ _ _ _).
  destruct (merge_snps_spec hs hs2 b b2 Hb Hb2 Hlb ltac:(lia) Hov) with
    (cnt := hs_count hs) (nseq := hs_nseq hs + hs_nseq hs2) (recs := Some a)
    as (Hlen & Hc1 & Hc2).
  { intros i Hi. apply (cluster_mismatch_spec _ _ _ _ Hmis). lia. }
  fold hs' in Hlen, Hc1, Hc2.
  split_and!.
  - exists hs', (merge_snps hs hs2), a, (r ++ r2). cbn [hp_str hp_arr].
    rewrite lookup_insert_ne, lookup_insert_eq by done.
    rewrite lookup_delete_ne, lookup_insert_eq by done.
    split_and!; try done; unfold hs'; cbn [hs_start hs_end hs_nseq]; try lia.
    intros iv' rec [Hrec|Hrec]%elem_of_app Hown.
    + eapply covers_trans; [exact Hc1|]. by eapply Hcov.
    + destruct Hown as (Hin' & _ & Huniq).
      rewrite <- (Huniq iv2 Hin2) by (by rewrite Hr02). by rewrite Hg02.
  - split.
    + eexists. cbn [hp_str]. rewrite lookup_insert_eq. split; [done|].
      cbn [hs_snps hs_nseq hs_start hs_end hs_recs]. by split_and!.
    + intros a' Ha'. cbn [hp_arr]. rewrite Hra2 in Ha'. injection Ha' as <-.
      apply lookup_delete_eq.
  - done.
  - intros iv3 Hin3 Hne3 Hne32. split; cbn [hp_str hp_arr].
    + by rewrite !lookup_insert_ne.
    + intros a3 Ha3. rewrite lookup_delete_ne, lookup_insert_ne; [done|..].
      * intros ->. apply Hne3. f_equal.
        apply (index_fresh_recs_inj L h0); [done..|congruence].
      * intros ->. apply Hne32. f_equal.
        apply (index_fresh_recs_inj L h0); [done..|congruence].
  - unfold get_str. cbn [hp_str]. rewrite lookup_insert_ne, lookup_insert_eq by done.
    unfold hs'. cbn. lia.
  - unfold get_str. cbn [hp_str]. rewrite lookup_insert_ne, lookup_insert_eq by done.
    unfold hs'. cbn. lia.
Qed.

(** ** The loops of the clustering: what holds of any heap *)

Lemma cluster_sweep_shape rest : ∀ h p ivstart ivend,
  (cluster_sweep h p ivstart ivend rest).1.2 `sublist_of` rest ∧
  ((cluster_sweep h p ivstart ivend rest).2 = true →
   (length (cluster_sweep h p ivstart ivend rest).1.2 < length rest)%nat) ∧
  ((cluster_sweep h p ivstart ivend rest).2 = false →
   (cluster_sweep h p ivstart ivend rest).1 = (h, rest)) ∧
  ∀ q, hs_count (get_str (cluster_sweep h p ivstart ivend rest).1.1 q) =
       hs_count (get_str h q).
Proof.
  induction rest as [|iv2 next IH]; intros h p ivstart ivend; [done|].
  cbn [cluster_sweep].
  destruct ((ivend <? iv_start iv2) || (iv_end iv2 <? ivstart)).
  { destruct (IH h p ivstart ivend) as (H1 & H2 & H3 & H4).
    destruct (cluster_sweep h p ivstart ivend next) as [[h' l] rc]. simpl in *.
    split_and!; [by constructor|intros Hrc; specialize (H2 Hrc); lia| |done].
    intros ->. specialize (H3 eq_refl). by injection H3 as -> ->. }
  destruct (cluster_mismatch _ _ _ _).
  { destruct (IH h p ivstart ivend) as (H1 & H2 & H3 & H4).
    destruct (cluster_sweep h p ivstart ivend next) as [[h' l] rc]. simpl in *.
    split_and!; [by constructor|intros Hrc; specialize (H2 Hrc); lia| |done].
    intros ->. specialize (H3 eq_refl). by injection H3 as -> ->. }
  destruct (IH (cluster_merge h p (iv_data iv2)) p ivstart ivend) as (H1 & H2 & H3 & H4).
  destruct (cluster_sweep (cluster_merge h p (iv_data iv2)) p ivstart ivend next)
    as [[h' l] rc]. simpl in *.
  split_and!; [by constructor| |done|].
  - intros _. apply sublist_length in H1. lia.
  - intros q. by rewrite H4, cluster_merge_count.
Qed.

Lemma cluster_recruit_shape fuel : ∀ h p ivstart ivend rest,
  (cluster_recruit fuel h p ivstart ivend rest).1.2 `sublist_of` rest ∧
  ∀ q, hs_count (get_str (cluster_recruit fuel h p ivstart ivend rest).1.1 q) =
       hs_count (get_str h q).
Proof.
  induction fuel as [|fuel IH]; intros h p ivstart ivend rest; [done|].
  cbn [cluster_recruit].
  destruct (cluster_sweep_shape rest h p ivstart ivend) as (H1 & _ & _ & H4).
  destruct (cluster_sweep h p ivstart ivend rest) as [[h' rest'] rc]. simpl in *.
  destruct rc; [|done].
  destruct (IH h' p (hs_start (get_str h' p)) (hs_end (get_str h' p)) rest') as [H5 H6].
  split; [by etrans|]. intros q. by rewrite H6.
Qed.

(** The [again:] loop stops by itself: more fuel changes nothing. *)
Lemma cluster_recruit_fuels fuel1 : ∀ fuel2 h p ivstart ivend rest,
  (length rest < fuel1)%nat → (length rest < fuel2)%nat →
  cluster_recruit fuel1 h p ivstart ivend rest =
  cluster_recruit fuel2 h p ivstart ivend rest.
Proof.
  induction fuel1 as [|fuel1 IH]; intros [|fuel2] h p ivstart ivend rest H1 H2; try lia.
  cbn [cluster_recruit].
  destruct (cluster_sweep_shape rest h p ivstart ivend) as (_ & Hlt & _ & _).
  destruct (cluster_sweep h p ivstart ivend rest) as [[h' rest'] rc]. simpl in *.
  destruct rc; [|done]. specialize (Hlt eq_refl). apply IH; lia.
Qed.

(** With a pass more than there are nodes, the loop is left by its own
    test. *)
Lemma cluster_recruit_ends fuel : ∀ h p ivstart ivend rest,
  (length rest < fuel)%nat →
  (cluster_recruit fuel h p ivstart ivend rest).2 = true.
Proof.
  induction fuel as [|fuel IH]; intros h p ivstart ivend rest Hf; [lia|].
  cbn [cluster_recruit].
  destruct (cluster_sweep_shape rest h p ivstart ivend) as (_ & Hlt & _ & _).
  destruct (cluster_sweep h p ivstart ivend rest) as [[h' rest'] rc]. simpl in *.
  destruct rc; [|done]. specialize (Hlt eq_refl). apply IH. lia.
Qed.

(** With fewer passes than it needs, the loop is cut short. *)
Lemma cluster_recruit_short h p ivstart ivend rest :
  (cluster_recruit 0 h p ivstart ivend rest).2 = false.
Proof. done. Qed.

Lemma cluster_recruit_fuel fuel h p ivstart ivend rest :
  (length rest < fuel)%nat →
  cluster_recruit fuel h p ivstart ivend rest =
  cluster_recruit (S (length rest)) h p ivstart ivend rest.
Proof. intros. apply cluster_recruit_fuels; lia. Qed.

Lemma cluster_anchors_shape fuel : ∀ h l,
  (cluster_anchors fuel h l).2 `sublist_of` l ∧
  ∀ q, hs_count (get_str (cluster_anchors fuel h l).1 q) = hs_count (get_str h q).
Proof.
  induction fuel as [|fuel IH]; intros h [|iv rest]; try done.
  cbn [cluster_anchors].
  destruct (cluster_recruit_shape (S (length rest)) h (iv_data iv) (iv_start iv) (iv_end iv)
              rest) as [H1 H2].
  destruct (cluster_recruit _ _ _ _ _ _) as [[h' rest'] fin]. simpl in *.
  destruct (IH h' rest') as [H3 H4]. destruct (cluster_anchors fuel h' rest') as [h'' l'].
  simpl in *. split; [constructor; by etrans|]. intros q. by rewrite H4.
Qed.

(** The loop over the anchors gets to the end of the list. *)
Lemma cluster_anchors_fuels fuel1 : ∀ fuel2 h l,
  (length l <= fuel1)%nat → (length l <= fuel2)%nat →
  cluster_anchors fuel1 h l = cluster_anchors fuel2 h l.
Proof.
  induction fuel1 as [|fuel1 IH]; intros [|fuel2] h [|iv rest] H1 H2; simpl in H1, H2;
    try done; try lia.
  cbn [cluster_anchors].
  destruct (cluster_recruit_shape (S (length rest)) h (iv_data iv) (iv_start iv) (iv_end iv)
              rest) as [Hs _].
  destruct (cluster_recruit _ _ _ _ _ _) as [[h' rest'] fin]. simpl in *.
  apply sublist_length in Hs. by rewrite (IH fuel2 h' rest') by lia.
Qed.

Lemma cluster_anchors_fuel fuel h l :
  (length l <= fuel)%nat → cluster_anchors fuel h l = cluster_anchors (length l) h l.
Proof. intros. apply cluster_anchors_fuels; lia. Qed.

Section sorted.
Context `{!block_sort}.

Lemma cluster_subregion_count h block q :
  hs_count (get_str (haplotype_str_cluster_subregion h block).1 q) = hs_count (get_str h q).
Proof.
  unfold haplotype_str_cluster_subregion. destruct block; [done|].
  apply cluster_anchors_shape.
Qed.

Lemma cluster_blocks_count ivs : ∀ h longest done block q,
  hs_count (get_str (cluster_blocks h longest done block ivs).1 q) = hs_count (get_str h q).
Proof.
  induction ivs as [|iv ivs IH]; intros h longest done block q; cbn [cluster_blocks].
  - destruct block as [|b0 block]; [done|].
    pose proof (cluster_subregion_count h (b0 :: block) q) as Hc.
    by destruct (haplotype_str_cluster_subregion h (b0 :: block)).
  - destruct (longest =? INT_MIN); [apply IH|].
    destruct (longest <? iv_start iv); [|apply IH].
    pose proof (cluster_subregion_count h block) as Hc.
    destruct (haplotype_str_cluster_subregion h block) as [h' b]. simpl in Hc.
    by rewrite IH.
Qed.

End sorted.

(** ** The counting query *)

Lemma interval_recurse_walk lo hi t :
  t ≠ RB_NULL → interval_recurse t lo hi = Z.of_nat (length (walk lo hi t)).
Proof.
  induction t as [|l IHl n r IHr]; intros Hne; [done|]. clear Hne.
  rewrite walk_node, !length_app.
  assert (Z.of_nat (length (left_part lo hi l)) =
          match l with
          | RB_NODE _ ln _ => if lo <=? nd_last ln then interval_recurse l lo hi else 0
          | RB_NULL => 0
          end) as Hl.
  { unfold left_part. destruct l as [|ll ln lr]; [done|].
    destruct (lo <=? nd_last ln); [by rewrite IHl|done]. }
  assert (Z.of_nat (length (right_part lo hi n r)) =
          match r with
          | RB_NODE _ _ _ => if nd_start n <=? hi then interval_recurse r lo hi else 0
          | RB_NULL => 0
          end) as Hr.
  { unfold right_part. destruct r as [|rl rn rr]; [done|].
    destruct (nd_start n <=? hi); [by rewrite IHr|done]. }
  assert (Z.of_nat (length (List.filter (overlaps lo hi) (node_list lo hi n))) =
          if (nd_start n <=? hi) && (lo <=? nd_end n)
          then Z.of_nat (length (List.filter (overlaps lo hi) (nd_intervals n))) else 0) as Hn.
  { unfold node_list. by destruct ((nd_start n <=? hi) && (lo <=? nd_end n)). }
  rewrite !Nat2Z.inj_add, Hl, Hr, Hn. clear Hl Hr Hn.
  assert (∀ c, c ≠ RB_NULL → interval_recurse c lo hi = Z.of_nat (length (walk lo hi c)) →
            (interval_recurse c lo hi <? 0) = false) as Hpos.
  { intros c _ ->. apply Z.ltb_ge. lia. }
  change (interval_recurse (RB_NODE l n r) lo hi) with
    (match
       match l with
       | RB_NODE _ ln _ =>
           if lo <=? nd_last ln then
             if interval_recurse l lo hi <? 0 then None
             else Some (0 + interval_recurse l lo hi)
           else Some 0
       | RB_NULL => Some 0
       end
     with
     | None => -1
     | Some count =>
         match r with
         | RB_NODE _ _ _ =>
             if nd_start n <=? hi then
               if interval_recurse r lo hi <? 0 then -1
               else (if (nd_start n <=? hi) && (lo <=? nd_end n)
                     then count + Z.of_nat (length (List.filter (overlaps lo hi)
                                                      (nd_intervals n)))
                     else count) + interval_recurse r lo hi
             else (if (nd_start n <=? hi) && (lo <=? nd_end n)
                   then count + Z.of_nat (length (List.filter (overlaps lo hi)
                                                    (nd_intervals n)))
                   else count)
         | RB_NULL =>
             (if (nd_start n <=? hi) && (lo <=? nd_end n)
              then count + Z.of_nat (length (List.filter (overlaps lo hi) (nd_intervals n)))
              else count)
         end
     end).
  destruct l as [|ll ln lr], r as [|rl rn rr];
    rewrite ?(Hpos (RB_NODE ll ln lr)), ?(Hpos (RB_NODE rl rn rr)) by (done || by auto);
    repeat case_match; simplify_eq; lia.
Qed.

(** ** The consistency check, read backwards *)

Lemma max_end_lower l : INT_MIN <= max_end l.
Proof. by destruct (max_end_from INT_MIN l) as (? & _). Qed.

Lemma interval_tree_check_flag t :
  (interval_tree_check_ t).1 = 0 ∨ (interval_tree_check_ t).1 = 1.
Proof.
  induction t as [|l IHl n r IHr]; [by left|]. cbn [interval_tree_check_].
  set (e0 := if negb (min_start (nd_intervals n) =? nd_start n) ||
                negb (max_end (nd_intervals n) =? nd_end n) then 1 else 0).
  assert (e0 = 0 ∨ e0 = 1) as He0 by (unfold e0; case_match; auto).
  destruct l as [|ll ln lr], r as [|rl rn rr];
    repeat (destruct (interval_tree_check_ (RB_NODE _ _ _)) as [? ?]; cbn [fst] in * );
    cbn [fst snd]; repeat case_match; cbn [fst];
    destruct He0 as [-> | ->], IHl as [? | ?], IHr as [? | ?]; simplify_eq; auto.
Qed.

Lemma lor_flag a b : Z.lor a b = 0 ↔ a = 0 ∧ b = 0.
Proof. apply Z.lor_eq_0_iff. Qed.

Lemma interval_tree_check_consistent t :
  ((interval_tree_check_ t).1 = 0 →
   consistent t = true ∧
   (interval_tree_check_ t).2 =
     match t with RB_NODE _ n _ => nd_last n | RB_NULL => INT_MIN end) ∧
  (consistent t = true → (interval_tree_check_ t).1 = 0).
Proof.
  induction t as [|l IHl n r IHr]; [done|].
  pose proof (max_end_lower (nd_intervals n)) as Hlow.
  set (s := min_start (nd_intervals n)) in *. set (e := max_end (nd_intervals n)) in *.
  set (e0 := if negb (s =? nd_start n) || negb (e =? nd_end n) then 1 else 0).
  set (el := match l with RB_NODE _ _ _ => (interval_tree_check_ l).1 | RB_NULL => 0 end).
  set (vl := match l with RB_NODE _ _ _ => (interval_tree_check_ l).2 | RB_NULL => INT_MIN end).
  set (er := match r with RB_NODE _ _ _ => (interval_tree_check_ r).1 | RB_NULL => 0 end).
  set (vr := match r with RB_NODE _ _ _ => (interval_tree_check_ r).2 | RB_NULL => INT_MIN end).
  set (end1 := if e <? vl then vl else e).
  set (end2 := if end1 <? vr then vr else end1).
  assert (interval_tree_check_ (RB_NODE l n r) =
          (if negb (end2 =? nd_last n)
           then Z.lor (Z.lor (Z.lor e0 el) er) 1 else Z.lor (Z.lor e0 el) er, end2)) as ->.
  { cbn [interval_tree_check_]. fold s e e0. unfold end2, end1, el, vl, er, vr.
    destruct l as [|ll ln lr], r as [|rl rn rr];
      repeat (destruct (interval_tree_check_ (RB_NODE _ _ _)) as [? ?]); cbn [fst snd];
      rewrite ?Z.lor_0_r; reflexivity. }
  assert (e0 = 0 ↔ (s =? nd_start n) = true ∧ (e =? nd_end n) = true) as He0.
  { unfold e0. destruct (s =? nd_start n), (e =? nd_end n); simpl; split; try done;
      intros [? ?]; done. }
  clearbody e0.
  assert ((el = 0 → consistent l = true ∧ end1 = bump e l) ∧
          (consistent l = true → el = 0 ∧ end1 = bump e l)) as [Hl1 Hl2].
  { unfold el, end1, vl. destruct l as [|ll ln lr].
    - simpl. destruct (Z.ltb_spec e INT_MIN); [lia|]. done.
    - destruct IHl as [IH1 IH2]. split.
      + intros H0. destruct (IH1 H0) as [? ->]. done.
      + intros Hc. specialize (IH2 Hc). destruct (IH1 IH2) as [? ->]. done. }
  assert (INT_MIN <= end1) as Hv1.
  { unfold end1. destruct (e <? vl) eqn:E; [|done]. apply Z.ltb_lt in E. lia. }
  assert ((er = 0 → consistent r = true ∧ end2 = bump end1 r) ∧
          (consistent r = true → er = 0 ∧ end2 = bump end1 r)) as [Hr1 Hr2].
  { unfold er, end2, vr. destruct r as [|rl rn rr].
    - simpl. destruct (Z.ltb_spec end1 INT_MIN); [lia|]. done.
    - destruct IHr as [IH1 IH2]. split.
      + intros H0. destruct (IH1 H0) as [? ->]. done.
      + intros Hc. specialize (IH2 Hc). destruct (IH1 IH2) as [? ->]. done. }
  clearbody el er end1 end2. cbn [fst snd consistent]. fold s e. split.
  - destruct (Z.eqb_spec end2 (nd_last n)) as [E|E]; cbn [negb].
    2:{ intros [_ ?]%lor_flag. done. }
    intros [[H0 Hel]%lor_flag Her]%lor_flag.
    apply He0 in H0 as [Hs He]. destruct (Hl1 Hel) as [-> E1]. destruct (Hr1 Her) as [-> E2].
    rewrite Hs, He. apply Z.eqb_eq in He. rewrite <- He, <- E1, <- E2, <- E, Z.eqb_refl.
    done.
  - intros Hc. repeat (apply andb_true_iff in Hc as [Hc ?]).
    destruct (Hl2 Hc) as [-> E1]. destruct (Hr2 ltac:(done)) as [-> E2].
    assert (e0 = 0) as -> by (by apply He0).
    assert (end2 = nd_last n) as ->.
    { rewrite E2, E1. apply Z.eqb_eq in H0, H. by rewrite H0, H. }
    by rewrite Z.eqb_refl.
Qed.

(** ** The hash pass: what it leaves alone *)

Lemma alter_pair_rec_rec v hi (rng : list rangec) :
  map r_rec (alter (set_pair_rec v) hi rng) = map r_rec rng.
Proof.
  revert hi. induction rng as [|r rng IH]; intros [|hi]; try done.
  cbn [alter list_alter map]. f_equal. apply IH.
Qed.

Lemma pair_pass_frame todo : ∀ i h rng0 rng,
  (∀ key idx, h !! key = Some idx → (idx < i)%nat) →
  map r_rec rng = map r_rec rng0 →
  (∀ k r r', rng0 !! k = Some r → rng !! k = Some r' → r' = r ∨ r_pair_rec r' < 0) →
  map r_rec (pair_pass i h rng todo) = map r_rec rng0 ∧
  ∀ k r r', rng0 !! k = Some r → pair_pass i h rng todo !! k = Some r' →
            r' = r ∨ r_pair_rec r' < 0.
Proof.
  induction todo as [|x todo IH]; intros i h rng0 rng Hh Hrec Hold; [done|].
  cbn [pair_pass]. destruct (rng !! i) as [r|] eqn:Hi; [|done].
  destruct (h !! r_pair_rec r) as [hi|] eqn:Hkey.
  - apply IH.
    + intros key idx [_ Hk]%lookup_delete_Some. specialize (Hh _ _ Hk). lia.
    + by rewrite alter_pair_rec_rec.
    + intros k r0 r' Hk0 Hk. specialize (Hh _ _ Hkey).
      destruct (decide (k = hi)) as [->|Hne].
      * rewrite list_lookup_alter_eq in Hk. destruct (rng !! hi); [|done].
        simpl in Hk. injection Hk as <-. right. simpl. lia.
      * rewrite list_lookup_alter_ne in Hk by done. by eapply Hold.
  - apply IH; [|done..]. intros key idx Hk. destruct (h !! r_rec r).
    + specialize (Hh _ _ Hk). lia.
    + apply lookup_insert_Some in Hk as [[_ <-]|[_ Hk]]; [lia|]. specialize (Hh _ _ Hk). lia.
Qed.

(** Without a read whose [pair_rec] is the record of an earlier read, the
    pass changes nothing. *)
Lemma pair_pass_idle todo : ∀ i h rng,
  todo = drop i rng →
  (∀ key idx, h !! key = Some idx →
     (idx < i)%nat ∧ ∃ r, rng !! idx = Some r ∧ r_rec r = key) →
  (∀ j k rj rk, (k < j)%nat → rng !! j = Some rj → rng !! k = Some rk →
     r_pair_rec rj ≠ r_rec rk) →
  pair_pass i h rng todo = rng.
Proof.
  induction todo as [|x todo IH]; intros i h rng Hdrop Hh Hno; [done|].
  assert (rng !! i = Some x) as Hi.
  { rewrite <- (Nat.add_0_r i), <- lookup_drop, <- Hdrop. done. }
  assert (todo = drop (S i) rng) as Hdrop'.
  { replace (S i) with (i + 1)%nat by lia. rewrite <- drop_drop, <- Hdrop. done. }
  cbn [pair_pass]. rewrite Hi. destruct (h !! r_pair_rec x) as [hi|] eqn:Hkey.
  - exfalso. destruct (Hh _ _ Hkey) as (Hlt & r & Hr & E).
    by apply (Hno i hi x r).
  - apply IH; [done| |done]. intros key idx Hk. destruct (h !! r_rec x) eqn:Erec.
    + destruct (Hh _ _ Hk) as (? & ?). split; [lia|done].
    + apply lookup_insert_Some in Hk as [[<- <-]|[_ Hk]]; [split; [lia|by exists x]|].
      destruct (Hh _ _ Hk) as (? & ?). split; [lia|done].
Qed.

(** ** The counting query on a tree in order *)

Lemma interval_range_query_spec lo hi it :
  wf_tree it →
  interval_range_query it lo hi =
    match tree_intervals (it_root it) with
    | [] => -1
    | _ => Z.of_nat (length (List.filter (overlaps lo hi) (tree_intervals (it_root it))))
    end.
Proof.
  intros Hwf. unfold interval_range_query.
  destruct (tree_intervals (it_root it)) as [|i rest] eqn:E.
  - by rewrite (wf_tree_empty it Hwf E).
  - rewrite <- E. destruct Hwf as [Hwf Hex].
    rewrite interval_recurse_walk by (by intros Hn; rewrite Hn in E).
    rewrite walk_wf; [done|by eapply wf_key_sorted|by apply Hwf|done].
Qed.

(** * The index as a whole *)

Lemma total_perm l l' : l ≡ₚ l' → total l = total l'.
Proof. induction 1; simpl; lia. Qed.

Lemma total_app l l' : total (l ++ l') = total l + total l'.
Proof. induction l; simpl; lia. Qed.

Lemma concat_perm {A} (l l' : list (list A)) : l ≡ₚ l' → concat l ≡ₚ concat l'.
Proof.
  induction 1; simpl; [done|by f_equiv| |by etrans].
  rewrite !app_assoc. f_equiv. apply Permutation_app_comm.
Qed.

Lemma nseq_sum_perm L L' h : L ≡ₚ L' → nseq_sum L h = nseq_sum L' h.
Proof. intros Hp. apply total_perm. by rewrite Hp. Qed.

Lemma recs_all_perm L L' h : L ≡ₚ L' → recs_all L h ≡ₚ recs_all L' h.
Proof. intros Hp. apply concat_perm. by rewrite Hp. Qed.

Lemma nseq_sum_cons x L h :
  nseq_sum (x :: L) h = hs_nseq (get_str h (iv_data x)) + nseq_sum L h.
Proof. done. Qed.

Lemma recs_all_cons x L h :
  recs_all (x :: L) h = array_get h (hs_recs (get_str h (iv_data x))) ++ recs_all L h.
Proof. done. Qed.

Lemma nseq_sum_ext L h h' :
  (∀ iv, iv ∈ L → hs_nseq (get_str h' (iv_data iv)) = hs_nseq (get_str h (iv_data iv))) →
  nseq_sum L h' = nseq_sum L h.
Proof.
  intros H. unfold nseq_sum. f_equal. apply map_ext_in. intros iv Hin.
  apply H. by apply list_elem_of_In.
Qed.

Lemma recs_all_ext L h h' :
  (∀ iv, iv ∈ L → array_get h' (hs_recs (get_str h' (iv_data iv))) =
                  array_get h (hs_recs (get_str h (iv_data iv)))) →
  recs_all L h' = recs_all L h.
Proof.
  intros H. unfold recs_all. f_equal. apply map_ext_in. intros iv Hin.
  apply H. by apply list_elem_of_In.
Qed.

Lemma NoDup_pick {A} (L : list A) x :
  NoDup L → x ∈ L → ∃ L', L ≡ₚ x :: L' ∧ x ∉ L'.
Proof.
  intros Hnd Hin. apply list_elem_of_split in Hin as (l1 & l2 & ->).
  exists (l1 ++ l2). split; [by rewrite Permutation_middle|].
  apply NoDup_app in Hnd as (_ & Hd & Hnd). apply NoDup_cons in Hnd as [Hn _].
  intros [Hin|Hin]%elem_of_app; [|done]. apply (Hd x Hin). by left.
Qed.

(** ** What one call does to the index *)

Lemma haplotype_str_add_cases `{!rb_colour} it h snps start end_ rec1 rec2 r :
  index_ok it h → coord_range start → coord_range end_ → start <= end_ →
  Z.of_nat (length snps) = end_ - start + 1 →
  haplotype_str_add it h snps start end_ rec1 rec2 = inr r →
  r.2 = 0 ∧ index_ok r.1.1 r.1.2 ∧ hp_fault r.1.2 = hp_fault h ∧
  ((∃ iv hs a recs,
      iv ∈ tree_intervals (it_root it) ∧ hp_str h !! iv_data iv = Some hs ∧
      takes snps start end_ hs ∧ hs_recs hs = Some a ∧ hp_arr h !! a = Some recs ∧
      r.1.1 = it ∧
      hp_str r.1.2 = <[iv_data iv := merged snps hs]> (hp_str h) ∧
      hp_arr r.1.2 = <[a := recs ++ present rec1 ++ present rec2]> (hp_arr h))
   ∨
   ((∀ iv hs, iv ∈ tree_intervals (it_root it) → hp_str h !! iv_data iv = Some hs →
       ¬ takes snps start end_ hs) ∧
    ∃ iv a,
      iv_start iv = start ∧ iv_end iv = end_ ∧
      tree_intervals (it_root r.1.1) ≡ₚ iv :: tree_intervals (it_root it) ∧
      hp_str h !! iv_data iv = None ∧ hp_arr h !! a = None ∧
      hp_str r.1.2 =
        <[iv_data iv := mk_hs (Some snps) (fresh_count snps) 1 start end_ (Some a)]>
          (hp_str h) ∧
      hp_arr r.1.2 = <[a := present rec1 ++ present rec2]> (hp_arr h))).
Proof.
  intros Hok Hcs Hce Hle Hlen Hr.
  pose proof (haplotype_str_add_ok it h snps start end_ rec1 rec2 r Hok Hcs Hce Hle Hlen Hr)
    as Hok'.
  destruct (add_find h snps start end_ (interval_iter_all it start end_))
    as [e|[iv|]] eqn:Hfind.
  { unfold haplotype_str_add in Hr. by rewrite Hfind in Hr. }
  - destruct (haplotype_str_add_into it h snps start end_ rec1 rec2 iv Hok Hle Hlen Hfind)
      as (hs & a & recs & Hin & Hhs & Ht & Hr' & Harr & E).
    rewrite E in Hr. injection Hr as <-. split_and!; try done.
    left. exists iv, hs, a, recs. by split_and!.
  - destruct (haplotype_str_add_new it h snps start end_ rec1 rec2 Hok Hcs Hce Hle Hlen
                Hfind) as (it' & a & Hclash & Hwf' & Ha & Ha' & Hperm & E).
    rewrite E in Hr. injection Hr as <-. split_and!; try done.
    right. destruct Hok as (_ & _ & Hfp & Hfa & _). split.
    + intros iv hs Hin Hhs (Hs & He & Hag).
      destruct (Hclash iv hs Hin Hhs Hs He) as (k & Hk & Hc).
      by apply (clash_not_agrees _ _ _ k Hk Hc).
    + exists (mk_interval (S (it_brk it)) start end_ (it_brk it)), a.
      cbn [fst snd iv_start iv_end iv_data hp_str hp_arr].
      split_and!; try done.
      * destruct (hp_str h !! it_brk it) eqn:E'; [|done].
        specialize (Hfp (it_brk it) ltac:(by eexists)). lia.
      * destruct (hp_arr h !! a) eqn:E'; [|done].
        specialize (Hfa a ltac:(by eexists)). lia.
Qed.

(** The strings of the intervals other than the one written to. *)
Lemma index_ok_others it h iv a :
  index_ok it h → hs_recs (get_str h (iv_data iv)) = Some a →
  iv ∈ tree_intervals (it_root it) →
  ∀ iv', iv' ∈ tree_intervals (it_root it) → iv' ≠ iv →
    iv_data iv' ≠ iv_data iv ∧
    ∃ a', hs_recs (get_str h (iv_data iv')) = Some a' ∧ a' ≠ a ∧ is_Some (hp_arr h !! a').
Proof.
  intros (_ & (Hstr & Hnd & Hndr & _) & _) Ha Hin iv' Hin' Hne.
  rewrite Forall_forall in Hstr.
  destruct (str_ok_get _ _ (Hstr iv' Hin')) as (hs' & _ & a' & _ & Hg & _ & _ & _ & _ & _ & _ & _ & Hr & Hs).
  split.
  - intros E. apply Hne. by apply (NoDup_map_inj iv_data (tree_intervals (it_root it))).
  - exists a'. rewrite Hg. split_and!; [done| |done]. intros ->. apply Hne.
    apply (NoDup_map_inj (recs_of h) (tree_intervals (it_root it))); [done..|].
    unfold recs_of. rewrite Hg, Ha. done.
Qed.

Lemma haplotype_str_add_conserves `{!rb_colour} it h snps start end_ rec1 rec2 r :
  index_ok it h → coord_range start → coord_range end_ → start <= end_ →
  Z.of_nat (length snps) = end_ - start + 1 →
  haplotype_str_add it h snps start end_ rec1 rec2 = inr r →
  nseq_sum (tree_intervals (it_root r.1.1)) r.1.2 =
    nseq_sum (tree_intervals (it_root it)) h + 1 ∧
  recs_all (tree_intervals (it_root r.1.1)) r.1.2 ≡ₚ
    recs_all (tree_intervals (it_root it)) h ++ present rec1 ++ present rec2.
Proof.
  intros Hok Hcs Hce Hle Hlen Hadd.
  destruct (haplotype_str_add_cases it h snps start end_ rec1 rec2 r Hok Hcs Hce Hle Hlen Hadd)
    as (_ & _ & _ & Hcase). clear Hadd.
  pose proof Hok as (Hwf & (Hstr & Hnd & Hndr & _) & Hfp & Hfa & _).
  rewrite Forall_forall in Hstr.
  assert (NoDup (tree_intervals (it_root it))) as HndL.
  { by apply (NoDup_fmap_1 iv_data). }
  destruct Hcase as [(iv & hs & a & recs & Hin & Hhs & _ & Hr & Harr & Eit & Estr & Earr)
                    |(_ & iv & a & _ & _ & Hperm & Hnone & Hanone & Estr & Earr)].
  - rewrite Eit. destruct (NoDup_pick _ iv HndL Hin) as (L' & HpL & HnL).
    assert (get_str h (iv_data iv) = hs) as Hg by (unfold get_str; by rewrite Hhs).
    assert (get_str r.1.2 (iv_data iv) = merged snps hs) as Hg'.
    { unfold get_str. by rewrite Estr, lookup_insert_eq. }
    assert (∀ iv', iv' ∈ L' →
              get_str r.1.2 (iv_data iv') = get_str h (iv_data iv') ∧
              array_get r.1.2 (hs_recs (get_str h (iv_data iv'))) =
              array_get h (hs_recs (get_str h (iv_data iv')))) as Hoth.
    { intros iv' Hin'.
      assert (iv' ∈ tree_intervals (it_root it)) as Hin'' by (rewrite HpL; by right).
      assert (iv' ≠ iv) as Hne by (by intros ->).
      destruct (index_ok_others it h iv a Hok ltac:(by rewrite Hg) Hin iv' Hin'' Hne)
        as (Hd & a' & Ha' & Hna & _).
      split.
      - unfold get_str. by rewrite Estr, lookup_insert_ne.
      - rewrite Ha'. unfold array_get. by rewrite Earr, lookup_insert_ne. }
    split.
    + rewrite !(nseq_sum_perm _ _ _ HpL), !nseq_sum_cons.
      rewrite Hg', Hg. cbn [merged hs_nseq].
      rewrite (nseq_sum_ext L' h r.1.2); [lia|]. intros iv' Hin'.
      by rewrite (proj1 (Hoth iv' Hin')).
    + rewrite !(recs_all_perm _ _ _ HpL), !recs_all_cons.
      rewrite Hg', Hg. cbn [merged hs_recs]. rewrite Hr.
      rewrite (recs_all_ext L' h r.1.2).
      2:{ intros iv' Hin'. destruct (Hoth iv' Hin') as [-> ?]. done. }
      unfold array_get. rewrite Earr, lookup_insert_eq, Harr. simpl.
      rewrite <- !app_assoc. f_equiv. rewrite app_assoc. apply Permutation_app_comm.
  - assert (get_str r.1.2 (iv_data iv) =
            mk_hs (Some snps) (fresh_count snps) 1 start end_ (Some a)) as Hg'.
    { unfold get_str. by rewrite Estr, lookup_insert_eq. }
    assert (∀ iv', iv' ∈ tree_intervals (it_root it) →
              get_str r.1.2 (iv_data iv') = get_str h (iv_data iv') ∧
              array_get r.1.2 (hs_recs (get_str h (iv_data iv'))) =
              array_get h (hs_recs (get_str h (iv_data iv')))) as Hoth.
    { intros iv' Hin'.
      destruct (str_ok_get _ _ (Hstr iv' Hin'))
        as (hs' & _ & a' & Hhs' & Hg & _ & _ & _ & _ & _ & _ & _ & Hr & Hs).
      split.
      - unfold get_str. rewrite Estr, lookup_insert_ne; [done|]. intros E.
        by rewrite E, Hhs' in Hnone.
      - rewrite Hg, Hr. unfold array_get. rewrite Earr, lookup_insert_ne; [done|].
        intros ->. rewrite Hanone in Hs. by destruct Hs. }
    split.
    + rewrite (nseq_sum_perm _ _ _ Hperm), nseq_sum_cons, Hg'. cbn [hs_nseq].
      rewrite (nseq_sum_ext _ h r.1.2); [lia|]. intros iv' Hin'.
      by rewrite (proj1 (Hoth iv' Hin')).
    + rewrite (recs_all_perm _ _ _ Hperm), recs_all_cons, Hg'. cbn [hs_recs].
      rewrite (recs_all_ext _ h r.1.2).
      2:{ intros iv' Hin'. destruct (Hoth iv' Hin') as [-> ?]. done. }
      unfold array_get. rewrite Earr, lookup_insert_eq. simpl.
      apply Permutation_app_comm.
Qed.

(** ** A run of calls *)

Lemma add_strs_cons `{!rb_colour} st snps start end_ rec1 rec2 l st' :
  add_strs st ((snps, start, end_, rec1, rec2) :: l) = inr st' →
  ∃ r, haplotype_str_add st.1 st.2 snps start end_ rec1 rec2 = inr r ∧
       add_strs r.1 l = inr st'.
Proof.
  cbn [add_strs add_fragment].
  destruct (haplotype_str_add st.1 st.2 snps start end_ rec1 rec2) as [e|r]; [done|].
  intros E. by exists r.
Qed.

Lemma add_strs_app `{!rb_colour} l1 : ∀ st l2 st',
  add_strs st (l1 ++ l2) = inr st' ↔
  ∃ st1, add_strs st l1 = inr st1 ∧ add_strs st1 l2 = inr st'.
Proof.
  induction l1 as [|x l1 IH]; intros st l2 st'; simpl.
  - split; [intros E; by exists st|by intros (? & [= <-] & ?)].
  - destruct (add_fragment st x) as [e|st1]; [|apply IH].
    split; [done|by intros (? & ? & ?)].
Qed.

Lemma add_strs_spec `{!rb_colour} l : ∀ it h st,
  index_ok it h → Forall frag_ok l → add_strs (it, h) l = inr st →
  index_ok st.1 st.2 ∧
  nseq_sum (tree_intervals (it_root st.1)) st.2 =
    nseq_sum (tree_intervals (it_root it)) h + Z.of_nat (length l) ∧
  recs_all (tree_intervals (it_root st.1)) st.2 ≡ₚ
    recs_all (tree_intervals (it_root it)) h ++ concat (map frag_recs l).
Proof.
  induction l as [|x l IH]; intros it h st Hok Hl E.
  - simpl in E. injection E as <-. simpl. split_and!; [done|lia|by rewrite app_nil_r].
  - apply Forall_cons in Hl as [Hx Hl]. destruct x as [[[[snps start] end_] rec1] rec2].
    destruct Hx as (Hcs & Hce & Hle & Hlen).
    apply add_strs_cons in E as (r & Hr & E). cbn [fst snd] in Hr.
    pose proof (haplotype_str_add_ok it h snps start end_ rec1 rec2 r Hok Hcs Hce Hle Hlen Hr)
      as Hok'.
    destruct (haplotype_str_add_conserves it h snps start end_ rec1 rec2 r Hok Hcs Hce Hle
                Hlen Hr) as [Hn Hr'].
    destruct r as [[it' h'] rc].
    cbn [fst snd] in *. destruct (IH it' h' st Hok' Hl E) as (Hok2 & Hn2 & Hr2).
    split_and!; [done| |].
    + rewrite Hn2, Hn. cbn [length]. lia.
    + rewrite Hr2, Hr'. cbn [map concat frag_recs]. by rewrite <- !app_assoc.
Qed.

(** Fragments of printable characters: every call returns. *)
Lemma add_strs_returns `{!rb_colour} l : ∀ st,
  Forall frag_ok l → Forall frag_printable l → ∃ st', add_strs st l = inr st'.
Proof.
  induction l as [|x l IH]; intros st Hl Hp; [by eexists|].
  apply Forall_cons in Hl as [Hx Hl]. apply Forall_cons in Hp as [Hpx Hp].
  destruct x as [[[[snps start] end_] rec1] rec2]. destruct Hx as (_ & _ & _ & Hlen).
  cbn [add_strs add_fragment].
  destruct (haplotype_str_add_returns st.1 st.2 snps start end_ rec1 rec2 Hlen Hpx)
    as [r ->].
  by apply IH.
Qed.

(** * Clustering: what a block keeps *)

Lemma cl_measure_same h0 L h h' iv :
  tomb h0 h iv ∨ live h0 L h iv → same_at h0 h h' iv →
  get_str h' (iv_data iv) = get_str h (iv_data iv) ∧
  array_get h' (hs_recs (get_str h' (iv_data iv))) =
    array_get h (hs_recs (get_str h (iv_data iv))).
Proof.
  intros Hst [H1 H2].
  assert (get_str h' (iv_data iv) = get_str h (iv_data iv)) as Hg.
  { unfold get_str. by rewrite H1. }
  split; [done|]. rewrite Hg.
  destruct Hst as [[(hs & Hhs & _ & _ & _ & _ & Hr) _]
                  |(hs & b & a & r & Hhs & _ & _ & _ & _ & _ & Hra & Hr & _)].
  - unfold get_str. rewrite Hhs. simpl. by rewrite Hr.
  - unfold get_str. rewrite Hhs. simpl. rewrite Hr. unfold array_get.
    by rewrite (H2 a Hra).
Qed.

Lemma evolves_refl h0 L S h : cl_inv h0 L h → evolves h0 L S h h.
Proof. intros Hc. split_and!; done. Qed.

Lemma evolves_trans h0 L S1 S2 S h1 h2 h3 :
  (∀ x, x ∈ S1 → x ∈ S) → (∀ x, x ∈ S2 → x ∈ S) →
  evolves h0 L S1 h1 h2 → evolves h0 L S2 h2 h3 → evolves h0 L S h1 h3.
Proof.
  intros HS1 HS2 (_ & Hs1 & Hn1 & Hr1 & Hd1 & Ha1) (Hc & Hs2 & Hn2 & Hr2 & Hd2 & Ha2).
  split_and!; [done| |congruence|by etrans| |].
  - intros iv Hin Hout. eapply same_at_trans; [apply Hs1|apply Hs2]; try done.
    + intros ?. apply Hout. by apply HS1.
    + intros ?. apply Hout. by apply HS2.
  - intros p. by rewrite Hd2.
  - intros a Ha. by apply Ha1, Ha2.
Qed.

Lemma evolves_mono h0 L S S' h h' :
  (∀ x, x ∈ S → x ∈ S') → evolves h0 L S h h' → evolves h0 L S' h h'.
Proof.
  intros HS (Hc & Hs & Hrest). split_and!; try done; try apply Hrest.
  intros iv Hin Hout. apply Hs; [done|]. intros ?. by apply Hout, HS.
Qed.

Lemma index_fresh_NoDup L h0 : index_fresh L h0 → NoDup L.
Proof. intros (_ & Hnd & _). by apply (NoDup_fmap_1 iv_data). Qed.

(** One merge as a step. *)
Lemma cluster_merge_evolves L h0 h iv iv2 :
  index_fresh L h0 → cl_inv h0 L h → iv ∈ L → iv2 ∈ L → iv ≠ iv2 →
  live h0 L h iv → pristine h0 h iv2 →
  Z.max (hs_start (get_str h (iv_data iv))) (hs_start (get_str h (iv_data iv2)))
    <= Z.min (hs_end (get_str h (iv_data iv))) (hs_end (get_str h (iv_data iv2))) →
  cluster_mismatch
    (Z.to_nat (Z.min (hs_end (get_str h (iv_data iv))) (hs_end (get_str h (iv_data iv2)))
               - Z.max (hs_start (get_str h (iv_data iv)))
                       (hs_start (get_str h (iv_data iv2))) + 1))
    (get_str h (iv_data iv)) (get_str h (iv_data iv2))
    (Z.max (hs_start (get_str h (iv_data iv))) (hs_start (get_str h (iv_data iv2))))
    = false →
  evolves h0 L [iv; iv2] h (cluster_merge h (iv_data iv) (iv_data iv2)) ∧
  live h0 L (cluster_merge h (iv_data iv) (iv_data iv2)) iv ∧
  tomb h0 (cluster_merge h (iv_data iv) (iv_data iv2)) iv2 ∧
  hs_start (get_str (cluster_merge h (iv_data iv) (iv_data iv2)) (iv_data iv))
    <= hs_start (get_str h (iv_data iv)) ∧
  hs_end (get_str h (iv_data iv))
    <= hs_end (get_str (cluster_merge h (iv_data iv) (iv_data iv2)) (iv_data iv)).
Proof.
  intros Hf Hc Hin Hin2 Hne Hl Hp2 Hov Hmis.
  assert (iv_data iv ≠ iv_data iv2) as Hned.
  { intros E. apply Hne. by apply (index_fresh_data_inj L h0). }
  destruct (cluster_merge_step L h0 h iv iv2 Hf Hin Hin2 Hned Hl Hp2 Hov Hmis)
    as (Hl' & Ht' & Hfault & Hsame & Hs & He).
  set (h' := cluster_merge h (iv_data iv) (iv_data iv2)) in *.
  split_and!; try done.
  assert (∀ x, x ∈ L → x ≠ iv → x ≠ iv2 → same_at h0 h h' x) as Hsame'.
  { intros x Hx H1 H2. apply Hsame; [done|..]; intros E; [apply H1|apply H2];
      by apply (index_fresh_data_inj L h0). }
  (* the two strings, before *)
  destruct Hl as (hs & b & a & r & Hhs & Hb & _ & _ & _ & _ & Hra & Hr & Harr & _).
  destruct (pristine_str L h0 h iv2 Hf Hin2 Hp2)
    as (hs2 & b2 & a2 & r2 & Hhs2 & Hg2 & _ & _ & _ & _ & _ & _ & _ & Hra2 & Hr2 & Harr2 & _).
  assert (get_str h (iv_data iv) = hs) as Hg by (unfold get_str; by rewrite Hhs).
  assert (a ≠ a2) as Ha.
  { intros ->. apply Hne. apply (index_fresh_recs_inj L h0); [done..|congruence]. }
  pose proof (cluster_merge_heap h _ _ hs hs2 a a2 r r2 Hned Ha Hhs Hhs2 Hr Hr2 Harr Harr2)
    as Eh. fold h' in Eh.
  assert (get_str h' (iv_data iv) =
          mk_hs (Some (merge_snps hs hs2)) (hs_count hs) (hs_nseq hs + hs_nseq hs2)
                (Z.min (hs_start hs) (hs_start hs2)) (Z.max (hs_end hs) (hs_end hs2))
                (Some a)) as Hg'.
  { unfold get_str. rewrite Eh. cbn [hp_str].
    by rewrite lookup_insert_ne, lookup_insert_eq. }
  assert (get_str h' (iv_data iv2) =
          mk_hs None (hs_count hs2) 0 (hs_start hs2) (hs_start hs2 - 1) None) as Hg2'.
  { unfold get_str. rewrite Eh. cbn [hp_str]. by rewrite lookup_insert_eq. }
  destruct Hc as [Hfl Hst].
  pose proof (index_fresh_NoDup L h0 Hf) as HndL.
  destruct (NoDup_pick L iv HndL Hin) as (L1 & HpL1 & Hn1).
  assert (NoDup L1) as HndL1.
  { rewrite HpL1 in HndL. by apply NoDup_cons in HndL as [_ ?]. }
  assert (iv2 ∈ L1) as Hin21.
  { rewrite HpL1 in Hin2. apply elem_of_cons in Hin2 as [->|]; done. }
  destruct (NoDup_pick L1 iv2 HndL1 Hin21) as (L2 & HpL2 & Hn2).
  assert (L ≡ₚ iv :: iv2 :: L2) as HpL by (by rewrite HpL1, HpL2).
  assert (∀ x, x ∈ L2 →
            get_str h' (iv_data x) = get_str h (iv_data x) ∧
            array_get h' (hs_recs (get_str h' (iv_data x))) =
              array_get h (hs_recs (get_str h (iv_data x)))) as Hoth.
  { intros x Hx.
    assert (x ∈ L) as HxL by (rewrite HpL; by do 2 right).
    assert (x ≠ iv2) as Hx2 by (by intros ->).
    assert (x ≠ iv) as Hx1.
    { intros ->. apply Hn1. rewrite HpL2. by right. }
    apply (cl_measure_same h0 L); [by apply Hst|by apply Hsame']. }
  split_and!.
  - split; [congruence|]. intros x Hx.
    destruct (decide (x = iv)) as [->|H1]; [by right|].
    destruct (decide (x = iv2)) as [->|H2]; [by left|].
    destruct (Hst x Hx) as [Ht|Hlv]; [left|right].
    + apply (tomb_same h0 h); [by apply Hsame'|done].
    + apply (live_same h0 L h); [by apply Hsame'|done].
  - intros x Hx Hout. apply Hsame'; [done|..]; intros ->; apply Hout; set_solver.
  - rewrite !(nseq_sum_perm _ _ _ HpL), !nseq_sum_cons, Hg', Hg2', Hg, Hg2.
    cbn [hs_nseq]. rewrite (nseq_sum_ext L2 h h'); [lia|].
    intros x Hx. by rewrite (proj1 (Hoth x Hx)).
  - rewrite !(recs_all_perm _ _ _ HpL), !recs_all_cons, Hg', Hg2', Hg, Hg2.
    cbn [hs_recs]. rewrite (recs_all_ext L2 h h') by (intros x Hx; apply (Hoth x Hx)).
    rewrite Hr, Hr2. unfold array_get. rewrite Eh. cbn [hp_arr].
    rewrite lookup_delete_ne, lookup_insert_eq, Harr, Harr2 by done. simpl.
    by rewrite <- app_assoc.
  - intros p. rewrite Eh. cbn [hp_str].
    destruct (decide (p = iv_data iv2)) as [->|Hp2']; [rewrite lookup_insert_eq, Hhs2; naive_solver|].
    rewrite lookup_insert_ne by done.
    destruct (decide (p = iv_data iv)) as [->|Hp1]; [rewrite lookup_insert_eq, Hhs; naive_solver|].
    by rewrite lookup_insert_ne.
  - intros a'. rewrite Eh. cbn [hp_arr].
    destruct (decide (a' = a2)) as [->|Ha2]; [rewrite lookup_delete_eq; by intros [? ?]|].
    rewrite lookup_delete_ne by done.
    destruct (decide (a' = a)) as [->|Ha1]; [by rewrite Harr|].
    by rewrite lookup_insert_ne.
Qed.

(** ** One pass over the nodes behind an anchor *)

Lemma cluster_sweep_spec L h0 rest : ∀ h iv ivstart ivend,
  index_fresh L h0 → cl_inv h0 L h → iv ∈ L → live h0 L h iv →
  (∀ x, x ∈ rest → x ∈ L) → iv ∉ rest → NoDup rest → Forall (pristine h0 h) rest →
  hs_start (get_str h (iv_data iv)) <= ivstart →
  ivend <= hs_end (get_str h (iv_data iv)) →
  evolves h0 L (iv :: rest) h (cluster_sweep h (iv_data iv) ivstart ivend rest).1.1 ∧
  live h0 L (cluster_sweep h (iv_data iv) ivstart ivend rest).1.1 iv ∧
  Forall (pristine h0 (cluster_sweep h (iv_data iv) ivstart ivend rest).1.1)
         (cluster_sweep h (iv_data iv) ivstart ivend rest).1.2 ∧
  (∀ x, x ∈ rest → x ∉ (cluster_sweep h (iv_data iv) ivstart ivend rest).1.2 →
     tomb h0 (cluster_sweep h (iv_data iv) ivstart ivend rest).1.1 x) ∧
  hs_start (get_str (cluster_sweep h (iv_data iv) ivstart ivend rest).1.1 (iv_data iv))
    <= hs_start (get_str h (iv_data iv)) ∧
  hs_end (get_str h (iv_data iv))
    <= hs_end (get_str (cluster_sweep h (iv_data iv) ivstart ivend rest).1.1 (iv_data iv)).
Proof.
  induction rest as [|iv2 next IH]; intros h iv ivstart ivend Hf Hc Hin Hl HL Hout Hnd Hp Hs He.
  { simpl. split_and!; try done; try lia; by apply evolves_refl. }
  apply NoDup_cons in Hnd as [Hn2 Hnd]. apply Forall_cons in Hp as [Hp2 Hp].
  assert (iv2 ∈ L) as Hin2 by (apply HL; by left).
  assert (iv ≠ iv2) as Hne by (intros ->; apply Hout; by left).
  assert (iv ∉ next) as Hout' by (intros ?; apply Hout; by right).
  assert (∀ x, x ∈ next → x ∈ L) as HL' by (intros x Hx; apply HL; by right).
  (* a node that is passed over *)
  assert (let r := cluster_sweep h (iv_data iv) ivstart ivend next in
          evolves h0 L (iv :: iv2 :: next) h r.1.1 ∧ live h0 L r.1.1 iv ∧
          Forall (pristine h0 r.1.1) (iv2 :: r.1.2) ∧
          (∀ x, x ∈ iv2 :: next → x ∉ iv2 :: r.1.2 → tomb h0 r.1.1 x) ∧
          hs_start (get_str r.1.1 (iv_data iv)) <= hs_start (get_str h (iv_data iv)) ∧
          hs_end (get_str h (iv_data iv)) <= hs_end (get_str r.1.1 (iv_data iv))) as Hskip.
  { intros r.
    destruct (IH h iv ivstart ivend Hf Hc Hin Hl HL' Hout' Hnd Hp Hs He)
      as (Hev & Hl' & Hp' & Ht' & Hs' & He'). fold r in Hev, Hl', Hp', Ht', Hs', He'.
    split_and!; try done.
    - eapply evolves_mono; [|exact Hev]. set_solver.
    - constructor; [|done]. destruct Hev as (_ & Hsame & _).
      eapply same_at_trans; [exact Hp2|]. apply Hsame; [done|]. set_solver.
    - intros x Hx Hx'. apply Ht'; set_solver. }
  cbn [cluster_sweep].
  destruct ((ivend <? iv_start iv2) || (iv_end iv2 <? ivstart)) eqn:Hrange.
  { destruct (cluster_sweep h (iv_data iv) ivstart ivend next) as [[h' l] rc]. exact Hskip. }
  match goal with |- context [if ?c then _ else _] => destruct c eqn:Hmis end.
  { destruct (cluster_sweep h (iv_data iv) ivstart ivend next) as [[h' l] rc]. exact Hskip. }
  clear Hskip.
  (* a node that is taken in *)
  apply orb_false_iff in Hrange as [Hr1 Hr2]. apply Z.ltb_ge in Hr1, Hr2.
  destruct (pristine_str L h0 h iv2 Hf Hin2 Hp2)
    as (hs2 & _ & _ & _ & _ & Hg2 & _ & Hs2 & He2 & Hle2 & _).
  pose proof Hl as (hs & _ & _ & _ & Hhs & _ & Hsl & Hel & _).
  assert (get_str h (iv_data iv) = hs) as Hg by (unfold get_str; by rewrite Hhs).
  assert (iv_start iv <= iv_end iv) as Hle.
  { destruct Hf as (Hstr & _). rewrite Forall_forall in Hstr.
    destruct (str_ok_get _ _ (Hstr iv Hin)) as (? & ? & ? & _ & _ & _ & _ & ? & _). done. }
  destruct (cluster_merge_evolves L h0 h iv iv2 Hf Hc Hin Hin2 Hne Hl Hp2)
    as (Hev1 & Hl1 & Ht1 & Hs1 & He1); [rewrite Hg2, Hg in *; lia|done|].
  set (h1 := cluster_merge h (iv_data iv) (iv_data iv2)) in *.
  assert (Forall (pristine h0 h1) next) as Hp1.
  { rewrite Forall_forall in Hp. apply Forall_forall. intros x Hx.
    eapply same_at_trans; [by apply Hp|]. destruct Hev1 as (_ & Hsame & _).
    apply Hsame; [by apply HL'|]. intros [->|[->|?%elem_of_nil]%elem_of_cons]%elem_of_cons;
      done. }
  destruct (IH h1 iv ivstart ivend Hf (proj1 Hev1) Hin Hl1 HL' Hout' Hnd Hp1)
    as (Hev & Hl' & Hp' & Ht' & Hs' & He'); [lia..|].
  destruct (cluster_sweep h1 (iv_data iv) ivstart ivend next) as [[h' l] rc].
  cbn [fst snd] in *. split_and!; try done; try lia.
  - eapply evolves_trans; [| |exact Hev1|exact Hev]; set_solver.
  - intros x [->|Hx]%elem_of_cons Hx'.
    + apply (tomb_same h0 h1); [|done]. destruct Hev as (_ & Hsame & _).
      apply Hsame; [done|]. set_solver.
    + by apply Ht'.
Qed.

Lemma sublist_elem {A} (l k : list A) x : l `sublist_of` k → x ∈ l → x ∈ k.
Proof. intros Hs Hx. eapply elem_of_submseteq; [exact Hx|]. by apply sublist_submseteq. Qed.

(** ** The [again:] loop of one anchor *)

Lemma cluster_recruit_spec L h0 fuel : ∀ h iv ivstart ivend rest,
  index_fresh L h0 → cl_inv h0 L h → iv ∈ L → live h0 L h iv →
  (∀ x, x ∈ rest → x ∈ L) → iv ∉ rest → NoDup rest → Forall (pristine h0 h) rest →
  hs_start (get_str h (iv_data iv)) <= ivstart →
  ivend <= hs_end (get_str h (iv_data iv)) →
  evolves h0 L (iv :: rest) h (cluster_recruit fuel h (iv_data iv) ivstart ivend rest).1.1 ∧
  live h0 L (cluster_recruit fuel h (iv_data iv) ivstart ivend rest).1.1 iv ∧
  Forall (pristine h0 (cluster_recruit fuel h (iv_data iv) ivstart ivend rest).1.1)
         (cluster_recruit fuel h (iv_data iv) ivstart ivend rest).1.2 ∧
  (∀ x, x ∈ rest → x ∉ (cluster_recruit fuel h (iv_data iv) ivstart ivend rest).1.2 →
     tomb h0 (cluster_recruit fuel h (iv_data iv) ivstart ivend rest).1.1 x).
Proof.
  induction fuel as [|fuel IH]; intros h iv ivstart ivend rest Hf Hc Hin Hl HL Hout Hnd Hp Hs He.
  { simpl. split_and!; try done; by apply evolves_refl. }
  cbn [cluster_recruit].
  destruct (cluster_sweep_spec L h0 rest h iv ivstart ivend Hf Hc Hin Hl HL Hout Hnd Hp Hs He)
    as (Hev & Hl' & Hp' & Ht' & _).
  pose proof (proj1 (cluster_sweep_shape rest h (iv_data iv) ivstart ivend)) as Hsub.
  destruct (cluster_sweep h (iv_data iv) ivstart ivend rest) as [[h' rest'] rc].
  cbn [fst snd] in *. destruct rc; [|by split_and!].
  assert (∀ x, x ∈ rest' → x ∈ rest) as Hsub' by (intros x; by apply sublist_elem).
  destruct (IH h' iv (hs_start (get_str h' (iv_data iv))) (hs_end (get_str h' (iv_data iv)))
              rest' Hf (proj1 Hev) Hin Hl')
    as (Hev2 & Hl2 & Hp2 & Ht2); [by intros x ?%Hsub'%HL|by intros ?%Hsub'|
                                  by eapply sublist_NoDup|done|lia|lia|].
  split_and!; try done.
  - eapply evolves_trans; [| |exact Hev|exact Hev2]; set_solver.
  - intros x Hx Hx'.
    destruct (decide (x ∈ rest')) as [Hr|Hr]; [by apply Ht2|].
    apply (tomb_same h0 h'); [|by apply Ht']. destruct Hev2 as (_ & Hsame & _).
    apply Hsame; [by apply HL|]. set_solver.
Qed.

(** ** The anchors of a block, one after the other *)

Lemma cluster_anchors_spec L h0 fuel : ∀ h l,
  index_fresh L h0 → cl_inv h0 L h →
  (∀ x, x ∈ l → x ∈ L) → NoDup l → Forall (pristine h0 h) l →
  evolves h0 L l h (cluster_anchors fuel h l).1 ∧
  Forall (live h0 L (cluster_anchors fuel h l).1) (cluster_anchors fuel h l).2 ∧
  (∀ x, x ∈ l → x ∉ (cluster_anchors fuel h l).2 → tomb h0 (cluster_anchors fuel h l).1 x).
Proof.
  induction fuel as [|fuel IH]; intros h l Hf Hc HL Hnd Hp.
  { simpl. split_and!; try done; try (by apply evolves_refl).
    rewrite Forall_forall in Hp. apply Forall_forall. intros x Hx.
    apply (pristine_live L); [done|by apply HL|by apply Hp]. }
  destruct l as [|iv rest].
  { simpl. split_and!; try done; by apply evolves_refl. }
  cbn [cluster_anchors].
  apply NoDup_cons in Hnd as [Hout Hnd]. apply Forall_cons in Hp as [Hpi Hp].
  assert (iv ∈ L) as Hin by (apply HL; by left).
  assert (∀ x, x ∈ rest → x ∈ L) as HL' by (intros x Hx; apply HL; by right).
  pose proof (pristine_live L h0 h iv Hf Hin Hpi) as Hl.
  destruct (pristine_str L h0 h iv Hf Hin Hpi) as (hs & _ & _ & _ & _ & Hg & _ & Hs & He & _).
  destruct (cluster_recruit_spec L h0 (S (length rest)) h iv (iv_start iv) (iv_end iv) rest
              Hf Hc Hin Hl HL' Hout Hnd Hp) as (Hev & Hl' & Hp' & Ht'); [rewrite Hg; lia..|].
  pose proof (proj1 (cluster_recruit_shape (S (length rest)) h (iv_data iv) (iv_start iv)
                       (iv_end iv) rest)) as Hsub.
  destruct (cluster_recruit (S (length rest)) h (iv_data iv) (iv_start iv) (iv_end iv) rest)
    as [[h' rest'] fin]. cbn [fst snd] in *.
  assert (∀ x, x ∈ rest' → x ∈ rest) as Hsub' by (intros x; by apply sublist_elem).
  destruct (IH h' rest' Hf (proj1 Hev)) as (Hev2 & Hl2 & Ht2);
    [by intros x ?%Hsub'%HL'|by eapply sublist_NoDup|done|].
  pose proof (proj1 (cluster_anchors_shape fuel h' rest')) as Hsub2.
  destruct (cluster_anchors fuel h' rest') as [h'' l']. cbn [fst snd] in *.
  assert (∀ x, x ∈ l' → x ∈ rest') as Hsub2' by (intros x; by apply sublist_elem).
  split_and!.
  - eapply evolves_trans; [| |exact Hev|exact Hev2]; set_solver.
  - constructor; [|done]. apply (live_same h0 L h'); [|done].
    destruct Hev2 as (_ & Hsame & _). apply Hsame; [done|]. by intros ?%Hsub'.
  - intros x [->|Hx]%elem_of_cons Hx'; [exfalso; apply Hx'; by left|].
    assert (x ∉ l') as Hx'' by (intros ?; apply Hx'; by right).
    destruct (decide (x ∈ rest')) as [Hr|Hr]; [by apply Ht2|].
    apply (tomb_same h0 h'); [|by apply Ht']. destruct Hev2 as (_ & Hsame & _).
    apply Hsame; [by apply HL'|done].
Qed.

(** ** A block, and the blocks of the tree *)

Section blocks.
Context `{!block_sort}.

Lemma cluster_subregion_spec L h0 h block :
  index_fresh L h0 → cl_inv h0 L h →
  (∀ x, x ∈ block → x ∈ L) → NoDup block → Forall (pristine h0 h) block →
  evolves h0 L block h (haplotype_str_cluster_subregion h block).1 ∧
  (∀ x, x ∈ (haplotype_str_cluster_subregion h block).2 → x ∈ block) ∧
  Forall (live h0 L (haplotype_str_cluster_subregion h block).1)
         (haplotype_str_cluster_subregion h block).2 ∧
  (∀ x, x ∈ block → x ∉ (haplotype_str_cluster_subregion h block).2 →
     tomb h0 (haplotype_str_cluster_subregion h block).1 x).
Proof.
  intros Hf Hc HL Hnd Hp. unfold haplotype_str_cluster_subregion.
  destruct block as [|b0 block']; [simpl; split_and!; try done; by apply evolves_refl|].
  set (block := b0 :: block') in *.
  pose proof (qsort_ivp_perm h block) as Hperm.
  destruct (cluster_anchors_spec L h0 (length (qsort_ivp h block)) h (qsort_ivp h block)
              Hf Hc) as (Hev & Hl & Ht).
  - intros x Hx. apply HL. by rewrite <- Hperm.
  - by rewrite Hperm.
  - by rewrite Hperm.
  - pose proof (proj1 (cluster_anchors_shape (length (qsort_ivp h block)) h
                          (qsort_ivp h block))) as Hsub.
    split_and!; try done.
    + eapply evolves_mono; [|exact Hev]. intros x Hx. by rewrite <- Hperm.
    + intros x Hx. rewrite <- Hperm. by eapply sublist_elem.
    + intros x Hx. apply Ht. by rewrite Hperm.
Qed.

Lemma cluster_blocks_spec L h0 ivs : ∀ h longest done block,
  index_fresh L h0 → cl_inv h0 L h →
  (∀ x, x ∈ block ++ ivs → x ∈ L) → NoDup (block ++ ivs) →
  Forall (pristine h0 h) (block ++ ivs) →
  evolves h0 L (block ++ ivs) h (cluster_blocks h longest done block ivs).1.
Proof.
  induction ivs as [|iv ivs IH]; intros h longest done block Hf Hc HL Hnd Hp.
  - cbn [cluster_blocks]. rewrite app_nil_r in *.
    destruct block as [|b0 block']; [by apply evolves_refl|].
    destruct (cluster_subregion_spec L h0 h (b0 :: block') Hf Hc HL Hnd Hp) as (Hev & _).
    by destruct (haplotype_str_cluster_subregion h (b0 :: block')) as [h' b].
  - cbn [cluster_blocks].
    assert (evolves h0 L (block ++ iv :: ivs) h
              (cluster_blocks h (iv_end iv) done (block ++ [iv]) ivs).1 ∧
            evolves h0 L (block ++ iv :: ivs) h
              (cluster_blocks h (Z.max longest (iv_end iv)) done (block ++ [iv]) ivs).1)
      as [Hgrow1 Hgrow2].
    { split; (eapply evolves_mono; [|apply IH]; try done;
              rewrite <- ?app_assoc; try done). }
    destruct (longest =? INT_MIN); [done|].
    destruct (longest <? iv_start iv); [|done].
    apply NoDup_app in Hnd as (Hndb & Hdis & Hndi). apply Forall_app in Hp as [Hpb Hpi].
    destruct (cluster_subregion_spec L h0 h block Hf Hc) as (Hev & _);
      [intros x Hx; apply HL; set_solver|done..|].
    destruct (haplotype_str_cluster_subregion h block) as [h' b]. cbn [fst] in Hev.
    eapply evolves_trans; [| |exact Hev|apply (IH h' (iv_end iv) (done ++ b) [iv])];
      try done.
    + set_solver.
    + intros x Hx. simpl in Hx. set_solver.
    + by apply Hev.
    + intros x Hx. apply HL. set_solver.
    + rewrite Forall_forall in Hpi. apply Forall_forall. intros x Hx.
      eapply same_at_trans; [by apply Hpi|]. destruct Hev as (_ & Hsame & _).
      apply Hsame; [apply HL; set_solver|]. intros Hb. by apply (Hdis x Hb).
Qed.

End blocks.

(** * From the index to the record lists *)

(** ** The adds leave nothing behind *)

Lemma haplotype_str_add_tight `{!rb_colour} it h snps start end_ rec1 rec2 r :
  index_ok it h → index_tight (tree_intervals (it_root it)) h →
  coord_range start → coord_range end_ → start <= end_ →
  Z.of_nat (length snps) = end_ - start + 1 →
  haplotype_str_add it h snps start end_ rec1 rec2 = inr r →
  index_tight (tree_intervals (it_root r.1.1)) r.1.2.
Proof.
  intros Hok [Htp Hta] Hcs Hce Hle Hlen Hadd.
  destruct (haplotype_str_add_cases it h snps start end_ rec1 rec2 r Hok Hcs Hce Hle Hlen Hadd)
    as (_ & _ & _ & Hcase). clear Hadd.
  pose proof Hok as (Hwf & (Hstr & Hnd & Hndr & _) & _).
  rewrite Forall_forall in Hstr.
  destruct Hcase as [(iv & hs & a & recs & Hin & Hhs & _ & Hr & Harr & Eit & Estr & Earr)
                    |(_ & iv & a & _ & _ & Hperm & Hnone & Hanone & Estr & Earr)].
  - rewrite Eit. split.
    + intros p. rewrite Estr. intros Hp. destruct (decide (p = iv_data iv)) as [->|Hne].
      * by exists iv.
      * rewrite lookup_insert_ne in Hp by done. by apply Htp.
    + intros a'. rewrite Earr. intros Ha.
      assert (is_Some (hp_arr h !! a')) as Ha'.
      { destruct (decide (a' = a)) as [->|Hne]; [by rewrite Harr|].
        by rewrite lookup_insert_ne in Ha. }
      destruct (Hta a' Ha') as (iv' & Hin' & Hr'). exists iv'. split; [done|].
      unfold get_str. rewrite Estr. destruct (decide (iv_data iv' = iv_data iv)) as [E|Hne].
      * rewrite E, lookup_insert_eq. simpl. unfold get_str in Hr'.
        by rewrite E, Hhs in Hr'.
      * by rewrite lookup_insert_ne.
  - split.
    + intros p. rewrite Estr. intros Hp. destruct (decide (p = iv_data iv)) as [->|Hne].
      * exists iv. split; [|done]. rewrite Hperm. by left.
      * rewrite lookup_insert_ne in Hp by done. destruct (Htp p Hp) as (iv' & Hin' & E).
        exists iv'. split; [|done]. rewrite Hperm. by right.
    + intros a'. rewrite Earr. intros Ha. destruct (decide (a' = a)) as [->|Hne].
      * exists iv. split; [rewrite Hperm; by left|].
        unfold get_str. by rewrite Estr, lookup_insert_eq.
      * rewrite lookup_insert_ne in Ha by done. destruct (Hta a' Ha) as (iv' & Hin' & Hr').
        exists iv'. split; [rewrite Hperm; by right|].
        unfold get_str. rewrite Estr, lookup_insert_ne; [done|].
        intros E. destruct (str_ok_get _ _ (Hstr iv' Hin')) as (? & ? & ? & Hs' & _).
        by rewrite E, Hs' in Hnone.
Qed.

Lemma add_strs_tight `{!rb_colour} l : ∀ it h st,
  index_ok it h → index_tight (tree_intervals (it_root it)) h → Forall frag_ok l →
  add_strs (it, h) l = inr st →
  index_tight (tree_intervals (it_root st.1)) st.2.
Proof.
  induction l as [|x l IH]; intros it h st Hok Ht Hl E.
  { simpl in E. by injection E as <-. }
  apply Forall_cons in Hl as [Hx Hl]. destruct x as [[[[snps start] end_] rec1] rec2].
  destruct Hx as (Hcs & Hce & Hle & Hlen).
  apply add_strs_cons in E as (r & Hr & E). cbn [fst snd] in Hr.
  pose proof (haplotype_str_add_ok it h snps start end_ rec1 rec2 r Hok Hcs Hce Hle Hlen Hr)
    as Hok'.
  pose proof (haplotype_str_add_tight it h snps start end_ rec1 rec2 r Hok Ht Hcs Hce Hle Hlen
                Hr) as Ht'.
  destruct r as [[it' h'] rc]. by apply (IH it' h').
Qed.

Lemma three_st_run :
  @add_strs rb_rotate_up (interval_tree_create, empty_heap) three_fragments = inr three_st.
Proof. by vm_compute. Qed.

Lemma three_fragments_ok : Forall frag_ok three_fragments.
Proof. repeat constructor; simpl; unfold coord_range; lia. Qed.

Lemma five_st_run :
  @add_strs rb_insert_fix (interval_tree_create, empty_heap) five_fragments = inr five_st.
Proof. by vm_compute. Qed.

Lemma five_fragments_ok : Forall frag_ok five_fragments.
Proof. repeat constructor; simpl; unfold coord_range; lia. Qed.

Lemma index_tight_empty : index_tight (tree_intervals (it_root interval_tree_create)) empty_heap.
Proof. split; intros ? [? H]; simpl in H; by apply lookup_empty_Some in H. Qed.

(** ** The index after clustering *)

Lemma haplotype_str_cluster_spec `{!block_sort} it h0 :
  index_ok it h0 →
  evolves h0 (tree_intervals (it_root it)) (tree_intervals (it_root it)) h0
          (haplotype_str_cluster it h0).
Proof.
  intros (Hwf & Hf & _). unfold haplotype_str_cluster.
  rewrite (wf_tree_full_range it Hwf).
  set (L := tree_intervals (it_root it)) in *.
  assert (Forall (pristine h0 h0) L) as Hp.
  { apply Forall_forall. intros x _. apply same_at_refl. }
  apply (cluster_blocks_spec L h0 L h0 INT_MIN [] [] Hf); simpl; try done.
  - split; [done|]. intros iv Hin. right. apply (pristine_live L); [done..|apply same_at_refl].
  - by apply (index_fresh_NoDup L h0).
Qed.

Lemma cluster_index_done `{!block_sort} it h0 :
  index_ok it h0 → index_tight (tree_intervals (it_root it)) h0 →
  index_done it (haplotype_str_cluster it h0).
Proof.
  intros Hok [Htp Hta]. pose proof (haplotype_str_cluster_spec it h0 Hok) as Hev.
  destruct Hok as (Hwf & Hf & _). pose proof Hf as (_ & Hnd & _ & Hfl).
  set (L := tree_intervals (it_root it)) in *. set (h := haplotype_str_cluster it h0) in *.
  destruct Hev as ((Hfl' & Hst) & _ & _ & _ & Hdp & Hda).
  assert (∀ iv a, iv ∈ L → hs_recs (get_str h (iv_data iv)) = Some a →
            recs_of h0 iv = Some a) as Hrecs.
  { intros iv a Hin. destruct (Hst iv Hin)
      as [[(hs & Hhs & _ & _ & _ & _ & Hr) _]
         |(hs & _ & a' & _ & Hhs & _ & _ & _ & _ & _ & Hra & Hr & _)];
      unfold get_str; rewrite Hhs; simpl; congruence. }
  split_and!; try done; [congruence|split|..].
  - intros p Hp. apply Htp. by apply Hdp.
  - intros a Ha. destruct (Hta a (Hda a Ha)) as (iv & Hin & Hr). exists iv. split; [done|].
    destruct (Hst iv Hin) as [[_ Hgone]|(hs & _ & a' & _ & Hhs & _ & _ & _ & _ & _ & Hra & Hr' & _)].
    + rewrite (Hgone a Hr) in Ha. by destruct Ha.
    + unfold get_str. rewrite Hhs. simpl. unfold recs_of in Hra. congruence.
  - intros iv Hin. destruct (Hst iv Hin)
      as [[(hs & Hhs & _ & Hn & _ & _ & Hr) _]
         |(hs & _ & a & r & Hhs & _ & _ & _ & _ & Hn & _ & Hr & Harr & _)];
      exists hs; rewrite Hr; split; try done; by rewrite Harr.
  - intros iv1 iv2 a H1 H2 Hr1 Hr2. apply (index_fresh_recs_inj L h0); [done..|].
    rewrite (Hrecs iv1 a), (Hrecs iv2 a); done.
Qed.

(** ** haplotype_str_filter *)

Lemma filter_stage_spec h min_count ivs :
  filter_stage h min_count ivs = rev (List.filter (drops h min_count) ivs).
Proof.
  unfold filter_stage.
  assert (∀ acc, fold_left (λ iv_list iv,
                    match hp_str h !! iv_data iv with
                    | Some hs => if hs_nseq hs <? min_count then iv :: iv_list else iv_list
                    | None => iv_list
                    end) ivs acc = rev (List.filter (drops h min_count) ivs) ++ acc) as Hgen.
  { induction ivs as [|iv ivs IH]; intros acc; [done|]. cbn [fold_left List.filter].
    rewrite IH. unfold drops at 2. destruct (hp_str h !! iv_data iv) as [hs|]; [|done].
    destruct (hs_nseq hs <? min_count); [|done]. simpl. by rewrite <- app_assoc. }
  by rewrite Hgen, app_nil_r.
Qed.

Lemma filter_split {A} (p : A → bool) (l : list A) :
  l ≡ₚ List.filter p l ++ List.filter (λ x, negb (p x)) l.
Proof.
  induction l as [|x l IH]; [done|]. simpl. destruct (p x); simpl.
  - by f_equiv.
  - rewrite <- Permutation_middle. by f_equiv.
Qed.

Lemma haplotype_str_free_spec h p hs :
  hp_str h !! p = Some hs →
  match hs_recs hs with Some a => is_Some (hp_arr h !! a) | None => True end →
  haplotype_str_free p h =
    mk_heap (delete p (hp_str h))
            (match hs_recs hs with Some a => delete a (hp_arr h) | None => hp_arr h end)
            (hp_fault h).
Proof.
  intros Hhs Hr. unfold haplotype_str_free. rewrite Hhs.
  destruct (hs_recs hs) as [a|]; [|done]. destruct Hr as [r Hr].
  unfold ArrayDestroy. by rewrite Hr.
Qed.

(** One interval taken out of the tree and its string freed. *)
Lemma index_done_del `{!rb_colour} it h iv :
  index_done it h → iv ∈ tree_intervals (it_root it) →
  index_done (interval_tree_del it iv).1 (haplotype_str_free (iv_data iv) h) ∧
  tree_intervals (it_root it) ≡ₚ iv :: tree_intervals (it_root (interval_tree_del it iv).1) ∧
  ∀ iv', iv' ∈ tree_intervals (it_root (interval_tree_del it iv).1) →
    hp_str (haplotype_str_free (iv_data iv) h) !! iv_data iv' = hp_str h !! iv_data iv' ∧
    ∀ a, hs_recs (get_str h (iv_data iv')) = Some a →
         hp_arr (haplotype_str_free (iv_data iv) h) !! a = hp_arr h !! a.
Proof.
  intros (Hwf & Hnd & Hfl & [Htp Hta] & Hst & Hinj) Hin.
  destruct (interval_tree_del_spec it iv Hwf Hin) as (Hwf' & _ & Hperm & _).
  set (it' := (interval_tree_del it iv).1) in *.
  set (L := tree_intervals (it_root it)) in *. set (L' := tree_intervals (it_root it')) in *.
  destruct (Hst iv Hin) as (hs & Hhs & Hrec).
  rewrite (haplotype_str_free_spec h (iv_data iv) hs Hhs)
    by (destruct (hs_recs hs); [apply Hrec|done]).
  assert (NoDup (map iv_data (iv :: L'))) as Hnd' by (by rewrite <- Hperm).
  cbn [map] in Hnd'. apply NoDup_cons in Hnd' as [Hout Hnd'].
  assert (∀ iv', iv' ∈ L' → iv' ∈ L ∧ iv_data iv' ≠ iv_data iv ∧ iv' ≠ iv) as Hsub.
  { intros iv' Hin'. split; [rewrite Hperm; by right|].
    assert (iv_data iv' ≠ iv_data iv) as Hd.
    { intros E. apply Hout. rewrite <- E. by apply list_elem_of_fmap_2. }
    split; [done|]. by intros ->. }
  assert (get_str h (iv_data iv) = hs) as Hg by (unfold get_str; by rewrite Hhs).
  assert (∀ iv' a, iv' ∈ L' → hs_recs (get_str h (iv_data iv')) = Some a →
            hs_recs hs ≠ Some a) as Hother.
  { intros iv' a Hin' Hr' Hr. destruct (Hsub iv' Hin') as (HinL & _ & Hne).
    apply Hne. apply (Hinj iv' iv a); [done..|by rewrite Hg]. }
  assert (∀ iv', iv' ∈ L' →
            hp_str (mk_heap (delete (iv_data iv) (hp_str h))
                      (match hs_recs hs with
                       | Some a => delete a (hp_arr h) | None => hp_arr h end)
                      (hp_fault h)) !! iv_data iv' = hp_str h !! iv_data iv' ∧
            ∀ a, hs_recs (get_str h (iv_data iv')) = Some a →
              hp_arr (mk_heap (delete (iv_data iv) (hp_str h))
                        (match hs_recs hs with
                         | Some a => delete a (hp_arr h) | None => hp_arr h end)
                        (hp_fault h)) !! a = hp_arr h !! a) as Hkeep.
  { intros iv' Hin'. destruct (Hsub iv' Hin') as (HinL & Hd & Hne). cbn [hp_str hp_arr].
    split; [by rewrite lookup_delete_ne|]. intros a Hr'.
    pose proof (Hother iv' a Hin' Hr') as Hoa.
    destruct (hs_recs hs) as [a0|]; [|done]. rewrite lookup_delete_ne; [done|congruence]. }
  split_and!; [|done|exact Hkeep].
  unfold index_done, index_tight. fold it' L'. split_and!; try done.
  - (* strings *)
    intros p. cbn [hp_str]. intros Hp.
    destruct (decide (p = iv_data iv)) as [->|Hne]; [rewrite lookup_delete_eq in Hp; by destruct Hp|].
    rewrite lookup_delete_ne in Hp by done. destruct (Htp p Hp) as (iv' & Hin' & E).
    exists iv'. split; [|done]. rewrite Hperm in Hin'.
    apply elem_of_cons in Hin' as [->|]; done.
  - (* arrays *)
    intros a. cbn [hp_arr]. intros Ha.
    assert (is_Some (hp_arr h !! a) ∧ hs_recs hs ≠ Some a) as [Ha' Hna].
    { destruct (hs_recs hs) as [a0|]; [|done].
      destruct (decide (a = a0)) as [->|Hne]; [rewrite lookup_delete_eq in Ha; by destruct Ha|].
      rewrite lookup_delete_ne in Ha by done. split; [done|congruence]. }
    destruct (Hta a Ha') as (iv' & Hin' & Hr'). exists iv'.
    rewrite Hperm in Hin'.
    apply elem_of_cons in Hin' as [->|Hin']; [by rewrite Hg in Hr'|].
    split; [done|]. unfold get_str. rewrite (proj1 (Hkeep iv' Hin')). exact Hr'.
  - intros iv' Hin'. destruct (Hsub iv' Hin') as (HinL & Hd & Hne).
    destruct (Hst iv' HinL) as (hs' & Hhs' & Hrec'). exists hs'.
    rewrite (proj1 (Hkeep iv' Hin')). split; [done|].
    destruct (hs_recs hs') as [a|] eqn:Hr'; [|done]. split; [apply Hrec'|].
    rewrite (proj2 (Hkeep iv' Hin') a); [apply Hrec'|]. unfold get_str. by rewrite Hhs'.
  - intros iv1 iv2 a H1 H2 Hr1 Hr2.
    destruct (Hsub iv1 H1) as (H1L & _). destruct (Hsub iv2 H2) as (H2L & _).
    apply (Hinj iv1 iv2 a); [done..| |].
    + unfold get_str in *. by rewrite (proj1 (Hkeep iv1 H1)) in Hr1.
    + unfold get_str in *. by rewrite (proj1 (Hkeep iv2 H2)) in Hr2.
Qed.

Lemma filter_loop `{!rb_colour} staged : ∀ it h,
  index_done it h → NoDup staged → (∀ x, x ∈ staged → x ∈ tree_intervals (it_root it)) →
  let r := fold_left (λ '(it, h) iv,
                        ((interval_tree_del it iv).1, haplotype_str_free (iv_data iv) h))
                     staged (it, h) in
  index_done r.1 r.2 ∧
  tree_intervals (it_root it) ≡ₚ staged ++ tree_intervals (it_root r.1) ∧
  ∀ iv, iv ∈ tree_intervals (it_root r.1) →
    hp_str r.2 !! iv_data iv = hp_str h !! iv_data iv ∧
    ∀ a, hs_recs (get_str h (iv_data iv)) = Some a → hp_arr r.2 !! a = hp_arr h !! a.
Proof.
  induction staged as [|iv staged IH]; intros it h Hd Hnd Hsub; [done|].
  apply NoDup_cons in Hnd as [Hout Hnd]. cbn [fold_left].
  destruct (index_done_del it h iv Hd) as (Hd' & Hperm & Hkeep); [apply Hsub; by left|].
  set (it' := (interval_tree_del it iv).1) in *.
  set (h' := haplotype_str_free (iv_data iv) h) in *.
  assert (∀ x, x ∈ staged → x ∈ tree_intervals (it_root it')) as Hsub'.
  { intros x Hx. assert (x ∈ tree_intervals (it_root it)) as HxL by (apply Hsub; by right).
    rewrite Hperm in HxL. apply elem_of_cons in HxL as [->|]; done. }
  destruct (IH it' h' Hd' Hnd Hsub') as (Hd2 & Hperm2 & Hkeep2).
  split_and!; [done|by rewrite Hperm, Hperm2|].
  intros x Hx.
  assert (x ∈ tree_intervals (it_root it')) as Hx' by (rewrite Hperm2; set_solver).
  destruct (Hkeep x Hx') as [Hs1 Ha1]. destruct (Hkeep2 x Hx) as [Hs2 Ha2].
  split; [congruence|]. intros a Hr. rewrite <- (Ha1 a Hr). apply Ha2.
  unfold get_str in *. by rewrite Hs1.
Qed.

Lemma haplotype_str_filter_spec `{!rb_colour} it h min_count :
  index_done it h →
  index_done (haplotype_str_filter it h min_count).1 (haplotype_str_filter it h min_count).2 ∧
  tree_intervals (it_root (haplotype_str_filter it h min_count).1) ≡ₚ
    List.filter (λ iv, negb (drops h min_count iv)) (tree_intervals (it_root it)) ∧
  ∀ iv, iv ∈ tree_intervals (it_root (haplotype_str_filter it h min_count).1) →
    hp_str (haplotype_str_filter it h min_count).2 !! iv_data iv = hp_str h !! iv_data iv ∧
    ∀ a, hs_recs (get_str h (iv_data iv)) = Some a →
         hp_arr (haplotype_str_filter it h min_count).2 !! a = hp_arr h !! a.
Proof.
  intros Hd. pose proof Hd as (Hwf & Hnd & _). unfold haplotype_str_filter.
  rewrite (wf_tree_full_range it Hwf), filter_stage_spec.
  set (L := tree_intervals (it_root it)) in *.
  assert (NoDup L) as HndL by (by apply (NoDup_fmap_1 iv_data)).
  destruct (filter_loop (rev (List.filter (drops h min_count) L)) it h Hd)
    as (Hd' & Hperm & Hkeep).
  - rewrite <- Permutation_rev. eapply sublist_NoDup; [done|apply filter_sublist].
  - intros x Hx. rewrite <- Permutation_rev in Hx.
    eapply sublist_elem; [apply filter_sublist|done].
  - split_and!; [done| |done]. fold L in Hperm. symmetry.
    apply (Permutation_app_inv_l (List.filter (drops h min_count) L)).
    etrans; [symmetry; apply filter_split|]. etrans; [exact Hperm|].
    apply Permutation_app_tail. symmetry. apply Permutation_rev.
Qed.

(** ** haplotype_str_reclist *)

Lemma reclist_loop L : ∀ h out,
  NoDup (map iv_data L) →
  let r := fold_left (λ '(h, out) iv,
              match hp_str h !! iv_data iv with
              | Some hs =>
                  if hs_nseq hs =? 0 then (h, out)
                  else (set_str h (iv_data iv)
                          (mk_hs (hs_snps hs) (hs_count hs) (hs_nseq hs) (hs_start hs)
                                 (hs_end hs) None),
                        out ++ [hs_recs hs])
              | None => (h, out)
              end) L (h, out) in
  r.2 = out ++ map (λ iv, hs_recs (get_str h (iv_data iv))) (List.filter (emits h) L) ∧
  hp_arr r.1 = hp_arr h ∧ hp_fault r.1 = hp_fault h ∧
  (∀ p, is_Some (hp_str r.1 !! p) ↔ is_Some (hp_str h !! p)) ∧
  (∀ iv, iv ∈ L → emits h iv = true → hs_recs (get_str r.1 (iv_data iv)) = None) ∧
  (∀ p, (∀ iv, iv ∈ L → emits h iv = true → iv_data iv ≠ p) →
        hp_str r.1 !! p = hp_str h !! p).
Proof.
  induction L as [|iv L IH]; intros h out Hnd; cbv zeta.
  { simpl. split_and!; try done; [by rewrite app_nil_r|by intros ? ?%elem_of_nil]. }
  cbn [map] in Hnd. apply NoDup_cons in Hnd as [Hout Hnd].
  cbn [fold_left List.filter]. unfold emits at 1 4.
  destruct (hp_str h !! iv_data iv) as [hs|] eqn:Hhs.
  2:{ destruct (IH h out Hnd) as (Ho & Ha & Hf & Hd & He & Hk).
      split_and!; try done.
      - intros x [->|Hx]%elem_of_cons Hem; [|by apply He].
        unfold emits in Hem. by rewrite Hhs in Hem.
      - intros p Hp. apply Hk. intros x Hx. apply Hp. by right. }
  destruct (hs_nseq hs =? 0) eqn:Hn; cbn [negb].
  { destruct (IH h out Hnd) as (Ho & Ha & Hf & Hd & He & Hk).
    split_and!; try done.
    - intros x [->|Hx]%elem_of_cons Hem; [|by apply He].
      unfold emits in Hem. by rewrite Hhs, Hn in Hem.
    - intros p Hp. apply Hk. intros x Hx. apply Hp. by right. }
  set (h1 := set_str h (iv_data iv) _).
  assert (∀ x, x ∈ L → hp_str h1 !! iv_data x = hp_str h !! iv_data x) as Hsame.
  { intros x Hx. unfold h1, set_str. cbn [hp_str]. rewrite lookup_insert_ne; [done|].
    intros E. apply Hout. rewrite E. by apply list_elem_of_fmap_2. }
  assert (List.filter (emits h1) L = List.filter (emits h) L) as Hfil.
  { apply filter_ext_in. intros x Hx%list_elem_of_In. unfold emits. by rewrite Hsame. }
  assert (map (λ iv, hs_recs (get_str h1 (iv_data iv))) (List.filter (emits h) L) =
          map (λ iv, hs_recs (get_str h (iv_data iv))) (List.filter (emits h) L)) as Hmap.
  { apply map_ext_in. intros x Hx. apply filter_In in Hx as [Hx%list_elem_of_In _].
    unfold get_str. by rewrite Hsame. }
  destruct (IH h1 (out ++ [hs_recs hs]) Hnd) as (Ho & Ha & Hf & Hd & He & Hk).
  split_and!.
  - rewrite Ho, Hfil, Hmap. cbn [map]. rewrite <- app_assoc. simpl.
    unfold get_str at 2. by rewrite Hhs.
  - by rewrite Ha.
  - by rewrite Hf.
  - intros p. rewrite Hd. unfold h1, set_str. cbn [hp_str].
    destruct (decide (p = iv_data iv)) as [->|Hne].
    + rewrite lookup_insert_eq, Hhs. split; by eexists.
    + by rewrite lookup_insert_ne.
  - intros x [->|Hx]%elem_of_cons Hem.
    + unfold get_str. rewrite Hk.
      * unfold h1, set_str. cbn [hp_str]. by rewrite lookup_insert_eq.
      * intros y Hy _ E. apply Hout. rewrite <- E. by apply list_elem_of_fmap_2.
    + apply He; [done|]. unfold emits. rewrite Hsame; done.
  - intros p Hp. rewrite Hk.
    + unfold h1, set_str. cbn [hp_str]. rewrite lookup_insert_ne; [done|].
      apply Hp; [by left|]. unfold emits. by rewrite Hhs, Hn.
    + intros x Hx Hem. apply Hp; [by right|]. unfold emits in *. by rewrite <- Hsame.
Qed.

(** ** interval_tree_destroy with haplotype_str_free *)

Lemma destroy_loop L : ∀ h,
  NoDup (map iv_data L) →
  (∀ iv, iv ∈ L → ∃ hs, hp_str h !! iv_data iv = Some hs ∧ hs_recs hs = None) →
  let h' := fold_left (λ h i, haplotype_str_free (iv_data i) h) L h in
  hp_arr h' = hp_arr h ∧ hp_fault h' = hp_fault h ∧
  ∀ p, hp_str h' !! p = if decide (p ∈ map iv_data L) then None else hp_str h !! p.
Proof.
  induction L as [|iv L IH]; intros h Hnd Hst; cbv zeta.
  { simpl. split_and!; done. }
  cbn [map] in Hnd. apply NoDup_cons in Hnd as [Hout Hnd]. cbn [fold_left].
  destruct (Hst iv ltac:(by left)) as (hs & Hhs & Hr).
  pose proof (haplotype_str_free_spec h (iv_data iv) hs Hhs) as Hfree.
  rewrite Hr in Hfree. specialize (Hfree I).
  rewrite Hfree. set (h1 := mk_heap _ _ _).
  destruct (IH h1 Hnd) as (Ha & Hf & Hp).
  { intros x Hx. destruct (Hst x ltac:(by right)) as (hs' & Hhs' & Hr').
    exists hs'. split; [|done]. unfold h1. cbn [hp_str]. rewrite lookup_delete_ne; [done|].
    intros E. apply Hout. rewrite E. by apply list_elem_of_fmap_2. }
  split_and!; [by rewrite Ha|by rewrite Hf|].
  intros p. rewrite Hp. unfold h1. cbn [hp_str map].
  destruct (decide (p = iv_data iv)) as [->|Hne].
  - rewrite lookup_delete_eq. rewrite (decide_True (P := iv_data iv ∈ _ :: _)) by (by left).
    by destruct (decide _).
  - rewrite lookup_delete_ne by done.
    destruct (decide (p ∈ map iv_data L)) as [Hin|Hin].
    + by rewrite decide_True by (by right).
    + rewrite decide_False; [done|]. by intros [?|?]%elem_of_cons.
Qed.

(** ** The three calls on a clustered index *)

Lemma NoDup_map_inj_on {A B} (f : A → B) (l : list A) :
  NoDup l → (∀ x y, x ∈ l → y ∈ l → f x = f y → x = y) → NoDup (map f l).
Proof.
  induction 1 as [|x l Hx Hnd IH]; intros Hinj; [constructor|].
  simpl. constructor.
  - intros (y & E & Hy)%list_elem_of_fmap. apply Hx.
    rewrite (Hinj x y); [done|by left|by right|done].
  - apply IH. intros y z Hy Hz. apply Hinj; by right.
Qed.

Lemma concat_filter_nil {A B} (f : A → list B) (p : A → bool) (l : list A) :
  (∀ x, x ∈ l → p x = false → f x = []) →
  concat (map f (List.filter p l)) = concat (map f l).
Proof.
  induction l as [|x l IH]; intros Hnil; [done|]. simpl.
  rewrite <- IH by (intros y Hy; apply Hnil; by right).
  destruct (p x) eqn:E; [done|]. by rewrite (Hnil x) by (done || by left).
Qed.

Lemma index_done_emits it h iv :
  index_done it h → iv ∈ tree_intervals (it_root it) →
  (emits h iv = true ∧ ∃ a, hs_recs (get_str h (iv_data iv)) = Some a ∧
                            is_Some (hp_arr h !! a) ∧ 0 < hs_nseq (get_str h (iv_data iv))) ∨
  (emits h iv = false ∧ hs_recs (get_str h (iv_data iv)) = None ∧
   hs_nseq (get_str h (iv_data iv)) = 0).
Proof.
  intros (_ & _ & _ & _ & Hst & _) Hin. destruct (Hst iv Hin) as (hs & Hhs & Hrec).
  unfold emits, get_str. rewrite Hhs. simpl. destruct (hs_recs hs) as [a|].
  - left. destruct Hrec as [Hn Ha]. split; [|by exists a].
    apply negb_true_iff, Z.eqb_neq. lia.
  - right. by rewrite Hrec.
Qed.

Lemma haplotype_str_reclist_done it h rec_list :
  index_done it h →
  let L := tree_intervals (it_root it) in
  let r := haplotype_str_reclist it h rec_list in
  let out := map (λ iv, hs_recs (get_str h (iv_data iv))) (List.filter (emits h) L) in
  r.2 = rec_list ++ out ∧ hp_arr r.1 = hp_arr h ∧ hp_fault r.1 = false ∧
  (∀ iv, iv ∈ L → ∃ hs', hp_str r.1 !! iv_data iv = Some hs' ∧ hs_recs hs' = None) ∧
  (∀ p, is_Some (hp_str r.1 !! p) ↔ is_Some (hp_str h !! p)) ∧
  NoDup out ∧ (None ∉ out) ∧ (∀ a, Some a ∈ out ↔ is_Some (hp_arr h !! a)) ∧
  concat (map (array_get h) out) = recs_all L h.
Proof.
  intros Hd L r out. pose proof Hd as (Hwf & Hnd & Hfl & [Htp Hta] & Hst & Hinj).
  fold L in Hnd, Htp, Hta, Hst, Hinj.
  unfold r, haplotype_str_reclist. rewrite (wf_tree_full_range it Hwf). fold L.
  destruct (reclist_loop L h rec_list Hnd) as (Ho & Ha & Hf & Hdom & He & Hk).
  assert (NoDup L) as HndL by (by apply (NoDup_fmap_1 iv_data)).
  split_and!; try done; [congruence| | | | |].
  - intros iv Hin. destruct (Hst iv Hin) as (hs & Hhs & Hrec).
    destruct (index_done_emits it h iv Hd Hin) as [[Hem _]|(Hem & Hr & _)].
    + specialize (He iv Hin Hem). destruct (proj2 (Hdom (iv_data iv))) as [hs' Hhs'];
        [by rewrite Hhs|]. exists hs'. split; [done|].
      unfold get_str in He. by rewrite Hhs' in He.
    + exists hs. split.
      * rewrite Hk; [done|]. intros x Hx Hemx E.
        assert (x = iv) as -> by (by apply (NoDup_map_inj iv_data L)). congruence.
      * unfold get_str in Hr. by rewrite Hhs in Hr.
  - apply NoDup_map_inj_on.
    + eapply sublist_NoDup; [done|apply filter_sublist].
    + intros x y Hx%list_elem_of_In%filter_In Hy%list_elem_of_In%filter_In E.
      destruct Hx as [Hx Hex]. destruct Hy as [Hy Hey].
      apply list_elem_of_In in Hx, Hy.
      destruct (index_done_emits it h x Hd Hx) as [(_ & a & Hr & _)|[? _]]; [|congruence].
      apply (Hinj x y a); [done..|congruence].
  - intros (x & E & Hx%list_elem_of_In%filter_In)%list_elem_of_fmap.
    destruct Hx as [Hx%list_elem_of_In Hex].
    destruct (index_done_emits it h x Hd Hx) as [(_ & a & Hr & _)|[? _]]; congruence.
  - intros a. split.
    + intros (x & E & Hx%list_elem_of_In%filter_In)%list_elem_of_fmap.
      destruct Hx as [Hx%list_elem_of_In Hex].
      destruct (index_done_emits it h x Hd Hx) as [(_ & a' & Hr & Harr & _)|[? _]];
        congruence.
    + intros Harr. destruct (Hta a Harr) as (iv & Hin & Hr).
      apply list_elem_of_fmap. exists iv. split; [done|].
      apply list_elem_of_In, filter_In. split; [by apply list_elem_of_In|].
      destruct (index_done_emits it h iv Hd Hin) as [[? _]|(_ & ? & _)]; congruence.
  - unfold out. rewrite map_map. unfold recs_all.
    apply (concat_filter_nil (λ iv, array_get h (hs_recs (get_str h (iv_data iv))))).
    intros x Hx Hem.
    destruct (index_done_emits it h x Hd Hx) as [[? _]|(_ & -> & _)]; [congruence|done].
Qed.

Lemma interval_tree_destroy_done it h :
  wf_tree it → NoDup (map iv_data (tree_intervals (it_root it))) →
  (∀ p, is_Some (hp_str h !! p) → ∃ iv, iv ∈ tree_intervals (it_root it) ∧ iv_data iv = p) →
  (∀ iv, iv ∈ tree_intervals (it_root it) →
     ∃ hs, hp_str h !! iv_data iv = Some hs ∧ hs_recs hs = None) →
  hp_str (interval_tree_destroy it haplotype_str_free h) = ∅ ∧
  hp_arr (interval_tree_destroy it haplotype_str_free h) = hp_arr h ∧
  hp_fault (interval_tree_destroy it haplotype_str_free h) = hp_fault h.
Proof.
  intros Hwf Hnd Htp Hst. unfold interval_tree_destroy.
  destruct (destroy_loop (tree_intervals (it_root it)) h Hnd Hst) as (Ha & Hf & Hp).
  split_and!; [|done..]. apply map_empty. intros p. rewrite Hp.
  destruct (decide _) as [Hin|Hout]; [done|].
  destruct (hp_str h !! p) eqn:E; [|done]. exfalso. apply Hout.
  destruct (Htp p ltac:(by rewrite E)) as (iv & Hin & <-). by apply list_elem_of_fmap_2.
Qed.

Lemma concat_sublist {A} (l k : list (list A)) :
  l `sublist_of` k → concat l `sublist_of` concat k.
Proof.
  induction 1; simpl; [done|by apply sublist_app|by apply sublist_inserts_l].
Qed.

Lemma array_get_arr h h' o : hp_arr h' = hp_arr h → array_get h' o = array_get h o.
Proof. intros E. unfold array_get. by rewrite E. Qed.

(** Cluster, filter, record lists, destroy: the tail of
    [find_haplotypes_single]. *)
Lemma pipeline_spec `{!rb_colour} `{!block_sort} it h0 min_count :
  index_ok it h0 → index_tight (tree_intervals (it_root it)) h0 →
  let h1 := haplotype_str_cluster it h0 in
  let f := haplotype_str_filter it h1 min_count in
  let r := haplotype_str_reclist f.1 f.2 [] in
  let h4 := interval_tree_destroy f.1 haplotype_str_free r.1 in
  hp_fault h4 = false ∧ hp_str h4 = ∅ ∧ NoDup r.2 ∧ (None ∉ r.2) ∧
  (∀ a, Some a ∈ r.2 ↔ is_Some (hp_arr h4 !! a)) ∧
  concat (map (array_get h4) r.2) ⊆+ recs_all (tree_intervals (it_root it)) h0 ∧
  (min_count <= 1 →
   concat (map (array_get h4) r.2) ≡ₚ recs_all (tree_intervals (it_root it)) h0).
Proof.
  intros Hok Ht h1 f r h4.
  pose proof (cluster_index_done it h0 Hok Ht) as Hd1. fold h1 in Hd1.
  pose proof (haplotype_str_cluster_spec it h0 Hok) as (_ & _ & _ & Hrecs & _).
  fold h1 in Hrecs.
  destruct (haplotype_str_filter_spec it h1 min_count Hd1) as (Hd2 & Hperm & Hkeep).
  fold f in Hd2, Hperm, Hkeep.
  destruct (haplotype_str_reclist_done f.1 f.2 [] Hd2)
    as (Hout & Harr & Hfl & Hnone & Hdom & Hnd & Hno & Hin & Hcat).
  fold r in Hout, Harr, Hfl, Hnone, Hdom. simpl in Hout.
  pose proof Hd2 as (Hwf2 & Hnd2 & _ & [Htp2 _] & _).
  destruct (interval_tree_destroy_done f.1 r.1 Hwf2 Hnd2) as (Hs4 & Ha4 & Hf4);
    [by intros p ?%Hdom%Htp2|done|].
  fold h4 in Hs4, Ha4, Hf4.
  set (L := tree_intervals (it_root it)) in *.
  set (L2 := tree_intervals (it_root f.1)) in *.
  assert (concat (map (array_get h4) r.2) = recs_all L2 f.2) as Hcat4.
  { rewrite Hout, <- Hcat. f_equal. apply map_ext. intros o. apply array_get_arr. congruence. }
  assert (recs_all L2 f.2 = recs_all L2 h1) as Hext.
  { apply recs_all_ext. intros iv Hiv. destruct (Hkeep iv Hiv) as [Hs Ha].
    assert (get_str f.2 (iv_data iv) = get_str h1 (iv_data iv)) as Hg.
    { unfold get_str. by rewrite Hs. }
    rewrite Hg. destruct (hs_recs (get_str h1 (iv_data iv))) as [a|] eqn:Hr; [|done].
    unfold array_get. by rewrite (Ha a). }
  split_and!; try done.
  - congruence.
  - by rewrite Hout.
  - by rewrite Hout.
  - intros a. rewrite Hout, Ha4, Harr. apply Hin.
  - rewrite Hcat4, Hext, (recs_all_perm _ _ _ Hperm), <- Hrecs.
    apply sublist_submseteq, concat_sublist, (fmap_sublist _), filter_sublist.
  - intros Hmin. rewrite Hcat4, Hext, (recs_all_perm _ _ _ Hperm), <- Hrecs.
    unfold recs_all.
    rewrite (concat_filter_nil (λ iv, array_get h1 (hs_recs (get_str h1 (iv_data iv)))));
      [done|].
    intros x Hx Hdrop. apply negb_false_iff in Hdrop.
    destruct (index_done_emits it h1 x Hd1 Hx) as [(_ & a & _ & _ & Hn)|(_ & -> & _)];
      [|done].
    exfalso. unfold drops, get_str in *. destruct (hp_str h1 !! iv_data x); [|done].
    simpl in Hn. apply Z.ltb_lt in Hdrop. lia.
Qed.

(** * find_haplotypes_single: from the reads to the index *)

(** ** The loop and its calls *)

Lemma skip_before_spec left p1 : ∀ snp_no,
  Z.of_nat (length (skip_before left p1 snp_no).1) + (skip_before left p1 snp_no).2 =
    Z.of_nat (length p1) + snp_no ∧
  snp_no <= (skip_before left p1 snp_no).2 ∧
  (∀ pos, head (skip_before left p1 snp_no).1 = Some pos → left <= pos).
Proof.
  induction p1 as [|pos next IH]; intros snp_no; [simpl; split_and!; done || lia|].
  cbn [skip_before]. destruct (Z.ltb_spec pos left).
  - destruct (IH (snp_no + 1)) as (H1 & H2 & H3). split_and!; [|lia|done].
    rewrite H1. cbn [length]. lia.
  - simpl. split_and!; [done|lia|]. intros ? [= <-]. done.
Qed.

Lemma copy_bases_spec io checked s r right p2 : ∀ hstr p2' hstr',
  copy_bases io checked s r right p2 hstr = inr (p2', hstr') →
  (length hstr' + length p2' = length hstr + length p2)%nat ∧
  (length hstr <= length hstr')%nat ∧
  (∀ pos, head p2 = Some pos → pos <= right → (length hstr < length hstr')%nat).
Proof.
  induction p2 as [|pos next IH]; intros hstr p2' hstr' E.
  { simpl in E. injection E as <- <-. split_and!; [done|lia|]. by intros ? [=]. }
  cbn [copy_bases] in E. destruct (Z.leb_spec pos right).
  2:{ injection E as <- <-. split_and!; [done|lia|]. intros ? [= <-] ?. lia. }
  destruct (base_at io s r pos) as [e|b]; [done|].
  destruct (checked && negb (printable b)); [done|].
  destruct (IH _ _ _ E) as (H1 & H2 & _). rewrite length_app in H1, H2. simpl in H1, H2.
  split_and!; [cbn [length]; lia|lia|]. intros; lia.
Qed.

Lemma pad_spec left p2 : ∀ hstr,
  (length (pad left p2 hstr).2 + length (pad left p2 hstr).1 = length hstr + length p2)%nat ∧
  (length hstr <= length (pad left p2 hstr).2)%nat.
Proof.
  induction p2 as [|pos next IH]; intros hstr; [simpl; lia|].
  cbn [pad]. destruct (pos <? left); [|simpl; lia].
  destruct (IH (hstr ++ [dash])) as [H1 H2]. rewrite length_app in H1, H2. simpl in *. lia.
Qed.

(** The loop does what the loop that only lists its calls says, as far as
    the calls return. *)
Lemma read_loop_trace `{!rb_colour} io pairs n :
  ∀ i rng p1 snp_no calls calls' st,
  read_loop trace io pairs n i rng p1 snp_no calls = inr calls' →
  ∃ new, calls' = calls ++ new ∧
         read_loop add_fragment io pairs n i rng p1 snp_no st = add_strs st new.
Proof.
  induction n as [|n IH]; intros i rng p1 snp_no calls calls' st E.
  { simpl in E. injection E as <-. exists []. by rewrite app_nil_r. }
  assert (∀ c' s', @inr fault (list fragment) calls = inr c' →
            ∃ new, c' = calls ++ new ∧
                   @inr fault (interval_tree * hap_heap) s' = add_strs s' new) as Hstop.
  { intros ? ? [= <-]. exists []. by rewrite app_nil_r. }
  assert (∀ x n0 i0 rng0 p0 s0,
            read_loop trace io pairs n0 i0 rng0 p0 s0 (calls ++ [x]) = inr calls' →
            (∀ st', ∃ new, calls' = (calls ++ [x]) ++ new ∧
                      read_loop add_fragment io pairs n0 i0 rng0 p0 s0 st' = add_strs st' new) →
            ∃ new, calls' = calls ++ new ∧
              match add_fragment st x with
              | inl e => inl e
              | inr st' => read_loop add_fragment io pairs n0 i0 rng0 p0 s0 st'
              end = add_strs st new) as Hcall.
  { intros x n0 i0 rng0 p0 s0 _ Hall.
    destruct (add_fragment st x) as [e|st'] eqn:Ex.
    - destruct (Hall st) as (new & -> & _). exists (x :: new).
      split; [by rewrite <- app_assoc|]. cbn [add_strs]. by rewrite Ex.
    - destruct (Hall st') as (new & -> & Hrun). exists (x :: new).
      split; [by rewrite <- app_assoc|]. cbn [add_strs]. by rewrite Ex. }
  cbn [read_loop] in E |- *. destruct (rng !! i) as [r|]; [|by apply Hstop].
  destruct (negb (rg_isseq r)); [by apply IH|].
  destruct (s_right _ <? s_left _); [by apply IH|].
  destruct (skip_before _ p1 snp_no) as [p1' snp_no'].
  destruct p1' as [|pos p1']; [by apply Hstop|].
  destruct (_ <? pos); [by apply IH|].
  destruct (copy_bases io true _ r _ (pos :: p1') []) as [e|[p2 hstr]]; [done|].
  destruct (mate_index pairs (rg_ids r)) as [j|].
  2:{ apply Hcall; [exact E|]. intros st'. by apply IH. }
  destruct (rng !! j) as [rp|]; [|done].
  destruct (negb (rg_isseq rp)); [by apply IH|].
  destruct (s_right _ <? s_left _); [by apply IH|].
  destruct (pad _ p2 hstr) as [p2' hstr'].
  destruct (copy_bases io false _ rp _ p2' hstr') as [e|[p2'' hstr'']]; [done|].
  apply Hcall; [exact E|]. intros st'. by apply IH.
Qed.

Lemma read_loop_calls io pairs nsnps n : ∀ i rng p1 snp_no calls calls',
  Z.of_nat (length p1) + snp_no = nsnps → 0 <= snp_no →
  Forall (in_sites nsnps) calls →
  read_loop trace io pairs n i rng p1 snp_no calls = inr calls' →
  Forall (in_sites nsnps) calls'.
Proof.
  induction n as [|n IH]; intros i rng p1 snp_no calls calls' Hlen Hpos Hc E.
  { simpl in E. by injection E as <-. }
  cbn [read_loop] in E. destruct (rng !! i) as [r|]; [|by injection E as <-].
  destruct (negb (rg_isseq r)); [by eapply IH|].
  destruct (s_right _ <? s_left _); [by eapply IH|].
  match type of E with context [skip_before ?l p1 snp_no] =>
    destruct (skip_before_spec l p1 snp_no) as (Hs1 & Hs2 & _);
    destruct (skip_before l p1 snp_no) as [p1' snp_no'] end.
  cbn [fst snd] in Hs1, Hs2.
  destruct p1' as [|pos p1']; [by injection E as <-|].
  assert (Z.of_nat (length (pos :: p1')) + snp_no' = nsnps) as Hlen' by lia.
  destruct (Z.ltb_spec (Z.min (clip (cache_search_seq io (r_rec (rg_ids r))) r).2 (rg_end r))
              pos) as [Hlt|Hge]; [eapply IH; [exact Hlen'|lia|exact Hc|exact E]|].
  match type of E with context [copy_bases io true ?s r ?right (pos :: p1') []] =>
    pose proof (copy_bases_spec io true s r right (pos :: p1') []) as Hfill;
    destruct (copy_bases io true s r right (pos :: p1') []) as [e|[p2 hstr]] end; [done|].
  destruct (Hfill p2 hstr eq_refl) as (Hf1 & _ & Hf3).
  specialize (Hf3 pos eq_refl Hge). simpl in Hf1, Hf3.
  destruct (mate_index pairs (rg_ids r)) as [j|].
  2:{ eapply IH; [exact Hlen'|lia| |exact E]. unfold trace. apply Forall_app. split; [done|].
      constructor; [|done]. cbn [length] in Hlen'. simpl. lia. }
  destruct (rng !! j) as [rp|]; [|done].
  destruct (negb (rg_isseq rp)); [eapply IH; [exact Hlen'|lia|exact Hc|exact E]|].
  destruct (s_right _ <? s_left _); [eapply IH; [exact Hlen'|lia|exact Hc|exact E]|].
  match type of E with context [pad ?l p2 hstr] =>
    destruct (pad_spec l p2 hstr) as [Hp1 Hp2];
    destruct (pad l p2 hstr) as [p2' hstr'] end.
  cbn [fst snd] in Hp1, Hp2.
  match type of E with context [copy_bases io false ?s rp ?right p2' hstr'] =>
    pose proof (copy_bases_spec io false s rp right p2' hstr') as Hfill2;
    destruct (copy_bases io false s rp right p2' hstr') as [e|[p2'' hstr'']] end; [done|].
  destruct (Hfill2 p2'' hstr'' eq_refl) as (Hg1 & Hg2 & _).
  eapply IH; [exact Hlen'|lia| |exact E]. unfold trace. apply Forall_app. split; [done|].
  constructor; [|done]. cbn [length] in Hlen'. simpl. lia.
Qed.

Lemma in_sites_frag_ok nsnps x : nsnps <= 1073741824 → in_sites nsnps x → frag_ok x.
Proof.
  intros Hn. destruct x as [[[[snps start] end_] rec1] rec2]. simpl.
  intros (? & ? & ? & ?). unfold coord_range. split_and!; lia.
Qed.

(** * The read loop on well-formed reads *)

(** ** Bases *)

Lemma seq_at_ok s i :
  0 <= i < Z.of_nat (length (s_seq s)) →
  ∃ b, seq_at s i = inr b ∧ b ∈ s_seq s.
Proof.
  intros Hi. unfold seq_at.
  destruct (Z.leb_spec 0 i); [|lia]. destruct (Z.ltb_spec i (Z.of_nat (length (s_seq s)))); [|lia].
  simpl. eexists. split; [done|]. apply list_elem_of_In, nth_In. lia.
Qed.

Lemma base_at_ok io s r pos :
  seq_ok s →
  Forall (λ b, printable b = true ∧ printable (complement_base io b) = true) (s_seq s) →
  (rg_start r <= pos <= rg_end r ∧ rg_end r - rg_start r < Z.abs (s_len s)) ∨
  ((clip s r).1 <= pos <= (clip s r).2) →
  ∃ b, base_at io s r pos = inr b ∧ printable b = true.
Proof.
  intros (Hl & Hr & Hlen) Hpr Hpos. rewrite Forall_forall in Hpr.
  unfold base_at, clip in *. destruct (flipped s r); cbn [fst snd] in Hpos.
  - destruct (seq_at_ok s (Z.abs (s_len s) - 1 - (pos - rg_start r))) as (b & -> & Hb); [lia|].
    eexists. split; [done|]. by apply Hpr.
  - destruct (seq_at_ok s (pos - rg_start r)) as (b & -> & Hb); [lia|].
    eexists. split; [done|]. by apply Hpr.
Qed.

(** ** The inner loops *)

Lemma skip_before_suffix left p1 : ∀ snp_no,
  ∃ pre, p1 = pre ++ (skip_before left p1 snp_no).1.
Proof.
  induction p1 as [|pos next IH]; intros snp_no; [by exists []|].
  cbn [skip_before]. destruct (pos <? left).
  - destruct (IH (snp_no + 1)) as [pre E]. exists (pos :: pre). simpl. by rewrite <- E.
  - by exists [].
Qed.

Lemma pad_suffix left p2 : ∀ hstr,
  (∃ pre, p2 = pre ++ (pad left p2 hstr).1) ∧
  ∀ pos, head (pad left p2 hstr).1 = Some pos → left <= pos.
Proof.
  induction p2 as [|pos next IH]; intros hstr; [split; [by exists []|by intros ? [=]]|].
  cbn [pad]. destruct (Z.ltb_spec pos left).
  - destruct (IH (hstr ++ [dash])) as [[pre E] Hh]. split; [|done].
    exists (pos :: pre). simpl. by rewrite <- E.
  - split; [by exists []|]. simpl. by intros ? [= <-].
Qed.

Lemma copy_bases_suffix io checked s r right p2 : ∀ hstr p2' hstr',
  copy_bases io checked s r right p2 hstr = inr (p2', hstr') → ∃ pre, p2 = pre ++ p2'.
Proof.
  induction p2 as [|pos next IH]; intros hstr p2' hstr' E.
  { simpl in E. injection E as <- <-. by exists []. }
  cbn [copy_bases] in E. destruct (pos <=? right); [|injection E as <- <-; by exists []].
  destruct (base_at io s r pos) as [e|b]; [done|].
  destruct (checked && negb (printable b)); [done|].
  destruct (IH _ _ _ E) as [pre ->]. by exists (pos :: pre).
Qed.

Lemma copy_bases_ok io checked s r right p2 : ∀ hstr,
  (∀ pos, pos ∈ p2 → pos <= right → ∃ b, base_at io s r pos = inr b ∧ printable b = true) →
  ∃ p2' hstr', copy_bases io checked s r right p2 hstr = inr (p2', hstr').
Proof.
  induction p2 as [|pos next IH]; intros hstr Hb; [by eexists _, _|].
  cbn [copy_bases]. destruct (Z.leb_spec pos right); [|by eexists _, _].
  destruct (Hb pos ltac:(by left) ltac:(done)) as (b & -> & Hp). rewrite Hp.
  rewrite andb_false_r. apply IH. intros pos' Hin. apply Hb. by right.
Qed.

Lemma sorted_suffix (pre l : list Z) :
  StronglySorted Z.le (pre ++ l) → StronglySorted Z.le l.
Proof. by intros (_ & _ & ?)%StronglySorted_app. Qed.

Lemma sorted_head (l : list Z) x pos :
  StronglySorted Z.le l → head l = Some x → pos ∈ l → x <= pos.
Proof.
  destruct l as [|y l]; [done|]. intros Hs [= ->] [->|Hin]%elem_of_cons; [lia|].
  apply StronglySorted_cons in Hs as [Hall _]. rewrite Forall_forall in Hall. by apply Hall.
Qed.

(** ** The loop *)

Lemma read_loop_total io pairs n : ∀ i rng p1 snp_no calls,
  StronglySorted Z.le p1 →
  Forall (λ r, read_ok io r ∧ mate_ok (length rng) r) rng →
  ∃ calls', read_loop trace io pairs n i rng p1 snp_no calls = inr calls'.
Proof.
  induction n as [|n IH]; intros i rng p1 snp_no calls Hs Hrng; [by eexists|].
  cbn [read_loop]. destruct (rng !! i) as [r|] eqn:Hi; [|by eexists].
  destruct (negb (rg_isseq r)); [by apply IH|].
  destruct (s_right _ <? s_left _); [by apply IH|].
  pose proof Hrng as Hall. rewrite Forall_forall in Hall.
  destruct (Hall r (list_elem_of_lookup_2 _ _ _ Hi)) as ((Hseq & Hspan & Hpr) & Hmate).
  set (s := cache_search_seq io (r_rec (rg_ids r))) in *.
  set (left := Z.max (clip s r).1 (rg_start r)).
  set (right := Z.min (clip s r).2 (rg_end r)).
  destruct (skip_before_spec left p1 snp_no) as (_ & _ & Hhead).
  destruct (skip_before_suffix left p1 snp_no) as [pre Hpre].
  destruct (skip_before left p1 snp_no) as [p1' snp_no']. cbn [fst snd] in Hhead, Hpre.
  assert (StronglySorted Z.le p1') as Hs' by (rewrite Hpre in Hs; by eapply sorted_suffix).
  destruct p1' as [|pos p1t]; [by eexists|].
  destruct (right <? pos); [by apply IH|].
  destruct (copy_bases_ok io true s r right (pos :: p1t) []) as (p2 & hstr & Hfill).
  { intros pos' Hin Hle. apply base_at_ok; [done..|]. left.
    assert (left <= pos') as Hge.
    { etrans; [by apply (Hhead pos)|]. by apply (sorted_head (pos :: p1t)). }
    unfold left, right in *. lia. }
  rewrite Hfill. destruct (copy_bases_suffix _ _ _ _ _ _ _ _ _ Hfill) as [pre2 Hpre2].
  assert (StronglySorted Z.le p2) as Hs2 by (rewrite Hpre2 in Hs'; by eapply sorted_suffix).
  destruct (mate_index pairs (rg_ids r)) as [j|] eqn:Hj; [|by apply IH].
  assert (j < length rng)%nat as Hjlt.
  { unfold mate_index in Hj. destruct (Z.leb_spec 0 (r_pair_rec (rg_ids r))); [done|].
    destruct (negb pairs); [done|]. injection Hj as <-. by apply Hmate. }
  destruct (lookup_lt_is_Some_2 rng j Hjlt) as [rp Hrp]. rewrite Hrp.
  destruct (negb (rg_isseq rp)); [by apply IH|].
  destruct (s_right _ <? s_left _); [by apply IH|].
  destruct (Hall rp (list_elem_of_lookup_2 _ _ _ Hrp)) as ((Hseq' & Hspan' & Hpr') & Hmate').
  set (s' := cache_search_seq io (r_rec (rg_ids rp))) in *.
  destruct (pad_suffix (clip s' rp).1 p2 hstr) as [[pre3 Hpre3] Hhead3].
  destruct (pad (clip s' rp).1 p2 hstr) as [p2' hstr']. cbn [fst snd] in Hpre3, Hhead3.
  assert (StronglySorted Z.le p2') as Hs3 by (rewrite Hpre3 in Hs2; by eapply sorted_suffix).
  destruct (copy_bases_ok io false s' rp (clip s' rp).2 p2' hstr') as (p2'' & hstr'' & Hfill2).
  { intros pos' Hin Hle. apply base_at_ok; [done..|]. right. split; [|done].
    destruct p2' as [|q p2']; [by apply elem_of_nil in Hin|].
    etrans; [by apply (Hhead3 q)|]. by apply (sorted_head (q :: p2')). }
  rewrite Hfill2. apply IH; [done|].
  rewrite length_insert. apply Forall_insert; [done|].
  unfold read_ok, mate_ok, set_iscons. cbn [rg_ids rg_start rg_end]. done.
Qed.

(** ** The calls have printable characters *)

Lemma seq_at_elem s i b : seq_at s i = inr b → b ∈ s_seq s.
Proof.
  unfold seq_at. destruct (Z.leb_spec 0 i); [|done].
  destruct (Z.ltb_spec i (Z.of_nat (length (s_seq s)))); [|done]. simpl.
  intros [= <-]. apply list_elem_of_In, nth_In. lia.
Qed.

Lemma base_at_printable io r pos b :
  bases_ok io r →
  base_at io (cache_search_seq io (r_rec (rg_ids r))) r pos = inr b → printable b = true.
Proof.
  unfold bases_ok, base_at. rewrite Forall_forall. intros Hpr.
  destruct (flipped _ r).
  - destruct (seq_at _ _) as [e|c] eqn:E; [done|]. intros [= <-].
    apply seq_at_elem in E. by apply Hpr.
  - intros E. apply seq_at_elem in E. by apply Hpr.
Qed.

Lemma copy_bases_printable io checked r right p2 : ∀ hstr p2' hstr',
  bases_ok io r → Forall (λ c, printable c = true) hstr →
  copy_bases io checked (cache_search_seq io (r_rec (rg_ids r))) r right p2 hstr =
    inr (p2', hstr') →
  Forall (λ c, printable c = true) hstr'.
Proof.
  induction p2 as [|pos next IH]; intros hstr p2' hstr' Hb Hp E.
  { simpl in E. by injection E as <- <-. }
  cbn [copy_bases] in E. destruct (pos <=? right); [|by injection E as <- <-].
  destruct (base_at io _ r pos) as [e|b] eqn:Eb; [done|].
  destruct (checked && negb (printable b)); [done|].
  eapply IH; [done| |exact E]. apply Forall_app. split; [done|].
  constructor; [|done]. by eapply base_at_printable.
Qed.

Lemma pad_printable left p2 : ∀ hstr,
  Forall (λ c, printable c = true) hstr →
  Forall (λ c, printable c = true) (pad left p2 hstr).2.
Proof.
  induction p2 as [|pos next IH]; intros hstr Hp; [done|].
  cbn [pad]. destruct (pos <? left); [|done].
  apply IH. apply Forall_app. split; [done|]. by constructor.
Qed.

Lemma read_loop_printable io pairs n : ∀ i rng p1 snp_no calls calls',
  Forall (bases_ok io) rng → Forall frag_printable calls →
  read_loop trace io pairs n i rng p1 snp_no calls = inr calls' →
  Forall frag_printable calls'.
Proof.
  induction n as [|n IH]; intros i rng p1 snp_no calls calls' Hrng Hc E.
  { simpl in E. by injection E as <-. }
  cbn [read_loop] in E. destruct (rng !! i) as [r|] eqn:Hi; [|by injection E as <-].
  destruct (negb (rg_isseq r)); [by eapply IH|].
  destruct (s_right _ <? s_left _); [by eapply IH|].
  destruct (skip_before _ p1 snp_no) as [p1' snp_no'].
  destruct p1' as [|pos p1t]; [by injection E as <-|].
  destruct (_ <? pos); [by eapply IH|].
  pose proof Hrng as Hall. rewrite Forall_forall in Hall.
  pose proof (Hall r (list_elem_of_lookup_2 _ _ _ Hi)) as Hb.
  destruct (copy_bases io true _ r _ (pos :: p1t) []) as [e|[p2 hstr]] eqn:Hfill; [done|].
  pose proof (copy_bases_printable io true r _ _ _ _ _ Hb ltac:(constructor) Hfill) as Hh.
  destruct (mate_index pairs (rg_ids r)) as [j|].
  2:{ eapply IH; [done| |exact E]. apply Forall_app. split; [done|]. by constructor. }
  destruct (rng !! j) as [rp|] eqn:Hrp; [|done].
  destruct (negb (rg_isseq rp)); [by eapply IH|].
  destruct (s_right _ <? s_left _); [by eapply IH|].
  pose proof (Hall rp (list_elem_of_lookup_2 _ _ _ Hrp)) as Hb'.
  match type of E with context [pad ?l p2 hstr] =>
    pose proof (pad_printable l p2 hstr Hh) as Hh';
    destruct (pad l p2 hstr) as [p2' hstr'] end.
  cbn [snd] in Hh'.
  destruct (copy_bases io false _ rp _ p2' hstr') as [e|[p2'' hstr'']] eqn:Hfill2; [done|].
  pose proof (copy_bases_printable io false rp _ _ _ _ _ Hb' Hh' Hfill2) as Hh''.
  eapply IH; [| |exact E].
  - apply Forall_insert; [done|]. exact Hb'.
  - apply Forall_app. split; [done|]. by constructor.
Qed.

(** ** The sites and the pairing *)

Lemma filter_sorted (P : Z → bool) (l : list Z) :
  StronglySorted Z.le l → StronglySorted Z.le (List.filter P l).
Proof.
  induction 1 as [|x l Hs IH Hx]; simpl; [constructor|].
  destruct (P x); [|done]. constructor; [done|].
  rewrite Forall_forall in Hx. apply Forall_forall. intros y Hy%list_elem_of_In%filter_In.
  apply Hx, list_elem_of_In, Hy.
Qed.

Lemma haplotype_sites_sorted io start end_ :
  StronglySorted Z.le (haplotype_sites io start end_).
Proof.
  unfold haplotype_sites. apply filter_sorted.
  generalize (Z.to_nat (end_ - start + 1)) 0%nat. intros n.
  induction n as [|n IH]; intros k; simpl; constructor; [apply IH|].
  apply Forall_forall. intros y (j & -> & Hj%elem_of_seq)%list_elem_of_fmap. lia.
Qed.

Lemma haplotype_sites_length io start end_ :
  Z.of_nat (length (haplotype_sites io start end_)) <= Z.max 0 (end_ - start + 1).
Proof.
  unfold haplotype_sites.
  pose proof (filter_sublist (het_site io)
                (map (λ k, start + Z.of_nat k) (seq 0 (Z.to_nat (end_ - start + 1))))) as Hs.
  apply sublist_length in Hs. rewrite length_map, length_seq in Hs. lia.
Qed.

Lemma pair_pass_bound todo : ∀ i h rng0 rng,
  (∀ key idx, h !! key = Some idx → (idx < i)%nat) →
  map r_rec rng = map r_rec rng0 →
  (∀ k r r', rng0 !! k = Some r → rng !! k = Some r' →
     r_pair_rec r' = r_pair_rec r ∨
     ∃ j, (j < length rng0)%nat ∧ r_pair_rec r' = - Z.of_nat j) →
  ∀ k r r', rng0 !! k = Some r → pair_pass i h rng todo !! k = Some r' →
    r_pair_rec r' = r_pair_rec r ∨
    ∃ j, (j < length rng0)%nat ∧ r_pair_rec r' = - Z.of_nat j.
Proof.
  induction todo as [|x todo IH]; intros i h rng0 rng Hh Hrec Hold; [done|].
  cbn [pair_pass]. destruct (rng !! i) as [r|] eqn:Hi; [|done].
  assert (i < length rng0)%nat as Hlt.
  { apply lookup_lt_Some in Hi. apply (f_equal length) in Hrec.
    rewrite !length_map in Hrec. lia. }
  destruct (h !! r_pair_rec r) as [hi|] eqn:Hkey.
  - apply IH.
    + intros key idx [_ Hk]%lookup_delete_Some. specialize (Hh _ _ Hk). lia.
    + by rewrite alter_pair_rec_rec.
    + intros k r0 r' Hk0 Hk. destruct (decide (k = hi)) as [->|Hne].
      * rewrite list_lookup_alter_eq in Hk. destruct (rng !! hi); [|done].
        simpl in Hk. injection Hk as <-. right. exists i. by split.
      * rewrite list_lookup_alter_ne in Hk by done. by eapply Hold.
  - apply IH; [|done..]. intros key idx Hk. destruct (h !! r_rec r).
    + specialize (Hh _ _ Hk). lia.
    + apply lookup_insert_Some in Hk as [[_ <-]|[_ Hk]]; [lia|]. specialize (Hh _ _ Hk). lia.
Qed.

Lemma pair_reads_length rng : length (pair_reads rng) = length rng.
Proof.
  unfold pair_reads. rewrite length_zip_with.
  pose proof (proj1 (pair_pass_frame (map rg_ids rng) 0 ∅ (map rg_ids rng) (map rg_ids rng)
                       ltac:(by intros ?? ?%lookup_empty_Some) eq_refl
                       ltac:(intros; left; congruence))) as E.
  apply (f_equal length) in E. rewrite !length_map in E.
  unfold pair_up. rewrite E. lia.
Qed.

Lemma pair_reads_ok io :
  input_ok io →
  Forall (λ r, read_ok io r ∧ mate_ok (length (pair_reads (contig_seqs_in_range io))) r)
         (pair_reads (contig_seqs_in_range io)).
Proof.
  unfold input_ok. set (rng := contig_seqs_in_range io). intros Hin.
  rewrite pair_reads_length. apply Forall_lookup_2. intros k x Hx.
  unfold pair_reads in Hx. apply lookup_zip_with_Some in Hx as (r & ids & -> & Hr & Hids).
  rewrite Forall_lookup in Hin. destruct (Hin k r Hr) as [Hok Hpr].
  assert (map rg_ids rng !! k = Some (rg_ids r)) as Hk by (by rewrite list_lookup_fmap, Hr).
  destruct (pair_pass_frame (map rg_ids rng) 0 ∅ (map rg_ids rng) (map rg_ids rng)
              ltac:(by intros ?? ?%lookup_empty_Some) eq_refl
              ltac:(intros; left; congruence)) as [Hrec _].
  assert (r_rec ids = r_rec (rg_ids r)) as Erec.
  { apply (f_equal (λ l, l !! k)) in Hrec. fold (pair_up (map rg_ids rng)) in Hrec.
    rewrite !list_lookup_fmap, Hids, Hr in Hrec. simpl in Hrec. congruence. }
  split.
  - unfold read_ok in *. cbn [rg_ids rg_start rg_end]. by rewrite Erec.
  - unfold mate_ok. cbn [rg_ids]. intros Hneg.
    destruct (pair_pass_bound (map rg_ids rng) 0 ∅ (map rg_ids rng) (map rg_ids rng)
                ltac:(by intros ?? ?%lookup_empty_Some) eq_refl
                ltac:(intros; left; congruence) k (rg_ids r) ids Hk Hids)
      as [E|(j & Hj & E)]; [lia|].
    rewrite length_map in Hj. rewrite E. lia.
Qed.

(** ** The loop of [find_haplotypes_single] *)

Lemma read_loop_run io start end_ pairs :
  input_ok io →
  ∃ calls,
    read_loop trace io pairs (length (pair_reads (contig_seqs_in_range io))) 0
      (pair_reads (contig_seqs_in_range io)) (haplotype_sites io start end_) 0 [] =
    inr calls ∧
    Forall (in_sites (Z.of_nat (length (haplotype_sites io start end_)))) calls ∧
    Forall frag_printable calls.
Proof.
  intros Hin.
  destruct (read_loop_total io pairs (length (pair_reads (contig_seqs_in_range io))) 0
              (pair_reads (contig_seqs_in_range io)) (haplotype_sites io start end_) 0 [])
    as [calls E]; [apply haplotype_sites_sorted|by apply pair_reads_ok|].
  exists calls. split; [done|]. split.
  - eapply read_loop_calls; [| | |exact E]; [lia|lia|done].
  - eapply read_loop_printable; [|constructor|exact E].
    eapply Forall_impl; [by apply pair_reads_ok|]. by intros r [(_ & _ & Hb) _].
Qed.

(** ** An input for the examples *)

(** * The list of haplotypic sites *)

(** ** Segments *)

Lemma dseg_frame h h' prev l : ∀ cur last,
  (∀ a, a ∈ map fst l → h' !! a = h !! a) →
  dseg h prev l cur last → dseg h' prev l cur last.
Proof.
  revert prev. induction l as [|[a pos] l IH]; intros prev cur last Hsame; [done|].
  simpl. intros (-> & n & Hn & Hp & Hpr & Hrest). split; [done|]. exists n.
  rewrite Hsame by (simpl; by left). split_and!; try done.
  apply IH; [|done]. intros b Hb. apply Hsame. simpl. by right.
Qed.

Lemma dseg_last h prev l : ∀ cur lst,
  dseg h prev l cur lst → lst = default prev (Some <$> last (map fst l)).
Proof.
  revert prev. induction l as [|[a pos] l IH]; intros prev cur lst; [by intros [_ ->]|].
  simpl. intros (_ & n & _ & _ & _ & Hrest). rewrite (IH _ _ _ Hrest).
  destruct l as [|[b q] l]; [done|].
  change (last (a :: map fst ((b, q) :: l))) with (last (map fst ((b, q) :: l))).
  destruct (last (map fst ((b, q) :: l))) eqn:E; [done|]. by apply last_None in E.
Qed.

Lemma follow_next_dseg h prev l : ∀ cur last fuel,
  dseg h prev l cur last → (length l <= fuel)%nat → follow_next fuel h cur = Some l.
Proof.
  revert prev. induction l as [|[a pos] l IH]; intros prev cur last fuel.
  - intros [-> _] _. by destruct fuel.
  - simpl. intros (-> & n & Hn & <- & _ & Hrest) Hf. destruct fuel as [|fuel]; [lia|].
    simpl. rewrite Hn. erewrite IH; [done|done|lia].
Qed.

Lemma follow_prev_dseg h l : ∀ prev cur last fuel,
  dseg h prev l cur last →
  follow_prev (length l + fuel) h last = (rev l ++.) <$> follow_prev fuel h prev.
Proof.
  induction l as [|[a pos] l IH]; intros prev cur last fuel.
  - intros [_ ->]. simpl. by destruct (follow_prev fuel h prev).
  - intros Hd. cbn [dseg] in Hd. destruct Hd as (-> & n & Hn & <- & <- & Hrest).
    change (length ((a, p_pos n) :: l) + fuel)%nat with (S (length l + fuel)).
    replace (S (length l + fuel)) with (length l + S fuel)%nat by lia.
    rewrite (IH _ _ _ _ Hrest). cbn [follow_prev rev]. rewrite Hn.
    destruct (follow_prev fuel h (p_prev n)) as [r|]; [|done].
    simpl. by rewrite <- app_assoc.
Qed.

(** ** add_haplotype_pos *)

Lemma dseg_snoc h prev l : ∀ cur t p pos n,
  l ≠ [] → dseg h prev l cur (Some t) → NoDup (map fst l) → p ∉ map fst l →
  h !! t = Some n →
  dseg (<[p := mk_pos pos 0 (Some t) None]> (<[t := set_next (Some p) n]> h))
       prev (l ++ [(p, pos)]) cur (Some p).
Proof.
  revert prev. induction l as [|[a x] l IH]; intros prev cur t p pos n Hne Hd Hnd Hp Ht; [done|].
  simpl in Hd. destruct Hd as (-> & na & Ha & Hx & Hpr & Hrest).
  simpl in Hnd. apply NoDup_cons in Hnd as [Hal Hnd].
  assert (a ≠ p) as Hap by (intros ->; apply Hp; simpl; by left).
  assert (p ∉ map fst l) as Hp' by (intros ?; apply Hp; simpl; by right).
  destruct l as [|[b y] l].
  - simpl in Hrest. destruct Hrest as [Hnext [= <-]]. rewrite Ha in Ht. injection Ht as <-.
    simpl. split; [done|]. exists (set_next (Some p) na).
    rewrite lookup_insert_ne, lookup_insert_eq by done. split_and!; try done.
    eexists. split; [apply lookup_insert_eq|done].
  - pose proof (dseg_last _ _ _ _ _ Hrest) as Hl.
    assert (t ∈ map fst ((b, y) :: l)) as Htin.
    { destruct (last (map fst ((b, y) :: l))) as [z|] eqn:E; [|by apply last_None in E].
      simpl in Hl. injection Hl as ->. apply list_elem_of_In.
      change (map fst ((b, y) :: l)) with (b :: map fst l) in *.
      apply last_Some in E as [l' E]. rewrite E. apply in_or_app. right. by left. }
    assert (a ≠ t) as Hat by (by intros ->).
    rewrite <- app_comm_cons. cbn [dseg]. split; [done|]. exists na.
    rewrite !lookup_insert_ne by done.
    split_and!; try done. by apply (IH (Some a) _ t p pos n).
Qed.

Lemma add_haplotype_pos_spec st l pos :
  dll st l →
  dll (add_haplotype_pos st pos).1 (l ++ [(pl_brk st, pos)]) ∧
  pl_brk (add_haplotype_pos st pos).1 = S (pl_brk st) ∧ (add_haplotype_pos st pos).2 = 0.
Proof.
  intros (Hd & Hnd & Hdom & Hbrk & Hf).
  assert (pl_brk st ∉ map fst l) as Hfresh by (intros ?%Hbrk; lia).
  assert (pl_heap st !! pl_brk st = None) as Hnone.
  { destruct (pl_heap st !! pl_brk st) eqn:E; [|done]. exfalso. apply Hfresh, Hdom.
    by rewrite E. }
  unfold add_haplotype_pos. pose proof (dseg_last _ _ _ _ _ Hd) as Hl.
  destruct l as [|x l].
  - destruct Hd as [Hh Ht]. rewrite Ht. cbn [fst snd pl_brk]. split_and!; try done.
    split_and!; simpl; try done.
    + split; [done|]. eexists. split; [apply lookup_insert_eq|done].
    + repeat constructor. by intros ?%elem_of_nil.
    + intros a. destruct (decide (a = pl_brk st)) as [->|Hne].
      * rewrite lookup_insert_eq. split; [intros _; by left|by eexists].
      * rewrite lookup_insert_ne by done. rewrite Hdom. simpl. set_solver.
    + intros a [->|?%elem_of_nil]%elem_of_cons; [simpl; lia|done].
  - assert (∃ t, pl_tail st = Some t ∧ t ∈ map fst (x :: l)) as (t & Ht & Htin).
    { destruct (last (map fst (x :: l))) as [z|] eqn:E; [|by apply last_None in E].
      simpl in Hl. exists z. split; [done|]. apply list_elem_of_In.
      apply last_Some in E as [l' E]. rewrite E. apply in_or_app. right. by left. }
    rewrite Ht. destruct (proj2 (Hdom t) Htin) as [n Hn].
    assert (t ≠ pl_brk st) as Hne by (intros ->; done).
    unfold poke. cbn [fst snd]. rewrite lookup_insert_ne, Hn by done. cbn [fst snd].
    rewrite lookup_alter_ne, lookup_insert_eq by done. cbn [fst snd pl_brk].
    split_and!; try done.
    assert (alter (set_prev (Some t)) (pl_brk st)
              (alter (set_next (Some (pl_brk st))) t
                 (<[pl_brk st := mk_pos pos 0 None None]> (pl_heap st))) =
            <[pl_brk st := mk_pos pos 0 (Some t) None]>
              (<[t := set_next (Some (pl_brk st)) n]> (pl_heap st))) as Eh.
    { apply map_eq. intros a. destruct (decide (a = pl_brk st)) as [->|Ha].
      - rewrite lookup_alter_eq, lookup_alter_ne, !lookup_insert_eq by done. done.
      - rewrite lookup_alter_ne, (lookup_insert_ne _ (pl_brk st)) by done.
        destruct (decide (a = t)) as [->|Hat].
        + rewrite lookup_alter_eq, lookup_insert_ne, lookup_insert_eq, Hn by done. done.
        + by rewrite lookup_alter_ne, !lookup_insert_ne. }
    rewrite Eh. split_and!; cbn [pl_heap pl_head pl_tail pl_brk pl_fault]; try done.
    + rewrite Ht in Hd. by apply dseg_snoc.
    + rewrite map_app. apply NoDup_app. split_and!; [done| |repeat constructor; set_solver].
      intros a Ha [->|?%elem_of_nil]%elem_of_cons; done.
    + intros a. rewrite map_app, elem_of_app. simpl.
      destruct (decide (a = pl_brk st)) as [->|Ha].
      * rewrite lookup_insert_eq. split; [intros _; right; by left|by eexists].
      * rewrite lookup_insert_ne by done. destruct (decide (a = t)) as [->|Hat].
        -- rewrite lookup_insert_eq. split; [intros _; by left|by eexists].
        -- rewrite lookup_insert_ne by done. rewrite Hdom. set_solver.
    + intros a. rewrite map_app, elem_of_app.
      intros [Ha|[->|?%elem_of_nil]%elem_of_cons]; [|simpl; lia|done].
      specialize (Hbrk a Ha). lia.
Qed.

(** ** del_haplotype_pos *)

Lemma unlink_other h p n a :
  a ≠ p → p_prev n ≠ Some a → p_next n ≠ Some a → unlink h p n !! a = h !! a.
Proof.
  intros Hp Hprev Hnext. unfold unlink. rewrite lookup_delete_ne by done.
  destruct (p_next n) as [b|], (p_prev n) as [c|]; simpl;
    rewrite ?lookup_alter_ne by congruence; done.
Qed.

Lemma filter_out_notin (p : nat) (l : list (nat * Z)) :
  p ∉ map fst l → List.filter (λ x, negb (x.1 =? p)%nat) l = l.
Proof.
  intros Hp. apply filter_all. apply Forall_forall. intros x Hx.
  apply negb_true_iff, Nat.eqb_neq. intros E. apply Hp. rewrite <- E.
  by apply list_elem_of_fmap_2.
Qed.

(** Where the links of a node of a segment point. *)
Lemma dseg_links h l : ∀ prev cur lst p n,
  dseg h prev l cur lst → p ∈ map fst l → h !! p = Some n →
  (p_next n = None ∨ ∃ b, p_next n = Some b ∧ b ∈ map fst l) ∧
  (p_prev n = prev ∨ ∃ b, p_prev n = Some b ∧ b ∈ map fst l).
Proof.
  induction l as [|[a x] l IH]; intros prev cur lst p n Hd Hp Hn;
    [by apply elem_of_nil in Hp|].
  cbn [dseg] in Hd. destruct Hd as (-> & na & Ha & Hx & Hpr & Hrest).
  simpl in Hp. apply elem_of_cons in Hp as [->|Hp].
  - rewrite Ha in Hn. injection Hn as <-. split; [|by left].
    destruct l as [|[b y] l]; [left; apply Hrest|right].
    cbn [dseg] in Hrest. destruct Hrest as (E & _). exists b. split; [done|]. simpl. set_solver.
  - destruct (IH _ _ _ p n Hrest Hp Hn) as [Hnx Hpv]. split.
    + destruct Hnx as [?|(b & ? & ?)]; [by left|right]. exists b. split; [done|]. simpl.
      by right.
    + right. destruct Hpv as [E|(b & ? & ?)].
      * exists a. split; [done|]. simpl. by left.
      * exists b. split; [done|]. simpl. by right.
Qed.

Lemma dseg_unlink h p n l : ∀ prev cur lst,
  dseg h prev l cur lst → NoDup (map fst l) →
  (∀ a0, prev = Some a0 → a0 ∉ map fst l) →
  p ∈ map fst l → h !! p = Some n →
  dseg (unlink h p n) prev (List.filter (λ x, negb (x.1 =? p)%nat) l)
       (if decide (cur = Some p) then p_next n else cur)
       (if decide (lst = Some p) then p_prev n else lst).
Proof.
  induction l as [|[a x] l IH]; intros prev cur lst Hd Hnd Hprev Hp Hn;
    [by apply elem_of_nil in Hp|].
  pose proof (dseg_links h _ _ _ _ p n Hd Hp Hn) as [Hnx Hpv].
  cbn [dseg] in Hd. destruct Hd as (-> & na & Ha & Hx & Hpr & Hrest).
  simpl in Hnd. apply NoDup_cons in Hnd as [Hal Hnd].
  cbn [List.filter fst].
  destruct (Nat.eqb_spec a p) as [->|Hap]; cbn [negb].
  - (* the node is the first of the segment *)
    rewrite Ha in Hn. injection Hn as <-.
    rewrite decide_True by done. rewrite filter_out_notin by done.
    pose proof (dseg_last _ _ _ _ _ Hrest) as Hl.
    destruct l as [|[b y] l].
    + destruct Hrest as [Hnone ->]. rewrite decide_True by done. by rewrite Hnone.
    + cbn [dseg] in Hrest. destruct Hrest as (Hnext & nb & Hb & Hy & Hpb & Hrest).
      assert (b ≠ p) as Hbp by (intros ->; apply Hal; simpl; by left).
      assert (lst ≠ Some p) as Hlp.
      { destruct (last (map fst ((b, y) :: l))) as [z|] eqn:E; [|by apply last_None in E].
        simpl in Hl. rewrite Hl. intros [= ->]. apply Hal, list_elem_of_In.
        apply last_Some in E as [l' E]. rewrite E. apply in_or_app. right. by left. }
      rewrite decide_False by done.
      simpl in Hnd. apply NoDup_cons in Hnd as [Hbl Hnd].
      cbn [dseg]. split; [done|]. exists (set_prev (p_prev na) nb). split_and!; try done.
      * unfold unlink. rewrite lookup_delete_ne by done. rewrite Hnext.
        rewrite lookup_alter_eq.
        destruct (p_prev na) as [a0|] eqn:E0; simpl.
        -- rewrite lookup_alter_ne, Hb; [done|]. intros ->.
           apply (Hprev b); [by rewrite <- Hpr|]. simpl. right. by left.
        -- by rewrite Hb.
      * apply (dseg_frame h); [|done]. intros c Hc. apply unlink_other.
        -- intros ->. apply Hal. simpl. by right.
        -- rewrite Hpr. intros E. apply (Hprev c E). simpl. do 2 right. done.
        -- rewrite Hnext. intros [= ->]. done.
  - (* the node comes later *)
    simpl in Hp. apply elem_of_cons in Hp as [->|Hp]; [done|].
    rewrite (decide_False (P := Some a = Some p)) by congruence.
    assert (p_next n ≠ Some a) as Hna.
    { destruct (dseg_links h _ _ _ _ p n Hrest Hp Hn) as [[E|(b & E & Hb)] _];
        rewrite E; [done|]. intros [= ->]. done. }
    assert (p_prev n = Some a ↔ p_next na = Some p) as Hiff.
    { destruct l as [|[b y] l]; [by apply elem_of_nil in Hp|].
      pose proof Hrest as Hrest'. cbn [dseg] in Hrest'.
      destruct Hrest' as (Hnext & nb & Hb & _ & Hpb & Hrest').
      destruct (decide (b = p)) as [->|Hbp].
      - rewrite Hb in Hn. injection Hn as <-. by rewrite Hnext, Hpb.
      - rewrite Hnext. split; [|congruence]. intros E. exfalso.
        simpl in Hp. apply elem_of_cons in Hp as [->|Hp]; [done|].
        destruct (dseg_links h _ _ _ _ p n Hrest' Hp Hn) as [_ [E'|(c & E' & Hc)]].
        + rewrite E in E'. injection E' as ->. apply Hal. simpl. by left.
        + rewrite E in E'. injection E' as ->. apply Hal. simpl. by right. }
    cbn [dseg]. split; [done|].
    exists (if decide (p_prev n = Some a) then set_next (p_next n) na else na).
    split_and!.
    + unfold unlink. rewrite lookup_delete_ne by done.
      destruct (p_next n) as [b|] eqn:Eb; simpl.
      * rewrite lookup_alter_ne by congruence.
        destruct (p_prev n) as [c|] eqn:Ec; simpl.
        -- destruct (decide (Some c = Some a)) as [[= ->]|Hne].
           ++ by rewrite lookup_alter_eq, Ha.
           ++ rewrite lookup_alter_ne by congruence. done.
        -- done.
      * destruct (p_prev n) as [c|] eqn:Ec; simpl.
        -- destruct (decide (Some c = Some a)) as [[= ->]|Hne].
           ++ by rewrite lookup_alter_eq, Ha.
           ++ rewrite lookup_alter_ne by congruence. done.
        -- done.
    + by destruct (decide _).
    + by destruct (decide _).
    + specialize (IH (Some a) (p_next na) lst Hrest Hnd).
      assert (∀ a0, Some a = Some a0 → a0 ∉ map fst l) as Hpa by (by intros ? [= <-]).
      specialize (IH Hpa Hp Hn).
      destruct (decide (p_prev n = Some a)) as [E|E].
      * rewrite decide_True in IH by (by apply Hiff). done.
      * rewrite decide_False in IH by (by rewrite <- Hiff). done.
Qed.

Lemma dseg_tail_iff h p n l : ∀ prev cur lst,
  dseg h prev l cur lst → NoDup (map fst l) → p ∈ map fst l → h !! p = Some n →
  (lst = Some p ↔ p_next n = None).
Proof.
  induction l as [|[a x] l IH]; intros prev cur lst Hd Hnd Hp Hn;
    [by apply elem_of_nil in Hp|].
  cbn [dseg] in Hd. destruct Hd as (-> & na & Ha & Hx & Hpr & Hrest).
  simpl in Hnd. apply NoDup_cons in Hnd as [Hal Hnd].
  pose proof (dseg_last _ _ _ _ _ Hrest) as Hl.
  destruct l as [|[b y] l].
  - simpl in Hp. apply elem_of_cons in Hp as [->|?%elem_of_nil]; [|done].
    rewrite Ha in Hn. injection Hn as <-. destruct Hrest as [-> ->]. done.
  - simpl in Hp. apply elem_of_cons in Hp as [->|Hp].
    + rewrite Ha in Hn. injection Hn as <-. cbn [dseg] in Hrest.
      destruct Hrest as (-> & _). split; [|done]. intros ->. exfalso.
      destruct (last (map fst ((b, y) :: l))) as [z|] eqn:E; [|by apply last_None in E].
      simpl in Hl. injection Hl as ->. apply Hal, list_elem_of_In.
      apply last_Some in E as [l' E]. rewrite E. apply in_or_app. right. by left.
    + by apply (IH (Some a) (p_next na) lst).
Qed.

Lemma dseg_head_iff h p n l cur lst :
  dseg h None l cur lst → NoDup (map fst l) → p ∈ map fst l → h !! p = Some n →
  (cur = Some p ↔ p_prev n = None).
Proof.
  destruct l as [|[a x] l]; intros Hd Hnd Hp Hn; [by apply elem_of_nil in Hp|].
  cbn [dseg] in Hd. destruct Hd as (-> & na & Ha & Hx & Hpr & Hrest).
  simpl in Hnd. apply NoDup_cons in Hnd as [Hal Hnd].
  simpl in Hp. apply elem_of_cons in Hp as [->|Hp].
  - rewrite Ha in Hn. by injection Hn as <-.
  - destruct (dseg_links h _ _ _ _ p n Hrest Hp Hn) as [_ [E|(b & E & _)]]; rewrite E.
    + split; [|done]. intros [= ->]. done.
    + split; [|done]. intros [= ->]. done.
Qed.

Lemma map_fst_filter_out (p : nat) (l : list (nat * Z)) a :
  a ∈ map fst (List.filter (λ x, negb (x.1 =? p)%nat) l) ↔ a ≠ p ∧ a ∈ map fst l.
Proof.
  rewrite !list_elem_of_fmap. split.
  - intros (x & -> & Hx%list_elem_of_In%filter_In). destruct Hx as [Hx Hne].
    apply negb_true_iff, Nat.eqb_neq in Hne. split; [done|]. exists x.
    split; [done|]. by apply list_elem_of_In.
  - intros (Hne & x & -> & Hx). exists x. split; [done|].
    apply list_elem_of_In, filter_In. split; [by apply list_elem_of_In|].
    by apply negb_true_iff, Nat.eqb_neq.
Qed.

Lemma del_haplotype_pos_spec st l p :
  dll st l → p ∈ map fst l →
  dll (del_haplotype_pos st p) (List.filter (λ x, negb (x.1 =? p)%nat) l) ∧
  pl_brk (del_haplotype_pos st p) = pl_brk st.
Proof.
  intros (Hd & Hnd & Hdom & Hbrk & Hf) Hp.
  destruct (proj2 (Hdom p) Hp) as [n Hn].
  pose proof (dseg_head_iff _ p n _ _ _ Hd Hnd Hp Hn) as Hhead.
  pose proof (dseg_tail_iff _ p n _ _ _ _ Hd Hnd Hp Hn) as Htail.
  destruct (dseg_links _ _ _ _ _ p n Hd Hp Hn) as [Hnx Hpv].
  pose proof (dseg_unlink _ p n _ _ _ _ Hd Hnd ltac:(done) Hp Hn) as Hun.
  assert (del_haplotype_pos st p =
          mk_pl (unlink (pl_heap st) p n)
                (if decide (pl_head st = Some p) then p_next n else pl_head st)
                (if decide (pl_tail st = Some p) then p_prev n else pl_tail st)
                (pl_brk st) false) as ->.
  { unfold del_haplotype_pos, unlink. rewrite Hn, Hf.
    destruct (decide (Some p = pl_head st)) as [Eh|Eh].
    - rewrite (decide_True (P := pl_head st = Some p)) by done.
      rewrite (proj1 Hhead) by done.
      destruct (decide (Some p = pl_tail st)) as [Et|Et].
      + rewrite (decide_True (P := pl_tail st = Some p)) by done.
        rewrite (proj1 Htail) by done. done.
      + rewrite (decide_False (P := pl_tail st = Some p)) by done.
        destruct (p_next n) as [b|] eqn:Eb; [|exfalso; apply Et; symmetry; by apply Htail].
        destruct Hnx as [?|(b' & [= <-] & Hb)]; [done|].
        destruct (proj2 (Hdom b) Hb) as [nb Hnb].
        unfold poke. cbn [fst snd]. rewrite Hnb. cbn [fst snd id]. done.
    - rewrite (decide_False (P := pl_head st = Some p)) by done.
      destruct (p_prev n) as [a|] eqn:Ea; [|exfalso; apply Eh; symmetry; by apply Hhead].
      destruct Hpv as [?|(a' & [= <-] & Hain)]; [done|].
      destruct (proj2 (Hdom a) Hain) as [na Hna].
      destruct (decide (Some p = pl_tail st)) as [Et|Et].
      + rewrite (decide_True (P := pl_tail st = Some p)) by done.
        rewrite (proj1 Htail) by done.
        unfold poke. cbn [fst snd]. rewrite Hna. done.
      + rewrite (decide_False (P := pl_tail st = Some p)) by done.
        destruct (p_next n) as [b|] eqn:Eb; [|exfalso; apply Et; symmetry; by apply Htail].
        destruct Hnx as [?|(b' & [= <-] & Hb)]; [done|].
        destruct (proj2 (Hdom b) Hb) as [nb Hnb].
        unfold poke. cbn [fst snd]. rewrite Hna. cbn [fst snd].
        assert (is_Some (alter (set_next (Some b)) a (pl_heap st) !! b)) as [nb' ->].
        { destruct (decide (b = a)) as [->|Hne].
          - rewrite lookup_alter_eq, Hna. by eexists.
          - rewrite lookup_alter_ne, Hnb by done. by eexists. }
        done. }
  split; [|done]. split_and!; cbn [pl_heap pl_head pl_tail pl_brk pl_fault]; try done.
  - eapply sublist_NoDup; [exact Hnd|]. apply (fmap_sublist fst), filter_sublist.
  - intros a. rewrite map_fst_filter_out, <- Hdom. unfold unlink.
    destruct (decide (a = p)) as [->|Hne].
    + rewrite lookup_delete_eq. split; [by intros [? ?]|by intros [? _]].
    + rewrite lookup_delete_ne by done.
      assert (∀ (f : haplotype_pos → haplotype_pos) c (m : gmap nat haplotype_pos),
                is_Some (alter f c m !! a) ↔ is_Some (m !! a)) as Halt.
      { intros f c m. destruct (decide (c = a)) as [->|?].
        - rewrite lookup_alter_eq. destruct (m !! a); simpl; split; intros [? ?]; by eexists.
        - by rewrite lookup_alter_ne. }
      destruct (p_next n), (p_prev n); cbn [id]; rewrite ?Halt; naive_solver.
  - intros a [_ Ha]%map_fst_filter_out. by apply Hbrk.
Qed.

(** ** Runs of calls *)

Lemma dll_empty : dll pos_list_empty [].
Proof.
  split_and!; simpl; try done; try (by constructor).
  - intros x. rewrite lookup_empty. split; [by intros [? ?]|by intros ?%elem_of_nil].
  - by intros ? ?%elem_of_nil.
Qed.

Lemma pos_run_spec ops : ∀ st s,
  dll st s.1 → pl_brk st = s.2 → pos_ops_ok s ops →
  dll (fold_left pos_apply ops st) (fold_left seq_apply ops s).1.
Proof.
  induction ops as [|op ops IH]; intros st s Hd Hb Hok; [done|].
  destruct Hok as [Hop Hok]. cbn [fold_left].
  destruct op as [pos|p]; apply IH; try done; simpl.
  - rewrite <- Hb. by apply add_haplotype_pos_spec.
  - rewrite <- Hb. by apply (add_haplotype_pos_spec st s.1 pos Hd).
  - by apply del_haplotype_pos_spec.
  - rewrite <- Hb. by apply (del_haplotype_pos_spec st s.1 p Hd).
Qed.

Lemma follow_prev_null fuel h : follow_prev fuel h None = Some [].
Proof. by destruct fuel. Qed.

(** Both walks come to a NULL pointer after the nodes of the list, however
    many steps they are given. *)
Lemma dll_walks st l fuel :
  dll st l → (length l <= fuel)%nat →
  follow_next fuel (pl_heap st) (pl_head st) = Some l ∧
  follow_prev fuel (pl_heap st) (pl_tail st) = Some (rev l).
Proof.
  intros (Hd & _) Hf. split; [by eapply follow_next_dseg|].
  replace fuel with (length l + (fuel - length l))%nat by lia.
  rewrite (follow_prev_dseg _ _ _ _ _ _ Hd), follow_prev_null. simpl. by rewrite app_nil_r.
Qed.

(** The first node has no [prev], and the last no [next]. *)
Lemma dseg_ends h l : ∀ prev cur lst,
  dseg h prev l cur lst → l ≠ [] →
  (∃ a n, cur = Some a ∧ h !! a = Some n ∧ p_prev n = prev) ∧
  (∃ a n, lst = Some a ∧ h !! a = Some n ∧ p_next n = None).
Proof.
  induction l as [|[a pos] l IH]; intros prev cur lst Hd Hne; [done|].
  simpl in Hd. destruct Hd as (-> & n & Hn & _ & Hp & Hrest). split; [by exists a, n|].
  destruct l as [|x l].
  - destruct Hrest as [E ->]. by exists a, n.
  - by apply (IH _ _ _ Hrest).
Qed.

Lemma dll_ends st l :
  dll st l →
  match l with
  | [] => pl_head st = None ∧ pl_tail st = None
  | _ =>
      (∃ a n, pl_head st = Some a ∧ pl_heap st !! a = Some n ∧ p_prev n = None) ∧
      (∃ a n, pl_tail st = Some a ∧ pl_heap st !! a = Some n ∧ p_next n = None)
  end.
Proof.
  intros (Hd & _). destruct l as [|x l]; [by destruct Hd|]. by apply (dseg_ends _ _ _ _ _ Hd).
Qed.

Lemma seq_adds ps : ∀ s,
  pos_ops_ok s (map POS_ADD ps) ∧
  map snd (fold_left seq_apply (map POS_ADD ps) s).1 = map snd s.1 ++ ps.
Proof.
  induction ps as [|pos ps IH]; intros s; [simpl; by rewrite app_nil_r|].
  cbn [map fold_left pos_ops_ok]. destruct (IH (seq_apply s (POS_ADD pos))) as [H1 H2].
  split; [done|]. rewrite H2. simpl. rewrite map_app. simpl. by rewrite <- app_assoc.
Qed.

(** * No read goes into the index twice *)

(** The pairing pass names later reads only. *)
Lemma pair_pass_later todo : ∀ i h (rng0 rng : list rangec),
  (∀ key idx, h !! key = Some idx → (idx < i)%nat) →
  (∀ k r r', rng0 !! k = Some r → rng !! k = Some r' →
     r_pair_rec r' = r_pair_rec r ∨
     ∃ j, (k < j)%nat ∧ r_pair_rec r' = - Z.of_nat j) →
  ∀ k r r', rng0 !! k = Some r → pair_pass i h rng todo !! k = Some r' →
    r_pair_rec r' = r_pair_rec r ∨
    ∃ j, (k < j)%nat ∧ r_pair_rec r' = - Z.of_nat j.
Proof.
  induction todo as [|x todo IH]; intros i h rng0 rng Hh Hold; [done|].
  cbn [pair_pass]. destruct (rng !! i) as [r|] eqn:Hi; [|done].
  destruct (h !! r_pair_rec r) as [hi|] eqn:Hkey.
  - apply IH.
    + intros key idx [_ Hk]%lookup_delete_Some. specialize (Hh _ _ Hk). lia.
    + intros k r0 r' Hk0 Hk. destruct (decide (k = hi)) as [->|Hne].
      * rewrite list_lookup_alter_eq in Hk. destruct (rng !! hi); [|done].
        simpl in Hk. injection Hk as <-. right. exists i. split; [|done].
        by apply (Hh _ _ Hkey).
      * rewrite list_lookup_alter_ne in Hk by done. by eapply Hold.
  - apply IH; [|done]. intros key idx Hk. destruct (h !! r_rec r).
    + specialize (Hh _ _ Hk). lia.
    + apply lookup_insert_Some in Hk as [[_ <-]|[_ Hk]]; [lia|]. specialize (Hh _ _ Hk). lia.
Qed.

Lemma pair_reads_ids rng : map rg_ids (pair_reads rng) = pair_up (map rg_ids rng).
Proof.
  unfold pair_reads.
  assert (length (pair_up (map rg_ids rng)) = length rng) as Hlen.
  { pose proof (proj1 (pair_pass_frame (map rg_ids rng) 0 ∅ (map rg_ids rng) (map rg_ids rng)
                         ltac:(by intros ?? ?%lookup_empty_Some) eq_refl
                         ltac:(intros; left; congruence))) as E.
    apply (f_equal length) in E. rewrite !length_map in E. done. }
  revert Hlen. generalize (pair_up (map rg_ids rng)). intros ids.
  revert ids. induction rng as [|r rng IH]; intros [|x ids] Hlen; try done.
  simpl. f_equal. apply IH. simpl in Hlen. lia.
Qed.

Lemma pair_reads_ids_ok rng :
  NoDup (map (λ r, r_rec (rg_ids r)) rng) →
  Forall (λ r, r_rec (rg_ids r) ≠ 0 ∧ 0 <= r_pair_rec (rg_ids r)) rng →
  ids_ok (map rg_ids (pair_reads rng)).
Proof.
  intros Hnd Hall. rewrite pair_reads_ids.
  destruct (pair_pass_frame (map rg_ids rng) 0 ∅ (map rg_ids rng) (map rg_ids rng)
              ltac:(by intros ?? ?%lookup_empty_Some) eq_refl
              ltac:(intros; left; congruence)) as [Hrec _].
  fold (pair_up (map rg_ids rng)) in Hrec.
  assert (length (pair_up (map rg_ids rng)) = length (map rg_ids rng)) as Hlen.
  { apply (f_equal length) in Hrec. rewrite !length_map in Hrec. by rewrite length_map. }
  unfold ids_ok. split_and!.
  - rewrite Hrec, map_map. done.
  - apply Forall_lookup_2. intros k r Hk.
    assert (r_rec <$> pair_up (map rg_ids rng) !! k = Some (r_rec r)) as E by (by rewrite Hk).
    rewrite <- list_lookup_fmap in E. change (fmap r_rec) with (map r_rec) in E.
    rewrite Hrec, map_map, list_lookup_fmap in E.
    destruct (rng !! k) as [r0|] eqn:Hr0; [|done]. simpl in E. injection E as E.
    rewrite Forall_lookup in Hall. destruct (Hall k r0 Hr0) as [Hz _]. congruence.
  - intros k r Hk Hneg.
    destruct (lookup_lt_is_Some_2 (map rg_ids rng) k) as [r0 Hr0].
    { rewrite <- Hlen. by eapply lookup_lt_Some. }
    destruct (pair_pass_later (map rg_ids rng) 0 ∅ (map rg_ids rng) (map rg_ids rng)
                ltac:(by intros ?? ?%lookup_empty_Some)
                ltac:(intros; left; congruence) k r0 r Hr0 Hk) as [E|(j & Hj & E)].
    + exfalso. rewrite list_lookup_fmap in Hr0. destruct (rng !! k) as [rr|] eqn:Hrr; [|done].
      simpl in Hr0. injection Hr0 as <-. rewrite Forall_lookup in Hall.
      destruct (Hall k rr Hrr) as [_ Hp]. lia.
    + rewrite E. lia.
Qed.

(** ** The loop *)

Lemma frag_recs_pair snps start end_ rec1 rec2 :
  rec1 ≠ 0 → rec2 ≠ 0 → frag_recs (snps, start, end_, rec1, rec2) = [rec1; rec2].
Proof.
  intros H1 H2. unfold frag_recs, present.
  destruct (Z.eqb_spec rec1 0); [done|]. destruct (Z.eqb_spec rec2 0); done.
Qed.

Lemma frag_recs_single snps start end_ rec1 :
  rec1 ≠ 0 → frag_recs (snps, start, end_, rec1, 0) = [rec1].
Proof. intros H1. unfold frag_recs, present. destruct (Z.eqb_spec rec1 0); done. Qed.

Lemma read_loop_once io pairs ids n : ∀ i rng p1 snp_no calls calls',
  ids_ok ids → map rg_ids rng = ids →
  NoDup (concat (map frag_recs calls)) →
  (∀ x, x ∈ concat (map frag_recs calls) →
     ∃ k r, rng !! k = Some r ∧ r_rec (rg_ids r) = x ∧ ((k < i)%nat ∨ rg_isseq r = false)) →
  read_loop trace io pairs n i rng p1 snp_no calls = inr calls' →
  NoDup (concat (map frag_recs calls')).
Proof.
  induction n as [|n IH]; intros i rng p1 snp_no calls calls' Hids Hrng Hnd Hused E.
  { simpl in E. by injection E as <-. }
  cbn [read_loop] in E. destruct (rng !! i) as [r|] eqn:Hi; [|by injection E as <-].
  assert (∀ x, x ∈ concat (map frag_recs calls) →
     ∃ k r, rng !! k = Some r ∧ r_rec (rg_ids r) = x ∧
            ((k < S i)%nat ∨ rg_isseq r = false)) as Hused'.
  { intros x Hx. destruct (Hused x Hx) as (k & r0 & ? & ? & [?|?]); exists k, r0;
      split_and!; try done; [left; lia|by right]. }
  destruct (rg_isseq r) eqn:Hseq; cbn [negb] in E; [|by eapply IH].
  destruct (s_right _ <? s_left _); [by eapply IH|].
  destruct (skip_before _ p1 snp_no) as [p1' snp_no'].
  destruct p1' as [|pos p1']; [by injection E as <-|].
  destruct (_ <? pos); [by eapply IH|].
  destruct (copy_bases io true _ r _ (pos :: p1') []) as [e|[p2 hstr]]; [done|].
  pose proof Hids as (Hndr & Hnz & Hlater). rewrite Forall_lookup in Hnz.
  assert (∀ k r0, rng !! k = Some r0 → ids !! k = Some (rg_ids r0)) as Hlk.
  { intros k r0 Hk. by rewrite <- Hrng, list_lookup_fmap, Hk. }
  assert (∀ k k' r1 r2, rng !! k = Some r1 → rng !! k' = Some r2 →
            r_rec (rg_ids r1) = r_rec (rg_ids r2) → k = k') as Hinj.
  { intros k k' r1 r2 H1 H2 Heq. apply (NoDup_lookup (map r_rec ids) k k' (r_rec (rg_ids r1)));
      [done|..]; rewrite list_lookup_fmap; [by rewrite (Hlk _ _ H1)|].
    rewrite (Hlk _ _ H2). simpl. by rewrite Heq. }
  assert (r_rec (rg_ids r) ∉ concat (map frag_recs calls)) as Hfresh.
  { intros Hin. destruct (Hused _ Hin) as (k & r0 & Hk & Hrec & Hst).
    assert (k = i) as -> by (by eapply Hinj). rewrite Hi in Hk. injection Hk as <-.
    destruct Hst; [lia|congruence]. }
  assert (r_rec (rg_ids r) ≠ 0) as Hrz by (by eapply Hnz, Hlk).
  destruct (mate_index pairs (rg_ids r)) as [j|] eqn:Hj.
  2:{ eapply IH; [done|done| | |exact E]; unfold trace.
      - rewrite map_app, concat_app. cbn [map concat]. rewrite frag_recs_single, app_nil_r by done.
        apply NoDup_app. split_and!; [done| |repeat constructor; set_solver].
        intros x Hx [->|?%elem_of_nil]%elem_of_cons; done.
      - intros x. rewrite map_app, concat_app. cbn [map concat].
        rewrite frag_recs_single, app_nil_r by done.
        intros [Hx|[->|?%elem_of_nil]%elem_of_cons]%elem_of_app; [by apply Hused'| |done].
        exists i, r. split_and!; try done. left. lia. }
  destruct (rng !! j) as [rp|] eqn:Hrp; [|done].
  destruct (rg_isseq rp) eqn:Hseqp; cbn [negb] in E; [|by eapply IH].
  destruct (s_right _ <? s_left _); [by eapply IH|].
  destruct (pad _ p2 hstr) as [p2' hstr'].
  destruct (copy_bases io false _ rp _ p2' hstr') as [e|[p2'' hstr'']]; [done|].
  assert (i < j)%nat as Hij.
  { unfold mate_index in Hj. destruct (Z.leb_spec 0 (r_pair_rec (rg_ids r))); [done|].
    destruct (negb pairs); [done|]. injection Hj as <-. apply (Hlater i (rg_ids r)); [by apply Hlk|done]. }
  assert (r_rec (rg_ids rp) ∉ concat (map frag_recs calls)) as Hfreshp.
  { intros Hin. destruct (Hused _ Hin) as (k & r0 & Hk & Hrec & Hst).
    assert (k = j) as -> by (by eapply Hinj). rewrite Hrp in Hk. injection Hk as <-.
    destruct Hst; [lia|congruence]. }
  assert (r_rec (rg_ids rp) ≠ 0) as Hrpz by (by eapply Hnz, Hlk).
  assert (r_rec (rg_ids r) ≠ r_rec (rg_ids rp)) as Hne.
  { intros Heq. assert (i = j) by (by eapply Hinj). lia. }
  eapply IH; [done| | | |exact E]; unfold trace.
  - rewrite <- Hrng. apply list_eq. intros k. rewrite !list_lookup_fmap.
    destruct (decide (k = j)) as [->|Hkj].
    + rewrite list_lookup_insert_eq by (by eapply lookup_lt_Some). by rewrite Hrp.
    + by rewrite list_lookup_insert_ne.
  - rewrite map_app, concat_app. cbn [map concat]. rewrite frag_recs_pair, app_nil_r by done.
    apply NoDup_app. split_and!; [done| |].
    + intros x Hx [->|[->|?%elem_of_nil]%elem_of_cons]%elem_of_cons; done.
    + repeat constructor; set_solver.
  - intros x. rewrite map_app, concat_app. cbn [map concat].
    rewrite frag_recs_pair, app_nil_r by done.
    intros [Hx|[->|[->|?%elem_of_nil]%elem_of_cons]%elem_of_cons]%elem_of_app; [| | |done].
    + destruct (Hused' x Hx) as (k & r0 & Hk & Hrec & Hst).
      destruct (decide (k = j)) as [->|Hkj].
      * exists j, (set_iscons rp). rewrite list_lookup_insert_eq by (by eapply lookup_lt_Some).
        rewrite Hrp in Hk. injection Hk as <-. split_and!; try done. by right.
      * exists k, r0. by rewrite list_lookup_insert_ne.
    + exists i, r. rewrite list_lookup_insert_ne by lia. split_and!; try done. left. lia.
    + exists j, (set_iscons rp). rewrite list_lookup_insert_eq by (by eapply lookup_lt_Some).
      split_and!; try done. by right.
Qed.

(** ** The function as a whole *)

Lemma find_haplotypes_single_run `{!rb_colour} `{!block_sort} (io : gap_input)
    (start end_ min_count : Z) (pairs : bool) :
  input_ok io → end_ - start < 1073741824 →
  ∃ calls h out,
    read_loop trace io pairs (length (pair_reads (contig_seqs_in_range io))) 0
      (pair_reads (contig_seqs_in_range io)) (haplotype_sites io start end_) 0 [] =
      inr calls ∧
    find_haplotypes_single io start end_ min_count pairs [] = inr (h, out) ∧
    hp_fault h = false ∧ hp_str h = ∅ ∧ NoDup out ∧ (None ∉ out) ∧
    (∀ a, Some a ∈ out ↔ is_Some (hp_arr h !! a)) ∧
    concat (map (array_get h) out) ⊆+ concat (map frag_recs calls) ∧
    (min_count <= 1 → concat (map (array_get h) out) ≡ₚ concat (map frag_recs calls)).
Proof.
  intros Hin Hlen.
  destruct (read_loop_run io start end_ pairs Hin) as (calls & E & Hfit & Hpr).
  assert (Forall frag_ok calls) as Hl.
  { eapply Forall_impl; [exact Hfit|]. intros x. apply in_sites_frag_ok.
    pose proof (haplotype_sites_length io start end_). lia. }
  exists calls. unfold find_haplotypes_single.
  destruct (read_loop_trace io pairs _ _ _ _ _ _ _ (interval_tree_create, empty_heap) E)
    as (new & Enew & ->). simpl in Enew. subst new.
  destruct (add_strs_returns calls (interval_tree_create, empty_heap) Hl Hpr) as [st Est].
  rewrite Est.
  destruct (add_strs_spec calls _ _ st index_ok_empty Hl Est) as (Hok & _ & Hr).
  pose proof (add_strs_tight calls _ _ st index_ok_empty index_tight_empty Hl Est) as Htight.
  destruct (pipeline_spec st.1 st.2 min_count Hok Htight)
    as (Hfl & Hs & Hnd & Hno & Hina & Hsub & Hall).
  eexists _, _. split; [done|]. split; [done|]. simpl in Hr.
  split_and!; try done.
  - rewrite <- Hr. exact Hsub.
  - intros Hmin. rewrite <- Hr. exact (Hall Hmin).
Qed.

Lemma input_ids_ok io :
  input_ok io → recs_distinct io →
  ids_ok (map rg_ids (pair_reads (contig_seqs_in_range io))).
Proof.
  intros Hin [Hnd Hnz]. apply pair_reads_ids_ok; [done|].
  unfold input_ok in Hin. rewrite Forall_forall in Hin, Hnz. apply Forall_forall.
  intros r Hr. split; [by apply Hnz|]. by apply Hin.
Qed.

(** * The loop that builds the list of sites *)

Lemma positions_from (i : Z) (n : nat) :
  map (λ k, i + Z.of_nat k) (seq 0 (S n)) =
  i :: map (λ k, (i + 1) + Z.of_nat k) (seq 0 n).
Proof.
  cbn [seq map]. f_equal; [lia|]. rewrite <- seq_shift, map_map.
  apply map_ext. intros k. lia.
Qed.

Lemma site_loop_adds io n : ∀ i st,
  let ps := List.filter (het_site io) (map (λ k, i + Z.of_nat k) (seq 0 n)) in
  site_loop io n i st =
  (fold_left pos_apply (map POS_ADD ps) st.1, st.2 + Z.of_nat (length ps)).
Proof.
  induction n as [|n IH]; intros i st ps.
  - simpl. destruct st. simpl. f_equal. lia.
  - subst ps. rewrite positions_from. cbn [site_loop List.filter].
    rewrite IH. destruct (het_site io i); cbn [map fold_left length fst snd pos_apply].
    + f_equal. lia.
    + done.
Qed.

Lemma filter_ascending (P : Z → bool) (l : list Z) :
  StronglySorted Z.lt l → StronglySorted Z.lt (List.filter P l).
Proof.
  induction 1 as [|x l Hs IH Hx]; simpl; [constructor|].
  destruct (P x); [|done]. constructor; [done|].
  rewrite Forall_forall in Hx. apply Forall_forall. intros y Hy%list_elem_of_In%filter_In.
  apply Hx, list_elem_of_In, Hy.
Qed.

Lemma haplotype_sites_ascending io start end_ :
  StronglySorted Z.lt (haplotype_sites io start end_).
Proof.
  unfold haplotype_sites. apply filter_ascending.
  generalize (Z.to_nat (end_ - start + 1)) 0%nat. intros n.
  induction n as [|n IH]; intros k; simpl; constructor; [apply IH|].
  apply Forall_forall. intros y (j & -> & Hj%elem_of_seq)%list_elem_of_fmap. lia.
Qed.

Lemma haplotype_sites_are_sites io start end_ pos :
  pos ∈ haplotype_sites io start end_ ↔ start <= pos <= end_ ∧ het_site io pos = true.
Proof.
  unfold haplotype_sites. rewrite list_elem_of_In, filter_In, <- list_elem_of_In. split.
  - intros [(k & -> & Hk%elem_of_seq)%list_elem_of_fmap Hh]. split; [lia|done].
  - intros [Hr Hh]. split; [|done]. apply list_elem_of_fmap.
    exists (Z.to_nat (pos - start)). split; [lia|]. apply elem_of_seq. lia.
Qed.

(** * The comparator of the block sort *)

Lemma int_of_double_range d : INT_MIN <= int_of_double d <= INT_MAX.
Proof.
  unfold int_of_double. destruct (Prim2SF d) as [s| | |s m e]; try (unfold INT_MIN, INT_MAX; lia).
  simpl. destruct (_ && _) eqn:E; [|unfold INT_MIN, INT_MAX; lia].
  apply andb_true_iff in E as [H1 H2]. apply Z.leb_le in H1, H2. lia.
Qed.

Lemma ivp_priority_range hs : INT_MIN <= ivp_priority hs <= INT_MAX.
Proof. apply int_of_double_range. Qed.

Lemma ivp_sort_plain h a b :
  ivp_plain (get_str h (iv_data a)) → ivp_plain (get_str h (iv_data b)) →
  ivp_sort h a b =
  let sa := get_str h (iv_data a) in
  let sb := get_str h (iv_data b) in
  if negb (ivp_priority sb - ivp_priority sa =? 0) then ivp_priority sb - ivp_priority sa
  else if negb (hs_start sa - hs_start sb =? 0) then hs_start sa - hs_start sb
       else hs_end sa - hs_end sb.
Proof.
  intros (Ha & Hsa & Hea) (Hb & Hsb & Heb). unfold ivp_sort. cbv zeta.
  pose proof (ivp_priority_range (get_str h (iv_data a))).
  pose proof (ivp_priority_range (get_str h (iv_data b))).
  unfold int_sub. unfold coord_range, INT_MIN, INT_MAX in *.
  rewrite !wrap_int_small by (unfold INT_MIN, INT_MAX; lia). done.
Qed.

(** * Clustering does not look at [count] *)

Lemma get_str_drop h p : get_str (drop_counts h) p = drop_count (get_str h p).
Proof.
  unfold get_str, drop_counts. cbn [hp_str]. rewrite lookup_fmap.
  by destruct (hp_str h !! p).
Qed.

Lemma set_str_drop h p s :
  set_str (drop_counts h) p (drop_count s) = drop_counts (set_str h p s).
Proof. unfold set_str, drop_counts. cbn [hp_str hp_arr hp_fault]. by rewrite fmap_insert. Qed.

Lemma array_get_drop h o : array_get (drop_counts h) o = array_get h o.
Proof. done. Qed.

Lemma ArrayConcat_drop h a b :
  ArrayConcat (drop_counts h) a b = drop_counts (ArrayConcat h a b).
Proof. by destruct a. Qed.

Lemma ArrayDestroy_drop h a :
  ArrayDestroy (drop_counts h) a = drop_counts (ArrayDestroy h a).
Proof.
  destruct a as [a|]; [|done]. unfold ArrayDestroy. cbn [drop_counts hp_arr].
  by destruct (hp_arr h !! a).
Qed.

Lemma cluster_mismatch_drop n : ∀ hs hs2 i,
  cluster_mismatch n (drop_count hs) (drop_count hs2) i = cluster_mismatch n hs hs2 i.
Proof. induction n as [|n IH]; intros hs hs2 i; [done|]. cbn [cluster_mismatch]. by rewrite IH. Qed.

Lemma merge_snps_drop hs hs2 : merge_snps (drop_count hs) (drop_count hs2) = merge_snps hs hs2.
Proof. done. Qed.

Lemma cluster_merge_drop h p p2 :
  cluster_merge (drop_counts h) p p2 = drop_counts (cluster_merge h p p2).
Proof.
  unfold cluster_merge. rewrite !get_str_drop, merge_snps_drop.
  cbn [drop_count hs_snps hs_count hs_nseq hs_start hs_end hs_recs].
  match goal with |- context [set_str (drop_counts h) p ?s] =>
    change s with (drop_count (mk_hs (Some (merge_snps (get_str h p) (get_str h p2)))
                                 (hs_count (get_str h p))
                                 (hs_nseq (get_str h p) + hs_nseq (get_str h p2))
                                 (Z.min (hs_start (get_str h p)) (hs_start (get_str h p2)))
                                 (Z.max (hs_end (get_str h p)) (hs_end (get_str h p2)))
                                 (hs_recs (get_str h p)))) end.
  rewrite set_str_drop. set (h1 := set_str h p _).
  rewrite !get_str_drop. cbn [drop_count hs_snps hs_count hs_nseq hs_start hs_end hs_recs].
  match goal with |- context [set_str (drop_counts h1) p2 ?s] =>
    change s with (drop_count (mk_hs None (hs_count (get_str h1 p2)) 0 (hs_start (get_str h1 p2))
                                 (hs_start (get_str h1 p2) - 1) (hs_recs (get_str h1 p2)))) end.
  rewrite set_str_drop. set (h2 := set_str h1 p2 _).
  rewrite ArrayConcat_drop, ArrayDestroy_drop. set (h3 := ArrayDestroy _ _).
  rewrite !get_str_drop. cbn [drop_count hs_snps hs_count hs_nseq hs_start hs_end hs_recs].
  match goal with |- set_str (drop_counts h3) p2 ?s = _ =>
    change s with (drop_count (mk_hs (hs_snps (get_str h3 p2)) (hs_count (get_str h3 p2))
                                 (hs_nseq (get_str h3 p2)) (hs_start (get_str h3 p2))
                                 (hs_end (get_str h3 p2)) None)) end.
  by rewrite set_str_drop.
Qed.

Lemma cluster_sweep_drop rest : ∀ h p ivstart ivend,
  cluster_sweep (drop_counts h) p ivstart ivend rest =
  (drop_counts (cluster_sweep h p ivstart ivend rest).1.1,
   (cluster_sweep h p ivstart ivend rest).1.2, (cluster_sweep h p ivstart ivend rest).2).
Proof.
  induction rest as [|iv2 next IH]; intros h p ivstart ivend; [done|].
  cbn [cluster_sweep]. rewrite !get_str_drop.
  cbn [drop_count hs_start hs_end]. rewrite cluster_mismatch_drop.
  destruct (_ || _).
  { rewrite IH. by destruct (cluster_sweep h p ivstart ivend next) as [[? ?] ?]. }
  destruct (cluster_mismatch _ _ _ _).
  { rewrite IH. by destruct (cluster_sweep h p ivstart ivend next) as [[? ?] ?]. }
  rewrite cluster_merge_drop, IH.
  by destruct (cluster_sweep (cluster_merge h p (iv_data iv2)) p ivstart ivend next)
    as [[? ?] ?].
Qed.

Lemma cluster_recruit_drop fuel : ∀ h p ivstart ivend rest,
  cluster_recruit fuel (drop_counts h) p ivstart ivend rest =
  (drop_counts (cluster_recruit fuel h p ivstart ivend rest).1.1,
   (cluster_recruit fuel h p ivstart ivend rest).1.2,
   (cluster_recruit fuel h p ivstart ivend rest).2).
Proof.
  induction fuel as [|fuel IH]; intros h p ivstart ivend rest; [done|].
  cbn [cluster_recruit]. rewrite cluster_sweep_drop.
  destruct (cluster_sweep h p ivstart ivend rest) as [[h' rest'] rc]. cbn [fst snd].
  rewrite get_str_drop. cbn [drop_count hs_start hs_end].
  destruct rc; [apply IH|done].
Qed.

Lemma cluster_anchors_drop fuel : ∀ h l,
  cluster_anchors fuel (drop_counts h) l =
  (drop_counts (cluster_anchors fuel h l).1, (cluster_anchors fuel h l).2).
Proof.
  induction fuel as [|fuel IH]; intros h [|iv rest]; try done.
  cbn [cluster_anchors]. rewrite cluster_recruit_drop.
  destruct (cluster_recruit _ h _ _ _ _) as [[h' rest'] fin]. cbn [fst snd].
  rewrite IH. by destruct (cluster_anchors fuel h' rest') as [h'' l'].
Qed.

(** [ivp_sort] does not look at [count] either. *)
Lemma ivp_sort_drop h a b : ivp_sort (drop_counts h) a b = ivp_sort h a b.
Proof. unfold ivp_sort. by rewrite !get_str_drop. Qed.

Section sort.
Context `{!block_sort}.
Hypothesis qsort_ivp_drop : ∀ h l, qsort_ivp (drop_counts h) l = qsort_ivp h l.

Lemma cluster_subregion_drop h block :
  haplotype_str_cluster_subregion (drop_counts h) block =
  (drop_counts (haplotype_str_cluster_subregion h block).1,
   (haplotype_str_cluster_subregion h block).2).
Proof.
  unfold haplotype_str_cluster_subregion. destruct block as [|b0 block]; [done|].
  rewrite qsort_ivp_drop. apply cluster_anchors_drop.
Qed.

Lemma cluster_blocks_drop ivs : ∀ h longest done block,
  cluster_blocks (drop_counts h) longest done block ivs =
  (drop_counts (cluster_blocks h longest done block ivs).1,
   (cluster_blocks h longest done block ivs).2).
Proof.
  induction ivs as [|iv ivs IH]; intros h longest done block; cbn [cluster_blocks].
  - destruct block as [|b0 block]; [done|]. rewrite cluster_subregion_drop.
    by destruct (haplotype_str_cluster_subregion h (b0 :: block)).
  - destruct (longest =? INT_MIN); [apply IH|].
    destruct (longest <? iv_start iv); [|apply IH].
    rewrite cluster_subregion_drop.
    destruct (haplotype_str_cluster_subregion h block) as [h' b]. cbn [fst snd]. apply IH.
Qed.

Lemma haplotype_str_cluster_drop it h :
  haplotype_str_cluster it (drop_counts h) = drop_counts (haplotype_str_cluster it h).
Proof. unfold haplotype_str_cluster. by rewrite cluster_blocks_drop. Qed.

End sort.

Lemma qsort_stable_drop h l :
  @qsort_ivp qsort_stable (drop_counts h) l = @qsort_ivp qsort_stable h l.
Proof.
  cbn [qsort_ivp qsort_stable]. unfold ivp_le_dec, ivp_le.
  assert (ivp_sort (drop_counts h) = ivp_sort h) as E.
  { apply functional_extensionality. intros a. apply functional_extensionality. intros b.
    apply ivp_sort_drop. }
  change (@merge_sort interval (λ iv1 iv2, ivp_sort (drop_counts h) iv1 iv2 <= 0)
            (λ iv1 iv2, Z_le_dec (ivp_sort (drop_counts h) iv1 iv2) 0) l)
    with ((λ f, @merge_sort interval (λ iv1 iv2, f iv1 iv2 <= 0)
                  (λ iv1 iv2, Z_le_dec (f iv1 iv2) 0) l) (ivp_sort (drop_counts h))).
  by rewrite E.
Qed.

(** * The interval tree: what its clients rely on *)









(** * The pairing of reads *)

(** C9 as it was claimed does not hold: with the mates at the indexes 0 and
    1, the second occurrence keeps its [pair_rec], and it is the first
    occurrence that gets the negative index. *)
Lemma pair_second_occurrence_unchanged :
  let rng := pair_up [mk_range 10 20; mk_range 20 10] in
  rng !! 1%nat = Some (mk_range 20 10) ∧
  r_pair_rec <$> rng !! 1%nat ≠ Some (- Z.of_nat 0) ∧
  rng !! 0%nat = Some (mk_range 10 (-1)).
Proof. vm_compute. split_and!; [done|discriminate|done]. Qed.

(** C9, amended: for mates at the indexes [i < j] of a read list with
    distinct record numbers, the first one named as a mate by the second
    only, the hash pass sets the [pair_rec] of the first occurrence to [-j]
    and leaves the second occurrence as it was; with pairing enabled the
    projection takes the first occurrence as paired with [rng[j]] and the
    second as single ended, and without pairing both as single ended. *)
Theorem pair_first_occurrence_is_sentinel (rng : list rangec) (i j : nat) (a b : Z) :
  NoDup (map r_rec rng) → (i < j)%nat →
  rng !! i = Some (mk_range a b) → rng !! j = Some (mk_range b a) →
  (∀ k r, rng !! k = Some r → r_pair_rec r = a → k = j) →
  0 <= a →
  pair_up rng !! i = Some (mk_range a (- Z.of_nat j)) ∧
  pair_up rng !! j = Some (mk_range b a) ∧
  mate_index true (mk_range a (- Z.of_nat j)) = Some j ∧
  mate_index true (mk_range b a) = None ∧
  mate_index false (mk_range a (- Z.of_nat j)) = None.
Proof.
  intros Hnd Hlt Hi Hj Honly Ha.
  destruct (pair_up_spec rng i j a b Hnd Hlt Hi Hj Honly) as [H1 H2].
  split_and!; [done..| | |].
  - unfold mate_index. simpl. destruct (Z.leb_spec 0 (- Z.of_nat j)); [lia|].
    simpl. f_equal. lia.
  - unfold mate_index. simpl. by destruct (Z.leb_spec 0 a); [|lia].
  - unfold mate_index. simpl. by rewrite orb_true_r.
Qed.

Lemma pair_first_occurrence_is_sentinel_witness :
  pair_up [mk_range 10 20; mk_range 30 0; mk_range 20 10] !! 0%nat = Some (mk_range 10 (-2)).
Proof.
  refine (proj1 (pair_first_occurrence_is_sentinel
                   [mk_range 10 20; mk_range 30 0; mk_range 20 10] 0 2 10 20 _ _ _ _ _ _)).
  - simpl. repeat constructor; rewrite ?elem_of_cons, ?elem_of_nil; lia.
  - lia.
  - reflexivity.
  - reflexivity.
  - intros [|[|[|k]]] r; simpl; intros [= <-]; simpl; intros; try lia; done.
  - lia.
Defined.

(** * haplotype_str_add: what a call does to the index *)

(** C3 as it was claimed does not hold for every fragment: the comparison
    loop asserts that each character of the fragment that it comes to is
    printable.  The index holds the string [A-] over the SNPs 0 and 1, the
    fragment is [A] and the byte 1 over the same SNPs, which has no base
    against the string; the call does not merge it, it stops at the
    [assert]. *)
Lemma add_stops_at_unprintable :
  ∃ st hs,
    @add_strs rb_insert_fix (interval_tree_create, empty_heap)
      [(["A"; "-"]%char, 0, 1, 7, 0)] = inr st ∧
    tree_intervals (it_root st.1) = [mk_interval 2 0 1 1] ∧
    hp_str st.2 !! 1%nat = Some hs ∧
    frag_ok (["A"; "001"]%char, 0, 1, 8, 0) ∧
    takes ["A"; "001"]%char 0 1 hs ∧
    @haplotype_str_add rb_insert_fix st.1 st.2 ["A"; "001"]%char 0 1 8 0 =
      inl assert_failed.
Proof.
  eexists _, _. split; [by vm_compute|]. split; [by vm_compute|]. split; [by vm_compute|].
  split; [repeat split; simpl; unfold coord_range; lia|]. split; [|by vm_compute].
  split; [done|]. split; [done|]. intros k Hk.
  destruct (decide (k = 0)) as [->|Hk0]; [by right; right|].
  assert (k = 1) as -> by lia. by left.
Qed.

(** C3, amended: in an index built by [haplotype_str_add] calls that have
    returned, with coordinates in the range of the tree, a call with a
    fragment of printable characters returns 0 and either puts the fragment
    into a string with the same [(start, end)] that has no base against it
    (its characters other than [-] are written over the string's, [count]
    goes up by one at those positions, [nseq] by one, and the records of the
    call that are not 0 are appended to [recs]; the tree and all other
    strings stay as they were), or no string of the index has the same
    [(start, end)] and no base against the fragment, and a new string with
    [nseq = 1] and [count] 1 at the characters other than [-] is put into
    the tree under a new interval.  A string with another [(start, end)] is
    never written to. *)
Theorem fragment_goes_into_or_beside `{!rb_colour} (l : list fragment)
    (st : interval_tree * hap_heap) (snps : list ascii) (start end_ rec1 rec2 : Z) :
  Forall frag_ok l → add_strs (interval_tree_create, empty_heap) l = inr st →
  frag_ok (snps, start, end_, rec1, rec2) →
  frag_printable (snps, start, end_, rec1, rec2) →
  ∃ r, haplotype_str_add st.1 st.2 snps start end_ rec1 rec2 = inr r ∧ r.2 = 0 ∧
  ((∃ iv hs a recs,
      iv ∈ tree_intervals (it_root st.1) ∧ hp_str st.2 !! iv_data iv = Some hs ∧
      takes snps start end_ hs ∧ hs_recs hs = Some a ∧ hp_arr st.2 !! a = Some recs ∧
      r.1.1 = st.1 ∧
      hp_str r.1.2 = <[iv_data iv := merged snps hs]> (hp_str st.2) ∧
      hp_arr r.1.2 = <[a := recs ++ present rec1 ++ present rec2]> (hp_arr st.2))
   ∨
   ((∀ iv hs, iv ∈ tree_intervals (it_root st.1) → hp_str st.2 !! iv_data iv = Some hs →
       ¬ takes snps start end_ hs) ∧
    ∃ iv a,
      iv_start iv = start ∧ iv_end iv = end_ ∧
      tree_intervals (it_root r.1.1) ≡ₚ iv :: tree_intervals (it_root st.1) ∧
      hp_str st.2 !! iv_data iv = None ∧ hp_arr st.2 !! a = None ∧
      hp_str r.1.2 =
        <[iv_data iv := mk_hs (Some snps) (fresh_count snps) 1 start end_ (Some a)]>
          (hp_str st.2) ∧
      hp_arr r.1.2 = <[a := present rec1 ++ present rec2]> (hp_arr st.2))).
Proof.
  intros Hl E (Hcs & Hce & Hle & Hlen) Hp.
  destruct (add_strs_spec l _ _ st index_ok_empty Hl E) as (Hok & _).
  destruct (haplotype_str_add_returns st.1 st.2 snps start end_ rec1 rec2 Hlen Hp) as [r Hr].
  exists r. split; [done|].
  destruct (haplotype_str_add_cases st.1 st.2 snps start end_ rec1 rec2 r
              Hok Hcs Hce Hle Hlen Hr) as (Hrc & _ & _ & Hc).
  by split.
Qed.

(** C8 as it was claimed does not hold: a string that counts two reads
    counts three, not four, once its [snps] are handed in again, and its
    [count] goes from 2 to 3 at each base. *)
Lemma resubmitting_does_not_double :
  ∃ st hs r hs',
    @add_strs rb_insert_fix (interval_tree_create, empty_heap)
      [(["A"; "C"]%char, 0, 1, 7, 0); (["A"; "C"]%char, 0, 1, 8, 0)] = inr st ∧
    tree_intervals (it_root st.1) = [mk_interval 2 0 1 1] ∧
    hp_str st.2 !! 1%nat = Some hs ∧
    hs_snps hs = Some ["A"; "C"]%char ∧ hs_nseq hs = 2 ∧ hs_count hs = [2; 2] ∧
    @haplotype_str_add rb_insert_fix st.1 st.2 ["A"; "C"]%char 0 1 9 0 = inr r ∧
    hp_str r.1.2 !! 1%nat = Some hs' ∧
    hs_snps hs' = Some ["A"; "C"]%char ∧ hs_nseq hs' = 3 ∧ hs_count hs' = [3; 3] ∧
    hs_nseq hs' ≠ 2 * hs_nseq hs.
Proof.
  eexists _, _, _, _.
  split; [by vm_compute|]. split; [by vm_compute|]. split; [by vm_compute|].
  split; [done|]. split; [done|]. split; [done|].
  split; [by vm_compute|]. split; [by vm_compute|].
  split; [done|]. split; [done|]. split; [done|]. simpl. lia.
Qed.

(** C8, amended: in an index built by [haplotype_str_add] calls that have
    returned, handing the [snps] of a string [a] of the index, all of them
    printable, in again with its range leaves the tree and every other
    string as they were; [a] keeps its [snps], its [nseq] goes up by one,
    its [count] by one at every character other than [-], and the records
    of the call that are not 0 are appended to its record array.  [nseq] is
    doubled only when it was 1. *)
Theorem resubmitting_adds_one `{!rb_colour} (l : list fragment)
    (st : interval_tree * hap_heap) (iv : interval) (hs : haplotype_str) (b : list ascii)
    (a : nat) (recs : list Z) (rec1 rec2 : Z) :
  Forall frag_ok l → add_strs (interval_tree_create, empty_heap) l = inr st →
  iv ∈ tree_intervals (it_root st.1) →
  hp_str st.2 !! iv_data iv = Some hs → hs_snps hs = Some b →
  hs_recs hs = Some a → hp_arr st.2 !! a = Some recs →
  Forall (λ c, printable c = true) b →
  ∃ r, haplotype_str_add st.1 st.2 b (hs_start hs) (hs_end hs) rec1 rec2 = inr r ∧
    r.2 = 0 ∧ r.1.1 = st.1 ∧
    hp_str r.1.2 =
      <[iv_data iv := mk_hs (Some b) (count_up b (hs_count hs)) (hs_nseq hs + 1)
                            (hs_start hs) (hs_end hs) (Some a)]> (hp_str st.2) ∧
    hp_arr r.1.2 = <[a := recs ++ present rec1 ++ present rec2]> (hp_arr st.2) ∧
    (hs_nseq hs + 1 = 2 * hs_nseq hs ↔ hs_nseq hs = 1).
Proof.
  intros Hl E Hin Hhs Hb Hrecs Harr Hp.
  destruct (add_strs_spec l _ _ st index_ok_empty Hl E) as (Hok & _).
  clear E. destruct st as [it h]. cbn [fst snd] in *.
  pose proof Hok as (Hwf & (Hstr & Hnd & _) & _ & _ & Hconf).
  rewrite Forall_forall in Hstr.
  destruct (str_ok_get _ _ (Hstr iv Hin))
    as (hs' & b' & a0 & Hhs' & Hget & Hs & He & Hle & Hb' & Hlb & Hlc & _).
  rewrite Hhs in Hhs'. injection Hhs' as <-. rewrite Hb in Hb'. injection Hb' as <-.
  assert (hs_start hs <= hs_end hs) as Hle' by lia.
  assert (Z.of_nat (length b) = hs_end hs - hs_start hs + 1) as Hlen by lia.
  destruct (haplotype_str_add_returns it h b (hs_start hs) (hs_end hs) rec1 rec2 Hlen Hp)
    as [r Hr].
  exists r. split; [done|].
  assert (iv ∈ interval_iter_all it (hs_start hs) (hs_end hs)) as Hcand.
  { destruct (interval_iter_all_spec (hs_start hs) (hs_end hs) it Hwf) as [_ ->].
    apply list_elem_of_In, filter_In. split; [by apply list_elem_of_In|].
    unfold overlaps. apply andb_true_iff. split; apply Z.leb_le; lia. }
  destruct (add_find h b (hs_start hs) (hs_end hs)
                     (interval_iter_all it (hs_start hs) (hs_end hs)))
    as [e|[iv'|]] eqn:Hfind.
  { unfold haplotype_str_add in Hr. by rewrite Hfind in Hr. }
  2:{ exfalso. pose proof (add_find_None _ _ _ _ _ iv Hfind Hcand) as Hacc.
      destruct (add_accepts_spec h b (hs_start hs) (hs_end hs) iv hs b Hhs Hb Hle')
        as [[Ht _]|[[_ Hc]|[Ht _]]]; [congruence| |congruence].
      destruct Hc as (k & Hk & Hc); [done..|]. by destruct Hc as (_ & _ & ?). }
  destruct (haplotype_str_add_into it h b (hs_start hs) (hs_end hs) rec1 rec2 iv' Hok Hle'
              Hlen Hfind) as (hs' & a' & recs' & Hin' & Hhs' & Ht & Hr' & Harr' & E).
  assert (iv' = iv) as ->.
  { destruct (decide (iv_data iv' = iv_data iv)) as [Hd|Hd].
    { by apply (NoDup_map_inj iv_data (tree_intervals (it_root it))). }
    assert (iv' ≠ iv) as Hne by (by intros ->). exfalso.
    destruct Ht as (Hs' & He' & Hag).
    destruct (str_ok_get _ _ (Hstr iv' Hin')) as (hs2 & b2 & ? & Hh2 & Hg2 & Hs2 & He2 & _).
    rewrite Hhs' in Hh2. injection Hh2 as <-.
    destruct (Hconf iv iv' Hin Hin' (not_eq_sym Hne)) as (k & Hk & Hc); [lia..|].
    rewrite Hget, Hg2, Hb in Hc. rewrite Hget in Hk. change (buf (Some b)) with b in Hc.
    exact (clash_not_agrees _ _ _ k Hk Hc Hag). }
  rewrite Hhs in Hhs'. injection Hhs' as <-. rewrite Hrecs in Hr'. injection Hr' as <-.
  rewrite Harr in Harr'. injection Harr' as <-.
  rewrite E in Hr. injection Hr as <-. cbn [fst snd hp_str hp_arr].
  split_and!; try done; [|lia].
  unfold merged. by rewrite Hb, Hrecs, overlay_self.
Qed.

Lemma fragment_goes_into_or_beside_witness :
  Forall frag_ok [(["A"; "-"]%char, 0, 1, 7, 0)] ∧
  @add_strs rb_insert_fix (interval_tree_create, empty_heap)
    [(["A"; "-"]%char, 0, 1, 7, 0)] =
    inr (mk_tree (RB_NODE RB_NULL (mk_node 3 0 1 1 [mk_interval 2 0 1 1]) RB_NULL) 5,
         mk_heap {[ 1%nat := mk_hs (Some ["A"; "-"]%char) [1; 0] 1 0 1 (Some 4%nat) ]}
                 {[ 4%nat := [7] ]} false) ∧
  frag_ok (["-"; "C"]%char, 0, 1, 8, 9) ∧
  frag_printable (["-"; "C"]%char, 0, 1, 8, 9) ∧
  ∃ r, @haplotype_str_add rb_insert_fix
         (mk_tree (RB_NODE RB_NULL (mk_node 3 0 1 1 [mk_interval 2 0 1 1]) RB_NULL) 5)
         (mk_heap {[ 1%nat := mk_hs (Some ["A"; "-"]%char) [1; 0] 1 0 1 (Some 4%nat) ]}
                  {[ 4%nat := [7] ]} false)
         ["-"; "C"]%char 0 1 8 9 = inr r ∧
       hp_str r.1.2 !! 1%nat =
         Some (mk_hs (Some ["A"; "C"]%char) [1; 1] 2 0 1 (Some 4%nat)) ∧
       hp_arr r.1.2 !! 4%nat = Some [7; 8; 9].
Proof.
  assert (Forall frag_ok [(["A"; "-"]%char, 0, 1, 7, 0)]) as Hl.
  { repeat constructor; simpl; unfold coord_range; lia. }
  assert (frag_ok (["-"; "C"]%char, 0, 1, 8, 9)) as Hx.
  { repeat split; simpl; unfold coord_range; lia. }
  assert (frag_printable (["-"; "C"]%char, 0, 1, 8, 9)) as Hp by (by repeat constructor).
  split; [exact Hl|]. split; [by vm_compute|]. split; [exact Hx|]. split; [exact Hp|].
  destruct (@fragment_goes_into_or_beside rb_insert_fix _ _ _ _ _ _ _ Hl
              ltac:(by vm_compute) Hx Hp) as (r & Hr & _).
  exists r. split; [exact Hr|]. vm_compute in Hr. injection Hr as <-. by vm_compute.
Defined.

Lemma resubmitting_adds_one_witness :
  Forall frag_ok [(["A"; "C"]%char, 0, 1, 7, 0)] ∧
  Forall (λ c, printable c = true) ["A"; "C"]%char ∧
  ∃ st r,
    @add_strs rb_insert_fix (interval_tree_create, empty_heap)
      [(["A"; "C"]%char, 0, 1, 7, 0)] = inr st ∧
    @haplotype_str_add rb_insert_fix st.1 st.2 ["A"; "C"]%char 0 1 8 9 = inr r ∧
    r.1.1 = st.1 ∧
    hp_str r.1.2 !! 1%nat = Some (mk_hs (Some ["A"; "C"]%char) [2; 2] 2 0 1 (Some 4%nat)).
Proof.
  assert (Forall frag_ok [(["A"; "C"]%char, 0, 1, 7, 0)]) as Hl.
  { repeat constructor; simpl; unfold coord_range; lia. }
  assert (Forall (λ c, printable c = true) ["A"; "C"]%char) as Hp by (by repeat constructor).
  split; [exact Hl|]. split; [exact Hp|].
  eexists. 
  destruct (@resubmitting_adds_one rb_insert_fix
              [(["A"; "C"]%char, 0, 1, 7, 0)] _
              (mk_interval 2 0 1 1) (mk_hs (Some ["A"; "C"]%char) [1; 1] 1 0 1 (Some 4%nat))
              ["A"; "C"]%char 4%nat [7] 8 9 Hl ltac:(by vm_compute))
    as (r & Hr & _ & Htree & Hstr & _).
  - vm_compute. repeat constructor.
  - by vm_compute.
  - done.
  - done.
  - by vm_compute.
  - exact Hp.
  - exists r. split; [by vm_compute|]. split; [exact Hr|]. split; [exact Htree|].
    rewrite Hstr. by vm_compute.
Defined.

(** * Clustering: what the spec says of it *)

(** C4: in an index built by [haplotype_str_add] calls, two strings with a
    base against another at some SNP do not end up in one group, whatever
    other strings there are: after [haplotype_str_cluster], no record
    array holds both a record that came with the one (and with no other
    string) and a record that came with the other. *)
Theorem conflicting_reads_stay_apart `{!rb_colour} `{!block_sort} (l : list fragment)
    (st : interval_tree * hap_heap) (iv1 iv2 : interval) (rec1 rec2 i : Z) (a : nat)
    (r : list Z) :
  Forall frag_ok l → add_strs (interval_tree_create, empty_heap) l = inr st →
  let L := tree_intervals (it_root st.1) in
  let h := haplotype_str_cluster st.1 st.2 in
  let s1 := get_str st.2 (iv_data iv1) in
  let s2 := get_str st.2 (iv_data iv2) in
  owns st.2 L iv1 rec1 → owns st.2 L iv2 rec2 →
  hs_start s1 <= i <= hs_end s1 → hs_start s2 <= i <= hs_end s2 →
  snp_at s1 i ≠ dash → snp_at s2 i ≠ dash → snp_at s1 i ≠ snp_at s2 i →
  hp_arr h !! a = Some r → ¬ (rec1 ∈ r ∧ rec2 ∈ r).
Proof.
  intros Hl E L h s1 s2 Ho1 Ho2 Hi1 Hi2 Hd1 Hd2 Hne Harr [Hr1 Hr2].
  destruct (add_strs_spec l _ _ st index_ok_empty Hl E) as (Hok & _).
  pose proof (add_strs_tight l _ _ st index_ok_empty index_tight_empty Hl E) as Ht.
  destruct (cluster_index_done st.1 st.2 Hok Ht) as (_ & _ & _ & [_ Hta] & _).
  destruct (haplotype_str_cluster_spec st.1 st.2 Hok) as ((_ & Hst) & _).
  fold h L in Hta, Hst.
  destruct (Hta a ltac:(by rewrite Harr)) as (iv & Hin & Hrec).
  destruct (Hst iv Hin)
    as [[(hs & Hhs & _ & _ & _ & _ & Hre) _]
       |(hs & _ & a' & r' & Hhs & _ & _ & _ & _ & _ & _ & Hre & Harr' & Hcov)];
    unfold get_str in Hrec; rewrite Hhs in Hrec; simpl in Hrec; [congruence|].
  assert (a' = a) as -> by congruence. assert (r' = r) as -> by congruence.
  destruct (Hcov iv1 rec1 Hr1 Ho1) as (_ & _ & Hc1).
  destruct (Hcov iv2 rec2 Hr2 Ho2) as (_ & _ & Hc2).
  apply Hne. transitivity (snp_at hs i); [symmetry; exact (Hc1 i Hi1 Hd1)|exact (Hc2 i Hi2 Hd2)].
Qed.


(** C7: on the index after clustering, [haplotype_str_filter] takes out of
    the tree exactly the intervals whose string has [nseq < min_count], so
    with [min_count >= 1] every string with [nseq = 0], and frees each of
    these strings once; the strings that stay and their record arrays are
    as they were, and the tree passes [interval_tree_check].  After it,
    [haplotype_str_reclist] appends to [rec_list] the record arrays of the
    strings with [nseq] other than 0, in tree order, and no other: no
    handle is NULL, none comes twice, and they are all the arrays that are
    allocated.  It sets [recs] to NULL in every string it took the array
    of, so that after it no string of the tree has a record array, and it
    changes no array.  Nothing faults. *)
Theorem filter_then_reclist `{!rb_colour} `{!block_sort} (l : list fragment)
    (st : interval_tree * hap_heap) (min_count : Z) (rec_list : list (option nat)) :
  Forall frag_ok l → add_strs (interval_tree_create, empty_heap) l = inr st →
  let L := tree_intervals (it_root st.1) in
  let h := haplotype_str_cluster st.1 st.2 in
  let f := haplotype_str_filter st.1 h min_count in
  let r := haplotype_str_reclist f.1 f.2 rec_list in
  let out := map (λ iv, hs_recs (get_str f.2 (iv_data iv)))
                 (List.filter (emits f.2) (tree_intervals (it_root f.1))) in
  (tree_intervals (it_root f.1) ≡ₚ List.filter (λ iv, negb (drops h min_count iv)) L ∧
   (1 <= min_count →
    ∀ iv, iv ∈ L → hs_nseq (get_str h (iv_data iv)) = 0 →
          iv ∉ tree_intervals (it_root f.1)) ∧
   interval_tree_check f.1 = 0 ∧ hp_fault f.2 = false ∧
   (∀ iv, iv ∈ L → drops h min_count iv = true → hp_str f.2 !! iv_data iv = None) ∧
   (∀ iv, iv ∈ L → drops h min_count iv = false →
      hp_str f.2 !! iv_data iv = hp_str h !! iv_data iv ∧
      ∀ a, hs_recs (get_str h (iv_data iv)) = Some a → hp_arr f.2 !! a = hp_arr h !! a)) ∧
  (r.2 = rec_list ++ out ∧ NoDup out ∧ (None ∉ out) ∧
   (∀ a, Some a ∈ out ↔ is_Some (hp_arr f.2 !! a)) ∧
   hp_arr r.1 = hp_arr f.2 ∧ hp_fault r.1 = false ∧
   ∀ iv, iv ∈ tree_intervals (it_root f.1) →
     ∃ hs, hp_str r.1 !! iv_data iv = Some hs ∧ hs_recs hs = None).
Proof.
  intros Hl E L h f r out.
  destruct (add_strs_spec l _ _ st index_ok_empty Hl E) as (Hok & _).
  pose proof (add_strs_tight l _ _ st index_ok_empty index_tight_empty Hl E) as Ht.
  pose proof (cluster_index_done st.1 st.2 Hok Ht) as Hd. fold h in Hd.
  destruct (haplotype_str_filter_spec st.1 h min_count Hd) as (Hd' & Hperm & Hkeep).
  fold f L in Hd', Hperm, Hkeep.
  pose proof Hd as (_ & Hnd & _ & _ & Hstr & _). fold L in Hnd, Hstr.
  pose proof Hd' as (Hwf' & _ & Hfl' & [Htp' _] & _).
  split.
  - split_and!; [done| |by apply interval_tree_check_ok|done| |].
    + intros Hmin iv Hin Hn. rewrite Hperm. intros Hk.
      apply list_elem_of_In, filter_In in Hk as [_ Hk].
      destruct (Hstr iv Hin) as (hs & Hhs & _). unfold drops in Hk.
      unfold get_str in Hn. rewrite Hhs in Hn, Hk. simpl in Hn.
      destruct (Z.ltb_spec (hs_nseq hs) min_count); [done|lia].
    + intros iv Hin Hdrop. destruct (hp_str f.2 !! iv_data iv) eqn:E'; [|done]. exfalso.
      destruct (Htp' (iv_data iv) ltac:(by rewrite E')) as (iv' & Hin' & Hdata).
      rewrite Hperm in Hin'. apply list_elem_of_In, filter_In in Hin' as [Hin' Hk].
      apply list_elem_of_In in Hin'.
      assert (iv' = iv) as -> by (by apply (NoDup_map_inj iv_data L)).
      by rewrite Hdrop in Hk.
    + intros iv Hin Hdrop. apply Hkeep. rewrite Hperm.
      apply list_elem_of_In, filter_In. split; [by apply list_elem_of_In|by rewrite Hdrop].
  - destruct (haplotype_str_reclist_done f.1 f.2 rec_list Hd')
      as (Hout & Harr & Hfl & Hnone & _ & Hnd' & Hno & Hin & _).
    by split_and!.
Qed.

(** C10: [haplotype_str_cluster] on an index built by
    [haplotype_str_add] calls writes to no [count] array: every string has
    the [count] it had, one depth for each SNP of its interval.  Nor does it
    read one: with a sort that does not look at [count], as [qsort] with
    [ivp_sort] does not, the strings that it leaves are, their [count]
    apart, those that it leaves when every [count] is taken away
    beforehand.  So the [count] of a group that has taken the range of
    another string is shorter than its range, and that of a string that was
    merged away is longer than the empty range it is left with. *)
Theorem count_is_left_behind `{!rb_colour} `{!block_sort} (l : list fragment)
    (st : interval_tree * hap_heap) :
  Forall frag_ok l → add_strs (interval_tree_create, empty_heap) l = inr st →
  let L := tree_intervals (it_root st.1) in
  let h := haplotype_str_cluster st.1 st.2 in
  (∀ q, hs_count (get_str h q) = hs_count (get_str st.2 q)) ∧
  ((∀ h0 block, qsort_ivp (drop_counts h0) block = qsort_ivp h0 block) →
   haplotype_str_cluster st.1 (drop_counts st.2) = drop_counts h) ∧
  (∀ h0 iv1 iv2, ivp_sort (drop_counts h0) iv1 iv2 = ivp_sort h0 iv1 iv2) ∧
  ∀ iv, iv ∈ L →
    let g := get_str h (iv_data iv) in
    Z.of_nat (length (hs_count g)) = iv_end iv - iv_start iv + 1 ∧
    (hs_nseq g = 0 → hs_end g - hs_start g + 1 = 0 ∧ 0 < Z.of_nat (length (hs_count g))) ∧
    (0 < hs_nseq g → hs_start g <= iv_start iv ∧ iv_end iv <= hs_end g) ∧
    (0 < hs_nseq g → hs_start g < iv_start iv ∨ iv_end iv < hs_end g →
     Z.of_nat (length (hs_count g)) < hs_end g - hs_start g + 1).
Proof.
  intros Hl E L h.
  assert (∀ q, hs_count (get_str h q) = hs_count (get_str st.2 q)) as Hcount.
  { intros q. apply cluster_blocks_count. }
  split; [done|]. split; [intros Hs; by apply haplotype_str_cluster_drop|].
  split; [apply ivp_sort_drop|]. intros iv Hin g.
  destruct (add_strs_spec l _ _ st index_ok_empty Hl E) as (Hok & _).
  destruct (haplotype_str_cluster_spec st.1 st.2 Hok) as ((_ & Hst) & _).
  fold h L in Hst.
  destruct Hok as (_ & (Hstr & _) & _). fold L in Hstr. rewrite Forall_forall in Hstr.
  destruct (str_ok_get _ _ (Hstr iv Hin))
    as (hs0 & b0 & a0 & _ & Hg0 & _ & _ & Hle & _ & _ & Hlc & _).
  assert (Z.of_nat (length (hs_count g)) = iv_end iv - iv_start iv + 1) as Hlen.
  { unfold g. by rewrite Hcount, Hg0. }
  split; [done|].
  destruct (Hst iv Hin)
    as [[(hs & Hhs & Hsn & Hns & Hs & He & Hre) _]
       |(hs & b & a & r & Hhs & Hb & Hs & He & Hlb & Hns & _)];
    assert (g = hs) as Hg by (unfold g, get_str; by rewrite Hhs); rewrite Hg in *;
    split_and!; intros; lia.
Qed.

Lemma conflicting_reads_stay_apart_witness :
  Forall frag_ok five_fragments ∧
  @add_strs rb_insert_fix (interval_tree_create, empty_heap) five_fragments = inr five_st ∧
  hp_arr (@haplotype_str_cluster qsort_stable five_st.1 five_st.2) !! 7%nat =
    Some [9; 5; 8] ∧
  ¬ (7 ∈ [9; 5; 8] ∧ 9 ∈ [9; 5; 8]).
Proof.
  split; [exact five_fragments_ok|]. split; [exact five_st_run|]. split; [by vm_compute|].
  apply (@conflicting_reads_stay_apart rb_insert_fix qsort_stable _ _
           (mk_interval 2 0 4 1) (mk_interval 6 0 4 5) 7 9 0 7%nat [9; 5; 8]
           five_fragments_ok five_st_run).
  - split_and!.
    + apply list_elem_of_In. vm_compute. tauto.
    + apply list_elem_of_In. vm_compute. tauto.
    + intros iv' Hin Hrec. apply list_elem_of_In in Hin. vm_compute in Hin.
      destruct Hin as [<-|[<-|[<-|[<-|[]]]]]; try done;
        apply list_elem_of_In in Hrec; vm_compute in Hrec;
        repeat (destruct Hrec as [Hrec|Hrec]; [discriminate|]); destruct Hrec.
  - split_and!.
    + apply list_elem_of_In. vm_compute. tauto.
    + apply list_elem_of_In. vm_compute. tauto.
    + intros iv' Hin Hrec. apply list_elem_of_In in Hin. vm_compute in Hin.
      destruct Hin as [<-|[<-|[<-|[<-|[]]]]]; try done;
        apply list_elem_of_In in Hrec; vm_compute in Hrec;
        repeat (destruct Hrec as [Hrec|Hrec]; [discriminate|]); destruct Hrec.
  - vm_compute. split; discriminate.
  - vm_compute. split; discriminate.
  - vm_compute. discriminate.
  - vm_compute. discriminate.
  - vm_compute. discriminate.
  - by vm_compute.
Defined.


Lemma filter_then_reclist_witness :
  Forall frag_ok three_fragments ∧
  @add_strs rb_rotate_up (interval_tree_create, empty_heap) three_fragments = inr three_st ∧
  (haplotype_str_reclist (three_filtered 1).1 (three_filtered 1).2 [None]).2 =
  [None; Some 11%nat; Some 4%nat].
Proof.
  split; [exact three_fragments_ok|]. split; [exact three_st_run|].
  etrans; [exact (proj1 (proj2 (@filter_then_reclist rb_rotate_up qsort_stable _ _ 1 [None]
                                  three_fragments_ok three_st_run)))|].
  by vm_compute.
Defined.

Lemma count_is_left_behind_witness :
  Forall frag_ok three_fragments ∧
  @add_strs rb_rotate_up (interval_tree_create, empty_heap) three_fragments = inr three_st ∧
  hs_count (get_str three_clustered 9) = [1; 1] ∧
  hs_start (get_str three_clustered 9) = 0 ∧ hs_end (get_str three_clustered 9) = 2 ∧
  @haplotype_str_cluster qsort_stable three_st.1 (drop_counts three_st.2) =
    drop_counts three_clustered.
Proof.
  split; [exact three_fragments_ok|]. split; [exact three_st_run|].
  destruct (@count_is_left_behind rb_rotate_up qsort_stable _ _
              three_fragments_ok three_st_run) as (Hc & Hd & _).
  split; [etrans; [exact (Hc 9%nat)|by vm_compute]|].
  split; [by vm_compute|]. split; [by vm_compute|].
  apply Hd. intros h0 block. apply qsort_stable_drop.
Defined.

(** * The interval tree: each call on its own *)

(** X1: on a tree reached from the empty tree by adds and deletes,
    [interval_tree_add] with coordinates in range returns 0 and the tree
    then holds the intervals it held and one more, with the [start], [end]
    and [data] of the call and an address that no interval of the tree
    had. *)
Theorem add_stores_one_more `{!rb_colour} (ops : list tree_op) (s e : Z) (d : nat) :
  ops_ok interval_tree_create ops → coord_range s → coord_range e →
  let it := run_ops interval_tree_create ops in
  (interval_tree_add it s e d).2 = 0 ∧
  ∃ node,
    iv_fields node = (s, e, d) ∧
    (iv_id node ∉ map iv_id (tree_intervals (it_root it))) ∧
    tree_intervals (it_root (interval_tree_add it s e d).1) ≡ₚ
      node :: tree_intervals (it_root it).
Proof.
  intros Hok Hs He it.
  pose proof (run_ops_wf ops _ wf_create Hok) as Hwf. fold it in Hwf.
  destruct (interval_tree_add_spec it s e d Hwf Hs He) as (_ & Hrc & Hp & _).
  split; [done|]. exists (mk_interval (it_brk it) s e d). split_and!; [done| |done].
  destruct Hwf as [[_ _ _ _ _ Hb] _]. rewrite Forall_forall in Hb.
  intros (i & Hi & Hin)%list_elem_of_fmap. specialize (Hb i Hin). simpl in Hi. lia.
Qed.

(** X2: on a tree reached from the empty tree by adds and deletes,
    [interval_tree_del] of an interval that the tree holds returns 0, takes
    exactly that interval out and allocates nothing. *)
Theorem del_takes_one_out `{!rb_colour} (ops : list tree_op) (node : interval) :
  ops_ok interval_tree_create ops →
  let it := run_ops interval_tree_create ops in
  node ∈ tree_intervals (it_root it) →
  (interval_tree_del it node).2 = 0 ∧
  tree_intervals (it_root it) ≡ₚ
    node :: tree_intervals (it_root (interval_tree_del it node).1) ∧
  (node ∉ tree_intervals (it_root (interval_tree_del it node).1)) ∧
  it_brk (interval_tree_del it node).1 = it_brk it.
Proof.
  intros Hok it Hin.
  pose proof (run_ops_wf ops _ wf_create Hok) as Hwf. fold it in Hwf.
  destruct (interval_tree_del_spec it node Hwf Hin) as (_ & Hrc & Hp & Hb).
  split_and!; [done..| |done]. intros Hin'.
  destruct Hwf as [[_ _ _ Hnd _ _] _].
  change (concat (map nd_intervals (nodes (it_root it)))) with (tree_intervals (it_root it))
    in Hnd.
  rewrite Hp in Hnd. simpl in Hnd. apply NoDup_cons in Hnd as [Hn _].
  apply Hn. by apply list_elem_of_fmap_2.
Qed.

(** X3: [interval_tree_del] of an interval whose address is that of no
    interval in the tree returns -1 and leaves the tree as it was, whatever
    the tree. *)
Theorem del_unknown_fails `{!rb_colour} (it : interval_tree) (node : interval) :
  iv_id node ∉ map iv_id (tree_intervals (it_root it)) →
  interval_tree_del it node = (it, -1).
Proof. apply interval_tree_del_absent. Qed.

(** X4: on a tree reached from the empty tree by adds and deletes,
    [interval_range_query] without a callback returns -1 when the tree is
    empty, and otherwise the number of intervals of the tree with
    [start <= end_] and [end >= start_], which is also the number of
    intervals that the range iterator yields. *)
Theorem query_counts_overlaps `{!rb_colour} (ops : list tree_op) (lo hi : Z) :
  ops_ok interval_tree_create ops →
  let it := run_ops interval_tree_create ops in
  (tree_intervals (it_root it) = [] → interval_range_query it lo hi = -1) ∧
  (tree_intervals (it_root it) ≠ [] →
     interval_range_query it lo hi =
       Z.of_nat (length (List.filter (overlaps lo hi) (tree_intervals (it_root it)))) ∧
     interval_range_query it lo hi = Z.of_nat (length (interval_iter_all it lo hi))).
Proof.
  intros Hok it.
  pose proof (run_ops_wf ops _ wf_create Hok) as Hwf. fold it in Hwf.
  pose proof (interval_range_query_spec lo hi it Hwf) as Hq.
  destruct (interval_iter_all_spec lo hi it Hwf) as [_ Hall].
  split; intros Hl.
  - by rewrite Hl in Hq.
  - rewrite Hall. destruct (tree_intervals (it_root it)); done.
Qed.

(** X5: on a tree reached from the empty tree by adds and deletes, the range
    iterator comes to an end and yields exactly the intervals of the tree
    that overlap the range, each once and in tree order. *)
Theorem iterator_after_deletes `{!rb_colour} (ops : list tree_op) (lo hi : Z) :
  ops_ok interval_tree_create ops →
  let it := run_ops interval_tree_create ops in
  iter_drain (iter_fuel (it_root it) (length (tree_intervals (it_root it))))
             (interval_range_iter it lo hi)
    = Some (List.filter (overlaps lo hi) (tree_intervals (it_root it))) ∧
  NoDup (map iv_id (List.filter (overlaps lo hi) (tree_intervals (it_root it)))).
Proof.
  intros Hok it.
  pose proof (run_ops_wf ops _ wf_create Hok) as Hwf. fold it in Hwf.
  split; [by apply interval_iter_all_spec|]. destruct Hwf as [[_ _ _ Hnd _ _] _].
  eapply NoDup_sub; [exact Hnd|].
  apply sublist_submseteq, (fmap_sublist iv_id), filter_sublist.
Qed.

(** X6: [interval_tree_check] returns 0 or 1, never -1, and it returns 0
    exactly when every node of the tree has the smallest [start] of its
    intervals as [start], the largest [end] of its intervals as [end], and
    the largest of its [end] and its children's [last] as [last]. *)
Theorem check_is_consistency (it : interval_tree) :
  (interval_tree_check it = 0 ∨ interval_tree_check it = 1) ∧
  (interval_tree_check it = 0 ↔ consistent (it_root it) = true).
Proof.
  split; [apply interval_tree_check_flag|]. unfold interval_tree_check.
  destruct (interval_tree_check_consistent (it_root it)) as [H1 H2].
  split; [intros E; exact (proj1 (H1 E))|done].
Qed.

(** X7: every tree reached from the empty tree by adds and deletes passes
    [interval_tree_check]. *)
Theorem check_passes_after_add_del `{!rb_colour} (ops : list tree_op) :
  ops_ok interval_tree_create ops →
  interval_tree_check (run_ops interval_tree_create ops) = 0.
Proof.
  intros Hok. apply interval_tree_check_ok. by apply (run_ops_wf ops _ wf_create).
Qed.

(** * The pairing pass: what it leaves alone *)

(** X8: the pairing pass keeps the number of reads and the record number of
    every read, and a read whose [pair_rec] it changes gets a negative
    one. *)
Theorem pairing_keeps_records (rng : list rangec) :
  map r_rec (pair_up rng) = map r_rec rng ∧
  ∀ k r r', rng !! k = Some r → pair_up rng !! k = Some r' →
            r' = r ∨ r_pair_rec r' < 0.
Proof.
  apply pair_pass_frame; [by intros ?? ?%lookup_empty_Some|done|].
  intros k r r' H1 H2. left. congruence.
Qed.

(** X9: when no read has the record number of an earlier read as its
    [pair_rec], the pairing pass changes nothing. *)
Theorem pairing_without_mates (rng : list rangec) :
  (∀ j k rj rk, (k < j)%nat → rng !! j = Some rj → rng !! k = Some rk →
     r_pair_rec rj ≠ r_rec rk) →
  pair_up rng = rng.
Proof.
  intros Hno. apply pair_pass_idle; [done| |done]. by intros ?? ?%lookup_empty_Some.
Qed.

Ltac ops_ok_run :=
  vm_compute;
  repeat split; try discriminate;
    first [ left; repeat constructor; fail
          | right; intros Hin;
            repeat (apply elem_of_cons in Hin as [Hin|Hin]; [discriminate|]);
            by apply elem_of_nil in Hin ].

Lemma add_stores_one_more_witness :
  ops_ok (H:=rb_rotate_up) interval_tree_create
    [OP_ADD 0 10 0; OP_ADD 5 15 1; OP_DEL (mk_interval 1 0 10 0)] ∧
  (interval_tree_add (H:=rb_rotate_up)
     (run_ops (H:=rb_rotate_up) interval_tree_create
        [OP_ADD 0 10 0; OP_ADD 5 15 1; OP_DEL (mk_interval 1 0 10 0)]) 5 9 2).2 = 0.
Proof.
  assert (ops_ok (H:=rb_rotate_up) interval_tree_create
    [OP_ADD 0 10 0; OP_ADD 5 15 1; OP_DEL (mk_interval 1 0 10 0)]) as Hok by ops_ok_run.
  split; [exact Hok|].
  refine (proj1 (@add_stores_one_more rb_rotate_up _ 5 9 2%nat Hok _ _));
    unfold coord_range; lia.
Defined.

Lemma del_takes_one_out_witness :
  ops_ok (H:=rb_rotate_up) interval_tree_create
    [OP_ADD 0 10 0; OP_ADD 5 15 1; OP_ADD 5 9 2] ∧
  (interval_tree_del (H:=rb_rotate_up)
     (run_ops (H:=rb_rotate_up) interval_tree_create
        [OP_ADD 0 10 0; OP_ADD 5 15 1; OP_ADD 5 9 2]) (mk_interval 3 5 15 1)).2 = 0.
Proof.
  assert (ops_ok (H:=rb_rotate_up) interval_tree_create
    [OP_ADD 0 10 0; OP_ADD 5 15 1; OP_ADD 5 9 2]) as Hok by ops_ok_run.
  split; [exact Hok|].
  refine (proj1 (@del_takes_one_out rb_rotate_up _ (mk_interval 3 5 15 1) Hok _)).
  vm_compute. repeat constructor.
Defined.

Lemma del_unknown_fails_witness :
  interval_tree_del (H:=rb_rotate_up)
    (add_seq (H:=rb_rotate_up) interval_tree_create [(0, 10, 0%nat); (5, 15, 1%nat)])
    (mk_interval 77 5 15 1) =
  (add_seq (H:=rb_rotate_up) interval_tree_create [(0, 10, 0%nat); (5, 15, 1%nat)], -1).
Proof.
  apply (@del_unknown_fails rb_rotate_up). vm_compute. intros Hin.
  repeat (apply elem_of_cons in Hin as [Hin|Hin]; [discriminate|]).
  by apply elem_of_nil in Hin.
Defined.

Lemma query_counts_overlaps_witness :
  ops_ok (H:=rb_rotate_up) interval_tree_create
    [OP_ADD 0 10 0; OP_ADD 5 15 1; OP_ADD 20 25 2; OP_DEL (mk_interval 1 0 10 0)] ∧
  interval_range_query
    (run_ops (H:=rb_rotate_up) interval_tree_create
       [OP_ADD 0 10 0; OP_ADD 5 15 1; OP_ADD 20 25 2; OP_DEL (mk_interval 1 0 10 0)]) 7 8 = 1.
Proof.
  assert (ops_ok (H:=rb_rotate_up) interval_tree_create
    [OP_ADD 0 10 0; OP_ADD 5 15 1; OP_ADD 20 25 2; OP_DEL (mk_interval 1 0 10 0)])
    as Hok by ops_ok_run.
  split; [exact Hok|].
  destruct (@query_counts_overlaps rb_rotate_up _ 7 8 Hok) as [_ Hq].
  destruct Hq as [Hq _]; [by vm_compute|]. rewrite Hq. by vm_compute.
Defined.

Lemma iterator_after_deletes_witness :
  ops_ok (H:=rb_rotate_up) interval_tree_create
    [OP_ADD 0 10 0; OP_ADD 5 15 1; OP_ADD 20 25 2; OP_DEL (mk_interval 1 0 10 0)] ∧
  NoDup (map iv_id (List.filter (overlaps 7 8) (tree_intervals (it_root
    (run_ops (H:=rb_rotate_up) interval_tree_create
       [OP_ADD 0 10 0; OP_ADD 5 15 1; OP_ADD 20 25 2; OP_DEL (mk_interval 1 0 10 0)]))))).
Proof.
  assert (ops_ok (H:=rb_rotate_up) interval_tree_create
    [OP_ADD 0 10 0; OP_ADD 5 15 1; OP_ADD 20 25 2; OP_DEL (mk_interval 1 0 10 0)])
    as Hok by ops_ok_run.
  split; [exact Hok|]. exact (proj2 (@iterator_after_deletes rb_rotate_up _ 7 8 Hok)).
Defined.

Lemma check_passes_after_add_del_witness :
  ops_ok (H:=rb_rotate_up) interval_tree_create
    [OP_ADD 0 10 0; OP_ADD 5 15 1; OP_DEL (mk_interval 1 0 10 0); OP_ADD 5 9 2] ∧
  interval_tree_check
    (run_ops (H:=rb_rotate_up) interval_tree_create
       [OP_ADD 0 10 0; OP_ADD 5 15 1; OP_DEL (mk_interval 1 0 10 0); OP_ADD 5 9 2]) = 0.
Proof.
  assert (ops_ok (H:=rb_rotate_up) interval_tree_create
    [OP_ADD 0 10 0; OP_ADD 5 15 1; OP_DEL (mk_interval 1 0 10 0); OP_ADD 5 9 2])
    as Hok by ops_ok_run.
  split; [exact Hok|]. exact (@check_passes_after_add_del rb_rotate_up _ Hok).
Defined.

Lemma pairing_without_mates_witness :
  pair_up [mk_range 5 0; mk_range 6 0; mk_range 7 9] =
    [mk_range 5 0; mk_range 6 0; mk_range 7 9].
Proof.
  apply pairing_without_mates. intros j k rj rk Hlt Hj Hk.
  destruct j as [|[|[|j]]]; try done; destruct k as [|[|[|k]]]; try lia;
    simpl in Hj, Hk; injection Hj as <-; injection Hk as <-; simpl; lia.
Defined.

(** * Haplotype strings: the index that the read loop builds *)

(** X11: [haplotype_str_add] calls with fragments of printable characters
    all return.  In an index built by calls that have returned, every
    interval of the tree has a string over the same range with one
    character and one depth for each SNP of the range, [nseq > 0] and a
    record array; no two intervals share a string or a record array; two
    strings over the same range have a base against another; the tree passes
    [interval_tree_check]. *)
Theorem index_after_adds `{!rb_colour} (l : list fragment) :
  Forall frag_ok l →
  (Forall frag_printable l →
   ∃ st, add_strs (interval_tree_create, empty_heap) l = inr st) ∧
  ∀ st, add_strs (interval_tree_create, empty_heap) l = inr st →
    let L := tree_intervals (it_root st.1) in
    interval_tree_check st.1 = 0 ∧ hp_fault st.2 = false ∧
    Forall (str_ok st.2) L ∧ NoDup (map iv_data L) ∧ NoDup (map (recs_of st.2) L) ∧
    ∀ iv1 iv2, iv1 ∈ L → iv2 ∈ L → iv1 ≠ iv2 →
      iv_start iv1 = iv_start iv2 → iv_end iv1 = iv_end iv2 →
      conflict (get_str st.2 (iv_data iv1)) (get_str st.2 (iv_data iv2)).
Proof.
  intros Hl. split; [by apply add_strs_returns|]. intros st E L.
  destruct (add_strs_spec l _ _ st index_ok_empty Hl E) as (Hok & _).
  destruct Hok as (Hwf & (Hstr & Hnd & Hndr & Hf) & _ & _ & Hc).
  split_and!; try done. by apply interval_tree_check_ok.
Qed.

(** X12: in an index built by [haplotype_str_add] calls that have returned,
    the [nseq] of the strings add up to the number of calls, and the record
    arrays hold the record numbers of the calls that are not zero, each as
    often as it was given. *)
Theorem adds_count_every_read `{!rb_colour} (l : list fragment)
    (st : interval_tree * hap_heap) :
  Forall frag_ok l → add_strs (interval_tree_create, empty_heap) l = inr st →
  nseq_sum (tree_intervals (it_root st.1)) st.2 = Z.of_nat (length l) ∧
  recs_all (tree_intervals (it_root st.1)) st.2 ≡ₚ concat (map frag_recs l).
Proof.
  intros Hl E.
  destruct (add_strs_spec l _ _ st index_ok_empty Hl E) as (_ & Hn & Hr).
  split; [by rewrite Hn|by rewrite Hr].
Qed.

(** * Clustering: one merge *)

(** X14: "Merge hs2 into hs" for two different strings with their own record
    arrays whose ranges overlap and for which the mismatch loop finds
    nothing: the string [hs] then spans both ranges, has every base of both
    strings at its position, and [nseq] and the records of both; [hs2] is
    left with [nseq = 0], no [snps], [end = start - 1] and no record array,
    and its array is destroyed; [count] is not merged; nothing else is
    changed. *)
Theorem merge_into_anchor (h : hap_heap) (p p2 : nat) (hs hs2 : haplotype_str)
    (b b2 : list ascii) (a a2 : nat) (r r2 : list Z) :
  p ≠ p2 → a ≠ a2 →
  hp_str h !! p = Some hs → hp_str h !! p2 = Some hs2 →
  hs_snps hs = Some b → hs_snps hs2 = Some b2 →
  hs_recs hs = Some a → hs_recs hs2 = Some a2 →
  hp_arr h !! a = Some r → hp_arr h !! a2 = Some r2 →
  hs_end hs - hs_start hs + 1 <= Z.of_nat (length b) →
  hs_end hs2 - hs_start hs2 + 1 <= Z.of_nat (length b2) →
  Z.max (hs_start hs) (hs_start hs2) <= Z.min (hs_end hs) (hs_end hs2) →
  cluster_mismatch
    (Z.to_nat (Z.min (hs_end hs) (hs_end hs2) - Z.max (hs_start hs) (hs_start hs2) + 1))
    hs hs2 (Z.max (hs_start hs) (hs_start hs2)) = false →
  ∃ g,
    cluster_merge h p p2 =
      mk_heap (<[p2 := mk_hs None (hs_count hs2) 0 (hs_start hs2) (hs_start hs2 - 1) None]>
                 (<[p := g]> (hp_str h)))
              (delete a2 (<[a := r ++ r2]> (hp_arr h))) (hp_fault h) ∧
    hs_start g = Z.min (hs_start hs) (hs_start hs2) ∧
    hs_end g = Z.max (hs_end hs) (hs_end hs2) ∧
    hs_nseq g = hs_nseq hs + hs_nseq hs2 ∧
    hs_count g = hs_count hs ∧ hs_recs g = Some a ∧
    (∃ bg, hs_snps g = Some bg ∧ hs_end g - hs_start g + 1 <= Z.of_nat (length bg)) ∧
    covers g hs ∧ covers g hs2.
Proof.
  intros Hp Ha Hhs Hhs2 Hb Hb2 Hr Hr2 Harr Harr2 Hlb Hlb2 Hov Hmm.
  eexists. split; [by apply (cluster_merge_heap h p p2 hs hs2 a a2 r r2)|].
  cbn [hs_start hs_end hs_nseq hs_count hs_recs hs_snps].
  destruct (merge_snps_spec hs hs2 b b2 Hb Hb2 Hlb Hlb2 Hov) with
    (cnt := hs_count hs) (nseq := hs_nseq hs + hs_nseq hs2) (recs := Some a)
    as (Hl & Hc1 & Hc2).
  { intros i Hi. apply (cluster_mismatch_spec _ _ _ _ Hmm). lia. }
  split_and!; try done. eexists. split; [done|]. exact Hl.
Qed.

(** X15: the [again:] loop of an anchor with [n] nodes behind it in the list
    is left by its own test, no node having been recruited in a pass, after
    [n + 1] passes at most: with [n + 1] passes allowed, or more, it is not
    cut short, and the result is the same however many are allowed.  The
    list that is left is a sublist of the list it started with. *)
Theorem recruiting_ends (fuel : nat) (h : hap_heap) (p : nat) (ivstart ivend : Z)
    (rest : list interval) :
  (length rest < fuel)%nat →
  (cluster_recruit fuel h p ivstart ivend rest).2 = true ∧
  cluster_recruit fuel h p ivstart ivend rest =
    cluster_recruit (S (length rest)) h p ivstart ivend rest ∧
  (cluster_recruit fuel h p ivstart ivend rest).1.2 `sublist_of` rest.
Proof.
  intros Hf. split_and!;
    [by apply cluster_recruit_ends|by apply cluster_recruit_fuel|apply cluster_recruit_shape].
Qed.

(** X16: [haplotype_str_cluster] writes to no [count] array: every string
    has the [count] it had, also a string that has taken the bases and the
    range of others. *)
Theorem cluster_leaves_count `{!block_sort} (it : interval_tree) (h : hap_heap) (q : nat) :
  hs_count (get_str (haplotype_str_cluster it h) q) = hs_count (get_str h q).
Proof. apply cluster_blocks_count. Qed.

Lemma index_after_adds_witness :
  Forall frag_ok three_fragments ∧
  @add_strs rb_rotate_up (interval_tree_create, empty_heap) three_fragments = inr three_st ∧
  interval_tree_check three_st.1 = 0 ∧ hp_fault three_st.2 = false.
Proof.
  split; [exact three_fragments_ok|]. split; [exact three_st_run|].
  destruct (proj2 (@index_after_adds rb_rotate_up _ three_fragments_ok) _ three_st_run)
    as (H1 & H2 & _).
  by split.
Defined.

Lemma adds_count_every_read_witness :
  Forall frag_ok three_fragments ∧
  @add_strs rb_rotate_up (interval_tree_create, empty_heap) three_fragments = inr three_st ∧
  nseq_sum (tree_intervals (it_root three_st.1)) three_st.2 = 3.
Proof.
  split; [exact three_fragments_ok|]. split; [exact three_st_run|].
  exact (proj1 (@adds_count_every_read rb_rotate_up _ _ three_fragments_ok three_st_run)).
Defined.

Lemma merge_into_anchor_witness :
  hp_fault
    (cluster_merge
       (mk_heap (<[1%nat := mk_hs (Some ["A"; "C"; "-"]%char) [1; 1; 0] 1 0 2 (Some 4%nat)]>
                   (<[2%nat := mk_hs (Some ["C"; "G"]%char) [1; 1] 1 1 2 (Some 5%nat)]> ∅))
                (<[4%nat := [7]]> (<[5%nat := [8]]> ∅)) false) 1 2) = false.
Proof.
  destruct (merge_into_anchor
    (mk_heap (<[1%nat := mk_hs (Some ["A"; "C"; "-"]%char) [1; 1; 0] 1 0 2 (Some 4%nat)]>
                (<[2%nat := mk_hs (Some ["C"; "G"]%char) [1; 1] 1 1 2 (Some 5%nat)]> ∅))
             (<[4%nat := [7]]> (<[5%nat := [8]]> ∅)) false) 1 2
    (mk_hs (Some ["A"; "C"; "-"]%char) [1; 1; 0] 1 0 2 (Some 4%nat))
    (mk_hs (Some ["C"; "G"]%char) [1; 1] 1 1 2 (Some 5%nat))
    ["A"; "C"; "-"]%char ["C"; "G"]%char 4 5 [7] [8]) as (g & E & _);
    [done|done|by vm_compute|by vm_compute|done|done|done|done|by vm_compute|by vm_compute
    |simpl; lia|simpl; lia|simpl; lia|by vm_compute|].
  by rewrite E.
Defined.

Lemma recruiting_ends_witness :
  (length [mk_interval 6 1 2 5; mk_interval 10 0 1 9] < 7)%nat ∧
  cluster_recruit 7 three_st.2 1 0 1 [mk_interval 6 1 2 5; mk_interval 10 0 1 9] =
  ((cluster_recruit 2 three_st.2 1 0 1 [mk_interval 6 1 2 5; mk_interval 10 0 1 9]).1.1,
   [mk_interval 10 0 1 9], true).
Proof.
  assert (length [mk_interval 6 1 2 5; mk_interval 10 0 1 9] < 7)%nat as Hf by (simpl; lia).
  split; [exact Hf|].
  destruct (recruiting_ends 7 three_st.2 1 0 1 [mk_interval 6 1 2 5; mk_interval 10 0 1 9] Hf)
    as (_ & -> & _).
  by vm_compute.
Defined.

(** * Clustering the index, and what follows it *)

(** X17: after [haplotype_str_cluster] on an index built by
    [haplotype_str_add] calls that have returned, every string of the tree
    is either merged away ([nseq = 0], no [snps], no record array, [start]
    that of its interval and [end = start - 1]) or a group ([nseq > 0], a
    [snps] buffer as long as its range, a range that includes that of its
    interval, and the record array it had, still allocated); each has the
    [count] it had, one depth for each SNP of its interval.  The [nseq]
    still add up to the number of calls, the record arrays still hold the
    records of the calls, and nothing has faulted. *)
Theorem cluster_groups_and_tombstones `{!rb_colour} `{!block_sort} (l : list fragment)
    (st : interval_tree * hap_heap) :
  Forall frag_ok l → add_strs (interval_tree_create, empty_heap) l = inr st →
  let L := tree_intervals (it_root st.1) in
  let h := haplotype_str_cluster st.1 st.2 in
  hp_fault h = false ∧
  nseq_sum L h = Z.of_nat (length l) ∧ recs_all L h ≡ₚ concat (map frag_recs l) ∧
  ∀ iv, iv ∈ L →
    ∃ hs, hp_str h !! iv_data iv = Some hs ∧
      hs_count hs = hs_count (get_str st.2 (iv_data iv)) ∧
      Z.of_nat (length (hs_count hs)) = iv_end iv - iv_start iv + 1 ∧
      ((hs_nseq hs = 0 ∧ hs_snps hs = None ∧ hs_recs hs = None ∧
        hs_start hs = iv_start iv ∧ hs_end hs = hs_start hs - 1)
       ∨
       (0 < hs_nseq hs ∧ hs_start hs <= iv_start iv ∧ iv_end iv <= hs_end hs ∧
        ∃ b a r, hs_snps hs = Some b ∧
          hs_end hs - hs_start hs + 1 <= Z.of_nat (length b) ∧
          hs_recs hs = Some a ∧ hs_recs (get_str st.2 (iv_data iv)) = Some a ∧
          hp_arr h !! a = Some r)).
Proof.
  intros Hl E L h.
  destruct (add_strs_spec l _ _ st index_ok_empty Hl E) as (Hok & Hn & Hr).
  fold L in Hn, Hr.
  destruct (haplotype_str_cluster_spec st.1 st.2 Hok) as ((Hfl & Hst) & _ & Hn' & Hr' & _).
  fold h L in Hfl, Hst, Hn', Hr'.
  destruct Hok as (_ & (Hstr & _ & _ & Hfl0) & _). fold L in Hstr.
  rewrite Forall_forall in Hstr.
  split_and!; [congruence|by rewrite Hn', Hn|by rewrite Hr', Hr|].
  intros iv Hin.
  destruct (str_ok_get _ _ (Hstr iv Hin))
    as (hs0 & b0 & a0 & _ & Hg0 & _ & _ & _ & _ & _ & Hlc & _).
  pose proof (cluster_blocks_count (interval_iter_all st.1 INT_MIN INT_MAX) st.2 INT_MIN [] []
                (iv_data iv)) as Hcount.
  change (cluster_blocks st.2 INT_MIN [] [] (interval_iter_all st.1 INT_MIN INT_MAX)).1
    with h in Hcount.
  destruct (Hst iv Hin)
    as [[(hs & Hhs & Hsn & Hns & Hs & He & Hre) _]
       |(hs & b & a & r & Hhs & Hb & Hs & He & Hlb & Hns & Hra & Hre & Harr & _)];
    exists hs; (split; [done|]);
    assert (get_str h (iv_data iv) = hs) as Hg by (unfold get_str; by rewrite Hhs);
    rewrite Hg in Hcount; (split; [done|]); (split; [by rewrite Hcount, Hg0|]).
  - left. by split_and!.
  - right. split_and!; try done. exists b, a, r. by split_and!.
Qed.

(** X21: the tail of [find_haplotypes_single] (cluster, filter, record
    lists, destroy) on an index built by [haplotype_str_add] calls that have
    returned frees every string, once; frees or hands out every record
    array, once: the arrays left allocated are those of the record list,
    which has no NULL and no array twice; and nothing faults.  The records
    handed out are records of the calls, each at most as often as it was
    given, and with [min_count <= 1] they are all of them. *)
Theorem tail_frees_and_hands_out `{!rb_colour} `{!block_sort} (l : list fragment)
    (st : interval_tree * hap_heap) (min_count : Z) :
  Forall frag_ok l → add_strs (interval_tree_create, empty_heap) l = inr st →
  let f := haplotype_str_filter st.1 (haplotype_str_cluster st.1 st.2) min_count in
  let r := haplotype_str_reclist f.1 f.2 [] in
  let h := interval_tree_destroy f.1 haplotype_str_free r.1 in
  hp_fault h = false ∧ hp_str h = ∅ ∧ NoDup r.2 ∧ (None ∉ r.2) ∧
  (∀ a, Some a ∈ r.2 ↔ is_Some (hp_arr h !! a)) ∧
  concat (map (array_get h) r.2) ⊆+ concat (map frag_recs l) ∧
  (min_count <= 1 → concat (map (array_get h) r.2) ≡ₚ concat (map frag_recs l)).
Proof.
  intros Hl E f r h.
  destruct (add_strs_spec l _ _ st index_ok_empty Hl E) as (Hok & _ & Hr).
  pose proof (add_strs_tight l _ _ st index_ok_empty index_tight_empty Hl E) as Ht.
  destruct (pipeline_spec st.1 st.2 min_count Hok Ht)
    as (Hfl & Hs & Hnd & Hno & Hin & Hsub & Hall).
  fold f r h in Hfl, Hs, Hnd, Hno, Hin, Hsub, Hall. simpl in Hr.
  split_and!; try done.
  - by rewrite <- Hr.
  - intros Hmin. by rewrite <- Hr, Hall.
Qed.

Lemma cluster_groups_and_tombstones_witness :
  Forall frag_ok three_fragments ∧
  @add_strs rb_rotate_up (interval_tree_create, empty_heap) three_fragments = inr three_st ∧
  nseq_sum (tree_intervals (it_root three_st.1)) three_clustered = 3.
Proof.
  split; [exact three_fragments_ok|]. split; [exact three_st_run|].
  exact (proj1 (proj2 (@cluster_groups_and_tombstones rb_rotate_up qsort_stable _ _
                         three_fragments_ok three_st_run))).
Defined.

Lemma tail_frees_and_hands_out_witness :
  Forall frag_ok three_fragments ∧
  @add_strs rb_rotate_up (interval_tree_create, empty_heap) three_fragments = inr three_st ∧
  hp_str
    (interval_tree_destroy
       (three_filtered 2).1
       haplotype_str_free
       (haplotype_str_reclist (three_filtered 2).1 (three_filtered 2).2 []).1) = ∅.
Proof.
  split; [exact three_fragments_ok|]. split; [exact three_st_run|].
  exact (proj1 (proj2 (@tail_frees_and_hands_out rb_rotate_up qsort_stable _ _ 2
                         three_fragments_ok three_st_run))).
Defined.

(** * The comparator of the block sort *)

(** X23: on strings whose [sqrt(length) * nseq], worked out in [double]
    and converted to [int], is not negative, and whose ranges are ranges
    of the tree, no subtraction of [ivp_sort] overflows, and [ivp_sort] is
    a comparator as [qsort] wants one: swapping the arguments negates the
    result, and "not after" is transitive.  It puts a string before another
    when its [sqrt(length) * nseq] is larger, or the same with a smaller
    [start], or both the same with a smaller [end]. *)
Theorem ivp_sort_is_an_order (h : hap_heap) (a b c : interval) :
  let sa := get_str h (iv_data a) in
  let sb := get_str h (iv_data b) in
  let sc := get_str h (iv_data c) in
  ivp_plain sa → ivp_plain sb → ivp_plain sc →
  ivp_sort h a b = - ivp_sort h b a ∧
  (ivp_sort h a b <= 0 → ivp_sort h b c <= 0 → ivp_sort h a c <= 0) ∧
  (ivp_sort h a b < 0 ↔
     ivp_priority sb < ivp_priority sa ∨
     (ivp_priority sa = ivp_priority sb ∧
      (hs_start sa < hs_start sb ∨ (hs_start sa = hs_start sb ∧ hs_end sa < hs_end sb)))).
Proof.
  intros sa sb sc Ha Hb Hc.
  rewrite (ivp_sort_plain h a b), (ivp_sort_plain h b a), (ivp_sort_plain h b c),
    (ivp_sort_plain h a c) by done.
  cbv zeta. fold sa sb sc.
  generalize (ivp_priority sa) (ivp_priority sb) (ivp_priority sc).
  intros na nb nc.
  repeat match goal with
         | |- context [?x =? 0] => destruct (Z.eqb_spec x 0)
         end; cbn [negb]; lia.
Qed.

Lemma ivp_sort_is_an_order_witness :
  let h := mk_heap (<[1%nat := mk_hs (Some ["A"; "C"; "G"]%char) [1; 1; 1] 2 0 2 None]>
                      (<[2%nat := mk_hs (Some ["A"; "C"]%char) [1; 1] 3 0 1 None]>
                         (<[3%nat := mk_hs (Some ["A"; "C"]%char) [1; 1] 3 1 2 None]> ∅)))
                   ∅ false in
  ivp_plain (get_str h 1) ∧ ivp_plain (get_str h 2) ∧ ivp_plain (get_str h 3) ∧
  ivp_priority (get_str h 1) = 3 ∧ ivp_priority (get_str h 2) = 4 ∧
  ivp_sort h (mk_interval 10 0 2 1) (mk_interval 11 0 1 2) =
    - ivp_sort h (mk_interval 11 0 1 2) (mk_interval 10 0 2 1).
Proof.
  intros h.
  assert (ivp_plain (get_str h 1)) as H1.
  { split; [by vm_compute|]. split; vm_compute; split; by try discriminate. }
  assert (ivp_plain (get_str h 2)) as H2.
  { split; [by vm_compute|]. split; vm_compute; split; by try discriminate. }
  assert (ivp_plain (get_str h 3)) as H3.
  { split; [by vm_compute|]. split; vm_compute; split; by try discriminate. }
  split; [exact H1|]. split; [exact H2|]. split; [exact H3|].
  split; [by vm_compute|]. split; [by vm_compute|].
  exact (proj1 (ivp_sort_is_an_order h (mk_interval 10 0 2 1) (mk_interval 11 0 1 2)
                  (mk_interval 12 1 2 3) H1 H2 H3)).
Defined.

(** * find_haplotypes_single: the reads, and the function as a whole *)

(** X24: take a run of the read loop in which no [assert] on a base of a
    read fails and no index into [s->seq] or [rng] is out of range,
    whatever the reads are.  Every call of [haplotype_str_add] in it has
    [0 <= start <= end < nsnps] and a string with one character for each
    site from [start] to [end]; so [hstr], of [nsnps + 1] bytes, is never
    overrun.  The loop makes these calls one after the other on the index it
    started with, as far as they return: it ends with the index that they
    build, or stops where the first of them stops. *)
Theorem read_loop_calls_fit `{!rb_colour} (io : gap_input) (start end_ : Z) (pairs : bool)
    (st : interval_tree * hap_heap) (calls : list fragment) :
  let rng := pair_reads (contig_seqs_in_range io) in
  let sites := haplotype_sites io start end_ in
  read_loop trace io pairs (length rng) 0 rng sites 0 [] = inr calls →
  Forall (in_sites (Z.of_nat (length sites))) calls ∧
  read_loop add_fragment io pairs (length rng) 0 rng sites 0 st = add_strs st calls.
Proof.
  intros rng sites E. split.
  - eapply read_loop_calls; [| | |exact E]; [lia|lia|done].
  - destruct (read_loop_trace io pairs _ _ _ _ _ _ _ st E) as (new & Enew & ->).
    simpl in Enew. by subst new.
Qed.

(** X25: on reads that do not span more of the contig than their sequence
    is long, with clip points inside the sequence, printable bases, and no
    negative [pair_rec] before the pairing pass, the read loop comes to its
    end: no [assert] fails, and no index into [s->seq] or [rng] is out of
    range. *)
Theorem read_loop_never_faults (io : gap_input) (start end_ : Z) (pairs : bool) :
  input_ok io →
  ∃ calls,
    read_loop trace io pairs (length (pair_reads (contig_seqs_in_range io))) 0
      (pair_reads (contig_seqs_in_range io)) (haplotype_sites io start end_) 0 [] =
    inr calls.
Proof.
  intros Hin. destruct (read_loop_run io start end_ pairs Hin) as (calls & E & _).
  by exists calls.
Qed.

(** X26: [find_haplotypes_single] on such reads, for a region of less than
    2^30 positions: it returns; every string of the index is freed, once;
    the record arrays left allocated are those of the record list, which has
    no NULL and no array twice; nothing faults.  The records in the list are
    records of the calls that the read loop made, each at most as often as
    it was given, and with [min_count <= 1] all of them. *)
Theorem find_haplotypes_single_spec `{!rb_colour} `{!block_sort} (io : gap_input)
    (start end_ min_count : Z) (pairs : bool) :
  input_ok io → end_ - start < 1073741824 →
  ∃ calls h out,
    read_loop trace io pairs (length (pair_reads (contig_seqs_in_range io))) 0
      (pair_reads (contig_seqs_in_range io)) (haplotype_sites io start end_) 0 [] =
      inr calls ∧
    find_haplotypes_single io start end_ min_count pairs [] = inr (h, out) ∧
    hp_fault h = false ∧ hp_str h = ∅ ∧ NoDup out ∧ (None ∉ out) ∧
    (∀ a, Some a ∈ out ↔ is_Some (hp_arr h !! a)) ∧
    concat (map (array_get h) out) ⊆+ concat (map frag_recs calls) ∧
    (min_count <= 1 → concat (map (array_get h) out) ≡ₚ concat (map frag_recs calls)).
Proof. apply find_haplotypes_single_run. Qed.

Lemma read_loop_calls_fit_witness :
  read_loop trace example_io true 2 0 (pair_reads (contig_seqs_in_range example_io))
    (haplotype_sites example_io 0 9) 0 [] =
    inr [(["C"; "A"]%char, 0, 1, 10, 11)] ∧
  Forall (in_sites 2) [(["C"; "A"]%char, 0, 1, 10, 11)].
Proof.
  assert (read_loop trace example_io true 2 0 (pair_reads (contig_seqs_in_range example_io))
            (haplotype_sites example_io 0 9) 0 [] =
          inr [(["C"; "A"]%char, 0, 1, 10, 11)]) as E by (by vm_compute).
  split; [exact E|].
  exact (proj1 (@read_loop_calls_fit rb_rotate_up example_io 0 9 true
                  (interval_tree_create, empty_heap) _ E)).
Defined.

Lemma example_input_ok : input_ok example_io.
Proof.
  unfold input_ok, example_io. cbn [contig_seqs_in_range].
  repeat constructor; unfold read_ok, seq_ok; cbn; try lia;
    repeat constructor; lia.
Qed.

Lemma read_loop_never_faults_witness :
  input_ok example_io ∧
  ∃ calls,
    read_loop trace example_io true (length (pair_reads (contig_seqs_in_range example_io))) 0
      (pair_reads (contig_seqs_in_range example_io)) (haplotype_sites example_io 0 9) 0 [] =
    inr calls.
Proof.
  split; [exact example_input_ok|].
  exact (read_loop_never_faults example_io 0 9 true example_input_ok).
Defined.

Lemma find_haplotypes_single_spec_witness :
  input_ok example_io ∧ 9 - 0 < 1073741824 ∧
  ∃ h out,
    @find_haplotypes_single rb_rotate_up qsort_stable example_io 0 9 1 true [] =
      inr (h, out) ∧ hp_str h = ∅.
Proof.
  split; [exact example_input_ok|]. split; [lia|].
  destruct (@find_haplotypes_single_spec rb_rotate_up qsort_stable example_io 0 9 1 true
              example_input_ok ltac:(lia))
    as (calls & h & out & _ & E & _ & Hs & _).
  by exists h, out.
Defined.

(** * The list of sites *)

(** X27: after [add_haplotype_pos] calls with the positions [ps] on the
    empty list, the walk from [*phead] along [next] meets nodes with the
    positions [ps] in the order of the calls and then a NULL pointer, and
    the walk from [*ptail] along [prev] meets them in the reverse order and
    then a NULL pointer: given [length ps] steps or more, each walk comes
    to NULL after these nodes, and it meets no pointer that leads to no
    node.  With no call both pointers are NULL.  No call uses a NULL
    pointer. *)
Theorem add_haplotype_pos_appends (ps : list Z) (more : nat) :
  let st := fold_left pos_apply (map POS_ADD ps) pos_list_empty in
  map snd <$> follow_next (length ps + more) (pl_heap st) (pl_head st) = Some ps ∧
  map snd <$> follow_prev (length ps + more) (pl_heap st) (pl_tail st) = Some (rev ps) ∧
  (ps = [] → pl_head st = None ∧ pl_tail st = None) ∧
  pl_fault st = false.
Proof.
  intros st. destruct (seq_adds ps ([], 1%nat)) as [Hok Hps]. simpl in Hps.
  pose proof (pos_run_spec (map POS_ADD ps) pos_list_empty ([], 1%nat) dll_empty eq_refl Hok)
    as Hd. fold st in Hd.
  assert (length (fold_left seq_apply (map POS_ADD ps) ([], 1%nat)).1 = length ps) as Hlen.
  { rewrite <- Hps at 2. by rewrite length_map. }
  destruct (dll_walks _ _ (length ps + more) Hd) as [Hn Hp]; [lia|].
  rewrite Hn, Hp. simpl. rewrite map_rev, Hps. split_and!; try done; [|apply Hd].
  intros ->. exact (dll_ends _ _ Hd).
Qed.

(** X28: after any run of [add_haplotype_pos] and [del_haplotype_pos] calls
    on the empty list in which each node deleted is in the list, the walk
    from [*phead] along [next] meets the nodes added and not deleted, in
    the order in which they were added, and then a NULL pointer; the walk
    from [*ptail] along [prev] meets the same nodes in the reverse order and
    then a NULL pointer: given as many steps as there are nodes, or more,
    each walk comes to NULL after these nodes, and it meets no pointer that
    leads to no node.  Exactly these nodes are allocated, and no call uses
    a pointer that is NULL or freed. *)
Theorem haplotype_pos_list_is_the_sequence (ops : list pos_op) (more : nat) :
  pos_ops_ok ([], 1%nat) ops →
  let st := fold_left pos_apply ops pos_list_empty in
  let l := (fold_left seq_apply ops ([], 1%nat)).1 in
  follow_next (length l + more) (pl_heap st) (pl_head st) = Some l ∧
  follow_prev (length l + more) (pl_heap st) (pl_tail st) = Some (rev l) ∧
  (∀ a, is_Some (pl_heap st !! a) ↔ a ∈ map fst l) ∧
  pl_fault st = false.
Proof.
  intros Hok st l.
  pose proof (pos_run_spec ops pos_list_empty ([], 1%nat) dll_empty eq_refl Hok) as Hd.
  fold st l in Hd. destruct (dll_walks _ _ (length l + more) Hd) as [Hn Hp]; [lia|].
  split_and!; try done; apply Hd.
Qed.

Lemma haplotype_pos_list_is_the_sequence_witness :
  pos_ops_ok ([], 1%nat) [POS_ADD 5; POS_ADD 7; POS_ADD 9; POS_DEL 2; POS_ADD 11; POS_DEL 1] ∧
  follow_next 9
    (pl_heap (fold_left pos_apply
       [POS_ADD 5; POS_ADD 7; POS_ADD 9; POS_DEL 2; POS_ADD 11; POS_DEL 1] pos_list_empty))
    (pl_head (fold_left pos_apply
       [POS_ADD 5; POS_ADD 7; POS_ADD 9; POS_DEL 2; POS_ADD 11; POS_DEL 1] pos_list_empty)) =
  Some [(3%nat, 9); (4%nat, 11)].
Proof.
  assert (pos_ops_ok ([], 1%nat)
            [POS_ADD 5; POS_ADD 7; POS_ADD 9; POS_DEL 2; POS_ADD 11; POS_DEL 1]) as Hok.
  { simpl. split_and!; try done; apply list_elem_of_In; simpl; tauto. }
  split; [exact Hok|].
  exact (proj1 (haplotype_pos_list_is_the_sequence _ 7 Hok)).
Defined.

(** * find_haplotypes_single: the site loop, and reads counted once *)

(** X29: when the reads of the region have different record numbers, none
    of them 0, and are well formed as for the read loop, no record number
    is in two of the arrays that [find_haplotypes_single] hands out, nor
    twice in one: the pairing pass names as a mate only a later read, and
    the read loop flags a mate it has used, so that each read goes into one
    call of [haplotype_str_add] at most. *)
Theorem no_read_in_two_groups `{!rb_colour} `{!block_sort} (io : gap_input)
    (start end_ min_count : Z) (pairs : bool) :
  input_ok io → recs_distinct io → end_ - start < 1073741824 →
  ∃ h out,
    find_haplotypes_single io start end_ min_count pairs [] = inr (h, out) ∧
    NoDup (concat (map (array_get h) out)).
Proof.
  intros Hin Hdis Hlen.
  destruct (find_haplotypes_single_run io start end_ min_count pairs Hin Hlen)
    as (calls & h & out & E & Hf & _ & _ & _ & _ & _ & Hsub & _).
  exists h, out. split; [done|]. apply (NoDup_sub _ (concat (map frag_recs calls))); [|done].
  eapply (read_loop_once io pairs _ _ 0%nat _ _ 0 []);
    [by apply input_ids_ok|done|constructor| |exact E].
  simpl. by intros x ?%elem_of_nil.
Qed.

Lemma no_read_in_two_groups_witness :
  input_ok example_io ∧ recs_distinct example_io ∧ 9 - 0 < 1073741824 ∧
  ∃ h out,
    @find_haplotypes_single rb_rotate_up qsort_stable example_io 0 9 1 true [] =
      inr (h, out) ∧
    NoDup (concat (map (array_get h) out)).
Proof.
  assert (recs_distinct example_io) as Hdis.
  { split; [|repeat constructor; by vm_compute]. vm_compute.
    repeat constructor; rewrite ?list_elem_of_In; simpl; lia. }
  split; [exact example_input_ok|]. split; [exact Hdis|]. split; [lia|].
  exact (@no_read_in_two_groups rb_rotate_up qsort_stable example_io 0 9 1 true
           example_input_ok Hdis ltac:(lia)).
Defined.

(** X30: the loop over [start .. end] leaves in [nsnps] the number of nodes
    of the list: given [nsnps] steps or more, the walk from [phead] along
    [next] meets [nsnps] nodes and then a NULL pointer, and no pointer that
    leads to no node; the nodes hold the positions of the region that pass
    the test, each once and in ascending order, which is what the read
    loop, going through the list once, relies on; no call uses a NULL
    pointer. *)
Theorem site_list_is_ascending (io : gap_input) (start end_ : Z) (more : nat) :
  let st := site_list io start end_ in
  ∃ nodes,
    follow_next (Z.to_nat st.2 + more) (pl_heap st.1) (pl_head st.1) = Some nodes ∧
    st.2 = Z.of_nat (length nodes) ∧
    map snd nodes = haplotype_sites io start end_ ∧
    StronglySorted Z.lt (map snd nodes) ∧
    (∀ pos, pos ∈ map snd nodes ↔ start <= pos <= end_ ∧ het_site io pos = true) ∧
    pl_fault st.1 = false.
Proof.
  intros st.
  assert (st = (fold_left pos_apply (map POS_ADD (haplotype_sites io start end_))
                  pos_list_empty,
                Z.of_nat (length (haplotype_sites io start end_)))) as Est.
  { unfold st, site_list. by rewrite site_loop_adds. }
  set (ps := haplotype_sites io start end_) in *.
  destruct (seq_adds ps ([], 1%nat)) as [Hok Hps]. simpl in Hps.
  pose proof (pos_run_spec (map POS_ADD ps) pos_list_empty ([], 1%nat) dll_empty eq_refl Hok)
    as Hd.
  assert (length (fold_left seq_apply (map POS_ADD ps) ([], 1%nat)).1 = length ps) as Hlen.
  { rewrite <- Hps at 2. by rewrite length_map. }
  destruct (dll_walks _ _ (length ps + more) Hd) as [Hn _]; [lia|].
  eexists. rewrite Est. cbn [fst snd]. rewrite Nat2Z.id.
  split; [exact Hn|]. rewrite Hps. split_and!.
  - by rewrite Hlen.
  - done.
  - apply haplotype_sites_ascending.
  - apply haplotype_sites_are_sites.
  - apply Hd.
Qed.
